(** * dsa: the unbalanced binary search tree [bstree] and the sorts

    A shallow embedding of [src/bstree.hpp], [src/sorting/blocksort.hpp],
    [src/sorting/insertionsort.hpp] and [src/sorting/shellsort.hpp].

    Nodes live in a heap indexed by addresses; a C++ [node *] is an
    [option addr] ([None] is [nullptr]).  Every member function is a
    computation in a state monad over the heap that can crash (a null or
    dangling dereference, a double free, a failed [assert], an index out of
    the range, the call of a deleter without a target) or run out of fuel (every [while] loop of the source takes a
    fuel argument).

    How the expressions of the source are read:
    - a node pointer compared with an iterator ([parent == this->_begin],
      [this->_end == n]) converts to an iterator through the constructor
      [bstree_iterator (Node *, state = valid)] and the two are compared by
      [operator==] of the iterator, which looks at the states;
    - an iterator assigned a node pointer ([this->_begin = n->parent]) goes
      through [operator= (Node * i)], which keeps the state;
    - [_tree_root == n] compares the pointer the handle owns with [n];
    - the handle [_tree_root] owns a pointer and a deleter: [reset] hands
      the old pointer, when it is not null, to the deleter the handle holds
      at that time; a move of the handle takes the deleter along and a swap
      exchanges the deleters;
    - [pos->value], [pos->left], [pos->right] on an iterator read the node
      under its cursor;
    - keys are values without side effects: constructing, moving and
      destroying one neither throws nor changes another. *)

From stdpp Require Import gmap list sorting.

Local Open Scope Z_scope.

(** ** Outcomes and the state monad *)

Inductive fault : Set :=
  | NullDeref
  | DanglingDeref (a : positive)
  | DoubleFree (a : positive)
  | AssertFailed
  | OutOfBounds (i : nat)
  | BadFunctionCall.

Inductive outcome (A : Type) : Type :=
  | Ret (x : A)
  | Crash (f : fault)
  | OutOfFuel.

Arguments Ret {A} x.
Arguments Crash {A} f.
Arguments OutOfFuel {A}.

Definition M (S A : Type) : Type := S → outcome (A * S).

Definition ret {S A} (x : A) : M S A := λ s, Ret (x, s).
Definition crash {S A} (f : fault) : M S A := λ _, Crash f.
Definition timeout {S A} : M S A := λ _, OutOfFuel.
Definition bind {S A B} (m : M S A) (k : A → M S B) : M S B := λ s,
  match m s with
  | Ret (x, s') => k x s'
  | Crash f => Crash f
  | OutOfFuel => OutOfFuel
  end.

#[global] Instance M_ret {S} : MRet (M S) := λ A, ret.
#[global] Instance M_bind {S} : MBind (M S) := λ A B k m, bind m k.

Definition returns {S A} (o : outcome (A * S)) : Prop := ∃ x, o = Ret x.

(** The value of an outcome, without the final state. *)
Definition result {S A} (o : outcome (A * S)) : outcome A :=
  match o with
  | Ret (x, _) => Ret x
  | Crash f => Crash f
  | OutOfFuel => OutOfFuel
  end.

Abbreviation addr := positive (only parsing).

Module dsa.

(** ** Nodes, the heap, iterators *)

Section bstree.
Context {K : Type}.
(** [_key_comp], the strict weak order of the container. *)
Variable key_comp : K → K → bool.
(** [alloc_traits::propogate_on_container_move_assignment::value]. *)
Variable propogate_on_move_assign : bool.

Record node : Type := Node {
  value : K;
  left : option addr;
  right : option addr;
  parent : option addr
}.

Abbreviation heap := (gmap addr node).
Abbreviation Mh := (M heap).

Definition set_left (l : option addr) (n : node) : node :=
  Node (value n) l (right n) (parent n).
Definition set_right (r : option addr) (n : node) : node :=
  Node (value n) (left n) r (parent n).
Definition set_parent (p : option addr) (n : node) : node :=
  Node (value n) (left n) (right n) p.

(** Reading through a pointer: [p->field]. *)
Definition load (p : option addr) : Mh node := λ h,
  match p with
  | None => Crash NullDeref
  | Some a =>
      match h !! a with
      | Some n => Ret (n, h)
      | None => Crash (DanglingDeref a)
      end
  end.

(** Writing through a pointer: [p->field = x]. *)
Definition modify (p : option addr) (f : node → node) : Mh () := λ h,
  match p with
  | None => Crash NullDeref
  | Some a =>
      match h !! a with
      | Some n => Ret ((), <[a := f n]> h)
      | None => Crash (DanglingDeref a)
      end
  end.

(** [node_create (parent, alloc, args...)]: the allocator hands out an
    address that is not live, the node is built there with null children. *)
Definition node_create (p : option addr) (v : K) : Mh addr := λ h,
  let a := fresh (dom h) in Ret (a, <[a := Node v None None p]> h).

(** [alloc.deallocate (n, 1)]. *)
Definition deallocate (a : addr) : Mh () := λ h,
  match h !! a with
  | Some _ => Ret ((), delete a h)
  | None => Crash (DoubleFree a)
  end.

Inductive state : Set := invalid | valid | after_end.

#[global] Instance state_eq_dec : EqDecision state.
Proof. solve_decision. Defined.

Record bstree_iterator : Type := Iterator {
  _iter : option addr;
  _state : state
}.

(** [bstree_iterator (Node * i, state s = state::valid)], also the implicit
    conversion from a node pointer. *)
Definition iterator_of (i : option addr) : bstree_iterator := Iterator i valid.
(** The default constructor: a singular iterator. *)
Definition iterator_default : bstree_iterator := Iterator None after_end.
(** [operator= (Node * i)]: only the cursor is assigned, the state stays. *)
Definition assign_node (self : bstree_iterator) (i : option addr) : bstree_iterator :=
  Iterator i (_state self).

(** [operator*] *)
Definition deref (self : bstree_iterator) : Mh K :=
  n ← load (_iter self); mret (value n).

(** [while (n->left) n = n->left;] *)
Fixpoint walk_left (fuel : nat) (n : addr) : Mh addr :=
  match fuel with
  | O => timeout
  | S f =>
      nd ← load (Some n);
      match left nd with
      | Some l => walk_left f l
      | None => mret n
      end
  end.

(** [while (n->right) n = n->right;] *)
Fixpoint walk_right (fuel : nat) (n : addr) : Mh addr :=
  match fuel with
  | O => timeout
  | S f =>
      nd ← load (Some n);
      match right nd with
      | Some r => walk_right f r
      | None => mret n
      end
  end.

(** The [while (true)] of [operator++], entered at [it = n->parent] when [n]
    is a right child.  [None]: the root was reached from the right (the
    iterator falls off the end); [Some q]: [q] is the first ancestor entered
    from its left child. *)
Fixpoint incr_ascend (fuel : nat) (it : addr) : Mh (option addr) :=
  match fuel with
  | O => timeout
  | S f =>
      nd ← load (Some it);
      match parent nd with
      | None => mret None
      | Some p =>
          pn ← load (Some p);
          if decide (left pn = Some it) then mret (Some p)
          else incr_ascend f p
      end
  end.

(** [operator++ (void)] *)
Definition incr (fuel : nat) (self : bstree_iterator) : Mh bstree_iterator :=
  match _iter self, _state self with
  | Some n, valid =>
      nd ← load (Some n);
      match right nd with
      | Some r => m ← walk_left fuel r; mret (Iterator (Some m) valid)
      | None =>
          match parent nd with
          | Some p =>
              pn ← load (Some p);
              if decide (Some n = left pn) then mret (Iterator (Some p) valid)
              else
                q ← incr_ascend fuel p;
                match q with
                | Some a => mret (Iterator (Some a) valid)
                | None => mret (Iterator (Some n) after_end)
                end
          | None => mret (Iterator (Some n) after_end)
          end
      end
  | _, _ => mret self
  end.

(** The [while (true)] of [operator--], entered at [it = n->parent] when [n]
    is a left child without a left subtree.  Neither the branch that sets the
    iterator invalid nor the branch that finds the ancestor leaves the loop:
    the source has no [break] there (compare [incr_ascend]) and the first
    two branches leave [it] as it is. *)
Fixpoint decr_ascend (fuel : nat) (it n : addr) (self : bstree_iterator)
    : Mh bstree_iterator :=
  match fuel with
  | O => timeout
  | S f =>
      nd ← load (Some it);
      match parent nd with
      | None => decr_ascend f it n (Iterator None invalid)
      | Some p =>
          pn ← load (Some p);
          if decide (right pn = Some it) then decr_ascend f it p self
          else decr_ascend f p n self
      end
  end.

(** [operator-- (void)] *)
Definition decr (fuel : nat) (self : bstree_iterator) : Mh bstree_iterator :=
  match _iter self, _state self with
  | Some n, valid =>
      nd ← load (Some n);
      match left nd with
      | Some l => m ← walk_right fuel l; mret (Iterator (Some m) valid)
      | None =>
          match parent nd with
          | Some p =>
              pn ← load (Some p);
              if decide (Some n = right pn) then mret (Iterator (Some p) valid)
              else decr_ascend fuel p n self
          | None => mret (Iterator None invalid)
          end
      end
  | Some n, after_end => mret (Iterator (Some n) valid)
  | _, _ => mret self
  end.

(** [operator==] *)
Definition iter_eq (self other : bstree_iterator) : bool :=
  match _state self, _state other with
  | valid, valid => bool_decide (_iter self = _iter other)
  | after_end, after_end => bool_decide (_iter self = _iter other)
  | _, _ => false
  end.

(** [operator!=] *)
Definition iter_neq (self other : bstree_iterator) : bool :=
  negb (iter_eq self other).

(** Field reads through a pointer. *)
Definition get_value (p : option addr) : Mh K := n ← load p; mret (value n).
Definition get_left (p : option addr) : Mh (option addr) := n ← load p; mret (left n).
Definition get_right (p : option addr) : Mh (option addr) := n ← load p; mret (right n).
Definition get_parent (p : option addr) : Mh (option addr) := n ← load p; mret (parent n).

(** ** The container *)

(** [std::size_t] arithmetic wraps around at 2^64. *)
Definition size_t (z : Z) : Z := z mod 2 ^ 64.

(** [tree_deleter], a [std::function <void (node * n)>]: the deleter that the
    handle [_tree_root], a [std::unique_ptr <node, tree_deleter>], holds
    next to the pointer.  The constructors of the tree, [copy_from] and
    [move_from] bind [tree_delete] to a copy of the allocator; a handle that
    is default constructed holds an empty function; the move of a handle
    takes the function out of its source, whose state the language then
    leaves open (with libstdc++ and MSVC it is empty). *)
Inductive tree_deleter : Set :=
  | bound_tree_delete
  | empty_function
  | moved_from_function.

Record bstree : Type := Tree {
  _node_alloc : nat;
  _tree_root : option addr;
  _tree_size : Z;
  _begin : bstree_iterator;
  _end : bstree_iterator;
  _tree_deleter : tree_deleter
}.

Definition with_root (r : option addr) (t : bstree) : bstree :=
  Tree (_node_alloc t) r (_tree_size t) (_begin t) (_end t) (_tree_deleter t).
Definition with_size (n : Z) (t : bstree) : bstree :=
  Tree (_node_alloc t) (_tree_root t) n (_begin t) (_end t) (_tree_deleter t).
Definition with_begin (b : bstree_iterator) (t : bstree) : bstree :=
  Tree (_node_alloc t) (_tree_root t) (_tree_size t) b (_end t) (_tree_deleter t).
Definition with_end (e : bstree_iterator) (t : bstree) : bstree :=
  Tree (_node_alloc t) (_tree_root t) (_tree_size t) (_begin t) e (_tree_deleter t).
Definition with_deleter (d : tree_deleter) (t : bstree) : bstree :=
  Tree (_node_alloc t) (_tree_root t) (_tree_size t) (_begin t) (_end t) d.

(** [tree_delete (n, alloc)], the deleter of [_tree_root]. *)
Fixpoint tree_delete (fuel : nat) (n : option addr) : Mh () :=
  match n with
  | None => mret ()
  | Some a =>
      match fuel with
      | O => timeout
      | S f =>
          nd ← load (Some a);
          match left nd, right nd with
          | Some l, _ => tree_delete f (Some l)
          | None, Some r => tree_delete f (Some r)
          | None, None =>
              let p := parent nd in
              _ ← match p with
                  | Some _ =>
                      pn ← load p;
                      if decide (Some a = left pn) then modify p (set_left None)
                      else if decide (Some a = right pn) then modify p (set_right None)
                      else mret ()
                  | None => mret ()
                  end;
              _ ← deallocate a;
              tree_delete f p
          end
      end
  end.

(** The call [get_deleter () (n)] of the deleter of a handle.  A function
    that is empty throws [std::bad_function_call]; one that was moved from
    need not hold its target any more: nothing is known of the call, and it
    counts as a fault. *)
Definition call_deleter (fuel : nat) (d : tree_deleter) (n : option addr) : Mh () :=
  match d with
  | bound_tree_delete => tree_delete fuel n
  | empty_function | moved_from_function => crash BadFunctionCall
  end.

(** [_tree_root.reset (p)]: the root becomes [p] and the old pointer, when
    not null, goes to the deleter (which does not look at the root). *)
Definition root_reset (fuel : nat) (p : option addr) (t : bstree) : Mh bstree :=
  _ ← match _tree_root t with
      | Some _ => call_deleter fuel (_tree_deleter t) (_tree_root t)
      | None => mret ()
      end;
  mret (with_root p t).

(** [_tree_root = nh] for the handle [nh] that [copy_from] or [move_from]
    returns: the move assignment of the handle resets the root to the
    pointer of [nh], then moves the deleter of [nh] in. *)
Definition root_assign (fuel : nat) (p : option addr) (t : bstree) : Mh bstree :=
  t ← root_reset fuel p t;
  mret (with_deleter bound_tree_delete t).

(** [_tree_root.release ()] *)
Definition root_release (t : bstree) : bstree := with_root None t.

(** The constructors [bstree (void)], [bstree (Compare, Allocator)]. *)
Definition bstree_new (alloc : nat) : bstree :=
  Tree alloc None 0 iterator_default iterator_default bound_tree_delete.

Definition size (t : bstree) : Z := _tree_size t.
Definition empty (t : bstree) : bool := bool_decide (_tree_size t = 0).
Definition begin (t : bstree) : bstree_iterator := _begin t.
Definition end_ (t : bstree) : bstree_iterator := _end t.
(** The [const] overloads build a [const_iterator] from the cursor alone. *)
Definition cbegin (t : bstree) : bstree_iterator := iterator_of (_iter (_begin t)).
Definition cend (t : bstree) : bstree_iterator := iterator_of (_iter (_end t)).

(** [make_root (args...)] *)
Definition make_root (fuel : nat) (v : K) (t : bstree) : Mh bstree :=
  a ← node_create None v;
  t ← root_reset fuel (Some a) t;
  let t := with_begin (iterator_of (_tree_root t)) t in
  let t := with_end (Iterator (_tree_root t) after_end) t in
  mret (with_size 1 t).

(** [make_root (node * n)] *)
Definition make_root_node (fuel : nat) (n : option addr) (t : bstree) : Mh bstree :=
  t ← root_reset fuel n t;
  let t := with_begin (iterator_of (_tree_root t)) t in
  let t := with_end (Iterator (_tree_root t) after_end) t in
  mret (with_size 1 t).

(** The tail shared by the [insert_left] overloads: the size, then
    [if (parent == this->_begin) this->_begin = parent->left;] where the
    pointer [parent] converts to an iterator in the [valid] state. *)
Definition insert_left_tail (p : option addr) (t : bstree) : Mh bstree :=
  let t := with_size (size_t (_tree_size t + 1)) t in
  if iter_eq (_begin t) (iterator_of p) then
    l ← get_left p; mret (with_begin (assign_node (_begin t) l) t)
  else mret t.

(** [insert_left (node * const parent, Args && ... args)] *)
Definition insert_left (p : option addr) (v : K) (t : bstree) : Mh bstree :=
  a ← node_create p v;
  _ ← modify p (set_left (Some a));
  insert_left_tail p t.

(** [insert_left (node * const parent, node * const n)] *)
Definition insert_left_node (p n : option addr) (t : bstree) : Mh bstree :=
  _ ← modify p (set_left n);
  _ ← modify n (set_parent p);
  insert_left_tail p t.

(** The tail shared by the [insert_right] overloads:
    [if (parent == this->_end) this->_end = parent->right;]. *)
Definition insert_right_tail (p : option addr) (t : bstree) : Mh bstree :=
  let t := with_size (size_t (_tree_size t + 1)) t in
  if iter_eq (_end t) (iterator_of p) then
    r ← get_right p; mret (with_end (assign_node (_end t) r) t)
  else mret t.

(** [insert_right (node * const parent, Args && ... args)] *)
Definition insert_right (p : option addr) (v : K) (t : bstree) : Mh bstree :=
  a ← node_create p v;
  _ ← modify p (set_right (Some a));
  insert_right_tail p t.

(** [insert_right (node * const parent, node * const n)] *)
Definition insert_right_node (p n : option addr) (t : bstree) : Mh bstree :=
  _ ← modify p (set_right n);
  _ ← modify n (set_parent p);
  insert_right_tail p t.

(** The descent of [insert (value_type const &)]. *)
Fixpoint insert_loop (fuel : nat) (n : option addr) (v : K) (t : bstree)
    : Mh (bstree * (bstree_iterator * bool)) :=
  match fuel with
  | O => timeout
  | S f =>
      nd ← load n;
      if key_comp v (value nd) then
        match left nd with
        | Some l => insert_loop f (Some l) v t
        | None =>
            t ← insert_left n v t;
            l ← get_left n;
            mret (t, (iterator_of l, true))
        end
      else if key_comp (value nd) v then
        match right nd with
        | Some r => insert_loop f (Some r) v t
        | None =>
            t ← insert_right n v t;
            r ← get_right n;
            mret (t, (iterator_of r, true))
        end
      else mret (t, (iterator_of n, false))
  end.

(** [insert (value_type const & value)] *)
Definition insert (fuel : nat) (v : K) (t : bstree)
    : Mh (bstree * (bstree_iterator * bool)) :=
  if empty t then
    t ← make_root fuel v t;
    mret (t, (iterator_of (_tree_root t), true))
  else insert_loop fuel (_tree_root t) v t.

(** The descent shared by [find_impl] and [count]: an iterator to the node
    that compares equal to [key], or [None] when a null child ends the
    search. *)
Fixpoint find_loop (fuel : nat) (n : option addr) (key : K)
    : Mh (option bstree_iterator) :=
  match fuel with
  | O => timeout
  | S f =>
      nd ← load n;
      if key_comp key (value nd) then
        match left nd with
        | Some l => find_loop f (Some l) key
        | None => mret None
        end
      else if key_comp (value nd) key then
        match right nd with
        | Some r => find_loop f (Some r) key
        | None => mret None
        end
      else mret (Some (iterator_of n))
  end.

(** [find_impl (key_type const & key)] *)
Definition find_impl (fuel : nat) (key : K) (t : bstree) : Mh bstree_iterator :=
  if empty t then mret (_end t)
  else
    r ← find_loop fuel (_tree_root t) key;
    match r with
    | Some i => mret i
    | None => mret (_end t)
    end.

(** [count (key_type const & key)] *)
Definition count (fuel : nat) (key : K) (t : bstree) : Mh Z :=
  if empty t then mret 0
  else
    r ← find_loop fuel (_tree_root t) key;
    match r with
    | Some _ => mret 1
    | None => mret 0
    end.

(** The graft loop of the two-children case of [erase]: [in_] goes below
    [it] by comparisons, as a leaf. *)
Fixpoint graft (fuel : nat) (it in_ : option addr) : Mh () :=
  match fuel with
  | O => timeout
  | S f =>
      vin ← get_value in_;
      vit ← get_value it;
      if key_comp vin vit then
        l ← get_left it;
        match l with
        | Some _ => graft f l in_
        | None =>
            _ ← modify it (set_left in_);
            modify in_ (set_parent it)
        end
      else
        r ← get_right it;
        match r with
        | Some _ => graft f r in_
        | None =>
            _ ← modify it (set_right in_);
            modify in_ (set_parent it)
        end
  end.

(** The chain [if (_tree_root == n) ... else if (n->parent->left == n) ...
    else if (n->parent->right == n) ...] of the leaf and one-child cases of
    [erase]: [c] takes the place of [n] ([reset] tells whether the root is
    reset, which deletes [n], or released first). *)
Definition replace_child (fuel : nat) (reset : bool) (n c : option addr)
    (t : bstree) : Mh bstree :=
  if decide (_tree_root t = n) then
    if reset then root_reset fuel c t
    else root_reset fuel c (root_release t)
  else
    p ← get_parent n;
    pl ← get_left p;
    if decide (pl = n) then
      _ ← modify p (set_left c); mret t
    else
      p ← get_parent n;
      pr ← get_right p;
      if decide (pr = n) then
        _ ← modify p (set_right c); mret t
      else mret t.

(** [erase (iterator pos)] *)
Definition erase (fuel : nat) (pos : bstree_iterator) (t : bstree)
    : Mh (bstree * bstree_iterator) :=
  let n := _iter pos in
  retval ← incr fuel pos;
  nl ← get_left n;
  nr ← get_right n;
  t ← match nl, nr with
      | None, None =>
          t ← replace_child fuel true n None t;
          if iter_eq (_begin t) (iterator_of n) then
            p ← get_parent n; mret (with_begin (assign_node (_begin t) p) t)
          else if iter_eq (_end t) (iterator_of n) then
            p ← get_parent n; mret (with_end (assign_node (_end t) p) t)
          else mret t
      | None, Some _ =>
          r ← get_right n;
          t ← replace_child fuel false n r t;
          r ← get_right n;
          p ← get_parent n;
          _ ← modify r (set_parent p);
          if iter_eq (_begin t) (iterator_of n) then
            p ← get_parent n; mret (with_begin (assign_node (_begin t) p) t)
          else mret t
      | Some _, None =>
          l ← get_left n;
          t ← replace_child fuel false n l t;
          l ← get_left n;
          p ← get_parent n;
          _ ← modify l (set_parent p);
          if iter_eq (_end t) (iterator_of n) then
            p ← get_parent n; mret (with_end (assign_node (_end t) p) t)
          else mret t
      | Some _, Some _ =>
          let parity := bool_decide (_tree_size t `mod` 2 = 0) in
          t ← (if decide (_tree_root t = n) then
                 c ← (if parity then get_left n else get_right n);
                 t ← root_reset fuel c (root_release t);
                 _ ← modify c (set_parent None);
                 mret t
               else
                 p ← get_parent n;
                 pl ← get_left p;
                 let branch_left := bool_decide (n = pl) in
                 c ← (if parity then get_left n else get_right n);
                 _ ← modify p (if branch_left then set_left c else set_right c);
                 b ← (if branch_left then get_left p else get_right p);
                 c ← (if parity then get_left n else get_right n);
                 _ ← modify c (set_parent b);
                 mret t);
          it ← (if parity then get_left n else get_right n);
          in_ ← (if parity then get_right n else get_left n);
          _ ← graft fuel it in_;
          mret t
      end;
  let t := with_size (size_t (_tree_size t - 1)) t in
  _ ← match n with Some a => deallocate a | None => crash NullDeref end;
  mret (t, retval).

(** The descent of [erase (key_type const & key)]. *)
Fixpoint erase_loop (fuel : nat) (n : option addr) (key : K) (t : bstree)
    : Mh (bstree * Z) :=
  match fuel with
  | O => timeout
  | S f =>
      nd ← load n;
      if key_comp key (value nd) then
        match left nd with
        | Some l => erase_loop f (Some l) key t
        | None => mret (t, 0)
        end
      else if key_comp (value nd) key then
        match right nd with
        | Some r => erase_loop f (Some r) key t
        | None => mret (t, 0)
        end
      else
        '(t, _) ← erase fuel (iterator_of n) t;
        mret (t, 1)
  end.

(** [erase (key_type const & key)]: the descent starts at the root without
    a test for the empty tree. *)
Definition erase_key (fuel : nat) (key : K) (t : bstree) : Mh (bstree * Z) :=
  erase_loop fuel (_tree_root t) key t.

(** [assert (c)] *)
Definition assert (c : bool) : Mh () := if c then mret () else crash AssertFailed.

(** [insert_at (iterator pos, value_type const & value)]; [pos->value],
    [pos->left] and [pos->right] read the node under the cursor. *)
Definition insert_at (pos : bstree_iterator) (v : K) (t : bstree)
    : Mh (bstree * bstree_iterator) :=
  pv ← get_value (_iter pos);
  if key_comp v pv then
    l ← get_left (_iter pos);
    _ ← assert (bool_decide (l = None));
    t ← insert_left (_iter pos) v t;
    l ← get_left (_iter pos);
    let t := if iter_eq pos (_begin t) then with_begin (iterator_of l) t else t in
    mret (t, iterator_of l)
  else if key_comp pv v then
    r ← get_right (_iter pos);
    _ ← assert (bool_decide (r = None));
    t ← insert_right (_iter pos) v t;
    r ← get_right (_iter pos);
    let t := if iter_eq pos (_end t) then with_end (iterator_of r) t else t in
    mret (t, iterator_of r)
  else mret (t, pos).

(** [insert_at (iterator pos, node * const n)] *)
Definition insert_at_node (pos : bstree_iterator) (n : option addr) (t : bstree)
    : Mh (bstree * (bstree_iterator * bool)) :=
  nv ← get_value n;
  pv ← get_value (_iter pos);
  if key_comp nv pv then
    l ← get_left (_iter pos);
    _ ← assert (bool_decide (l = None));
    t ← insert_left_node (_iter pos) n t;
    l ← get_left (_iter pos);
    let t := if iter_eq pos (_begin t) then with_begin (iterator_of l) t else t in
    mret (t, (iterator_of l, true))
  else if key_comp pv nv then
    r ← get_right (_iter pos);
    _ ← assert (bool_decide (r = None));
    t ← insert_right_node (_iter pos) n t;
    r ← get_right (_iter pos);
    let t := if iter_eq pos (_end t) then with_end (iterator_of r) t else t in
    mret (t, (iterator_of r, true))
  else mret (t, (pos, false)).

(** [while (pos != this->_begin && _key_comp (value, pos->value)) --pos;] *)
Fixpoint hint_backward (fuel : nat) (v : K) (pos : bstree_iterator) (t : bstree)
    : Mh bstree_iterator :=
  match fuel with
  | O => timeout
  | S f =>
      if iter_neq pos (_begin t) then
        pv ← get_value (_iter pos);
        if key_comp v pv then
          pos ← decr f pos; hint_backward f v pos t
        else mret pos
      else mret pos
  end.

(** [while (pos != this->_end && _key_comp (pos->value, value)) ++pos;] *)
Fixpoint hint_forward (fuel : nat) (v : K) (pos : bstree_iterator) (t : bstree)
    : Mh bstree_iterator :=
  match fuel with
  | O => timeout
  | S f =>
      if iter_neq pos (_end t) then
        pv ← get_value (_iter pos);
        if key_comp pv v then
          pos ← incr f pos; hint_forward f v pos t
        else mret pos
      else mret pos
  end.

(** The positioning shared by the hinted insertions: the first statement
    after the conversion of the hint compares with [pos->value]. *)
Definition hint_position (fuel : nat) (v : K) (hint : bstree_iterator) (t : bstree)
    : Mh bstree_iterator :=
  let pos := iterator_of (_iter hint) in
  pv ← get_value (_iter pos);
  if key_comp v pv then hint_backward fuel v pos t
  else hint_forward fuel v pos t.

(** [insert (const_iterator hint, value_type const & value)] *)
Definition insert_hint (fuel : nat) (hint : bstree_iterator) (v : K) (t : bstree)
    : Mh (bstree * bstree_iterator) :=
  pos ← hint_position fuel v hint t;
  insert_at pos v t.

(** [emplace_hint (const_iterator hint, Args && ... args)] *)
Definition emplace_hint (fuel : nat) (hint : bstree_iterator) (v : K) (t : bstree)
    : Mh (bstree * bstree_iterator) :=
  a ← node_create None v;
  let in_ := Some a in
  iv ← get_value in_;
  pos ← hint_position fuel iv hint t;
  '(t, result) ← insert_at_node pos in_ t;
  let '(it, inserted) := (result : bstree_iterator * bool) in
  _ ← (if inserted then mret () else deallocate a);
  mret (t, it).

(** The backward walk of the bound queries:
    [while (_key_comp (key, pos->value)) { if (_begin == pos) return pos;
    else --pos; }].  [inl]: the function returns from inside the loop;
    [inr]: the loop is left by its condition. *)
Fixpoint bound_backward (fuel : nat) (key : K) (pos : bstree_iterator) (t : bstree)
    : Mh (bstree_iterator + bstree_iterator) :=
  match fuel with
  | O => timeout
  | S f =>
      pv ← get_value (_iter pos);
      if key_comp key pv then
        if iter_eq (_begin t) pos then mret (inl pos)
        else pos ← decr f pos; bound_backward f key pos t
      else mret (inr pos)
  end.

(** The forward walk of the bound queries:
    [while (_key_comp (pos->value, key)) { if (_end == pos) return pos;
    else ++pos; }]. *)
Fixpoint bound_forward (fuel : nat) (key : K) (pos : bstree_iterator) (t : bstree)
    : Mh (bstree_iterator + bstree_iterator) :=
  match fuel with
  | O => timeout
  | S f =>
      pv ← get_value (_iter pos);
      if key_comp pv key then
        if iter_eq (_end t) pos then mret (inl pos)
        else pos ← incr f pos; bound_forward f key pos t
      else mret (inr pos)
  end.

(** [lower_bound_impl (key_type const & key)] *)
Definition lower_bound_impl (fuel : nat) (key : K) (t : bstree) : Mh bstree_iterator :=
  if empty t then mret (_end t)
  else
    let pos := iterator_of (_tree_root t) in
    pv ← get_value (_iter pos);
    if key_comp key pv then
      r ← bound_backward fuel key pos t;
      match r with
      | inl pos => mret pos
      | inr pos =>
          pv ← get_value (_iter pos);
          if key_comp pv key then incr fuel pos else mret pos
      end
    else if key_comp pv key then
      r ← bound_forward fuel key pos t;
      match r with
      | inl pos => mret pos
      | inr pos => mret pos
      end
    else mret pos.

(** [upper_bound_impl (key_type const & key)] *)
Definition upper_bound_impl (fuel : nat) (key : K) (t : bstree) : Mh bstree_iterator :=
  if empty t then mret (_end t)
  else
    let pos := iterator_of (_tree_root t) in
    pv ← get_value (_iter pos);
    if key_comp key pv then
      r ← bound_backward fuel key pos t;
      match r with
      | inl pos => mret pos
      | inr pos => incr fuel pos
      end
    else if key_comp pv key then
      r ← bound_forward fuel key pos t;
      match r with
      | inl pos => mret pos
      | inr pos =>
          pv ← get_value (_iter pos);
          if key_comp key pv then mret pos else incr fuel pos
      end
    else incr fuel pos.

Definition lower_bound := lower_bound_impl.
Definition upper_bound := upper_bound_impl.

(** The loop [for (it = first; it != last; ++it)] over [*it], as in
    [std::equal (lhs.begin (), lhs.end (), ...)] of [operator==] and in any
    client that iterates from [begin ()] to [end ()]: the keys visited. *)
Fixpoint visit (fuel : nat) (it last : bstree_iterator) : Mh (list K) :=
  match fuel with
  | O => timeout
  | S f =>
      if iter_neq it last then
        v ← deref it;
        it ← incr f it;
        vs ← visit f it last;
        mret (v :: vs)
      else mret []
  end.

Definition traverse (fuel : nat) (t : bstree) : Mh (list K) :=
  visit fuel (begin t) (end_ t).

(** The same loop, left after it has visited [n] keys. *)
Fixpoint visit_prefix (n : nat) (fuel : nat) (it last : bstree_iterator)
    : Mh (list K) :=
  match n with
  | O => mret []
  | S n =>
      if iter_neq it last then
        v ← deref it;
        it ← incr fuel it;
        vs ← visit_prefix n fuel it last;
        mret (v :: vs)
      else mret []
  end.

(** [clear (void)] *)
Definition clear (fuel : nat) (t : bstree) : Mh bstree :=
  let t := with_size 0 t in
  let t := with_begin iterator_default t in
  let t := with_end iterator_default t in
  root_reset fuel None t.

(** [set_iterators (void)]; [this->_begin = l] assigns a node pointer, so
    the state of [_begin] stays what it was. *)
Definition set_iterators (fuel : nat) (t : bstree) : Mh bstree :=
  if bool_decide (_tree_size t ≠ 0) then
    match _tree_root t with
    | None => crash NullDeref
    | Some root =>
        l ← walk_left fuel root;
        let t := with_begin (assign_node (_begin t) (Some l)) t in
        r ← walk_right fuel root;
        mret (with_end (Iterator (Some r) after_end) t)
    end
  else mret (with_end (iterator_of None) (with_begin (iterator_of None) t)).

(** The walk of [move_from]: the source and the result are walked together,
    a missing child of the result is created from the value of the source's
    child. *)
Fixpoint move_walk (fuel : nat) (copy_walk result_walk : option addr) : Mh () :=
  match copy_walk with
  | None => mret ()
  | Some _ =>
      match fuel with
      | O => timeout
      | S f =>
          cl ← get_left copy_walk;
          go_left ← match cl with
                    | Some _ => rl ← get_left result_walk; mret (bool_decide (rl = None))
                    | None => mret false
                    end;
          if (go_left : bool) then
            v ← get_value cl;
            a ← node_create result_walk v;
            _ ← modify result_walk (set_left (Some a));
            cl ← get_left copy_walk;
            rl ← get_left result_walk;
            move_walk f cl rl
          else
            cr ← get_right copy_walk;
            go_right ← match cr with
                       | Some _ => rr ← get_right result_walk; mret (bool_decide (rr = None))
                       | None => mret false
                       end;
            if (go_right : bool) then
              v ← get_value cr;
              a ← node_create result_walk v;
              _ ← modify result_walk (set_right (Some a));
              cr ← get_right copy_walk;
              rr ← get_right result_walk;
              move_walk f cr rr
            else
              cp ← get_parent copy_walk;
              rp ← get_parent result_walk;
              move_walk f cp rp
      end
  end.

(** [move_from (node_handle & nh, node_allocator & a)] *)
Definition move_from (fuel : nat) (nh : option addr) : Mh (option addr) :=
  match nh with
  | None => mret None
  | Some _ =>
      v ← get_value nh;
      a ← node_create None v;
      _ ← move_walk fuel nh (Some a);
      mret (Some a)
  end.

(** The move constructors [bstree (bstree && other)] and
    [bstree (bstree && other, Allocator const & alloc)]: the new tree and
    what is left of [other].  The handle is moved: the new tree takes the
    pointer and the deleter, [other] keeps a null root and a deleter that
    was moved from. *)
Definition move_construct (alloc : option nat) (other : bstree) : bstree * bstree :=
  (Tree (default (_node_alloc other) alloc) (_tree_root other)
        (_tree_size other) (_begin other) (_end other) (_tree_deleter other),
   with_deleter moved_from_function
     (with_end iterator_default
        (with_begin iterator_default (with_size 0 (with_root None other))))).

(** The four swaps of [operator= (bstree &&)]; the swap of the handles
    exchanges the pointers and the deleters. *)
Definition swap_contents (this other : bstree) : bstree * bstree :=
  (Tree (_node_alloc this) (_tree_root other) (_tree_size other)
        (_begin other) (_end other) (_tree_deleter other),
   Tree (_node_alloc other) (_tree_root this) (_tree_size this)
        (_begin this) (_end this) (_tree_deleter this)).

(** [operator= (bstree && other)] on two distinct objects: the assigned
    tree and what is left of [other]. *)
Definition move_assign (fuel : nat) (this other : bstree) : Mh (bstree * bstree) :=
  if propogate_on_move_assign then
    this ← clear fuel this;
    let this := Tree (_node_alloc other) (_tree_root this) (_tree_size this)
                     (_begin this) (_end this) (_tree_deleter this) in
    mret (swap_contents this other)
  else if bool_decide (_node_alloc this ≠ _node_alloc other) then
    this ← clear fuel this;
    r ← move_from fuel (_tree_root other);
    this ← root_assign fuel r this;
    let this := with_size (_tree_size other) this in
    this ← set_iterators fuel this;
    other ← clear fuel other;
    mret (this, other)
  else
    this ← clear fuel this;
    mret (swap_contents this other).

(** [operator= (bstree && other)] when [other] is the assigned tree itself:
    the allocators are equal and the swaps exchange each member with
    itself. *)
Definition move_assign_self (fuel : nat) (this : bstree) : Mh bstree :=
  clear fuel this.

(** [insert (InputIt first, InputIt last)] *)
Fixpoint insert_range (fuel : nat) (vs : list K) (t : bstree) : Mh bstree :=
  match vs with
  | [] => mret t
  | v :: vs =>
      '(t, _) ← insert fuel v t;
      insert_range fuel vs t
  end.

(** A client of the container: a sequence of [insert (value)] and
    [erase (key)] calls. *)
Inductive op : Type :=
  | Insert (v : K)
  | Erase (key : K).

Definition apply_op (fuel : nat) (o : op) (t : bstree) : Mh bstree :=
  match o with
  | Insert v => '(t, _) ← insert fuel v t; mret t
  | Erase key => '(t, _) ← erase_key fuel key t; mret t
  end.

Fixpoint run_ops (fuel : nat) (os : list op) (t : bstree) : Mh bstree :=
  match os with
  | [] => mret t
  | o :: os => t ← apply_op fuel o t; run_ops fuel os t
  end.

(** ** What a well-formed tree is

    The shape the child links draw in the heap, with the address and the
    key of every node. *)
Inductive shape : Type :=
  | Leaf
  | Br (l : shape) (a : addr) (v : K) (r : shape).

(** [rep h p s]: below the pointer [p], the [left] and [right] links of the
    heap [h] draw the shape [s]. *)
Fixpoint rep (h : heap) (p : option addr) (s : shape) : Prop :=
  match s with
  | Leaf => p = None
  | Br l a v r =>
      p = Some a ∧
      ∃ nd, h !! a = Some nd ∧ value nd = v ∧
            rep h (left nd) l ∧ rep h (right nd) r
  end.

Fixpoint keys (s : shape) : list K :=
  match s with
  | Leaf => []
  | Br l _ v r => keys l ++ v :: keys r
  end.

Fixpoint nodes (s : shape) : nat :=
  match s with
  | Leaf => 0
  | Br l _ _ r => S (nodes l + nodes r)
  end.

Fixpoint height (s : shape) : nat :=
  match s with
  | Leaf => 0
  | Br l _ _ r => S (height l `max` height r)
  end.

(** The ordering invariant of the search tree. *)
Fixpoint bst (s : shape) : Prop :=
  match s with
  | Leaf => True
  | Br l _ v r =>
      bst l ∧ bst r ∧
      Forall (λ x, key_comp x v = true) (keys l) ∧
      Forall (λ x, key_comp v x = true) (keys r)
  end.

(** Two keys compare equal when neither is less than the other. *)
Definition equiv_key (x y : K) : Prop :=
  key_comp x y = false ∧ key_comp y x = false.

(** A tree whose root draws a search tree and whose size counts it. *)
Definition well_formed (h : heap) (t : bstree) (s : shape) : Prop :=
  rep h (_tree_root t) s ∧ bst s ∧ _tree_size t = Z.of_nat (nodes s).

Fixpoint addrs (s : shape) : list addr :=
  match s with
  | Leaf => []
  | Br l a _ r => a :: addrs l ++ addrs r
  end.

(** [linked h p par s]: as [rep], and every node of [s] has the parent link
    it should have, [par] for the root of [s]. *)
Fixpoint linked (h : heap) (p par : option addr) (s : shape) : Prop :=
  match s with
  | Leaf => p = None
  | Br l a v r =>
      p = Some a ∧
      ∃ nd, h !! a = Some nd ∧ value nd = v ∧ parent nd = par ∧
            linked h (left nd) (Some a) l ∧ linked h (right nd) (Some a) r
  end.

(** What [tree_delete] does to the parent of the leaf [a] it deletes. *)
Definition unlink (a : addr) (pn : node) : node :=
  if decide (Some a = left pn) then set_left None pn
  else if decide (Some a = right pn) then set_right None pn
  else pn.

(** The iterations a walk that chases the parent links ([tree_delete],
    [move_from]) spends below and at the root of a shape: one to enter each
    child that is there, one to leave the node. *)
Fixpoint walk_cost (s : shape) : nat :=
  match s with
  | Leaf => 0
  | Br l _ _ r =>
      S (match l with Leaf => 0 | _ => S (walk_cost l) end
         + match r with Leaf => 0 | _ => S (walk_cost r) end)
  end.

Definition enter_cost (s : shape) : nat :=
  match s with
  | Leaf => 0
  | _ => S (walk_cost s)
  end.

(** The search tree with a new leaf for [v], at the address [a], when no
    key of the tree compares equal to [v]; the tree itself otherwise. *)
Fixpoint shape_insert (v : K) (a : addr) (s : shape) : shape :=
  match s with
  | Leaf => Br Leaf a v Leaf
  | Br l b x r =>
      if key_comp v x then Br (shape_insert v a l) b x r
      else if key_comp x v then Br l b x (shape_insert v a r)
      else s
  end.

(** A tree whose nodes are linked as a search tree, each at its own
    address, and whose size counts them. *)
Definition sound (h : heap) (t : bstree) (s : shape) : Prop :=
  linked h (_tree_root t) None s ∧ NoDup (addrs s) ∧ bst s ∧
  _tree_size t = Z.of_nat (nodes s).

(** [copy_of s s']: the same shape and keys, at other addresses. *)
Fixpoint copy_of (s s' : shape) : Prop :=
  match s, s' with
  | Leaf, Leaf => True
  | Br l _ v r, Br l' _ v' r' => v = v' ∧ copy_of l l' ∧ copy_of r r'
  | _, _ => False
  end.

(** [parent] links are the exact inverses of the child links: [p] has the
    child [c] exactly when the parent link of [c] designates [p]. *)
Definition parents_inverse (h : heap) : Prop :=
  ∀ p c : addr,
    (∃ pn, h !! p = Some pn ∧ (left pn = Some c ∨ right pn = Some c)) ↔
    (∃ cn, h !! c = Some cn ∧ parent cn = Some p).

(** ** More of the container *)

(** The walk of [copy_from]: as the one of [move_from], the values being
    copied. *)
Fixpoint copy_loop (fuel : nat) (copy_walk result_walk : option addr) : Mh () :=
  match copy_walk with
  | None => mret ()
  | Some _ =>
      match fuel with
      | O => timeout
      | S f =>
          cl ← get_left copy_walk;
          go_left ← match cl with
                    | Some _ => rl ← get_left result_walk; mret (bool_decide (rl = None))
                    | None => mret false
                    end;
          if (go_left : bool) then
            v ← get_value cl;
            a ← node_create result_walk v;
            _ ← modify result_walk (set_left (Some a));
            cl ← get_left copy_walk;
            rl ← get_left result_walk;
            copy_loop f cl rl
          else
            cr ← get_right copy_walk;
            go_right ← match cr with
                       | Some _ => rr ← get_right result_walk; mret (bool_decide (rr = None))
                       | None => mret false
                       end;
            if (go_right : bool) then
              v ← get_value cr;
              a ← node_create result_walk v;
              _ ← modify result_walk (set_right (Some a));
              cr ← get_right copy_walk;
              rr ← get_right result_walk;
              copy_loop f cr rr
            else
              cp ← get_parent copy_walk;
              rp ← get_parent result_walk;
              copy_loop f cp rp
      end
  end.

(** [copy_from (node_handle const & nh, node_allocator & a)] *)
Definition copy_from (fuel : nat) (nh : option addr) : Mh (option addr) :=
  match nh with
  | None => mret None
  | Some _ =>
      v ← get_value nh;
      a ← node_create None v;
      _ ← copy_loop fuel nh (Some a);
      mret (Some a)
  end.

(** The copy constructors [bstree (bstree const & other)] and
    [bstree (bstree const & other, Allocator const & alloc)].  The members
    that the initializer list leaves out are default constructed: a null
    root with an empty deleter and two singular iterators; the size is
    assigned before it is read. *)
Definition copy_construct (fuel : nat) (alloc : nat) (other : bstree) : Mh bstree :=
  let this := Tree alloc None 0 iterator_default iterator_default empty_function in
  r ← copy_from fuel (_tree_root other);
  this ← root_assign fuel r this;
  let this := with_size (_tree_size other) this in
  set_iterators fuel this.

(** [alloc_traits::propogate_on_container_copy_assignment::value]. *)
Variable propogate_on_copy_assign : bool.

(** [operator= (bstree const & other)] *)
Definition copy_assign (fuel : nat) (this other : bstree) : Mh bstree :=
  this ← (if propogate_on_copy_assign then
            this ← (if bool_decide (_node_alloc this ≠ _node_alloc other)
                    then root_reset fuel None this else mret this);
            mret (Tree (_node_alloc other) (_tree_root this) (_tree_size this)
                       (_begin this) (_end this) (_tree_deleter this))
          else mret this);
  r ← copy_from fuel (_tree_root other);
  this ← root_assign fuel r this;
  let this := with_size (_tree_size other) this in
  set_iterators fuel this.

(** [operator= (std::initializer_list <value_type> ilist)] *)
Definition assign_list (fuel : nat) (ilist : list K) (t : bstree) : Mh bstree :=
  t ← clear fuel t;
  insert_range fuel ilist t.

(** The descent of [emplace]: the node [in_] is there from the start. *)
Fixpoint emplace_loop (fuel : nat) (it in_ : option addr) (t : bstree)
    : Mh (bstree * (bstree_iterator * bool)) :=
  match fuel with
  | O => timeout
  | S f =>
      iv ← get_value in_;
      itv ← get_value it;
      if key_comp iv itv then
        l ← get_left it;
        match l with
        | Some _ => emplace_loop f l in_ t
        | None =>
            t ← insert_left_node it in_ t;
            l ← get_left it;
            mret (t, (iterator_of l, true))
        end
      else if key_comp itv iv then
        r ← get_right it;
        match r with
        | Some _ => emplace_loop f r in_ t
        | None =>
            t ← insert_right_node it in_ t;
            r ← get_right it;
            mret (t, (iterator_of r, true))
        end
      else
        _ ← match in_ with Some a => deallocate a | None => crash NullDeref end;
        mret (t, (iterator_of it, false))
  end.

(** [emplace (Args && ... args)] *)
Definition emplace (fuel : nat) (v : K) (t : bstree)
    : Mh (bstree * (bstree_iterator * bool)) :=
  if empty t then
    t ← make_root fuel v t;
    mret (t, (iterator_of (_tree_root t), true))
  else
    a ← node_create None v;
    emplace_loop fuel (_tree_root t) (Some a) t.

(** [equal_range (key_type const & key)] *)
Definition equal_range (fuel : nat) (key : K) (t : bstree)
    : Mh (bstree_iterator * bstree_iterator) :=
  lower ← lower_bound fuel key t;
  upper ← incr fuel lower;
  mret (lower, upper).

(** The addresses of a shape in the order of its keys. *)
Fixpoint inorder (s : shape) : list addr :=
  match s with
  | Leaf => []
  | Br l a _ r => inorder l ++ a :: inorder r
  end.

(** The node at which the descent by comparisons with [key] stops. *)
Fixpoint shape_find (key : K) (s : shape) : option addr :=
  match s with
  | Leaf => None
  | Br l a x r =>
      if key_comp key x then shape_find key l
      else if key_comp x key then shape_find key r
      else Some a
  end.

(** The shape without the node at [a], for a node with at most one child:
    its subtree takes its place. *)
Fixpoint shape_remove (a : addr) (s : shape) : shape :=
  match s with
  | Leaf => Leaf
  | Br l b x r =>
      if decide (a = b) then match l with Leaf => r | _ => l end
      else Br (shape_remove a l) b x (shape_remove a r)
  end.

(** What [erase] does to the node [nd] at [b] when it takes out a node [an]
    at [a] with at most one child: the parent of [a] gets the child of [a]
    in the place of [a], the child of [a] gets the parent of [a]. *)
Definition spliced (a : addr) (an : node) (b : addr) (nd : node) : node :=
  let c := match left an with Some _ => left an | None => right an end in
  let nd1 :=
    if decide (parent an = Some b) then
      if decide (left nd = Some a) then set_left c nd
      else if decide (right nd = Some a) then set_right c nd
      else nd
    else nd in
  if decide (c = Some b) then set_parent (parent an) nd1 else nd1.

End bstree.

(** ** blocksort *)

Section sorting.
Context {T : Type}.
Variable comp : T → T → bool.

(** The range [first, last) is a list; a random-access iterator is an offset
    into it.  Reading or writing outside the range is a crash. *)
Abbreviation Ma := (M (list T)).

(** [index [i]] as an rvalue, [index] being [first + base]. *)
Definition index_get (base i : nat) : Ma T := λ arr,
  match arr !! (base + i)%nat with
  | Some x => Ret (x, arr)
  | None => Crash (OutOfBounds (base + i))
  end.

(** [*(first + p - 1)] *)
Definition index_before (p : nat) : Ma T :=
  match p with
  | O => crash (OutOfBounds 0)
  | S q => index_get q 0
  end.

(** [index [i] = x] *)
Definition index_set (base i : nat) (x : T) : Ma () := λ arr,
  if decide (base + i < length arr)%nat then Ret ((), <[(base + i)%nat := x]> arr)
  else Crash (OutOfBounds (base + i)).

(** [curia_gap_sequence] *)
Definition curia_gap_sequence : list nat := [23; 10; 4; 1]%nat.

(** [for (j = i; j >= g && comp (tmp, index [j - g]); j -= g)
      index [j] = index [j - g];] and the final value of [j]. *)
Fixpoint gap_shift (fuel : nat) (base g : nat) (tmp : T) (j : nat) : Ma nat :=
  match fuel with
  | O => timeout
  | S f =>
      if decide (g ≤ j)%nat then
        x ← index_get base (j - g);
        if comp tmp x then
          _ ← index_set base j x;
          gap_shift f base g tmp (j - g)
        else mret j
      else mret j
  end.

(** A [for] loop over the values of its counter. *)
Fixpoint for_each {S A} (xs : list A) (body : A → M S ()) : M S () :=
  match xs with
  | [] => mret ()
  | x :: xs => _ ← body x; for_each xs body
  end.

(** The file-local [shellsort (first, last, comp)] on the sub-range that
    starts at offset [first] and ends at offset [last]. *)
Definition shellsort (first last : nat) : Ma () :=
  let length := (last - first)%nat in
  for_each curia_gap_sequence (λ g,
    for_each (seq g (length - g)) (λ i,
      tmp ← index_get first i;
      j ← gap_shift (S i) first g tmp i;
      index_set first j tmp)).

(** The previous power of two, on 64 bits:
    [rl |= rl >> 1, ..., rl |= rl >> 32, rl - (rl >> 1)]. *)
Definition prev_pow2 (rangelen : N) : N :=
  let rl := rangelen in
  let rl := N.lor rl (N.shiftr rl 1) in
  let rl := N.lor rl (N.shiftr rl 2) in
  let rl := N.lor rl (N.shiftr rl 4) in
  let rl := N.lor rl (N.shiftr rl 8) in
  let rl := N.lor rl (N.shiftr rl 16) in
  let rl := N.lor rl (N.shiftr rl 32) in
  (rl - N.shiftr rl 1)%N.

(** [static_cast <std::size_t> (b * scale)] with
    [scale = rangelen / rl_pow2], computed in double precision.  [rl_pow2]
    is a power of two, so the quotient is exact; for [rangelen] below 2^26
    and [b] up to [rl_pow2] the product is below 2^53 and exact as well, and
    the cast is the floor of [b * rangelen / rl_pow2].  On longer ranges the
    product is rounded and the cast can differ from this quotient by one:
    what is proved of [scaled] is stated for ranges below 2^26. *)
Definition scaled (rangelen rl_pow2 b : nat) : nat :=
  ((b * rangelen) / rl_pow2)%nat.

(** [std::rotate (first + s, first + m, first + e)] *)
Definition rotate (s m e : nat) : Ma () := λ arr,
  if decide (s ≤ m ∧ m ≤ e ∧ e ≤ length arr)%nat then
    Ret ((), take s arr ++ (take (e - m) (drop m arr) ++ take (m - s) (drop s arr))
               ++ drop e arr)
  else Crash (OutOfBounds e).

(** The stable merge of two sorted lists. *)
Fixpoint merge (l1 : list T) : list T → list T :=
  fix merge_aux (l2 : list T) : list T :=
    match l1, l2 with
    | [], _ => l2
    | _, [] => l1
    | a1 :: l1', a2 :: l2' =>
        if comp a2 a1 then a2 :: merge_aux l2' else a1 :: merge l1' l2
    end.

(** [std::inplace_merge (first + s, first + m, first + e, comp)] *)
Definition inplace_merge (s m e : nat) : Ma () := λ arr,
  if decide (s ≤ m ∧ m ≤ e ∧ e ≤ length arr)%nat then
    Ret ((), take s arr
               ++ merge (take (m - s) (drop s arr)) (take (e - m) (drop m arr))
               ++ drop e arr)
  else Crash (OutOfBounds e).

(** The values [start, start + step, ...] below [bound] of a counting loop. *)
Definition steps (start step bound : nat) : list nat :=
  (λ k, start + k * step)%nat <$> seq 0 (Nat.div (bound - start + (step - 1)) step).

(** The doubling [len = 16; len < rl_pow2; len *= 2]. *)
Fixpoint doubling (fuel : nat) (len bound : nat) : list nat :=
  match fuel with
  | O => []
  | S f => if decide (len < bound)%nat then len :: doubling f (2 * len) bound else []
  end.

(** [blocksort (first, last, comp)] on the whole list. *)
Definition blocksort : Ma () := λ arr,
  let rangelen := length arr in
  let rl_pow2 := N.to_nat (prev_pow2 (N.of_nat rangelen)) in
  let scale := scaled rangelen rl_pow2 in
  (_ ← for_each (steps 0 16 rl_pow2) (λ b,
         shellsort (scale b) (scale (b + 16)%nat));
   for_each (doubling rl_pow2 16 rl_pow2) (λ len,
     for_each (steps 0 (len * 2) rl_pow2) (λ merge,
       let range_start := scale merge in
       let range_mid := scale (merge + len)%nat in
       let range_end := scale (merge + len * 2)%nat in
       x ← index_before range_end;
       y ← index_get range_start 0;
       if comp x y then rotate range_start range_mid range_end
       else
         x ← index_get range_mid 0;
         y ← index_before range_mid;
         if comp x y then inplace_merge range_start range_mid range_end
         else mret ()))) arr.

(** The list left in the range, when the sort returns. *)
Definition sorted_by_blocksort (arr : list T) : outcome (list T) :=
  match blocksort arr with
  | Ret (_, arr') => Ret arr'
  | Crash f => Crash f
  | OutOfFuel => OutOfFuel
  end.

(** *** insertionsort *)

(** [std::swap (index [i], index [j])] *)
Definition swap (base i j : nat) : Ma () :=
  x ← index_get base i;
  y ← index_get base j;
  _ ← index_set base i y;
  index_set base j x.

(** [for (auto j = i; j > 0 && comp (index [j], index [j - 1]); --j)
      std::swap (index [j], index [j - 1]);] *)
Fixpoint swap_down (fuel : nat) (base j : nat) : Ma () :=
  match fuel with
  | O => timeout
  | S f =>
      if decide (0 < j)%nat then
        x ← index_get base j;
        y ← index_get base (j - 1);
        if comp x y then
          _ ← swap base j (j - 1);
          swap_down f base (j - 1)
        else mret ()
      else mret ()
  end.

(** [insertionsort (first, last, comp)] of [insertionsort.hpp] on the
    sub-range that starts at offset [first] and ends at offset [last]. *)
Definition insertionsort (first last : nat) : Ma () :=
  let length := (last - first)%nat in
  for_each (seq 1 (length - 1)) (λ i, swap_down (S i) first i).

(** *** What a sort leaves behind *)

(** [x] is not after [y] in the order of [comp]: [y] is not less than [x]. *)
Definition not_less (x y : T) : Prop := comp y x = false.

(** Neither of [x] and [y] is less than the other. *)
Definition equivalent (x y : T) : bool := negb (comp x y) && negb (comp y x).

(** The elements of [arr] from offset [a] to offset [b]. *)
Definition sub_range (arr : list T) (a b : nat) : list T := take (b - a) (drop a arr).

End sorting.

(** ** shellsort *)

Module shellsort_hpp.
Section shellsort.
Context {T : Type}.
Variable comp : T → T → bool.

Definition curia01_seq : list nat := [701; 301; 132; 57; 23; 10; 4; 1]%nat.
Definition tokuda92_seq : list nat := [1182; 525; 233; 103; 46; 20; 9; 4; 1]%nat.
Definition sedgewick86_seq : list nat := [1073; 281; 77; 23; 8; 1]%nat.

(** [enum class shellseq] *)
Inductive shellseq := curia01 | tokuda92 | sedgewick86.

(** The lambda [inner_loop] of [shellsort], with its captures [index] and
    [length]. *)
Definition inner_loop (index length : nat) (g : nat) : M (list T) () :=
  for_each (seq g (length - g)) (λ i,
    tmp ← index_get index i;
    j ← gap_shift comp (S i) index g tmp i;
    index_set index j tmp).

(** [shellsort (first, last, comp, seq)] of [shellsort.hpp] on the sub-range
    that starts at offset [first] and ends at offset [last]. *)
Definition shellsort (first last : nat) (seq : shellseq) : M (list T) () :=
  let index := first in
  let length := (last - first)%nat in
  match seq with
  | curia01 => for_each curia01_seq (inner_loop index length)
  | tokuda92 => for_each tokuda92_seq (inner_loop index length)
  | sedgewick86 => for_each sedgewick86_seq (inner_loop index length)
  end.

End shellsort.
End shellsort_hpp.

(** ** Scenarios, on integer keys with [std::less] *)

Section scenarios.

Abbreviation Zheap := (gmap addr (@node Z)).

(** The tree built by [insert (first, last)] from the empty tree. *)
Definition built (vs : list Z) : outcome (bstree * Zheap) :=
  insert_range Z.ltb 20 vs (bstree_new 0) ∅.

(** The tree left by a sequence of calls from the empty tree. *)
Definition reached (os : list (@op Z)) : outcome (bstree * Zheap) :=
  run_ops Z.ltb 20 os (bstree_new 0) ∅.

(** The heap and the tree after [insert (1); insert (2)]. *)
Definition heap12 : Zheap :=
  <[2%positive := Node 2 None None (Some 1%positive)]>
    (<[1%positive := Node 1 None (Some 2%positive) None]> ∅).
Definition tree12 : bstree :=
  Tree 0 (Some 1%positive) 2
       (Iterator (Some 1%positive) valid) (Iterator (Some 1%positive) after_end)
       bound_tree_delete.

(** The heap and the tree after [insert (2); insert (1)]. *)
Definition heap21 : Zheap :=
  <[2%positive := Node 1 None None (Some 1%positive)]>
    (<[1%positive := Node 2 (Some 2%positive) None None]> ∅).
Definition tree21 : bstree :=
  Tree 0 (Some 1%positive) 2
       (Iterator (Some 2%positive) valid) (Iterator (Some 1%positive) after_end)
       bound_tree_delete.

(** The heap and the tree after the inserts 5, 3, 1, 4 and [erase (3)]. *)
Definition heap_erased : Zheap :=
  <[4%positive := Node 4 None None (Some 3%positive)]>
    (<[3%positive := Node 1 None (Some 4%positive) (Some 3%positive)]>
       (<[1%positive := Node 5 (Some 3%positive) None None]> ∅)).
Definition tree_erased : bstree :=
  Tree 0 (Some 1%positive) 3
       (Iterator (Some 3%positive) valid) (Iterator (Some 1%positive) after_end)
       bound_tree_delete.

(** The heap and the tree after a further [erase (1)]. *)
Definition heap_lost : Zheap :=
  <[4%positive := Node 4 None None (Some 3%positive)]>
    (<[1%positive := Node 5 (Some 3%positive) None None]> ∅).
Definition tree_lost : bstree :=
  Tree 0 (Some 1%positive) 2
       (Iterator (Some 3%positive) valid) (Iterator (Some 1%positive) after_end)
       bound_tree_delete.

(** The heap, the tree and the shape after the inserts 5, 3, 8. *)
Definition heap538 : Zheap :=
  <[3%positive := Node 8 None None (Some 1%positive)]>
    (<[2%positive := Node 3 None None (Some 1%positive)]>
       (<[1%positive := Node 5 (Some 2%positive) (Some 3%positive) None]> ∅)).
Definition tree538 : bstree :=
  Tree 0 (Some 1%positive) 3
       (Iterator (Some 2%positive) valid) (Iterator (Some 1%positive) after_end)
       bound_tree_delete.
Definition shape538 : @shape Z :=
  Br (Br Leaf 2%positive 3 Leaf) 1%positive 5 (Br Leaf 3%positive 8 Leaf).

(** A second tree next to the one of 5, 3, 8, in the same heap and with
    another allocator: the inserts 7, 6. *)
Definition heap_two : Zheap :=
  <[5%positive := Node 6 None None (Some 4%positive)]>
    (<[4%positive := Node 7 (Some 5%positive) None None]> heap538).
Definition tree76 : bstree :=
  Tree 1 (Some 4%positive) 2
       (Iterator (Some 5%positive) valid) (Iterator (Some 4%positive) after_end)
       bound_tree_delete.

Definition shape76 : @shape Z := Br (Br Leaf 5%positive 6 Leaf) 4%positive 7 Leaf.

(** The heap and the tree after the inserts 50, 10, 30, 20. *)
Definition heap_zig : Zheap :=
  <[4%positive := Node 20 None None (Some 3%positive)]>
    (<[3%positive := Node 30 (Some 4%positive) None (Some 2%positive)]>
       (<[2%positive := Node 10 None (Some 3%positive) (Some 1%positive)]>
          (<[1%positive := Node 50 (Some 2%positive) None None]> ∅))).
Definition tree_zig : bstree :=
  Tree 0 (Some 1%positive) 4
       (Iterator (Some 2%positive) valid) (Iterator (Some 1%positive) after_end)
       bound_tree_delete.

(** The scenario of the specification: the inserts 5, 3, 8, 1, 4, 7, 9 and
    [erase (5)]. *)
Definition spec_scenario : list (@op Z) :=
  [Insert 5; Insert 3; Insert 8; Insert 1; Insert 4; Insert 7; Insert 9; Erase 5].

(** Keys with a tag that the order does not look at. *)
Definition tagged_lt (x y : Z * Z) : bool := x.1 <? y.1.

(** Sixteen tagged keys: the two keys 5 come first, a smaller key stands
    four places after the first of them. *)
Definition unstable_input : list (Z * Z) :=
  [(5, 0); (5, 1); (6, 2); (7, 3); (1, 4); (8, 5); (9, 6); (10, 7);
   (11, 8); (12, 9); (13, 10); (14, 11); (15, 12); (16, 13); (17, 14); (18, 15)].

(** The elements of a list that have the key [k], in their order. *)
Definition with_key (k : Z) (l : list (Z * Z)) : list (Z * Z) :=
  List.filter (λ x, x.1 =? k) l.

End scenarios.

(** * Facts *)

(** Symbolic execution of a computation on a heap whose cells are given by
    hypotheses. *)
Ltac mrun :=
  repeat (progress (simpl;
    unfold incr, decr, deref, get_value, get_left, get_right, get_parent,
      mbind, M_bind, bind, mret, M_ret, ret, load, timeout, crash,
      iter_neq, iter_eq;
    repeat match goal with
      | H : ?h !! ?a = Some _ |- context [?h !! ?a] => rewrite H
      end)).

Section monad_facts.
Context {S A B : Type}.

Lemma bind_Ret (m : M S A) (k : A → M S B) s x s' :
  m s = Ret (x, s') → (m ≫= k) s = k x s'.
Proof. intros H. unfold mbind, M_bind, bind. by rewrite H. Qed.

Lemma bind_Crash (m : M S A) (k : A → M S B) s f :
  m s = Crash f → (m ≫= k) s = Crash f.
Proof. intros H. unfold mbind, M_bind, bind. by rewrite H. Qed.

Lemma bind_OutOfFuel (m : M S A) (k : A → M S B) s :
  m s = OutOfFuel → (m ≫= k) s = OutOfFuel.
Proof. intros H. unfold mbind, M_bind, bind. by rewrite H. Qed.

Lemma bind_returns (m : M S A) (k : A → M S B) s y :
  (m ≫= k) s = Ret y → ∃ x s', m s = Ret (x, s') ∧ k x s' = Ret y.
Proof.
  unfold mbind, M_bind, bind. destruct (m s) as [[x s']| |]; try discriminate.
  eauto.
Qed.

End monad_facts.

Section iterator_facts.
Context {K : Type}.
Implicit Types (h : gmap addr (@node K)) (nd : @node K).

Lemma load_Some h a nd : h !! a = Some nd → load (Some a) h = Ret (nd, h).
Proof. intros H. unfold load. by rewrite H. Qed.

Lemma load_heap h p nd h' : load p h = Ret (nd, h') → h' = h.
Proof.
  unfold load. destruct p as [a|]; [|discriminate].
  destruct (h !! a); [|discriminate]. by intros [= _ ->].
Qed.

(** The upward loop of [operator--] has no exit. *)
Lemma decr_ascend_no_return fuel : ∀ it n self h,
  ¬ returns (decr_ascend fuel it n self h).
Proof.
  induction fuel as [|f IH]; intros it n self h [x Hx]; [discriminate|].
  simpl in Hx.
  apply bind_returns in Hx as (nd & h1 & Hl & Hx).
  apply load_heap in Hl as ->.
  destruct (parent nd) as [p|]; [|by eapply IH; eexists].
  apply bind_returns in Hx as (pn & h2 & Hl & Hx).
  apply load_heap in Hl as ->.
  destruct (decide _); by eapply IH; eexists.
Qed.

Lemma decr_ascend_outcome fuel it n self h :
  decr_ascend fuel it n self h = OutOfFuel ∨
  ∃ f, decr_ascend fuel it n self h = Crash f.
Proof.
  destruct (decr_ascend fuel it n self h) as [x|f|] eqn:E; [|by eauto|by left].
  destruct (decr_ascend_no_return fuel it n self h). by eexists.
Qed.

(** At a parent that is the root the loop spins in its first branch. *)
Lemma decr_ascend_root h it nd :
  h !! it = Some nd → parent nd = None →
  ∀ fuel n self, decr_ascend fuel it n self h = OutOfFuel.
Proof.
  intros Hit Hp fuel. induction fuel as [|f IH]; intros n self; [done|].
  simpl. rewrite (bind_Ret _ _ _ _ _ (load_Some _ _ _ Hit)), Hp. apply IH.
Qed.

(** At a parent that is a right child the loop spins in its second branch. *)
Lemma decr_ascend_right_child h it nd p pn :
  h !! it = Some nd → parent nd = Some p →
  h !! p = Some pn → right pn = Some it →
  ∀ fuel n self, decr_ascend fuel it n self h = OutOfFuel.
Proof.
  intros Hit Hp Hpn Hr fuel. induction fuel as [|f IH]; intros n self; [done|].
  simpl. rewrite (bind_Ret _ _ _ _ _ (load_Some _ _ _ Hit)), Hp.
  rewrite (bind_Ret _ _ _ _ _ (load_Some _ _ _ Hpn)).
  destruct (decide _) as [_|Hne]; [apply IH | by destruct Hne].
Qed.

(** [operator--] on a node without a left child that is the left child of
    its parent never returns. *)
Lemma decr_left_child_no_return h n nd p pn fuel :
  h !! n = Some nd → left nd = None → parent nd = Some p →
  h !! p = Some pn → right pn ≠ Some n →
  ¬ returns (decr fuel (iterator_of (Some n)) h).
Proof.
  intros Hn Hl Hp Hpn Hr [x Hx]. unfold decr in Hx. simpl in Hx.
  rewrite (bind_Ret _ _ _ _ _ (load_Some _ _ _ Hn)), Hl, Hp in Hx.
  rewrite (bind_Ret _ _ _ _ _ (load_Some _ _ _ Hpn)) in Hx.
  destruct (decide _) as [E|_]; [by destruct Hr|].
  by eapply decr_ascend_no_return; eexists.
Qed.

End iterator_facts.

Section traversal_facts.
Context {K : Type}.
Implicit Types (h : gmap addr (@node K)) (nd : @node K).

Lemma deref_Some h a nd st :
  h !! a = Some nd → deref (Iterator (Some a) st) h = Ret (value nd, h).
Proof.
  intros H. unfold deref. simpl. by rewrite (bind_Ret _ _ _ _ _ (load_Some _ _ _ H)).
Qed.

Lemma incr_after_end h fuel i : incr fuel (Iterator i after_end) h = Ret (Iterator i after_end, h).
Proof. unfold incr. simpl. by destruct i. Qed.

(** An iterator that fell off the end at a node other than the one cached
    in [last] never compares equal to [last]: the loop visits its node for
    ever. *)
Lemma visit_after_end_stuck h a nd (last : bstree_iterator) :
  h !! a = Some nd → iter_eq (Iterator (Some a) after_end) last = false →
  ∀ fuel, visit fuel (Iterator (Some a) after_end) last h = OutOfFuel.
Proof.
  intros Ha Hne fuel. induction fuel as [|f IH]; [done|].
  simpl. unfold iter_neq. rewrite Hne. simpl.
  rewrite (bind_Ret _ _ _ _ _ (deref_Some _ _ _ _ Ha)).
  rewrite (bind_Ret _ _ _ _ _ (incr_after_end _ _ _)).
  by rewrite (bind_OutOfFuel _ _ _ IH).
Qed.

(** A root [n1] whose right child [n2] is a leaf, with the end cache still
    at [n1]: the loop from [begin ()] to [end ()] never ends. *)
Lemma traverse_stale_end h (t : bstree) n1 n2 v1 v2 :
  h !! n1 = Some (Node v1 None (Some n2) None) →
  h !! n2 = Some (Node v2 None None (Some n1)) →
  n1 ≠ n2 →
  _begin t = Iterator (Some n1) valid →
  _end t = Iterator (Some n1) after_end →
  ∀ fuel, traverse fuel t h = OutOfFuel.
Proof.
  intros H1 H2 Hne Hb He fuel. unfold traverse, begin, end_. rewrite Hb, He.
  assert (Hstuck : ∀ f, visit f (Iterator (Some n2) after_end)
                          (Iterator (Some n1) after_end) h = OutOfFuel).
  { apply (visit_after_end_stuck _ _ _ _ H2). unfold iter_eq. simpl.
    apply bool_decide_eq_false. congruence. }
  destruct fuel as [|[|[|f]]]; [done | by mrun | by mrun |].
  mrun. rewrite bool_decide_eq_false_2 by congruence. mrun.
  by rewrite Hstuck.
Qed.

End traversal_facts.

Section insert_end_facts.
Context {K : Type} (key_comp : K → K → bool).
Implicit Types (h : gmap addr (@node K)) (t : bstree).

Lemma insert_left_tail_end p t h t' h' :
  insert_left_tail (K:=K) p t h = Ret (t', h') → _end t' = _end t.
Proof.
  unfold insert_left_tail. destruct (iter_eq _ _).
  - intros H. apply bind_returns in H as (l & h1 & _ & H). by injection H as <- _.
  - by intros [= <- _].
Qed.

(** An end cache in the [after_end] state never compares equal to the
    pointer [parent], which converts to a [valid] iterator: the assignment
    guarded by [parent == this->_end] is dead. *)
Lemma insert_right_tail_end p t h t' h' :
  _state (_end t) = after_end →
  insert_right_tail (K:=K) p t h = Ret (t', h') → _end t' = _end t.
Proof.
  intros Hs. unfold insert_right_tail, iter_eq. simpl. rewrite Hs. simpl.
  by intros [= <- _].
Qed.

Lemma insert_loop_end fuel : ∀ n v t h t' r h',
  _state (_end t) = after_end →
  insert_loop key_comp fuel n v t h = Ret ((t', r), h') → _end t' = _end t.
Proof.
  induction fuel as [|f IH]; intros n v t h t' r h' Hs H; [discriminate|].
  simpl in H. apply bind_returns in H as (nd & h1 & _ & H).
  destruct (key_comp v (value nd)).
  - destruct (left nd) as [l|]; [by eapply IH|].
    apply bind_returns in H as (t1 & h2 & Hi & H).
    apply bind_returns in H as (l & h3 & _ & H). injection H as <- _ _.
    unfold insert_left in Hi.
    apply bind_returns in Hi as (a & h4 & _ & Hi).
    apply bind_returns in Hi as (u & h5 & _ & Hi).
    by eapply insert_left_tail_end.
  - destruct (key_comp (value nd) v); [|by injection H as <- _ _].
    destruct (right nd) as [rr|]; [by eapply IH|].
    apply bind_returns in H as (t1 & h2 & Hi & H).
    apply bind_returns in H as (l & h3 & _ & H). injection H as <- _ _.
    unfold insert_right in Hi.
    apply bind_returns in Hi as (a & h4 & _ & Hi).
    apply bind_returns in Hi as (u & h5 & _ & Hi).
    by eapply insert_right_tail_end.
Qed.

(** On a tree that is not empty [insert] leaves the end cache as it is,
    whatever the key. *)
Lemma insert_end fuel v t h t' r h' :
  _state (_end t) = after_end → _tree_size t ≠ 0 →
  insert key_comp fuel v t h = Ret ((t', r), h') → _end t' = _end t.
Proof.
  intros Hs Hn. unfold insert, empty. rewrite bool_decide_eq_false_2 by done.
  by apply insert_loop_end.
Qed.

End insert_end_facts.

Section scenario_facts.

Lemma heap12_1 : heap12 !! 1%positive = Some (Node 1 None (Some 2%positive) None).
Proof. reflexivity. Qed.
Lemma heap12_2 : heap12 !! 2%positive = Some (Node 2 None None (Some 1%positive)).
Proof. reflexivity. Qed.
Lemma heap21_1 : heap21 !! 1%positive = Some (Node 2 (Some 2%positive) None None).
Proof. reflexivity. Qed.
Lemma heap21_2 : heap21 !! 2%positive = Some (Node 1 None None (Some 1%positive)).
Proof. reflexivity. Qed.

Lemma reached12 : reached [Insert 1; Insert 2] = Ret (tree12, heap12).
Proof. vm_compute. reflexivity. Qed.

Lemma built21 : built [2; 1] = Ret (tree21, heap21).
Proof. vm_compute. reflexivity. Qed.

End scenario_facts.

Section tree_delete_facts.
Context {K : Type}.
Implicit Types (h : gmap addr (@node K)) (nd : @node K) (s : @shape K).

(** A heap that agrees with [h] on the nodes of [s] links [s] as [h] does. *)
Lemma linked_frame s : ∀ h h' p par,
  (∀ b, b ∈ addrs s → h' !! b = h !! b) →
  linked h p par s → linked h' p par s.
Proof.
  induction s as [|l IHl a v r IHr]; intros h h' p par Hag H; [done|].
  destruct H as (-> & nd & Ha & Hv & Hp & Hl & Hr). simpl in Hag.
  split; [done|]. exists nd. rewrite Hag by set_solver.
  repeat split; try done.
  - eapply IHl; [|done]. intros b Hb. apply Hag. set_solver.
  - eapply IHr; [|done]. intros b Hb. apply Hag. set_solver.
Qed.

Lemma linked_None h par s : linked h None par s → s = Leaf.
Proof. destruct s; [done|]. by intros [? _]. Qed.

Lemma linked_cases h p par s :
  linked h p par s →
  (p = None ∧ s = Leaf) ∨
  (∃ a, p = Some a ∧ a ∈ addrs s ∧ enter_cost s = S (walk_cost s)).
Proof.
  destruct s as [|l a v r]; [by left|]. intros [-> _]. right.
  exists a. split; [done|]. split; [|done]. apply list_elem_of_here.
Qed.

Lemma walk_cost_Br (l r : @shape K) a v :
  walk_cost (Br l a v r) = S (enter_cost l + enter_cost r).
Proof. done. Qed.

(** The last iteration at a node: both children are gone, the parent is
    unlinked and the node is deallocated. *)
Lemma tree_delete_leaf h a nd k :
  h !! a = Some nd → left nd = None → right nd = None →
  (∀ pa, parent nd = Some pa → pa ≠ a ∧ is_Some (h !! pa)) →
  ∃ h', tree_delete (S k) (Some a) h = tree_delete k (parent nd) h' ∧
        h' !! a = None ∧
        (∀ b, b ≠ a → Some b ≠ parent nd → h' !! b = h !! b) ∧
        (∀ pa pn, parent nd = Some pa → h !! pa = Some pn →
                  h' !! pa = Some (unlink a pn)).
Proof.
  intros Ha Hl Hr Hpar. cbn [tree_delete].
  rewrite (bind_Ret _ _ _ _ _ (load_Some _ _ _ Ha)), Hl, Hr.
  destruct (parent nd) as [pa|] eqn:Hp.
  - destruct (Hpar pa eq_refl) as [Hne [pn Hpn]].
    exists (delete a (<[pa := unlink a pn]> h)). split; [|split; [|split]].
    + unfold mbind, M_bind, bind, load, modify, deallocate, mret, M_ret, ret, unlink.
      rewrite Hpn.
      repeat case_decide; rewrite ?Hpn; cbn.
      * by rewrite lookup_insert_ne, Ha.
      * by rewrite lookup_insert_ne, Ha.
      * by rewrite Ha, insert_id.
    + apply lookup_delete_eq.
    + intros b Hb Hbp. rewrite lookup_delete_ne, lookup_insert_ne; congruence.
    + intros pa' pn' [= <-] Hpn'. rewrite Hpn in Hpn'. injection Hpn' as <-.
      by rewrite lookup_delete_ne, lookup_insert_eq.
  - exists (delete a h). split; [|split; [|split]].
    + unfold mbind, M_bind, bind, deallocate, mret, M_ret, ret. by rewrite Ha.
    + apply lookup_delete_eq.
    + intros b Hb _. by rewrite lookup_delete_ne.
    + done.
Qed.

(** [tree_delete] entered at the root of a linked subtree deletes the
    subtree, unlinks it from its parent and goes on at the parent. *)
Lemma tree_delete_subtree s : ∀ h a par k,
  linked h (Some a) par s → NoDup (addrs s) →
  (∀ pa, par = Some pa → (pa ∉ addrs s) ∧ is_Some (h !! pa)) →
  ∃ h', tree_delete (walk_cost s + k) (Some a) h = tree_delete k par h' ∧
        (∀ b, b ∈ addrs s → h' !! b = None) ∧
        (∀ b, b ∉ addrs s → Some b ≠ par → h' !! b = h !! b) ∧
        (∀ pa pn, par = Some pa → h !! pa = Some pn →
                  h' !! pa = Some (unlink a pn)).
Proof.
  induction s as [|l IHl a' v r IHr]; intros h a par k Hlk Hnd Hpar.
  { simpl in Hlk. discriminate. }
  destruct Hlk as ([= ->] & nd & Ha & Hv & Hp & Hl & Hr).
  simpl in Hnd. apply NoDup_cons in Hnd as [Hal Hnd].
  apply NoDup_app in Hnd as (Hndl & Hdisj & Hndr).
  apply not_elem_of_app in Hal as [Hal Har].
  rewrite walk_cost_Br.
  (* the left subtree *)
  assert (∃ h1 nd1,
    tree_delete (S (enter_cost l + enter_cost r) + k) (Some a') h
    = tree_delete (S (enter_cost r + k)) (Some a') h1 ∧
    h1 !! a' = Some nd1 ∧ left nd1 = None ∧ right nd1 = right nd ∧
    parent nd1 = par ∧
    (∀ b, b ∈ addrs l → h1 !! b = None) ∧
    (∀ b, b ∉ addrs l → b ≠ a' → h1 !! b = h !! b))
    as (h1 & nd1 & E1 & Ha1 & Hl1 & Hr1 & Hp1 & Hgone1 & Hsame1).
  { destruct (linked_cases _ _ _ _ Hl) as [[Hc ->]|(c & Hc & Hcin & Hcost)].
    - exists h, nd. repeat split; try done.
      intros b Hb. by apply elem_of_nil in Hb.
    - rewrite Hc in Hl.
      destruct (IHl h c (Some a') (S (enter_cost r + k)))
        as (h1 & E & Hgone & Hsame & Hpa); [done | done | |].
      { intros pa [= <-]. split; [done | by eexists]. }
      exists h1, (unlink c nd). split; [|split; [by eapply Hpa|]].
      + rewrite <- E, Hcost.
        replace (S (S (walk_cost l) + enter_cost r) + k)%nat
          with (S (walk_cost l + S (enter_cost r + k)))%nat by lia.
        cbn [tree_delete].
        by rewrite (bind_Ret _ _ _ _ _ (load_Some _ _ _ Ha)), Hc.
      + unfold unlink. rewrite Hc. rewrite decide_True by done.
        repeat split; try done.
        intros b Hb Hne. apply Hsame; [done | congruence]. }
  (* the right subtree *)
  assert (∃ h2 nd2,
    tree_delete (S (enter_cost r + k)) (Some a') h1
    = tree_delete (S k) (Some a') h2 ∧
    h2 !! a' = Some nd2 ∧ left nd2 = None ∧ right nd2 = None ∧
    parent nd2 = par ∧
    (∀ b, b ∈ addrs r → h2 !! b = None) ∧
    (∀ b, b ∉ addrs r → b ≠ a' → h2 !! b = h1 !! b))
    as (h2 & nd2 & E2 & Ha2 & Hl2 & Hr2 & Hp2 & Hgone2 & Hsame2).
  { assert (Hr' : linked h1 (right nd) (Some a') r).
    { eapply linked_frame; [|exact Hr]. intros b Hb. apply Hsame1; [|congruence].
      intros Hbl. by eapply Hdisj. }
    destruct (linked_cases _ _ _ _ Hr') as [[Hc ->]|(c & Hc & Hcin & Hcost)].
    - exists h1, nd1. repeat split; try done; [congruence|].
      intros b Hb. by apply elem_of_nil in Hb.
    - rewrite Hc in Hr'.
      destruct (IHr h1 c (Some a') (S k))
        as (h2 & E & Hgone & Hsame & Hpa); [done | done | |].
      { intros pa [= <-]. split; [done | by eexists]. }
      exists h2, (unlink c nd1). split; [|split; [by eapply Hpa|]].
      + rewrite <- E, Hcost.
        replace (S (S (walk_cost r) + k))%nat
          with (S (walk_cost r + S k))%nat by lia.
        cbn [tree_delete].
        by rewrite (bind_Ret _ _ _ _ _ (load_Some _ _ _ Ha1)), Hl1, Hr1, Hc.
      + unfold unlink. rewrite Hl1, Hr1, Hc.
        rewrite decide_False by done. rewrite decide_True by done.
        repeat split; try done.
        intros b Hb Hne. apply Hsame; [done | congruence]. }
  (* the node itself *)
  destruct (tree_delete_leaf h2 a' nd2 k Ha2 Hl2 Hr2)
    as (h3 & E3 & Hgone3 & Hsame3 & Hpa3).
  { intros pa Hpa. rewrite Hp2 in Hpa. destruct (Hpar pa Hpa) as [Hnin [pn Hpn]].
    apply not_elem_of_cons in Hnin as [Hne Hnin].
    apply not_elem_of_app in Hnin as [Hnl Hnr].
    split; [done|]. exists pn. by rewrite Hsame2, Hsame1. }
  rewrite Hp2 in E3, Hsame3, Hpa3.
  exists h3. split; [by rewrite E1, E2, E3|]. split; [|split].
  - intros b Hb. simpl in Hb. apply elem_of_cons in Hb as [->|Hb]; [done|].
    destruct (decide (Some b = par)) as [Hbp|Hbp].
    + destruct (Hpar b (eq_sym Hbp)) as [Hnin _]. destruct Hnin. by right.
    + rewrite Hsame3; [|by intros ->; apply elem_of_app in Hb as [?|?] | done].
      apply elem_of_app in Hb as [Hb|Hb].
      * rewrite Hsame2; [by apply Hgone1 | | by intros ->].
        intros Hbr. by eapply Hdisj.
      * by apply Hgone2.
  - intros b Hb Hbp. simpl in Hb.
    apply not_elem_of_cons in Hb as [Hne Hb].
    apply not_elem_of_app in Hb as [Hnl Hnr].
    by rewrite Hsame3, Hsame2, Hsame1.
  - intros pa pn Hpa Hpn. destruct (Hpar pa Hpa) as [Hnin _].
    apply not_elem_of_cons in Hnin as [Hne Hnin].
    apply not_elem_of_app in Hnin as [Hnl Hnr].
    apply Hpa3; [done|]. by rewrite Hsame2, Hsame1.
Qed.

End tree_delete_facts.

Section move_walk_facts.
Context {K : Type}.
Implicit Types (h : gmap addr (@node K)) (nd rn : @node K) (s : @shape K).

Lemma fresh_None h : h !! fresh (dom h) = None.
Proof. apply not_elem_of_dom, is_fresh. Qed.

Lemma linked_alive s : ∀ h p par b,
  linked h p par s → b ∈ addrs s → is_Some (h !! b).
Proof.
  induction s as [|l IHl a v r IHr]; intros h p par b H Hb.
  { by apply elem_of_nil in Hb. }
  destruct H as (-> & nd & Ha & _ & _ & Hl & Hr). simpl in Hb.
  apply elem_of_cons in Hb as [->|Hb]; [by eexists|].
  apply elem_of_app in Hb as [Hb|Hb]; eauto.
Qed.

(** The iteration that creates the left child of the result. *)
Lemma move_walk_left h a nd la lnd rw rn f :
  h !! a = Some nd → left nd = Some la → h !! la = Some lnd →
  h !! rw = Some rn → left rn = None → a ≠ rw →
  let a1 := fresh (dom h) in
  move_walk (S f) (Some a) (Some rw) h
  = move_walk f (Some la) (Some a1)
      (<[rw := set_left (Some a1) rn]>
         (<[a1 := Node (value lnd) None None (Some rw)]> h)).
Proof.
  intros Ha Hl Hla Hrw Hrl Hne a1. pose proof (fresh_None h) as Hfresh.
  assert (a1 ≠ rw) by (intros E; unfold a1 in E; rewrite E in Hfresh; congruence).
  assert (a1 ≠ a) by (intros E; unfold a1 in E; rewrite E in Hfresh; congruence).
  cbn [move_walk].
  unfold get_left, get_value, node_create, modify, load, mbind, M_bind, bind,
    mret, M_ret, ret.
  rewrite Ha. cbn. rewrite Hl, Hrw. cbn. rewrite Hrl. cbn. rewrite Hla. cbn. fold a1.
  rewrite (lookup_insert_ne _ a1 rw) by done. rewrite Hrw. cbn.
  rewrite (lookup_insert_ne _ rw a) by done.
  rewrite (lookup_insert_ne _ a1 a) by done. rewrite Ha. cbn. rewrite Hl.
  by rewrite lookup_insert_eq.
Qed.

(** The iteration that creates the right child of the result. *)
Lemma move_walk_right h a nd ra rnd rw rn f :
  h !! a = Some nd → right nd = Some ra → h !! ra = Some rnd →
  h !! rw = Some rn → right rn = None → a ≠ rw →
  left nd = None ∨ left rn ≠ None →
  let a1 := fresh (dom h) in
  move_walk (S f) (Some a) (Some rw) h
  = move_walk f (Some ra) (Some a1)
      (<[rw := set_right (Some a1) rn]>
         (<[a1 := Node (value rnd) None None (Some rw)]> h)).
Proof.
  intros Ha Hr Hra Hrw Hrr Hne Hleft a1. pose proof (fresh_None h) as Hfresh.
  assert (a1 ≠ rw) by (intros E; unfold a1 in E; rewrite E in Hfresh; congruence).
  assert (a1 ≠ a) by (intros E; unfold a1 in E; rewrite E in Hfresh; congruence).
  assert (Hgo : (match left nd with
                 | Some _ => rl ← get_left (Some rw); mret (bool_decide (rl = None))
                 | None => mret false
                 end) h = Ret (false, h)).
  { destruct Hleft as [->|Hrl]; [done|].
    destruct (left nd); [|done].
    unfold get_left, load, mbind, M_bind, bind, mret, M_ret, ret.
    rewrite Hrw. cbn. by rewrite bool_decide_eq_false_2. }
  cbn [move_walk].
  rewrite (bind_Ret _ _ _ _ _ (bind_Ret _ _ _ _ _ (load_Some _ _ _ Ha)
                                 : get_left (Some a) h = _)).
  cbn [mret M_ret ret]. rewrite (bind_Ret _ _ _ _ _ Hgo).
  unfold get_right, get_value, node_create, modify, load, mbind, M_bind, bind,
    mret, M_ret, ret.
  rewrite Ha. cbn. rewrite Hr, Hrw. cbn. rewrite Hrr. cbn. rewrite Hra. cbn.
  fold a1.
  rewrite (lookup_insert_ne _ a1 rw) by done. rewrite Hrw. cbn.
  rewrite (lookup_insert_ne _ rw a) by done.
  rewrite (lookup_insert_ne _ a1 a) by done. rewrite Ha. cbn. rewrite Hr.
  by rewrite lookup_insert_eq.
Qed.

(** The iteration that finds nothing to create and goes up in both trees. *)
Lemma move_walk_up h a nd rw rn f :
  h !! a = Some nd → h !! rw = Some rn →
  left nd = None ∨ left rn ≠ None →
  right nd = None ∨ right rn ≠ None →
  move_walk (S f) (Some a) (Some rw) h = move_walk f (parent nd) (parent rn) h.
Proof.
  intros Ha Hrw Hleft Hright.
  assert (Hgl : (match left nd with
                 | Some _ => rl ← get_left (Some rw); mret (bool_decide (rl = None))
                 | None => mret false
                 end) h = Ret (false, h)).
  { destruct Hleft as [->|Hrl]; [done|].
    destruct (left nd); [|done].
    unfold get_left, load, mbind, M_bind, bind, mret, M_ret, ret.
    rewrite Hrw. cbn. by rewrite bool_decide_eq_false_2. }
  assert (Hgr : (match right nd with
                 | Some _ => rr ← get_right (Some rw); mret (bool_decide (rr = None))
                 | None => mret false
                 end) h = Ret (false, h)).
  { destruct Hright as [->|Hrr]; [done|].
    destruct (right nd); [|done].
    unfold get_right, load, mbind, M_bind, bind, mret, M_ret, ret.
    rewrite Hrw. cbn. by rewrite bool_decide_eq_false_2. }
  cbn [move_walk].
  rewrite (bind_Ret _ _ _ _ _ (bind_Ret _ _ _ _ _ (load_Some _ _ _ Ha)
                                 : get_left (Some a) h = _)).
  cbn [mret M_ret ret]. rewrite (bind_Ret _ _ _ _ _ Hgl).
  rewrite (bind_Ret _ _ _ _ _ (bind_Ret _ _ _ _ _ (load_Some _ _ _ Ha)
                                 : get_right (Some a) h = _)).
  cbn [mret M_ret ret]. rewrite (bind_Ret _ _ _ _ _ Hgr).
  unfold get_parent, load, mbind, M_bind, bind, mret, M_ret, ret.
  by rewrite Ha, Hrw.
Qed.

(** [move_walk] entered at the root of a linked subtree and at a result
    node without children builds a copy of the subtree below the result
    node, out of new nodes, and goes on at the two parents. *)
Lemma move_walk_subtree s : ∀ h a cpar rw rn k,
  linked h (Some a) cpar s →
  h !! rw = Some rn → left rn = None → right rn = None →
  rw ∉ addrs s →
  (∀ nd, h !! a = Some nd → value rn = value nd) →
  ∃ h' s',
    move_walk (walk_cost s + k) (Some a) (Some rw) h
    = move_walk k cpar (parent rn) h' ∧
    linked h' (Some rw) (parent rn) s' ∧ copy_of s s' ∧
    (∀ b, is_Some (h !! b) → b ≠ rw → h' !! b = h !! b) ∧
    (∀ b, b ∈ addrs s' → b = rw ∨ h !! b = None) ∧
    NoDup (addrs s') ∧
    (∀ b, h !! b = None → b ∉ addrs s' → h' !! b = None).
Proof.
  induction s as [|l IHl a' v r IHr]; intros h a cpar rw rn k Hlk Hrw Hrl Hrr Hnin Hval.
  { simpl in Hlk. discriminate. }
  destruct Hlk as ([= ->] & nd & Ha & Hv & Hp & Hl & Hr).
  simpl in Hnin. apply not_elem_of_cons in Hnin as [Hne Hnin].
  apply not_elem_of_app in Hnin as [Hnl Hnr].
  rewrite walk_cost_Br.
  (* the left subtree *)
  assert (∃ h1 rn1 l',
    move_walk (S (enter_cost l + enter_cost r) + k) (Some a') (Some rw) h
    = move_walk (S (enter_cost r + k)) (Some a') (Some rw) h1 ∧
    h1 !! rw = Some rn1 ∧ value rn1 = value rn ∧ parent rn1 = parent rn ∧
    right rn1 = None ∧ (left nd = None ∨ left rn1 ≠ None) ∧
    linked h1 (left rn1) (Some rw) l' ∧ copy_of l l' ∧
    (∀ b, is_Some (h !! b) → b ≠ rw → h1 !! b = h !! b) ∧
    (∀ b, b ∈ addrs l' → h !! b = None) ∧ NoDup (addrs l') ∧
    (∀ b, h !! b = None → b ∉ addrs l' → h1 !! b = None))
    as (h1 & rn1 & l' & E1 & Hrw1 & Hv1 & Hp1 & Hrr1 & Hleft & Hl' & Hcl & Hsame1 & Hnew1 & Hnd1
        & Hdead1).
  { destruct (linked_cases _ _ _ _ Hl) as [[Hc ->]|(c & Hc & Hcin & Hcost)].
    - exists h, rn, Leaf. rewrite Hrl. repeat split; try done; [by left | |].
      + intros b Hb. by apply elem_of_nil in Hb.
      + constructor.
    - rewrite Hc in Hl.
      destruct (linked_alive _ _ _ _ _ Hl Hcin) as [lnd Hlnd].
      pose proof (fresh_None h) as Hfresh.
      set (a1 := fresh (dom h)) in *.
      set (h0 := <[rw := set_left (Some a1) rn]>
                   (<[a1 := Node (value lnd) None None (Some rw)]> h)).
      assert (Ha1rw : a1 ≠ rw) by (intros E; rewrite E in Hfresh; congruence).
      assert (Hh0 : ∀ b, is_Some (h !! b) → b ≠ rw → h0 !! b = h !! b).
      { intros b [x Hb] Hbrw. unfold h0.
        rewrite lookup_insert_ne by done. rewrite lookup_insert_ne; [done|].
        intros <-. congruence. }
      destruct (IHl h0 c (Some a') a1 (Node (value lnd) None None (Some rw))
                  (S (enter_cost r + k)))
        as (h1 & l' & E & Hlk' & Hcp & Hsame & Hnew & Hnd & Hdead); try done.
      { eapply linked_frame; [|exact Hl]. intros b Hb. apply Hh0.
        - exact (linked_alive _ _ _ _ _ Hl Hb).
        - by intros ->. }
      { unfold h0. rewrite lookup_insert_ne by done. apply lookup_insert_eq. }
      { intros Hin. destruct (linked_alive _ _ _ _ _ Hl Hin). congruence. }
      { intros nd' Hnd'. rewrite Hh0 in Hnd'; [| by eexists | by intros ->].
        rewrite Hlnd in Hnd'. by injection Hnd' as <-. }
      cbn [parent] in E, Hlk'.
      exists h1, (set_left (Some a1) rn), l'.
      split; [|split; [|repeat split; try done]].
      + rewrite <- E, Hcost.
        replace (S (S (walk_cost l) + enter_cost r) + k)%nat
          with (S (walk_cost l + S (enter_cost r + k)))%nat by lia.
        by rewrite (move_walk_left h a' nd c lnd rw rn).
      + rewrite Hsame; [apply lookup_insert_eq | | done].
        unfold h0. rewrite lookup_insert_eq. by eexists.
      + by right.
      + intros b Hb Hbrw. rewrite Hsame.
        * by apply Hh0.
        * by rewrite Hh0.
        * intros ->. destruct Hb. congruence.
      + intros b Hb. destruct (Hnew b Hb) as [->|Hb0]; [done|].
        destruct (h !! b) eqn:Eb; [|done].
        destruct (decide (b = rw)) as [->|Hbrw].
        * unfold h0 in Hb0. by rewrite lookup_insert_eq in Hb0.
        * rewrite Hh0 in Hb0; [congruence | by eexists | done].
      + intros b Hb Hbl. apply Hdead; [|done]. unfold h0.
        rewrite lookup_insert_ne by (intros <-; congruence).
        rewrite lookup_insert_ne; [done|]. intros <-. apply Hbl.
        destruct (linked_cases _ _ _ _ Hlk') as [[? _]|(x & [= <-] & Hin & _)]; done. }
  assert (Ha1 : h1 !! a' = Some nd).
  { rewrite Hsame1; [done | by eexists | done]. }
  (* the right subtree *)
  assert (∃ h2 rn2 r',
    move_walk (S (enter_cost r + k)) (Some a') (Some rw) h1
    = move_walk (S k) (Some a') (Some rw) h2 ∧
    h2 !! rw = Some rn2 ∧ value rn2 = value rn1 ∧ parent rn2 = parent rn1 ∧
    left rn2 = left rn1 ∧ (right nd = None ∨ right rn2 ≠ None) ∧
    linked h2 (right rn2) (Some rw) r' ∧ copy_of r r' ∧
    (∀ b, is_Some (h1 !! b) → b ≠ rw → h2 !! b = h1 !! b) ∧
    (∀ b, b ∈ addrs r' → h1 !! b = None) ∧ NoDup (addrs r') ∧
    (∀ b, h1 !! b = None → b ∉ addrs r' → h2 !! b = None))
    as (h2 & rn2 & r' & E2 & Hrw2 & Hv2 & Hp2 & Hl2 & Hright & Hr' & Hcr & Hsame2 & Hnew2 & Hnd2
        & Hdead2).
  { assert (Hr1 : linked h1 (right nd) (Some a') r).
    { eapply linked_frame; [|exact Hr]. intros b Hb. apply Hsame1.
      - exact (linked_alive _ _ _ _ _ Hr Hb).
      - by intros ->. }
    destruct (linked_cases _ _ _ _ Hr1) as [[Hc ->]|(c & Hc & Hcin & Hcost)].
    - exists h1, rn1, Leaf. rewrite Hrr1. repeat split; try done; [by left | |].
      + intros b Hb. by apply elem_of_nil in Hb.
      + constructor.
    - rewrite Hc in Hr1.
      destruct (linked_alive _ _ _ _ _ Hr1 Hcin) as [rnd Hrnd].
      pose proof (fresh_None h1) as Hfresh.
      set (a2 := fresh (dom h1)) in *.
      set (h0 := <[rw := set_right (Some a2) rn1]>
                   (<[a2 := Node (value rnd) None None (Some rw)]> h1)).
      assert (Ha2rw : a2 ≠ rw) by (intros E; rewrite E in Hfresh; congruence).
      assert (Hh0 : ∀ b, is_Some (h1 !! b) → b ≠ rw → h0 !! b = h1 !! b).
      { intros b [x Hb] Hbrw. unfold h0.
        rewrite lookup_insert_ne by done. rewrite lookup_insert_ne; [done|].
        intros <-. congruence. }
      destruct (IHr h0 c (Some a') a2 (Node (value rnd) None None (Some rw))
                  (S k))
        as (h2 & r' & E & Hlk' & Hcp & Hsame & Hnew & Hnd & Hdead); try done.
      { eapply linked_frame; [|exact Hr1]. intros b Hb. apply Hh0.
        - exact (linked_alive _ _ _ _ _ Hr1 Hb).
        - by intros ->. }
      { unfold h0. rewrite lookup_insert_ne by done. apply lookup_insert_eq. }
      { intros Hin. destruct (linked_alive _ _ _ _ _ Hr1 Hin). congruence. }
      { intros nd' Hnd'. rewrite Hh0 in Hnd'; [| by eexists | by intros ->].
        rewrite Hrnd in Hnd'. by injection Hnd' as <-. }
      cbn [parent] in E, Hlk'.
      exists h2, (set_right (Some a2) rn1), r'.
      split; [|split; [|repeat split; try done]].
      + rewrite <- E, Hcost.
        replace (S (S (walk_cost r) + k))%nat
          with (S (walk_cost r + S k))%nat by lia.
        by rewrite (move_walk_right h1 a' nd c rnd rw rn1).
      + rewrite Hsame; [apply lookup_insert_eq | | done].
        unfold h0. rewrite lookup_insert_eq. by eexists.
      + by right.
      + intros b Hb Hbrw. rewrite Hsame.
        * by apply Hh0.
        * by rewrite Hh0.
        * intros ->. destruct Hb. congruence.
      + intros b Hb. destruct (Hnew b Hb) as [->|Hb0]; [done|].
        destruct (h1 !! b) eqn:Eb; [|done].
        destruct (decide (b = rw)) as [->|Hbrw].
        * unfold h0 in Hb0. by rewrite lookup_insert_eq in Hb0.
        * rewrite Hh0 in Hb0; [congruence | by eexists | done].
      + intros b Hb Hbr. apply Hdead; [|done]. unfold h0.
        rewrite lookup_insert_ne by (intros <-; congruence).
        rewrite lookup_insert_ne; [done|]. intros <-. apply Hbr.
        destruct (linked_cases _ _ _ _ Hlk') as [[? _]|(x & [= <-] & Hin & _)]; done. }
  assert (Ha2 : h2 !! a' = Some nd).
  { rewrite Hsame2; [done | by eexists | done]. }
  (* up *)
  exists h2, (Br l' rw (value rn2) r').
  assert (Hl2' : linked h2 (left rn2) (Some rw) l').
  { rewrite Hl2. eapply linked_frame; [|exact Hl']. intros b Hb. apply Hsame2.
    - exact (linked_alive _ _ _ _ _ Hl' Hb).
    - intros ->. apply Hnew1 in Hb. congruence. }
  split; [|split; [|split; [|split; [|split; [|split]]]]].
  - rewrite E1, E2. rewrite (move_walk_up h2 a' nd rw rn2); try done.
    + by rewrite Hp, Hp2, Hp1.
    + by rewrite Hl2.
  - split; [done|]. exists rn2. rewrite Hp2, Hp1. by repeat split.
  - simpl. split; [|done]. rewrite Hv2, Hv1, (Hval _ Ha). done.
  - intros b Hb Hbrw. rewrite Hsame2; [by apply Hsame1 | | done].
    by rewrite Hsame1.
  - intros b Hb. simpl in Hb. apply elem_of_cons in Hb as [->|Hb]; [by left|].
    right. apply elem_of_app in Hb as [Hb|Hb]; [by apply Hnew1|].
    apply Hnew2 in Hb. destruct (h !! b) eqn:Eb; [|done].
    destruct (decide (b = rw)) as [->|Hbrw]; [congruence|].
    rewrite Hsame1 in Hb; [congruence | by eexists | done].
  - simpl. apply NoDup_cons. split.
    + intros Hin. apply elem_of_app in Hin as [Hin|Hin].
      * apply Hnew1 in Hin. congruence.
      * apply Hnew2 in Hin. congruence.
    + apply NoDup_app. split; [done|]. split; [|done].
      intros b Hbl Hbr. apply Hnew2 in Hbr.
      destruct (linked_alive _ _ _ _ _ Hl' Hbl). congruence.
  - intros b Hb Hbn. simpl in Hbn. apply not_elem_of_cons in Hbn as [_ Hbn].
    apply not_elem_of_app in Hbn as [Hbl Hbr]. apply Hdead2; [|done].
    by apply Hdead1.
Qed.

Lemma tree_delete_None fuel h : tree_delete (K:=K) fuel None h = Ret ((), h).
Proof. by destruct fuel. Qed.

Lemma move_walk_None fuel rw h : move_walk (K:=K) fuel None rw h = Ret ((), h).
Proof. by destruct fuel. Qed.

Lemma copy_of_walk_cost s : ∀ s', copy_of s s' → walk_cost s' = walk_cost s.
Proof.
  induction s as [|l IHl a v r IHr]; intros [|l' a' v' r'] H; try done.
  destruct H as (_ & Hl & Hr). rewrite !walk_cost_Br. f_equal.
  assert (El : enter_cost l' = enter_cost l).
  { specialize (IHl _ Hl). destruct l, l'; try done. unfold enter_cost. by rewrite IHl. }
  assert (Er : enter_cost r' = enter_cost r).
  { specialize (IHr _ Hr). destruct r, r'; try done. unfold enter_cost. by rewrite IHr. }
  by rewrite El, Er.
Qed.

Lemma copy_of_nodes s : ∀ s', copy_of s s' → nodes s' = nodes s.
Proof.
  induction s as [|l IHl a v r IHr]; intros [|l' a' v' r'] H; try done.
  destruct H as (_ & Hl & Hr). simpl. by rewrite (IHl _ Hl), (IHr _ Hr).
Qed.

Lemma height_walk_cost s : (height s ≤ walk_cost s)%nat.
Proof.
  induction s as [|l IHl a v r IHr]; [done|]. rewrite walk_cost_Br. simpl.
  unfold enter_cost. destruct l, r; simpl in *; lia.
Qed.

(** The descents to the leftmost and to the rightmost node end. *)
Lemma walk_left_linked s : ∀ h a par fuel,
  linked h (Some a) par s → (height s ≤ fuel)%nat →
  ∃ m, walk_left fuel a h = Ret (m, h).
Proof.
  induction s as [|l IHl a' v r IHr]; intros h a par fuel Hlk Hf.
  { simpl in Hlk. discriminate. }
  destruct Hlk as ([= ->] & nd & Ha & _ & _ & Hl & _).
  destruct fuel as [|f]; [simpl in Hf; lia|]. simpl in Hf. cbn [walk_left].
  rewrite (bind_Ret _ _ _ _ _ (load_Some _ _ _ Ha)).
  destruct (left nd) as [c|] eqn:Ec; [|by eexists].
  eapply IHl; [done | lia].
Qed.

Lemma walk_right_linked s : ∀ h a par fuel,
  linked h (Some a) par s → (height s ≤ fuel)%nat →
  ∃ m, walk_right fuel a h = Ret (m, h).
Proof.
  induction s as [|l IHl a' v r IHr]; intros h a par fuel Hlk Hf.
  { simpl in Hlk. discriminate. }
  destruct Hlk as ([= ->] & nd & Ha & _ & _ & _ & Hr).
  destruct fuel as [|f]; [simpl in Hf; lia|]. simpl in Hf. cbn [walk_right].
  rewrite (bind_Ret _ _ _ _ _ (load_Some _ _ _ Ha)).
  destruct (right nd) as [c|] eqn:Ec; [|by eexists].
  eapply IHr; [done | lia].
Qed.

(** [clear] on a linked tree returns and deallocates the nodes of the tree
    and no other. *)
Lemma clear_linked h (t : bstree) s fuel :
  _tree_deleter t = bound_tree_delete →
  linked h (_tree_root t) None s → NoDup (addrs s) →
  (walk_cost s ≤ fuel)%nat →
  ∃ h', clear fuel t h
        = Ret (Tree (_node_alloc t) None 0 iterator_default iterator_default
                    bound_tree_delete, h') ∧
        (∀ b, b ∈ addrs s → h' !! b = None) ∧
        (∀ b, b ∉ addrs s → h' !! b = h !! b).
Proof.
  intros Hd Hlk Hnd Hf. unfold clear, root_reset. cbn [with_size with_begin with_end
    _tree_root _node_alloc _tree_deleter]. rewrite Hd.
  destruct (linked_cases _ _ _ _ Hlk) as [[Hc ->]|(c & Hc & Hcin & _)].
  - exists h. rewrite Hc. unfold with_root. cbn. rewrite Hd.
    split; [done|]. split; [|done]. intros b Hb. by apply elem_of_nil in Hb.
  - rewrite Hc in Hlk |- *. cbn [call_deleter].
    destruct (tree_delete_subtree s h c None (fuel - walk_cost s) Hlk Hnd)
      as (h' & E & Hgone & Hsame & _); [done|].
    replace (walk_cost s + (fuel - walk_cost s))%nat with fuel in E by lia.
    rewrite tree_delete_None in E.
    exists h'. rewrite (bind_Ret _ _ _ _ _ E).
    split; [unfold with_root; cbn; by rewrite Hd|]. split; [done|].
    intros b Hb. by apply Hsame.
Qed.

(** [move_from] on a linked tree returns a linked copy made of new nodes
    and leaves the nodes that were there as they are. *)
Lemma move_from_linked h root s fuel :
  linked h root None s → (walk_cost s ≤ fuel)%nat →
  ∃ h' r s', move_from fuel root h = Ret (r, h') ∧
    linked h' r None s' ∧ copy_of s s' ∧
    (∀ b, is_Some (h !! b) → h' !! b = h !! b) ∧
    (∀ b, b ∈ addrs s' → h !! b = None) ∧ NoDup (addrs s') ∧
    (∀ b, h !! b = None → b ∉ addrs s' → h' !! b = None).
Proof.
  intros Hlk Hf. unfold move_from.
  destruct (linked_cases _ _ _ _ Hlk) as [[Hc ->]|(c & Hc & Hcin & _)].
  - exists h, None, Leaf. rewrite Hc. repeat split; try done.
    + intros b Hb. by apply elem_of_nil in Hb.
    + constructor.
  - rewrite Hc in Hlk |- *.
    destruct (linked_alive _ _ _ _ _ Hlk Hcin) as [nd Hnd].
    pose proof (fresh_None h) as Hfresh.
    set (a1 := fresh (dom h)) in *.
    set (h0 := <[a1 := Node (value nd) None None None]> h).
    assert (Hh0 : ∀ b, is_Some (h !! b) → h0 !! b = h !! b).
    { intros b [x Hb]. unfold h0. rewrite lookup_insert_ne; [done|].
      intros <-. congruence. }
    destruct (move_walk_subtree s h0 c None a1 (Node (value nd) None None None)
                (fuel - walk_cost s))
      as (h' & s' & E & Hlk' & Hcp & Hsame & Hnew & Hnd' & Hdead); try done.
    { eapply linked_frame; [|exact Hlk]. intros b Hb. apply Hh0.
      exact (linked_alive _ _ _ _ _ Hlk Hb). }
    { apply lookup_insert_eq. }
    { intros Hin. destruct (linked_alive _ _ _ _ _ Hlk Hin). congruence. }
    { intros nd' Hnd''. rewrite Hh0 in Hnd'' by (by eexists).
      rewrite Hnd in Hnd''. by injection Hnd'' as <-. }
    replace (walk_cost s + (fuel - walk_cost s))%nat with fuel in E by lia.
    cbn [parent] in E, Hlk'. rewrite move_walk_None in E.
    exists h', (Some a1), s'. split; [|repeat split; try done].
    + unfold get_value, node_create, load, mbind, M_bind, bind, mret, M_ret, ret.
      rewrite Hnd. cbn. fold a1. fold h0. by rewrite E.
    + intros b Hb. rewrite Hsame; [by apply Hh0 | by rewrite Hh0 |].
      intros ->. destruct Hb. congruence.
    + intros b Hb. destruct (Hnew b Hb) as [->|Hb0]; [done|].
      destruct (h !! b) eqn:Eb; [|done].
      rewrite Hh0 in Hb0; [congruence | by eexists].
    + intros b Hb Hbn. apply Hdead; [|done]. unfold h0.
      rewrite lookup_insert_ne; [done|]. intros <-. apply Hbn.
      destruct (linked_cases _ _ _ _ Hlk') as [[? _]|(x & [= <-] & Hin & _)]; done.
Qed.

Lemma root_reset_None fuel p (t : bstree) h :
  _tree_root t = None → root_reset (K:=K) fuel p t h = Ret (with_root p t, h).
Proof.
  intros Ht. unfold root_reset. by rewrite Ht.
Qed.

Lemma root_assign_None fuel p (t : bstree) h :
  _tree_root t = None →
  root_assign (K:=K) fuel p t h = Ret (with_deleter bound_tree_delete (with_root p t), h).
Proof.
  intros Ht. unfold root_assign. by rewrite (bind_Ret _ _ _ _ _ (root_reset_None fuel p t h Ht)).
Qed.

Lemma set_iterators_linked h (t : bstree) s fuel :
  linked h (_tree_root t) None s → _tree_size t = Z.of_nat (nodes s) →
  (height s ≤ fuel)%nat →
  ∃ t', set_iterators fuel t h = Ret (t', h).
Proof.
  intros Hlk Hsize Hf. unfold set_iterators.
  destruct (linked_cases _ _ _ _ Hlk) as [[Hc ->]|(c & Hc & Hcin & _)].
  - rewrite bool_decide_eq_false_2; [by eexists|]. rewrite Hsize. simpl. lia.
  - rewrite Hc in Hlk |- *. destruct (bool_decide _); [|by eexists].
    destruct (walk_left_linked _ _ _ _ _ Hlk Hf) as [m Hm].
    destruct (walk_right_linked _ _ _ _ _ Hlk Hf) as [m' Hm'].
    rewrite (bind_Ret _ _ _ _ _ Hm), (bind_Ret _ _ _ _ _ Hm'). by eexists.
Qed.

(** The move assignment returns on two linked trees that share no node,
    with fuel for the walks over both. *)
Lemma move_assign_returns propagate h (this other : bstree) st so fuel :
  _tree_deleter this = bound_tree_delete → _tree_deleter other = bound_tree_delete →
  linked h (_tree_root this) None st → linked h (_tree_root other) None so →
  NoDup (addrs st ++ addrs so) →
  _tree_size other = Z.of_nat (nodes so) →
  (walk_cost st ≤ fuel)%nat → (walk_cost so ≤ fuel)%nat →
  returns (move_assign propagate fuel this other h).
Proof.
  intros Hdt Hdo Hst Hso Hnd Hsize Hft Hfo.
  apply NoDup_app in Hnd as (Hndt & Hdisj & Hndo).
  destruct (clear_linked h this st fuel Hdt Hst Hndt Hft) as (h1 & Ec & Hgone & Hsame).
  unfold move_assign.
  destruct propagate; [rewrite (bind_Ret _ _ _ _ _ Ec); by eexists|].
  destruct (bool_decide _); [|rewrite (bind_Ret _ _ _ _ _ Ec); by eexists].
  rewrite (bind_Ret _ _ _ _ _ Ec).
  assert (Hso1 : linked h1 (_tree_root other) None so).
  { eapply linked_frame; [|exact Hso]. intros b Hb. apply Hsame.
    intros Hbt. by eapply Hdisj. }
  destruct (move_from_linked h1 _ so fuel Hso1 Hfo)
    as (h2 & r & so' & Em & Hlk' & Hcp & Hsame2 & Hnew2 & Hnd2 & _).
  rewrite (bind_Ret _ _ _ _ _ Em).
  rewrite (bind_Ret _ _ _ _ _
             (root_assign_None fuel r
                (Tree (_node_alloc this) None 0 iterator_default iterator_default
                      bound_tree_delete)
                h2 eq_refl)).
  destruct (set_iterators_linked h2
              (with_size (_tree_size other)
                 (with_deleter bound_tree_delete
                    (with_root r (Tree (_node_alloc this) None 0
                                    iterator_default iterator_default
                                    bound_tree_delete))))
              so' fuel) as [t' Es].
  { done. }
  { cbn. by rewrite (copy_of_nodes _ _ Hcp). }
  { pose proof (height_walk_cost so'). rewrite (copy_of_walk_cost _ _ Hcp) in *. lia. }
  rewrite (bind_Ret _ _ _ _ _ Es).
  destruct (clear_linked h2 other so fuel) as (h3 & Ec' & _); [done| |done|done|].
  { eapply linked_frame; [|exact Hso1]. intros b Hb. apply Hsame2.
    exact (linked_alive _ _ _ _ _ Hso1 Hb). }
  rewrite (bind_Ret _ _ _ _ _ Ec'). by eexists.
Qed.

(** So does the assignment of a linked tree to itself. *)
Lemma move_assign_self_returns h (this : bstree) st fuel :
  _tree_deleter this = bound_tree_delete →
  linked h (_tree_root this) None st → NoDup (addrs st) →
  (walk_cost st ≤ fuel)%nat →
  returns (move_assign_self fuel this h).
Proof.
  intros Hd Hst Hnd Hf.
  destruct (clear_linked h this st fuel Hd Hst Hnd Hf) as (h1 & E & _).
  unfold move_assign_self. rewrite E. by eexists.
Qed.

End move_walk_facts.

Section insert_facts.
Context {K : Type} (key_comp : K → K → bool).
Implicit Types (h : gmap addr (@node K)) (t : bstree) (s : @shape K).

Lemma linked_rep s : ∀ h p par, linked h p par s → rep h p s.
Proof.
  induction s as [|l IHl a v r IHr]; intros h p par H; [done|].
  destruct H as (-> & nd & Ha & Hv & _ & Hl & Hr).
  split; [done|]. exists nd. split; [done|]. split; [done|]. split; eauto.
Qed.

Lemma shape_insert_addrs v a s b :
  b ∈ addrs (shape_insert key_comp v a s) → b = a ∨ b ∈ addrs s.
Proof.
  induction s as [|l IHl c x r IHr]; simpl.
  { intros Hb. apply elem_of_cons in Hb as [->|Hb]; [by left|].
    by apply elem_of_nil in Hb. }
  destruct (key_comp v x); [|destruct (key_comp x v)]; simpl; intros Hb.
  - apply elem_of_cons in Hb as [->|Hb]; [right; apply list_elem_of_here|].
    apply elem_of_app in Hb as [Hb|Hb].
    + destruct (IHl Hb) as [->|Hl]; [by left|]. right.
      apply elem_of_cons. right. apply elem_of_app. by left.
    + right. apply elem_of_cons. right. apply elem_of_app. by right.
  - apply elem_of_cons in Hb as [->|Hb]; [right; apply list_elem_of_here|].
    apply elem_of_app in Hb as [Hb|Hb].
    + right. apply elem_of_cons. right. apply elem_of_app. by left.
    + destruct (IHr Hb) as [->|Hr]; [by left|]. right.
      apply elem_of_cons. right. apply elem_of_app. by right.
  - by right.
Qed.

Lemma shape_insert_NoDup v a s :
  NoDup (addrs s) → a ∉ addrs s → NoDup (addrs (shape_insert key_comp v a s)).
Proof.
  induction s as [|l IHl c x r IHr]; simpl; intros Hnd Ha.
  { apply NoDup_singleton. }
  apply NoDup_cons in Hnd as [Hc Hnd].
  apply NoDup_app in Hnd as (Hl & Hdisj & Hr).
  apply not_elem_of_cons in Ha as [Hac Ha].
  apply not_elem_of_app in Ha as [Hal Har].
  apply not_elem_of_app in Hc as [Hcl Hcr].
  destruct (key_comp v x); [|destruct (key_comp x v)]; simpl.
  - apply NoDup_cons. split.
    + intros Hin. apply elem_of_app in Hin as [Hin|Hin]; [|done].
      destruct (shape_insert_addrs _ _ _ _ Hin) as [->|?]; done.
    + apply NoDup_app. split; [by apply IHl|]. split; [|done].
      intros b Hb Hbr. destruct (shape_insert_addrs _ _ _ _ Hb) as [->|Hbl]; [done|].
      by eapply Hdisj.
  - apply NoDup_cons. split.
    + intros Hin. apply elem_of_app in Hin as [Hin|Hin]; [done|].
      destruct (shape_insert_addrs _ _ _ _ Hin) as [->|?]; done.
    + apply NoDup_app. split; [done|]. split; [|by apply IHr].
      intros b Hbl Hb. destruct (shape_insert_addrs _ _ _ _ Hb) as [->|Hbr]; [done|].
      by eapply Hdisj.
  - apply NoDup_cons. split; [by apply not_elem_of_app|].
    by apply NoDup_app.
Qed.

Lemma shape_insert_Forall (P : K → Prop) v a s :
  P v → Forall P (keys s) → Forall P (keys (shape_insert key_comp v a s)).
Proof.
  intros Hv. induction s as [|l IHl c x r IHr]; simpl; intros H.
  { by repeat constructor. }
  apply Forall_app in H as [Hl H]. apply Forall_cons in H as [Hx Hr].
  destruct (key_comp v x); [|destruct (key_comp x v)]; simpl;
    apply Forall_app; (split; [|apply Forall_cons; split]); auto.
Qed.

Lemma shape_insert_bst v a s : bst key_comp s → bst key_comp (shape_insert key_comp v a s).
Proof.
  induction s as [|l IHl c x r IHr]; simpl; [by repeat split|].
  intros (Hl & Hr & Hlt & Hgt).
  destruct (key_comp v x) eqn:Hvx; [|destruct (key_comp x v) eqn:Hxv]; simpl.
  - repeat split; auto. by apply shape_insert_Forall.
  - repeat split; auto. by apply shape_insert_Forall.
  - by repeat split.
Qed.

Lemma shape_insert_nodes v a s :
  nodes (shape_insert key_comp v a s) = nodes s ∨
  nodes (shape_insert key_comp v a s) = S (nodes s).
Proof.
  induction s as [|l IHl c x r IHr]; simpl; [by right|].
  destruct (key_comp v x); [|destruct (key_comp x v)]; simpl; lia.
Qed.

(** [insert_left] and [insert_right] at a node that is there: the new leaf
    takes a new address and the node gets it as its child. *)
Lemma insert_left_spec h b nd v t :
  h !! b = Some nd →
  let a := fresh (dom h) in
  ∃ t', insert_left (Some b) v t h
        = Ret (t', <[b := set_left (Some a) nd]>
                     (<[a := Node v None None (Some b)]> h)) ∧
        _tree_root t' = _tree_root t ∧
        _tree_size t' = size_t (_tree_size t + 1).
Proof.
  intros Hb a. pose proof (fresh_None h) as Hfresh. fold a in Hfresh.
  assert (a ≠ b) by (intros E; rewrite E in Hfresh; congruence).
  unfold insert_left, insert_left_tail, node_create, modify, get_left, load,
    mbind, M_bind, bind, mret, M_ret, ret.
  fold a. rewrite lookup_insert_ne by done. rewrite Hb.
  destruct (iter_eq _ _); [rewrite lookup_insert_eq|]; by eexists.
Qed.

Lemma insert_right_spec h b nd v t :
  h !! b = Some nd →
  let a := fresh (dom h) in
  ∃ t', insert_right (Some b) v t h
        = Ret (t', <[b := set_right (Some a) nd]>
                     (<[a := Node v None None (Some b)]> h)) ∧
        _tree_root t' = _tree_root t ∧
        _tree_size t' = size_t (_tree_size t + 1).
Proof.
  intros Hb a. pose proof (fresh_None h) as Hfresh. fold a in Hfresh.
  assert (a ≠ b) by (intros E; rewrite E in Hfresh; congruence).
  unfold insert_right, insert_right_tail, node_create, modify, get_right, load,
    mbind, M_bind, bind, mret, M_ret, ret.
  fold a. rewrite lookup_insert_ne by done. rewrite Hb.
  destruct (iter_eq _ _); [rewrite lookup_insert_eq|]; by eexists.
Qed.

(** The descent of [insert] on a linked search tree returns and leaves the
    tree with the new leaf, linked as before. *)
Lemma insert_loop_linked s : ∀ fuel p par v t h,
  linked h p par s → s ≠ Leaf → NoDup (addrs s) → (height s ≤ fuel)%nat →
  0 ≤ _tree_size t → _tree_size t + 1 < 2 ^ 64 →
  let a := fresh (dom h) in
  let s' := shape_insert key_comp v a s in
  ∃ t' r h', insert_loop key_comp fuel p v t h = Ret ((t', r), h') ∧
    linked h' p par s' ∧
    (∀ b, b ∉ addrs s → b ≠ a → h' !! b = h !! b) ∧
    _tree_root t' = _tree_root t ∧
    _tree_size t' = _tree_size t + Z.of_nat (nodes s') - Z.of_nat (nodes s).
Proof.
  induction s as [|l IHl b x r IHr]; intros fuel p par v t h Hlk Hne Hnd Hf Hs0 Hs1 a s'.
  { done. }
  destruct Hlk as (-> & nd & Hb & Hv & Hp & Hl & Hr).
  simpl in Hnd. apply NoDup_cons in Hnd as [Hbn Hnd].
  apply NoDup_app in Hnd as (Hndl & Hdisj & Hndr).
  apply not_elem_of_app in Hbn as [Hbl Hbr].
  destruct fuel as [|f]; [simpl in Hf; lia|]. simpl in Hf.
  pose proof (fresh_None h) as Hfresh. fold a in Hfresh.
  assert (Hab : a ≠ b) by (intros E; rewrite E in Hfresh; congruence).
  assert (Halive : ∀ c q pr u, linked h q pr u → c ∈ addrs u → c ≠ a).
  { intros c q pr u Hu Hc ->. destruct (linked_alive _ _ _ _ _ Hu Hc). congruence. }
  cbn [insert_loop]. rewrite (bind_Ret _ _ _ _ _ (load_Some _ _ _ Hb)), Hv.
  unfold s'. cbn [shape_insert].
  destruct (key_comp v x) eqn:Hvx; [|destruct (key_comp x v) eqn:Hxv].
  - (* to the left *)
    destruct (left nd) as [c|] eqn:Ec.
    + destruct (IHl f (Some c) (Some b) v t h) as (t' & it & h' & E & Hlk' & Hfr & Hroot & Hsize);
        try done; [by intros -> | lia |].
      exists t', it, h'. split; [done|]. split; [|split; [|split; [done|]]].
      * split; [done|]. exists nd.
        rewrite Hfr by done. rewrite Ec. repeat split; try done.
        eapply linked_frame; [|exact Hr]. intros c' Hc'. apply Hfr.
        -- intros Hin. by eapply Hdisj.
        -- exact (Halive _ _ _ _ Hr Hc').
      * intros c' Hc' Hc'a. apply Hfr; [|done].
        intros Hin. apply Hc'. simpl. apply elem_of_cons. right.
        apply elem_of_app. by left.
      * rewrite Hsize. unfold a. cbn [nodes]. lia.
    + apply linked_None in Hl as ->.
      destruct (insert_left_spec h b nd v t Hb) as (t' & E & Hroot & Hsize).
      fold a in E. rewrite (bind_Ret _ _ _ _ _ E).
      eexists t', _, _. split.
      { unfold get_left, load, mbind, M_bind, bind, mret, M_ret, ret.
        rewrite lookup_insert_eq. reflexivity. }
      split; [|split; [|split; [done|]]].
      * split; [done|]. eexists. rewrite lookup_insert_eq.
        split; [done|]. repeat split; try done.
        -- cbn. eexists. rewrite lookup_insert_ne by done.
           rewrite lookup_insert_eq. by repeat split.
        -- cbn. eapply linked_frame; [|exact Hr]. intros c' Hc'.
           rewrite lookup_insert_ne by (by intros <-).
           rewrite lookup_insert_ne; [done|]. intros <-.
           by eapply Halive.
      * intros c' Hc' Hc'a. simpl in Hc'. apply not_elem_of_cons in Hc' as [? _].
        by rewrite !lookup_insert_ne.
      * rewrite Hsize. unfold size_t. rewrite Z.mod_small by lia. cbn [nodes shape_insert]. lia.
  - (* to the right *)
    destruct (right nd) as [c|] eqn:Ec.
    + destruct (IHr f (Some c) (Some b) v t h) as (t' & it & h' & E & Hlk' & Hfr & Hroot & Hsize);
        try done; [by intros -> | lia |].
      exists t', it, h'. split; [done|]. split; [|split; [|split; [done|]]].
      * split; [done|]. exists nd.
        rewrite Hfr by done. rewrite Ec. repeat split; try done.
        eapply linked_frame; [|exact Hl]. intros c' Hc'. apply Hfr.
        -- intros Hin. by eapply Hdisj.
        -- exact (Halive _ _ _ _ Hl Hc').
      * intros c' Hc' Hc'a. apply Hfr; [|done].
        intros Hin. apply Hc'. simpl. apply elem_of_cons. right.
        apply elem_of_app. by right.
      * rewrite Hsize. unfold a. cbn [nodes]. lia.
    + apply linked_None in Hr as ->.
      destruct (insert_right_spec h b nd v t Hb) as (t' & E & Hroot & Hsize).
      fold a in E. rewrite (bind_Ret _ _ _ _ _ E).
      eexists t', _, _. split.
      { unfold get_right, load, mbind, M_bind, bind, mret, M_ret, ret.
        rewrite lookup_insert_eq. reflexivity. }
      split; [|split; [|split; [done|]]].
      * split; [done|]. eexists. rewrite lookup_insert_eq.
        split; [done|]. repeat split; try done.
        -- cbn. eapply linked_frame; [|exact Hl]. intros c' Hc'.
           rewrite lookup_insert_ne by (by intros <-).
           rewrite lookup_insert_ne; [done|]. intros <-.
           by eapply Halive.
        -- cbn. eexists. rewrite lookup_insert_ne by done.
           rewrite lookup_insert_eq. by repeat split.
      * intros c' Hc' Hc'a. simpl in Hc'. apply not_elem_of_cons in Hc' as [? _].
        by rewrite !lookup_insert_ne.
      * rewrite Hsize. unfold size_t. rewrite Z.mod_small by lia. cbn [nodes shape_insert]. lia.
  - (* the key is there *)
    eexists t, _, h. split; [reflexivity|]. split; [|split; [done|split; [done|lia]]].
    split; [done|]. exists nd. by repeat split.
Qed.

Lemma make_root_spec fuel (v : K) t h :
  _tree_root t = None →
  let a := fresh (dom h) in
  make_root fuel v t h
  = Ret (Tree (_node_alloc t) (Some a) 1 (Iterator (Some a) valid)
              (Iterator (Some a) after_end) (_tree_deleter t),
         <[a := Node v None None None]> h).
Proof.
  intros Hroot a. unfold make_root, node_create, root_reset,
    mbind, M_bind, bind, mret, M_ret, ret.
  rewrite Hroot. by destruct fuel.
Qed.

Lemma height_nodes s : (height s ≤ nodes s)%nat.
Proof. induction s as [|l IHl b x r IHr]; simpl; lia. Qed.

Lemma sound_well_formed h t s : sound key_comp h t s → well_formed key_comp h t s.
Proof. intros (Hlk & _ & Hbst & Hsize). split; [by eapply linked_rep | done]. Qed.

(** [insert] on a sound tree returns and leaves a sound tree: the one with
    the new leaf, or the same when the key is there. *)
Lemma insert_sound h t s v fuel :
  sound key_comp h t s → _tree_size t + 1 < 2 ^ 64 → (height s ≤ fuel)%nat →
  ∃ t' r h', insert key_comp fuel v t h = Ret ((t', r), h') ∧
             sound key_comp h' t' (shape_insert key_comp v (fresh (dom h)) s).
Proof.
  intros (Hlk & Hnd & Hbst & Hsize) Hmax Hf. unfold insert, empty.
  pose proof (fresh_None h) as Hfresh.
  destruct (linked_cases _ _ _ _ Hlk) as [[Hroot ->]|(c & Hroot & Hcin & _)].
  - rewrite bool_decide_eq_true_2 by done.
    rewrite (bind_Ret _ _ _ _ _ (make_root_spec _ _ _ _ Hroot)).
    eexists _, _, _. split; [reflexivity|]. cbn.
    split; [|split; [apply NoDup_singleton | by repeat split]].
    split; [done|]. eexists. rewrite lookup_insert_eq. by repeat split.
  - assert (Hs : s ≠ Leaf) by (intros ->; by apply elem_of_nil in Hcin).
    rewrite bool_decide_eq_false_2
      by (rewrite Hsize; destruct s; [done | simpl; lia]).
    destruct (insert_loop_linked s fuel (_tree_root t) None v t h)
      as (t' & r & h' & E & Hlk' & _ & Hroot' & Hsize'); try done; [lia|].
    exists t', r, h'. split; [done|]. split; [by rewrite Hroot'|].
    split; [|split; [by apply shape_insert_bst | lia]].
    apply shape_insert_NoDup; [done|]. intros Hin.
    destruct (linked_alive _ _ _ _ _ Hlk Hin). congruence.
Qed.

(** [insert (first, last)] on a sound tree returns and leaves a sound
    tree, with fuel for a tree of all the keys. *)
Lemma insert_range_sound vs : ∀ h t s fuel,
  sound key_comp h t s →
  Z.of_nat (nodes s + length vs) < 2 ^ 64 →
  (nodes s + length vs ≤ fuel)%nat →
  ∃ t' h' s', insert_range key_comp fuel vs t h = Ret (t', h') ∧
              sound key_comp h' t' s' ∧ (nodes s' ≤ nodes s + length vs)%nat.
Proof.
  induction vs as [|v vs IH]; intros h t s fuel Hs Hmax Hf.
  { exists t, h, s. split; [done|]. split; [done|lia]. }
  cbn [length] in Hmax, Hf. pose proof (height_nodes s).
  destruct (insert_sound h t s v fuel Hs) as (t1 & r & h1 & E & Hs1);
    [destruct Hs as (_ & _ & _ & ->); lia | lia |].
  assert (∃ s1, sound key_comp h1 t1 s1 ∧ (nodes s1 ≤ S (nodes s))%nat)
    as (s1 & Hs1' & Hn1).
  { eexists. split; [exact Hs1|].
    match goal with
    | |- (nodes (shape_insert _ _ ?a _) ≤ _)%nat =>
        destruct (shape_insert_nodes v a s); lia
    end. }
  destruct (IH h1 t1 s1 fuel Hs1') as (t' & h' & s' & E' & Hs' & Hn); [lia | lia |].
  exists t', h', s'. split; [|split; [done | cbn [length]; lia]].
  cbn [insert_range]. by rewrite (bind_Ret _ _ _ _ _ E).
Qed.

(** Every tree built from the empty tree by inserts alone is sound. *)
Lemma built_sound alloc vs fuel :
  Z.of_nat (length vs) < 2 ^ 64 → (length vs ≤ fuel)%nat →
  ∃ t h s, insert_range key_comp fuel vs (bstree_new alloc) ∅ = Ret (t, h) ∧
           sound key_comp h t s.
Proof.
  intros Hmax Hf.
  destruct (insert_range_sound vs ∅ (bstree_new alloc) Leaf fuel)
    as (t & h & s & E & Hs & _); [|exact Hmax | exact Hf |].
  { split; [done|]. split; [constructor|]. by split. }
  by exists t, h, s.
Qed.

(** The keys of a search tree, read in order, increase strictly when the
    order is transitive. *)
Lemma bst_sorted s :
  (∀ x y z, key_comp x y = true → key_comp y z = true → key_comp x z = true) →
  bst key_comp s → StronglySorted (λ x y, key_comp x y = true) (keys s).
Proof.
  intros Htrans. induction s as [|l IHl b x r IHr]; simpl; [constructor|].
  intros (Hl & Hr & Hlt & Hgt).
  apply StronglySorted_app_2; [|auto | apply StronglySorted_cons; auto].
  intros y z Hy Hz. rewrite Forall_forall in Hlt, Hgt.
  apply elem_of_cons in Hz as [->|Hz]; [by apply Hlt|].
  eapply Htrans; [by apply Hlt | by apply Hgt].
Qed.

End insert_facts.

Section iterator_properties.

(** [operator--] at a left child without a left subtree whose parent is the
    root: the loop spins in the branch that sets the iterator invalid. *)
Lemma decr_left_child_of_root {K} (h : gmap addr (@node K)) n nd p pn :
  h !! n = Some nd → left nd = None → parent nd = Some p →
  h !! p = Some pn → right pn ≠ Some n → parent pn = None →
  ∀ fuel, decr fuel (iterator_of (Some n)) h = OutOfFuel.
Proof.
  intros Hn Hl Hp Hpn Hr Hpp fuel. unfold decr. simpl.
  rewrite (bind_Ret _ _ _ _ _ (load_Some _ _ _ Hn)), Hl, Hp.
  rewrite (bind_Ret _ _ _ _ _ (load_Some _ _ _ Hpn)).
  destruct (decide _) as [E|_]; [by destruct Hr|].
  by eapply decr_ascend_root.
Qed.

(** C1 (the code departs from the specification).  After [insert (1); insert (2)]
    from the empty tree the loop from [begin ()] to [end ()] never ends,
    whatever the fuel: it visits 1, 2 and then 2 again and again, so the keys
    visited are not strictly increasing.  After the inserts 5, 3, 1, 4 and
    [erase (3); erase (1)] the left link of the root designates a node that
    was deallocated, so the links do not draw a search tree any more. *)
Theorem traversal_never_reaches_end :
  reached [Insert 1; Insert 2] = Ret (tree12, heap12) ∧
  (∀ fuel, traverse fuel tree12 heap12 = OutOfFuel) ∧
  visit_prefix 3 20 (begin tree12) (end_ tree12) heap12 = Ret ([1; 2; 2], heap12) ∧
  reached [Insert 5; Insert 3; Insert 1; Insert 4; Erase 3; Erase 1]
    = Ret (tree_lost, heap_lost) ∧
  get_left (_tree_root tree_lost) heap_lost = Ret (Some 3%positive, heap_lost) ∧
  heap_lost !! 3%positive = None.
Proof.
  split; [exact reached12|]. split.
  - eapply traverse_stale_end; [exact heap12_1 | exact heap12_2 | done..].
  - split; [by vm_compute|]. split; [by vm_compute|]. split; by vm_compute.
Qed.

(** C2 (the code departs from the specification).  In the tree built by
    [insert (2); insert (1)] the iterator [begin ()] is at the minimum, 1, a
    left child without a left subtree; [operator--] on it never returns,
    whatever the fuel.  The specification has it end in the invalid state.  On every
    heap and from every node the upward loop of [operator--] runs out of any
    fuel or crashes: it has no exit. *)
Theorem decrement_of_minimum_never_returns :
  built [2; 1] = Ret (tree21, heap21) ∧
  deref (begin tree21) heap21 = Ret (1, heap21) ∧
  (∀ fuel, decr fuel (begin tree21) heap21 = OutOfFuel) ∧
  (∀ (K : Type) fuel it n self (h : gmap addr (@node K)),
     decr_ascend fuel it n self h = OutOfFuel ∨
     ∃ f, decr_ascend fuel it n self h = Crash f).
Proof.
  split; [exact built21|]. split; [by vm_compute|]. split.
  - eapply (decr_left_child_of_root heap21 2%positive _ 1%positive);
      [exact heap21_2 | done | done | exact heap21_1 | done | done].
  - intros. apply decr_ascend_outcome.
Qed.

(** C3 (the code departs from the specification).  After [insert (1); insert (2)]
    the rightmost node is the node of 2, but the end cache still holds the
    node of 1: [--end ()] is at 1, not at the maximum, and the iterator at
    the maximum, incremented, does not compare equal to [end ()]. *)
Theorem end_cache_not_updated :
  built [1; 2] = Ret (tree12, heap12) ∧
  end_ tree12 = Iterator (Some 1%positive) after_end ∧
  (∀ fuel, walk_right (S (S fuel)) 1%positive heap12 = Ret (2%positive, heap12)) ∧
  (∀ fuel, decr fuel (end_ tree12) heap12
           = Ret (Iterator (Some 1%positive) valid, heap12)) ∧
  deref (Iterator (Some 1%positive) valid) heap12 = Ret (1, heap12) ∧
  deref (Iterator (Some 2%positive) valid) heap12 = Ret (2, heap12) ∧
  (∀ fuel, incr (S fuel) (Iterator (Some 2%positive) valid) heap12
           = Ret (Iterator (Some 2%positive) after_end, heap12)) ∧
  iter_eq (Iterator (Some 2%positive) after_end) (end_ tree12) = false.
Proof.
  pose proof heap12_1 as H1. pose proof heap12_2 as H2.
  split; [by vm_compute|]. split; [done|].
  split; [|split; [done|]; split; [by vm_compute|]; split; [by vm_compute|];
           split; [|done]].
  - intros fuel. revert H1 H2. generalize heap12. intros h H1 H2. by mrun.
  - intros fuel. revert H1 H2. generalize heap12. intros h H1 H2. by mrun.
Qed.

(** C4 (the code departs from the specification).  After the inserts 5, 3, 1, 4 the
    node of 3 has two children and is not the root; [erase (3)] puts the node
    of 1 in its place, as the left child of the root, and makes that node its
    own parent. *)
Theorem erase_two_children_breaks_parent :
  reached [Insert 5; Insert 3; Insert 1; Insert 4; Erase 3]
    = Ret (tree_erased, heap_erased) ∧
  get_left (Some 1%positive) heap_erased = Ret (Some 3%positive, heap_erased) ∧
  get_parent (Some 3%positive) heap_erased = Ret (Some 3%positive, heap_erased) ∧
  ¬ parents_inverse heap_erased.
Proof.
  split; [by vm_compute|]. split; [by vm_compute|]. split; [by vm_compute|].
  intros H. destruct (H 1%positive 3%positive) as [Hc _].
  destruct Hc as (cn & Hcn & Hp).
  - eexists. split; [reflexivity|]. by left.
  - vm_compute in Hcn. injection Hcn as <-. discriminate.
Qed.

End iterator_properties.

Section container_properties.
Context {K : Type} (key_comp : K → K → bool).
Implicit Types (h : gmap addr (@node K)) (t : bstree).

(** C7 (the code departs from the specification).  [erase (key)] starts its descent
    at the root without the test for the empty tree that [find_impl] and
    [count] make: on the empty tree it reads through a null pointer, where
    the specification has it return zero.  On the tree of the single key 1,
    [erase (1)] resets the root, which deallocates the node, and then reads
    the parent link of that node. *)
Theorem erase_key_on_empty_tree :
  (∀ fuel alloc (key : K) h,
     erase_key key_comp (S fuel) key (bstree_new alloc) h = Crash NullDeref ∧
     find_impl key_comp fuel key (bstree_new alloc) h
       = Ret (end_ (bstree_new alloc), h) ∧
     count key_comp fuel key (bstree_new alloc) h = Ret (0, h)) ∧
  (t ← insert_range Z.ltb 20 [1] (bstree_new 0); erase_key Z.ltb 20 1 t) ∅
    = Crash (DanglingDeref 1%positive).
Proof.
  split; [|by vm_compute]. intros fuel alloc key h. done.
Qed.

(** C9.  The hinted insertions convert the hint to an iterator and compare
    with the key under its cursor before anything else: with a null cursor
    they read through a null pointer, on every tree.  The empty tree hands
    out only null cursors ([begin ()] and [end ()] of a new or a cleared
    tree), while [insert (value)] on it creates the root. *)
Theorem hinted_insert_reads_hint_first :
  (∀ fuel st (v : K) t h,
     insert_hint key_comp fuel (Iterator None st) v t h = Crash NullDeref ∧
     emplace_hint key_comp fuel (Iterator None st) v t h = Crash NullDeref) ∧
  (∀ alloc, _iter (begin (bstree_new alloc)) = None ∧
            _iter (end_ (bstree_new alloc)) = None) ∧
  (∀ fuel t h t' h', clear (K:=K) fuel t h = Ret (t', h') →
     _iter (begin t') = None ∧ _iter (end_ t') = None) ∧
  (∀ fuel alloc (v : K) h,
     let a := fresh (dom h) in
     insert key_comp fuel v (bstree_new alloc) h
     = Ret ((Tree alloc (Some a) 1 (Iterator (Some a) valid)
                  (Iterator (Some a) after_end) bound_tree_delete,
             (Iterator (Some a) valid, true)),
            <[a := Node v None None None]> h)).
Proof.
  split; [|split; [|split]].
  - intros fuel st v t h. split; [done|].
    unfold emplace_hint, node_create. mrun. by rewrite lookup_insert_eq.
  - done.
  - intros fuel t h t' h' H. unfold clear, root_reset in H.
    apply bind_returns in H as (u & h1 & _ & H). by injection H as <- _.
  - intros fuel alloc v h. by destruct fuel.
Qed.

(** The tree [clear] leaves, whatever it was. *)
Lemma clear_returns fuel t h t' h' :
  clear (K:=K) fuel t h = Ret (t', h') →
  t' = Tree (_node_alloc t) None 0 iterator_default iterator_default
            (_tree_deleter t).
Proof.
  unfold clear, root_reset. intros H.
  apply bind_returns in H as (u & h1 & _ & H). by injection H as <- _.
Qed.

(** C10.  What a move leaves of its source: the size is 0, [empty ()] holds,
    [begin ()] and [end ()] are the default iterator and compare equal.  This
    holds for both move constructors, for every branch of the move assignment
    (whichever the propagation trait and the allocators) and for the
    assignment of a tree to itself.  The assignment does return when the two
    trees are linked and share no node and the deleters of their handles are
    the ones their constructors bound, with fuel for the walks over them. *)
Theorem moved_from_is_empty :
  let emptied (t : bstree) :=
    size t = 0 ∧ empty t = true ∧
    begin t = iterator_default ∧ end_ t = iterator_default ∧
    iter_eq (begin t) (end_ t) = true ∧ iter_eq (cbegin t) (cend t) = true in
  (∀ alloc other, emptied (move_construct alloc other).2) ∧
  (∀ propagate fuel this other h this' other' h',
     move_assign (K:=K) propagate fuel this other h = Ret ((this', other'), h') →
     emptied other') ∧
  (∀ fuel this h this' h',
     move_assign_self (K:=K) fuel this h = Ret (this', h') → emptied this') ∧
  (∀ propagate fuel this other h st so,
     _tree_deleter this = bound_tree_delete →
     _tree_deleter other = bound_tree_delete →
     linked h (_tree_root this) None st → linked h (_tree_root other) None so →
     NoDup (addrs st ++ addrs so) →
     _tree_size other = Z.of_nat (nodes so) →
     (walk_cost st ≤ fuel)%nat → (walk_cost so ≤ fuel)%nat →
     returns (move_assign propagate fuel this other h)) ∧
  (∀ fuel this h st,
     _tree_deleter this = bound_tree_delete →
     linked h (_tree_root this) None st → NoDup (addrs st) →
     (walk_cost st ≤ fuel)%nat →
     returns (move_assign_self fuel this h)).
Proof.
  intros emptied. split; [|split; [|split; [|split]]].
  - done.
  - intros propagate fuel this other h this' other' h' H. unfold move_assign in H.
    destruct propagate.
    + apply bind_returns in H as (t1 & h1 & Hc & H).
      apply clear_returns in Hc as ->. by injection H as <- <- _.
    + destruct (bool_decide _).
      * apply bind_returns in H as (t1 & h1 & _ & H).
        apply bind_returns in H as (r & h2 & _ & H).
        apply bind_returns in H as (t2 & h3 & _ & H).
        apply bind_returns in H as (t3 & h4 & _ & H).
        apply bind_returns in H as (o & h5 & Hc & H).
        apply clear_returns in Hc as ->. by injection H as _ <- _.
      * apply bind_returns in H as (t1 & h1 & Hc & H).
        apply clear_returns in Hc as ->. by injection H as <- <- _.
  - intros fuel this h this' h' H. apply clear_returns in H as ->. done.
  - intros. by eapply move_assign_returns.
  - intros. by eapply move_assign_self_returns.
Qed.

End container_properties.

Section bound_properties.

(** The forward walk of the bound queries with an iterator that fell off the
    end at a node other than the one in the end cache: the test
    [_end == pos] fails and [++pos] does nothing. *)
Lemma get_value_Some {K} (h : gmap addr (@node K)) a nd :
  h !! a = Some nd → get_value (Some a) h = Ret (value nd, h).
Proof. intros H. by mrun. Qed.

Lemma bound_forward_stuck {K} (key_comp : K → K → bool)
    (h : gmap addr (@node K)) (t : bstree) a nd key :
  h !! a = Some nd → key_comp (value nd) key = true →
  iter_eq (_end t) (Iterator (Some a) after_end) = false →
  ∀ fuel, bound_forward key_comp fuel key (Iterator (Some a) after_end) t h = OutOfFuel.
Proof.
  intros Ha Hlt Hne fuel. induction fuel as [|f IH]; [done|].
  cbn [bound_forward _iter].
  rewrite (bind_Ret _ _ _ _ _ (get_value_Some _ _ _ Ha)), Hlt, Hne.
  by rewrite (bind_Ret _ _ _ _ _ (incr_after_end _ _ _)).
Qed.

Lemma heap_zig_1 : heap_zig !! 1%positive = Some (Node 50 (Some 2%positive) None None).
Proof. reflexivity. Qed.
Lemma heap_zig_2 :
  heap_zig !! 2%positive = Some (Node 10 None (Some 3%positive) (Some 1%positive)).
Proof. reflexivity. Qed.
Lemma heap_zig_3 :
  heap_zig !! 3%positive = Some (Node 30 (Some 4%positive) None (Some 2%positive)).
Proof. reflexivity. Qed.
Lemma heap_zig_4 : heap_zig !! 4%positive = Some (Node 20 None None (Some 3%positive)).
Proof. reflexivity. Qed.

(** C6 (the code departs from the specification).  The scenario of the
    specification holds: on the set 1, 3, 4, 7, 8, 9 left by [erase (5)],
    [lower_bound (6)] and [upper_bound (4)] are at 7.  The contract fails
    on other trees.  After the inserts 50, 10, 30, 20 the walk back from the
    root for the key 15 decrements the iterator at 20, a left child without
    a left subtree, which never returns: [lower_bound (15)] and
    [upper_bound (15)] never return, where the contract has both at 20.  After
    the inserts 1, 2 the walk forward for the key 3 falls off the end at the
    node of 2 and never meets the end cache, which is still at the node of
    1: [lower_bound (3)] never returns, where the contract has [end ()]. *)
Theorem bounds_scenario_and_divergence :
  result ((t ← run_ops Z.ltb 20 spec_scenario (bstree_new 0);
           lo ← lower_bound Z.ltb 20 6 t; x ← deref lo;
           up ← upper_bound Z.ltb 20 4 t; y ← deref up;
           mret (x, y)) ∅) = Ret (7, 7) ∧
  built [50; 10; 30; 20] = Ret (tree_zig, heap_zig) ∧
  (∀ fuel, lower_bound Z.ltb fuel 15 tree_zig heap_zig = OutOfFuel) ∧
  (∀ fuel, upper_bound Z.ltb fuel 15 tree_zig heap_zig = OutOfFuel) ∧
  built [1; 2] = Ret (tree12, heap12) ∧
  (∀ fuel, lower_bound Z.ltb fuel 3 tree12 heap12 = OutOfFuel).
Proof.
  split; [by vm_compute|]. split; [by vm_compute|].
  pose proof heap_zig_1 as H1. pose proof heap_zig_2 as H2.
  pose proof heap_zig_3 as H3. pose proof heap_zig_4 as H4.
  pose proof heap12_1 as G1. pose proof heap12_2 as G2.
  split; [|split; [|split; [by vm_compute|]]].
  - intros fuel. unfold lower_bound, lower_bound_impl.
    revert H1 H2 H3 H4. generalize heap_zig. intros h H1 H2 H3 H4.
    destruct fuel as [|[|[|f]]]; [by mrun..|].
    mrun. by rewrite (decr_ascend_right_child _ _ _ _ _ H3 eq_refl H2 eq_refl).
  - intros fuel. unfold upper_bound, upper_bound_impl.
    revert H1 H2 H3 H4. generalize heap_zig. intros h H1 H2 H3 H4.
    destruct fuel as [|[|[|f]]]; [by mrun..|].
    mrun. by rewrite (decr_ascend_right_child _ _ _ _ _ H3 eq_refl H2 eq_refl).
  - intros fuel. unfold lower_bound, lower_bound_impl.
    revert G1 G2. generalize heap12. intros h G1 G2.
    destruct fuel as [|[|[|f]]]; [by mrun..|].
    mrun.
    by rewrite (bound_forward_stuck Z.ltb h tree12 2%positive _ 3 G2 eq_refl eq_refl).
Qed.

End bound_properties.

Section sorting_properties.

(** C8 (the code departs from the specification).  On a range of one or of two
    elements the first block of [blocksort] runs from the start of the range
    to sixteen places further, and the pass of gap 10 of its shellsort reads
    the eleventh place, outside the range.  On a range of sixteen elements
    the sort returns a sorted list but the pass of gap 4 carries the first of
    two equal keys over the second: the order of equal elements is not
    kept. *)
Theorem blocksort_short_ranges_and_stability :
  (∀ (T : Type) (comp : T → T → bool) (x : T),
     sorted_by_blocksort comp [x] = Crash (OutOfBounds 10)) ∧
  (∀ (T : Type) (comp : T → T → bool) (x y : T),
     sorted_by_blocksort comp [x; y] = Crash (OutOfBounds 10)) ∧
  sorted_by_blocksort Z.ltb [] = Ret [] ∧
  with_key 5 unstable_input = [(5, 0); (5, 1)] ∧
  ∃ out, sorted_by_blocksort tagged_lt unstable_input = Ret out ∧
         fst <$> out = [1; 5; 5; 6; 7; 8; 9; 10; 11; 12; 13; 14; 15; 16; 17; 18] ∧
         with_key 5 out = [(5, 1); (5, 0)].
Proof.
  split; [by intros; vm_compute|]. split; [by intros; vm_compute|].
  split; [by vm_compute|]. split; [by vm_compute|].
  eexists. split; [vm_compute; reflexivity|]. split; by vm_compute.
Qed.

End sorting_properties.

Section insert_properties.
Context {K : Type} (key_comp : K → K → bool).
Implicit Types (h : gmap addr (@node K)) (t : bstree) (s : @shape K).

(** The order is transitive, as a strict weak order is. *)
Hypothesis key_comp_trans :
  ∀ x y z, key_comp x y = true → key_comp y z = true → key_comp x z = true.

Lemma rep_None h s : rep h None s → s = Leaf.
Proof. destruct s; [done|]. by intros [? _]. Qed.

Lemma keys_nodes s x : x ∈ keys s → (0 < nodes s)%nat.
Proof. destruct s; simpl; [by intros ?%elem_of_nil | lia]. Qed.

(** The descent of [insert] meets the node of the key that compares equal
    and changes nothing. *)
Lemma insert_loop_existing s : ∀ fuel p v t h,
  rep h p s → bst key_comp s →
  (∃ x, x ∈ keys s ∧ equiv_key key_comp v x) →
  (height s ≤ fuel)%nat →
  ∃ a nd, insert_loop key_comp fuel p v t h
            = Ret ((t, (Iterator (Some a) valid, false)), h) ∧
          h !! a = Some nd ∧ equiv_key key_comp v (value nd).
Proof.
  induction s as [|l IHl a x r IHr]; intros fuel p v t h Hrep Hbst (y & Hy & Heq) Hf.
  { by apply elem_of_nil in Hy. }
  destruct Hrep as (-> & nd & Ha & Hv & Hl & Hr).
  destruct Hbst as (Hbl & Hbr & Hlt & Hgt).
  destruct fuel as [|f]; [simpl in Hf; lia|]. simpl in Hf.
  simpl. rewrite (bind_Ret _ _ _ _ _ (load_Some _ _ _ Ha)), Hv.
  simpl in Hy. apply elem_of_app in Hy as [Hy|Hy]; [|apply elem_of_cons in Hy as [->|Hy]].
  - (* the key is in the left subtree *)
    rewrite Forall_forall in Hlt. pose proof (Hlt _ Hy) as Hyx.
    destruct (key_comp v x) eqn:Hvx.
    + destruct (left nd) as [la|] eqn:El.
      * apply IHl; [done | done | by eauto | lia].
      * apply rep_None in Hl. subst l. by apply elem_of_nil in Hy.
    + destruct (key_comp x v) eqn:Hxv.
      * destruct Heq as [_ Heq]. by rewrite (key_comp_trans _ _ _ Hyx Hxv) in Heq.
      * exists a, nd. rewrite Hv. split; [done|]. split; [done|]. by split.
  - (* the key is at this node *)
    destruct Heq as [E1 E2]. rewrite E1, E2. exists a, nd. rewrite Hv.
    split; [done|]. split; [done|]. by split.
  - (* the key is in the right subtree *)
    rewrite Forall_forall in Hgt. pose proof (Hgt _ Hy) as Hxy.
    destruct (key_comp v x) eqn:Hvx.
    + destruct Heq as [Heq _]. by rewrite (key_comp_trans _ _ _ Hvx Hxy) in Heq.
    + destruct (key_comp x v) eqn:Hxv.
      * destruct (right nd) as [ra|] eqn:Er.
        -- apply IHr; [done | done | by eauto | lia].
        -- apply rep_None in Hr. subst r. by apply elem_of_nil in Hy.
      * exists a, nd. rewrite Hv. split; [done|]. split; [done|]. by split.
Qed.

(** C5.  On a well-formed tree that holds a key comparing equal to [v],
    [insert (v)] returns, with enough fuel for the height, the pair of an
    iterator to the node of that key and [false]; the tree and the heap are
    the ones it started from, so the size and the sequence of the elements
    are unchanged, and nothing is signalled. *)
Theorem insert_existing_key h t s (v : K) fuel :
  well_formed key_comp h t s →
  (∃ x, x ∈ keys s ∧ equiv_key key_comp v x) →
  (height s ≤ fuel)%nat →
  ∃ a nd, insert key_comp fuel v t h
            = Ret ((t, (Iterator (Some a) valid, false)), h) ∧
          h !! a = Some nd ∧ equiv_key key_comp v (value nd).
Proof.
  intros (Hrep & Hbst & Hsize) Hex Hf. unfold insert, empty.
  destruct Hex as (x & Hx & Heq). pose proof (keys_nodes _ _ Hx).
  rewrite bool_decide_eq_false_2 by lia.
  apply (insert_loop_existing s); eauto.
Qed.

End insert_properties.

Section iteration_facts.
Context {K : Type}.
Implicit Types (h : gmap addr (@node K)) (nd : @node K) (s : @shape K).

Lemma inorder_length s : length (inorder s) = nodes s.
Proof.
  induction s as [|l IHl a v r IHr]; [done|].
  cbn [inorder nodes]. rewrite length_app. cbn [length]. lia.
Qed.

Lemma keys_length s : length (keys s) = nodes s.
Proof.
  induction s as [|l IHl a v r IHr]; [done|].
  cbn [keys nodes]. rewrite length_app. cbn [length]. lia.
Qed.

Lemma inorder_addrs s b : b ∈ inorder s ↔ b ∈ addrs s.
Proof.
  induction s as [|l IHl a v r IHr]; [done|]. cbn [inorder addrs].
  rewrite elem_of_app, !elem_of_cons, elem_of_app, IHl, IHr. tauto.
Qed.

(** The node at the place [i] of the in-order sequence holds the key at the
    place [i]. *)
Lemma inorder_keys s : ∀ h p par i a,
  linked h p par s → inorder s !! i = Some a →
  ∃ nd, h !! a = Some nd ∧ keys s !! i = Some (value nd).
Proof.
  induction s as [|l IHl c v r IHr]; intros h p par i a Hlk Hi; [done|].
  destruct Hlk as (-> & nd & Hc & Hv & Hp & Hl & Hr).
  cbn [inorder keys] in *.
  pose proof (inorder_length l) as Ll. pose proof (keys_length l) as Lk.
  destruct (decide (i < length (inorder l))%nat) as [Hlt|Hge].
  - rewrite lookup_app_l in Hi by done.
    destruct (IHl _ _ _ _ _ Hl Hi) as (nd' & ? & ?). exists nd'.
    split; [done|]. rewrite lookup_app_l by lia. done.
  - rewrite lookup_app_r in Hi by lia. rewrite lookup_app_r by lia.
    rewrite Lk, <- Ll.
    destruct (i - length (inorder l))%nat as [|k] eqn:Ek.
    + injection Hi as <-. exists nd. by rewrite Hv.
    + cbn in Hi |- *. exact (IHr _ _ _ _ _ Hr Hi).
Qed.

Lemma walk_left_first s : ∀ h a par fuel,
  linked h (Some a) par s → (height s ≤ fuel)%nat →
  ∃ m, inorder s !! 0%nat = Some m ∧ walk_left fuel a h = Ret (m, h).
Proof.
  induction s as [|l IHl a' v r IHr]; intros h a par fuel Hlk Hf.
  { simpl in Hlk. discriminate. }
  destruct Hlk as ([= ->] & nd & Ha & _ & _ & Hl & _).
  destruct fuel as [|f]; [simpl in Hf; lia|]. simpl in Hf. cbn [walk_left inorder].
  rewrite (bind_Ret _ _ _ _ _ (load_Some _ _ _ Ha)).
  destruct (left nd) as [c|] eqn:Ec.
  - destruct (IHl h c (Some a') f Hl) as (m & Hm & E); [lia|].
    exists m. split; [|done]. rewrite lookup_app_l; [done|].
    by apply lookup_lt_Some in Hm.
  - apply linked_None in Hl as ->. by exists a'.
Qed.

Lemma walk_right_last s : ∀ h a par fuel,
  linked h (Some a) par s → (height s ≤ fuel)%nat →
  ∃ m, last (inorder s) = Some m ∧ walk_right fuel a h = Ret (m, h).
Proof.
  induction s as [|l IHl a' v r IHr]; intros h a par fuel Hlk Hf.
  { simpl in Hlk. discriminate. }
  destruct Hlk as ([= ->] & nd & Ha & _ & _ & _ & Hr).
  destruct fuel as [|f]; [simpl in Hf; lia|]. simpl in Hf. cbn [walk_right inorder].
  rewrite (bind_Ret _ _ _ _ _ (load_Some _ _ _ Ha)).
  destruct (right nd) as [c|] eqn:Ec.
  - destruct (IHr h c (Some a') f Hr) as (m & Hm & E); [lia|].
    exists m. split; [|done]. rewrite last_app, last_cons, Hm. done.
  - apply linked_None in Hr as ->. exists a'. split; [|done].
    by rewrite last_app.
Qed.

(** At a node without a right child [operator++] is the ascent. *)
Lemma incr_no_right h n nd fuel :
  h !! n = Some nd → right nd = None →
  incr fuel (iterator_of (Some n)) h
  = match incr_ascend (S fuel) n h with
    | Ret (Some q, h') => Ret (iterator_of (Some q), h')
    | Ret (None, h') => Ret (Iterator (Some n) after_end, h')
    | Crash f => Crash f
    | OutOfFuel => OutOfFuel
    end.
Proof.
  intros Hn Hr. unfold incr. cbn [iterator_of _iter _state incr_ascend].
  rewrite !(bind_Ret _ _ _ _ _ (load_Some _ _ _ Hn)), Hr.
  destruct (parent nd) as [p|]; [|done].
  unfold mbind, M_bind, bind. destruct (load (Some p) h) as [[pn h1]| |] eqn:Ep; try done.
  apply load_heap in Ep as Eh. subst h1.
  destruct (decide (Some n = left pn)) as [E|E].
  - rewrite decide_True by done. done.
  - rewrite decide_False by done.
    destruct (incr_ascend fuel p h) as [[[q|] h1]| |]; done.
Qed.

Lemma incr_subtree s : ∀ h c par u F,
  linked h (Some c) par s → NoDup (addrs s) →
  (∀ fuel, (F ≤ fuel)%nat → incr_ascend fuel c h = Ret (u, h)) →
  (∀ i a b fuel, inorder s !! i = Some a → inorder s !! S i = Some b →
     (F + height s ≤ fuel)%nat →
     incr fuel (iterator_of (Some a)) h = Ret (iterator_of (Some b), h)) ∧
  (∀ a fuel, last (inorder s) = Some a → (F + height s ≤ fuel)%nat →
     incr fuel (iterator_of (Some a)) h
     = Ret (match u with
            | Some q => iterator_of (Some q)
            | None => Iterator (Some a) after_end
            end, h)).
Proof.
  induction s as [|l IHl c' v r IHr]; intros h c par u F Hlk Hnd Hup.
  { simpl in Hlk. discriminate. }
  destruct Hlk as ([= ->] & nd & Hc & Hv & Hp & Hl & Hr).
  simpl in Hnd. apply NoDup_cons in Hnd as [Hcn Hnd].
  apply NoDup_app in Hnd as (Hndl & Hdisj & Hndr).
  apply not_elem_of_app in Hcn as [Hcl Hcr].
  (* the left subtree, left through its root to [c'] *)
  assert (HL : (∀ i a b fuel, inorder l !! i = Some a → inorder l !! S i = Some b →
                  (1 + height l ≤ fuel)%nat →
                  incr fuel (iterator_of (Some a)) h = Ret (iterator_of (Some b), h)) ∧
               (∀ a fuel, last (inorder l) = Some a → (1 + height l ≤ fuel)%nat →
                  incr fuel (iterator_of (Some a)) h = Ret (iterator_of (Some c'), h))).
  { destruct (left nd) as [cl|] eqn:El.
    - destruct (linked_cases _ _ _ _ Hl) as [[? _]|(x & [= <-] & Hin & _)]; [done|].
      destruct (linked_alive _ _ _ _ _ Hl Hin) as [ln Hln].
      apply (IHl h cl (Some c') (Some c') 1%nat Hl Hndl).
      intros fuel Hf. destruct fuel as [|f]; [lia|]. cbn [incr_ascend].
      rewrite (bind_Ret _ _ _ _ _ (load_Some _ _ _ Hln)).
      assert (parent ln = Some c') as ->.
      { destruct l; [done|]. destruct Hl as ([= ->] & ln' & Hln' & _ & Hpl & _).
        rewrite Hln in Hln'. by injection Hln' as ->. }
      rewrite (bind_Ret _ _ _ _ _ (load_Some _ _ _ Hc)).
      by rewrite decide_True.
    - apply linked_None in Hl as ->. split; [by intros [|?]|done]. }
  (* the right subtree, left through its root as [c'] is *)
  assert (HR : (∀ i a b fuel, inorder r !! i = Some a → inorder r !! S i = Some b →
                  (S F + height r ≤ fuel)%nat →
                  incr fuel (iterator_of (Some a)) h = Ret (iterator_of (Some b), h)) ∧
               (∀ a fuel, last (inorder r) = Some a → (S F + height r ≤ fuel)%nat →
                  incr fuel (iterator_of (Some a)) h
                  = Ret (match u with
                         | Some q => iterator_of (Some q)
                         | None => Iterator (Some a) after_end
                         end, h))).
  { destruct (right nd) as [cr|] eqn:Er.
    - destruct (linked_cases _ _ _ _ Hr) as [[? _]|(x & [= <-] & Hin & _)]; [done|].
      destruct (linked_alive _ _ _ _ _ Hr Hin) as [rn Hrn].
      apply (IHr h cr (Some c') u (S F) Hr Hndr).
      intros fuel Hf. destruct fuel as [|f]; [lia|]. cbn [incr_ascend].
      rewrite (bind_Ret _ _ _ _ _ (load_Some _ _ _ Hrn)).
      assert (parent rn = Some c') as ->.
      { destruct r; [done|]. destruct Hr as ([= ->] & rn' & Hrn' & _ & Hpr & _).
        rewrite Hrn in Hrn'. by injection Hrn' as ->. }
      rewrite (bind_Ret _ _ _ _ _ (load_Some _ _ _ Hc)).
      rewrite decide_False.
      + apply Hup. lia.
      + intros El. destruct (linked_cases _ _ _ _ Hl) as [[E _]|(x & E & Hxl & _)];
          rewrite El in E; [done|]. injection E as <-. by eapply Hdisj.
    - apply linked_None in Hr as ->. split; [by intros [|?]|done]. }
  destruct HL as [HL1 HL2]. destruct HR as [HR1 HR2].
  cbn [inorder height]. split.
  - intros i a b fuel Ha Hb Hf.
    destruct (decide (S i < length (inorder l))%nat) as [H1|H1].
    { rewrite lookup_app_l in Ha by lia. rewrite lookup_app_l in Hb by lia.
      eapply HL1; [done | done | lia]. }
    destruct (decide (S i = length (inorder l))) as [H2|H2].
    { rewrite lookup_app_l in Ha by lia. rewrite lookup_app_r in Hb by lia.
      replace (S i - length (inorder l))%nat with 0%nat in Hb by lia.
      injection Hb as <-. apply HL2; [|lia].
      rewrite last_lookup. rewrite <- H2. done. }
    rewrite lookup_app_r in Ha by lia. rewrite lookup_app_r in Hb by lia.
    destruct (i - length (inorder l))%nat as [|k] eqn:Ek.
    + replace (S i - length (inorder l))%nat with 1%nat in Hb by lia.
      injection Ha as <-.
      change ((c' :: inorder r) !! 1%nat) with (inorder r !! 0%nat) in Hb.
      unfold incr. cbn [iterator_of _iter _state].
      rewrite (bind_Ret _ _ _ _ _ (load_Some _ _ _ Hc)).
      destruct (right nd) as [cr|] eqn:Er.
      * destruct (walk_left_first r h cr (Some c') fuel Hr) as (m & Hm & E); [lia|].
        rewrite (bind_Ret _ _ _ _ _ E). rewrite Hm in Hb. by injection Hb as ->.
      * apply linked_None in Hr as ->. done.
    + replace (S i - length (inorder l))%nat with (S (S k)) in Hb by lia.
      change ((c' :: inorder r) !! S k) with (inorder r !! k) in Ha.
      change ((c' :: inorder r) !! S (S k)) with (inorder r !! S k) in Hb.
      eapply HR1; [done | done | lia].
  - intros a fuel Ha Hf. rewrite last_app, last_cons in Ha.
    clear IHl IHr HL1 HL2 HR1.
    destruct (last (inorder r)) as [z|] eqn:Ez.
    + injection Ha as ->. apply HR2; [done | lia].
    + injection Ha as <-.
      assert (right nd = None) as Er.
      { destruct r as [|rl rc rv rr]; [exact Hr|].
        cbn [inorder] in Ez. rewrite last_app, last_cons in Ez.
        by destruct (last (inorder rr)). }
      rewrite (incr_no_right _ _ _ _ Hc Er).
      rewrite Hup by lia. by destruct u.
Qed.


Lemma incr_ascend_root h c nd fuel :
  h !! c = Some nd → parent nd = None → (1 ≤ fuel)%nat →
  incr_ascend fuel c h = Ret (None, h).
Proof.
  intros Hc Hp Hf. destruct fuel as [|f]; [lia|]. cbn [incr_ascend].
  by rewrite (bind_Ret _ _ _ _ _ (load_Some _ _ _ Hc)), Hp.
Qed.

Lemma linked_root h c par s :
  linked h (Some c) par s → ∃ nd, h !! c = Some nd ∧ parent nd = par.
Proof.
  destruct s as [|l a v r]; [done|].
  intros ([= ->] & nd & Ha & _ & Hp & _). by exists nd.
Qed.

Lemma inorder_root h root par s i a :
  linked h root par s → inorder s !! i = Some a → ∃ c, root = Some c.
Proof.
  destruct s as [|l c v r]; [done|]. intros [-> _] _. by eexists.
Qed.

Lemma incr_linked h root s i a fuel :
  linked h root None s → NoDup (addrs s) →
  inorder s !! i = Some a → (S (height s) ≤ fuel)%nat →
  incr fuel (iterator_of (Some a)) h
  = Ret (match inorder s !! S i with
         | Some b => iterator_of (Some b)
         | None => Iterator (Some a) after_end
         end, h).
Proof.
  intros Hlk Hnd Ha Hf.
  destruct (inorder_root _ _ _ _ _ _ Hlk Ha) as [c ->].
  destruct (linked_root _ _ _ _ Hlk) as (nd & Hc & Hp).
  destruct (incr_subtree s h c None None 1 Hlk Hnd) as [Hnext Hlast].
  { intros f Hf1. by eapply incr_ascend_root. }
  destruct (inorder s !! S i) as [b|] eqn:Eb.
  - by eapply Hnext.
  - apply Hlast; [|done]. rewrite last_lookup.
    apply lookup_ge_None in Eb. apply lookup_lt_Some in Ha as Hlt.
    replace (pred (length (inorder s))) with i by lia. done.
Qed.

(** The loop from the node at the place [i] to the iterator one past the
    last node visits the keys from the place [i] on. *)
Lemma visit_from s h root lst : ∀ k i a fuel,
  linked h root None s → NoDup (addrs s) → last (inorder s) = Some lst →
  inorder s !! i = Some a → (nodes s = i + k)%nat →
  (k + height s + 2 ≤ fuel)%nat →
  visit fuel (iterator_of (Some a)) (Iterator (Some lst) after_end) h
  = Ret (drop i (keys s), h).
Proof.
  induction k as [|k IH]; intros i a fuel Hlk Hnd Hlast Ha Hn Hf.
  { apply lookup_lt_Some in Ha. rewrite inorder_length in Ha. lia. }
  destruct fuel as [|f]; [lia|]. cbn [visit].
  unfold iter_neq, iter_eq, iterator_of. cbn [_state negb].
  destruct (inorder_keys _ _ _ _ _ _ Hlk Ha) as (nd & Hnd' & Hkey).
  rewrite (bind_Ret _ _ _ _ _ (deref_Some _ _ _ valid Hnd')).
  rewrite (bind_Ret _ _ _ _ _
             (incr_linked h root s i a f Hlk Hnd Ha ltac:(lia))).
  rewrite (drop_S _ _ _ Hkey).
  destruct (inorder s !! S i) as [b|] eqn:Eb.
  - rewrite (bind_Ret _ _ _ _ _ (IH (S i) b f Hlk Hnd Hlast Eb ltac:(lia) ltac:(lia))).
    done.
  - assert (lst = a) as ->.
    { rewrite last_lookup in Hlast. apply lookup_ge_None in Eb.
      apply lookup_lt_Some in Ha as Hlt.
      replace (pred (length (inorder s))) with i in Hlast by lia. congruence. }
    destruct f as [|f]; [lia|]. cbn [visit]. unfold iter_neq, iter_eq.
    cbn [_state _iter]. rewrite bool_decide_eq_true_2 by done. cbn.
    rewrite drop_ge; [done|]. rewrite keys_length.
    apply lookup_ge_None in Eb. rewrite inorder_length in Eb. lia.
Qed.

(** X2.  The loop [for (it = first; it != last; ++it)] from the leftmost
    node to the iterator one past the rightmost node returns, with fuel for
    the size and the height, and visits the keys of the tree in their
    in-order sequence, each once. *)
Theorem traversal_visits_keys_in_order h root s first lst fuel :
  linked h root None s → NoDup (addrs s) →
  inorder s !! 0%nat = Some first → last (inorder s) = Some lst →
  (nodes s + height s + 2 ≤ fuel)%nat →
  visit fuel (iterator_of (Some first)) (Iterator (Some lst) after_end) h
  = Ret (keys s, h).
Proof.
  intros Hlk Hnd Hfirst Hlast Hf.
  by rewrite (visit_from s h root lst (nodes s) 0 first fuel).
Qed.


(** X1.  [operator++] on an iterator to a node of a tree whose links are
    well formed returns, with fuel for the height, the iterator to the
    in-order successor; at the last node it keeps the cursor and goes to the
    [after_end] state.  The heap is not changed. *)
Theorem increment_is_inorder_successor h root s before a after fuel :
  linked h root None s → NoDup (addrs s) →
  inorder s = before ++ a :: after → (S (height s) ≤ fuel)%nat →
  incr fuel (iterator_of (Some a)) h
  = Ret (match after with
         | b :: _ => iterator_of (Some b)
         | [] => Iterator (Some a) after_end
         end, h).
Proof.
  intros Hlk Hnd Hin Hf.
  assert (Ha : inorder s !! length before = Some a).
  { rewrite Hin. by rewrite list_lookup_middle. }
  rewrite (incr_linked h root s (length before) a fuel Hlk Hnd Ha Hf).
  rewrite Hin. rewrite lookup_app_r by lia.
  replace (S (length before) - length before)%nat with 1%nat by lia.
  by destruct after.
Qed.

(** The first node of the in-order sequence has no left child; below the
    root of the shape it is the left child of its parent and not the right
    one. *)
Lemma first_is_left_child s : ∀ h c par m,
  linked h (Some c) par s → NoDup (addrs s) → inorder s !! 0%nat = Some m →
  ∃ nd, h !! m = Some nd ∧ left nd = None ∧
        (m = c ∨ ∃ q qn, parent nd = Some q ∧ h !! q = Some qn ∧
                         left qn = Some m ∧ right qn ≠ Some m).
Proof.
  induction s as [|l IHl c' v r IHr]; intros h c par m Hlk Hnd Hm; [done|].
  destruct Hlk as ([= ->] & nd & Hc & Hv & Hp & Hl & Hr).
  simpl in Hnd. apply NoDup_cons in Hnd as [Hcn Hnd].
  apply NoDup_app in Hnd as (Hndl & Hdisj & Hndr).
  cbn [inorder] in Hm.
  destruct (left nd) as [cl|] eqn:El.
  - destruct (linked_cases _ _ _ _ Hl) as [[? _]|(x & [= <-] & Hin & _)]; [done|].
    assert (Hm' : inorder l !! 0%nat = Some m).
    { destruct l as [|ll lc lv lr]; [by apply elem_of_nil in Hin|].
      rewrite lookup_app_l in Hm; [done|]. cbn [inorder]. rewrite length_app.
      cbn [length]. lia. }
    destruct (IHl h cl (Some c') m Hl Hndl Hm') as (mn & Hmn & Hml & Hcase).
    exists mn. split; [done|]. split; [done|]. right.
    destruct Hcase as [->|Hq]; [|done].
    destruct (linked_root _ _ _ _ Hl) as (ln & Hln & Hlp).
    rewrite Hmn in Hln. injection Hln as <-.
    exists c', nd. split; [done|]. split; [done|]. split; [done|].
    intros Er. rewrite Er in Hr.
    destruct (linked_cases _ _ _ _ Hr) as [[? _]|(x & [= <-] & Hin' & _)]; [done|].
    by eapply Hdisj.
  - apply linked_None in Hl as ->. cbn in Hm. injection Hm as <-.
    exists nd. split; [done|]. split; [done|]. by left.
Qed.

Lemma decr_subtree s : ∀ h c par i a b nd fuel,
  linked h (Some c) par s → NoDup (addrs s) →
  inorder s !! i = Some a → inorder s !! S i = Some b →
  h !! b = Some nd →
  (left nd ≠ None ∨
   ∃ p pn, parent nd = Some p ∧ h !! p = Some pn ∧ right pn = Some b) →
  (height s ≤ fuel)%nat →
  decr fuel (iterator_of (Some b)) h = Ret (iterator_of (Some a), h).
Proof.
  induction s as [|l IHl c' v r IHr]; intros h c par i a b bn fuel Hlk Hnd Ha Hb Hbn Hcase Hf;
    [done|].
  destruct Hlk as ([= ->] & nd & Hc & Hv & Hp & Hl & Hr).
  simpl in Hnd. apply NoDup_cons in Hnd as [Hcn Hnd].
  apply NoDup_app in Hnd as (Hndl & Hdisj & Hndr).
  cbn [inorder height] in *.
  destruct (decide (S i < length (inorder l))%nat) as [H1|H1].
  { rewrite lookup_app_l in Ha by lia. rewrite lookup_app_l in Hb by lia.
    destruct (inorder_root _ _ _ _ _ _ Hl Ha) as [cl Ecl]. rewrite Ecl in Hl.
    eapply (IHl h cl); try done. lia. }
  destruct (decide (S i = length (inorder l))) as [H2|H2].
  { rewrite lookup_app_l in Ha by lia. rewrite lookup_app_r in Hb by lia.
    replace (S i - length (inorder l))%nat with 0%nat in Hb by lia.
    injection Hb as <-. rewrite Hc in Hbn. injection Hbn as <-.
    destruct (inorder_root _ _ _ _ _ _ Hl Ha) as [cl Ecl]. rewrite Ecl in Hl.
    unfold decr. cbn [iterator_of _iter _state].
    rewrite (bind_Ret _ _ _ _ _ (load_Some _ _ _ Hc)), Ecl.
    destruct (walk_right_last l h cl (Some c') fuel Hl) as (m & Hm & E); [lia|].
    rewrite (bind_Ret _ _ _ _ _ E). rewrite last_lookup, <- H2 in Hm.
    cbn in Hm. rewrite Ha in Hm. by injection Hm as <-. }
  rewrite lookup_app_r in Ha by lia. rewrite lookup_app_r in Hb by lia.
  destruct (i - length (inorder l))%nat as [|k] eqn:Ek.
  - replace (S i - length (inorder l))%nat with 1%nat in Hb by lia.
    injection Ha as <-.
    change ((c' :: inorder r) !! 1%nat) with (inorder r !! 0%nat) in Hb.
    destruct (inorder_root _ _ _ _ _ _ Hr Hb) as [cr Ecr]. rewrite Ecr in Hr.
    destruct (first_is_left_child r h cr (Some c') b Hr Hndr Hb)
      as (bn' & Hbn' & Hbl & Hwhere).
    rewrite Hbn in Hbn'. injection Hbn' as <-.
    destruct Hcase as [Hleft|(p & pn & Hbp & Hpn & Hpr)]; [done|].
    destruct Hwhere as [->|(q & qn & Hbq & Hqn & _ & Hne)].
    + destruct (linked_root _ _ _ _ Hr) as (rn & Hrn & Hrp).
      rewrite Hbn in Hrn. injection Hrn as <-.
      unfold decr. cbn [iterator_of _iter _state].
      rewrite (bind_Ret _ _ _ _ _ (load_Some _ _ _ Hbn)), Hbl, Hrp.
      rewrite (bind_Ret _ _ _ _ _ (load_Some _ _ _ Hc)).
      by rewrite Ecr, decide_True.
    + rewrite Hbp in Hbq. injection Hbq as <-. rewrite Hpn in Hqn.
      injection Hqn as <-. done.
  - replace (S i - length (inorder l))%nat with (S (S k)) in Hb by lia.
    change ((c' :: inorder r) !! S k) with (inorder r !! k) in Ha.
    change ((c' :: inorder r) !! S (S k)) with (inorder r !! S k) in Hb.
    destruct (inorder_root _ _ _ _ _ _ Hr Ha) as [cr Ecr]. rewrite Ecr in Hr.
    eapply (IHr h cr); try done. lia.
Qed.

(** X3.  [operator--] on an iterator to a node that has a left subtree, or
    that is the right child of its parent, returns the iterator to the
    in-order predecessor; on an iterator in the [after_end] state it returns
    the iterator to the node under the cursor. *)
Theorem decrement_is_inorder_predecessor h root s before a b after nd fuel :
  linked h root None s → NoDup (addrs s) →
  inorder s = before ++ a :: b :: after →
  h !! b = Some nd →
  (left nd ≠ None ∨
   ∃ p pn, parent nd = Some p ∧ h !! p = Some pn ∧ right pn = Some b) →
  (height s ≤ fuel)%nat →
  decr fuel (iterator_of (Some b)) h = Ret (iterator_of (Some a), h) ∧
  decr fuel (Iterator (Some b) after_end) h = Ret (iterator_of (Some b), h).
Proof.
  intros Hlk Hnd Hin Hb Hcase Hf. split; [|done].
  assert (Ha : inorder s !! length before = Some a).
  { rewrite Hin. by rewrite list_lookup_middle. }
  assert (Hb' : inorder s !! S (length before) = Some b).
  { rewrite Hin. rewrite lookup_app_r by lia.
    by replace (S (length before) - length before)%nat with 1%nat by lia. }
  destruct (inorder_root _ _ _ _ _ _ Hlk Ha) as [c ->].
  by eapply decr_subtree.
Qed.

End iteration_facts.

Section lookup_facts.
Context {K : Type} (key_comp : K → K → bool).
Implicit Types (h : gmap addr (@node K)) (t : bstree) (s : @shape K).

(** The descent of [find] and [count] stops where the descent in the shape
    stops. *)
Lemma find_loop_shape s : ∀ fuel c key h,
  rep h (Some c) s → (height s ≤ fuel)%nat →
  find_loop key_comp fuel (Some c) key h
  = Ret ((λ a, iterator_of (Some a)) <$> shape_find key_comp key s, h).
Proof.
  induction s as [|l IHl a x r IHr]; intros fuel c key h Hrep Hf; [done|].
  destruct Hrep as ([= ->] & nd & Ha & Hv & Hl & Hr).
  destruct fuel as [|f]; [simpl in Hf; lia|]. simpl in Hf.
  cbn [find_loop shape_find].
  rewrite (bind_Ret _ _ _ _ _ (load_Some _ _ _ Ha)), Hv.
  destruct (key_comp key x); [|destruct (key_comp x key); [|done]].
  - destruct (left nd) as [cl|]; [apply IHl; [done|lia]|].
    by destruct l; [|destruct Hl].
  - destruct (right nd) as [cr|]; [apply IHr; [done|lia]|].
    by destruct r; [|destruct Hr].
Qed.

Lemma shape_find_Some s : ∀ h p key a,
  rep h p s → shape_find key_comp key s = Some a →
  ∃ nd, h !! a = Some nd ∧ equiv_key key_comp key (value nd).
Proof.
  induction s as [|l IHl b x r IHr]; intros h p key a Hrep Hfind; [done|].
  destruct Hrep as (-> & nd & Hb & Hv & Hl & Hr). cbn [shape_find] in Hfind.
  destruct (key_comp key x) eqn:E1; [by eapply IHl|].
  destruct (key_comp x key) eqn:E2; [by eapply IHr|].
  injection Hfind as <-. exists nd. by rewrite Hv.
Qed.

Lemma shape_find_None s key :
  (∀ x, x ∈ keys s → ¬ equiv_key key_comp key x) →
  shape_find key_comp key s = None.
Proof.
  induction s as [|l IHl b x r IHr]; intros Hno; [done|]. cbn [shape_find keys] in *.
  destruct (key_comp key x) eqn:E1.
  { apply IHl. intros y Hy. apply Hno. apply elem_of_app. by left. }
  destruct (key_comp x key) eqn:E2.
  { apply IHr. intros y Hy. apply Hno. apply elem_of_app. right.
    apply elem_of_cons. by right. }
  destruct (Hno x); [|done]. apply elem_of_app. right. apply list_elem_of_here.
Qed.

Lemma shape_find_present s key :
  (∀ x y z, key_comp x y = true → key_comp y z = true → key_comp x z = true) →
  bst key_comp s → (∃ x, x ∈ keys s ∧ equiv_key key_comp key x) →
  is_Some (shape_find key_comp key s).
Proof.
  intros Htrans. induction s as [|l IHl b x r IHr]; intros Hbst (y & Hy & Heq).
  { by apply elem_of_nil in Hy. }
  destruct Hbst as (Hbl & Hbr & Hlt & Hgt). cbn [shape_find keys] in *.
  rewrite Forall_forall in Hlt, Hgt.
  apply elem_of_app in Hy as [Hy|Hy]; [|apply elem_of_cons in Hy as [->|Hy]].
  - pose proof (Hlt _ Hy) as Hyx. destruct (key_comp key x) eqn:E1; [by eauto|].
    destruct (key_comp x key) eqn:E2; [|done].
    destruct Heq as [_ Heq]. by rewrite (Htrans _ _ _ Hyx E2) in Heq.
  - destruct Heq as [-> ->]. done.
  - pose proof (Hgt _ Hy) as Hxy. destruct (key_comp key x) eqn:E1.
    { destruct Heq as [Heq _]. by rewrite (Htrans _ _ _ E1 Hxy) in Heq. }
    destruct (key_comp x key) eqn:E2; [by eauto|done].
Qed.

Lemma rep_root h p s : rep h p s → s ≠ Leaf → ∃ c, p = Some c.
Proof. destruct s; [done|]. intros [-> _] _. by eexists. Qed.

Lemma shape_Leaf_dec s : s = Leaf ∨ s ≠ Leaf.
Proof. destruct s; [by left | by right]. Qed.

(** X4.  On a well-formed tree that holds a key comparing equal to [key],
    [find (key)] returns the iterator to the node of that key and
    [count (key)] returns 1; neither changes the heap. *)
Theorem find_and_count_of_present_key h t s key fuel :
  (∀ x y z, key_comp x y = true → key_comp y z = true → key_comp x z = true) →
  well_formed key_comp h t s →
  (∃ x, x ∈ keys s ∧ equiv_key key_comp key x) →
  (height s ≤ fuel)%nat →
  ∃ a nd, find_impl key_comp fuel key t h = Ret (iterator_of (Some a), h) ∧
          h !! a = Some nd ∧ equiv_key key_comp key (value nd) ∧
          count key_comp fuel key t h = Ret (1, h).
Proof.
  intros Htrans (Hrep & Hbst & Hsize) Hex Hf.
  destruct (shape_find_present s key Htrans Hbst Hex) as [a Ha].
  destruct (shape_find_Some s h _ key a Hrep Ha) as (nd & Hnd & Heq).
  destruct Hex as (x & Hx & _).
  assert (Hne : s ≠ Leaf) by (intros ->; by apply elem_of_nil in Hx).
  destruct (rep_root _ _ _ Hrep Hne) as [c Hc]. rewrite Hc in Hrep.
  exists a, nd. unfold find_impl, count, empty.
  rewrite bool_decide_eq_false_2
    by (rewrite Hsize; destruct s; [done | simpl; lia]).
  rewrite Hc, !(bind_Ret _ _ _ _ _ (find_loop_shape s fuel c key h Hrep Hf)), Ha.
  done.
Qed.

(** X5.  On a well-formed tree none of whose keys compares equal to [key],
    [find (key)] returns [end ()] and [count (key)] returns 0; neither
    changes the heap. *)
Theorem find_and_count_of_absent_key h t s key fuel :
  well_formed key_comp h t s →
  (∀ x, x ∈ keys s → ¬ equiv_key key_comp key x) →
  (height s ≤ fuel)%nat →
  find_impl key_comp fuel key t h = Ret (end_ t, h) ∧
  count key_comp fuel key t h = Ret (0, h).
Proof.
  intros (Hrep & Hbst & Hsize) Hno Hf. unfold find_impl, count, empty, end_.
  destruct (shape_Leaf_dec s) as [->|Hne].
  { by rewrite !bool_decide_eq_true_2 by done. }
  rewrite !bool_decide_eq_false_2
    by (rewrite Hsize; destruct s; [done | simpl; lia]).
  destruct (rep_root _ _ _ Hrep Hne) as [c Hc]. rewrite Hc in Hrep |- *.
  rewrite !(bind_Ret _ _ _ _ _ (find_loop_shape s fuel c key h Hrep Hf)).
  by rewrite (shape_find_None s key Hno).
Qed.

(** The descent of [erase (key)] that finds no node for the key changes
    nothing. *)
Lemma erase_loop_absent s : ∀ fuel c key t h,
  rep h (Some c) s → shape_find key_comp key s = None → (height s ≤ fuel)%nat →
  erase_loop key_comp fuel (Some c) key t h = Ret ((t, 0), h).
Proof.
  induction s as [|l IHl a x r IHr]; intros fuel c key t h Hrep Hfind Hf; [done|].
  destruct Hrep as ([= ->] & nd & Ha & Hv & Hl & Hr).
  destruct fuel as [|f]; [simpl in Hf; lia|]. simpl in Hf.
  cbn [erase_loop shape_find] in *.
  rewrite (bind_Ret _ _ _ _ _ (load_Some _ _ _ Ha)), Hv.
  destruct (key_comp key x); [|destruct (key_comp x key); [|done]].
  - destruct (left nd) as [cl|]; [|done]. apply (IHl f cl); [done | done | lia].
  - destruct (right nd) as [cr|]; [|done]. apply (IHr f cr); [done | done | lia].
Qed.

(** X6.  On a well-formed tree that is not empty and none of whose keys
    compares equal to [key], [erase (key)] returns 0 and leaves the tree and
    the heap as they are. *)
Theorem erase_of_absent_key h t s key fuel :
  well_formed key_comp h t s → s ≠ Leaf →
  (∀ x, x ∈ keys s → ¬ equiv_key key_comp key x) →
  (height s ≤ fuel)%nat →
  erase_key key_comp fuel key t h = Ret ((t, 0), h).
Proof.
  intros (Hrep & Hbst & Hsize) Hne Hno Hf. unfold erase_key.
  destruct (rep_root _ _ _ Hrep Hne) as [c Hc]. rewrite Hc in Hrep |- *.
  apply (erase_loop_absent s); [done | | done]. by apply shape_find_None.
Qed.

End lookup_facts.

Section insert_find_facts.
Context {K : Type} (key_comp : K → K → bool).
Implicit Types (h : gmap addr (@node K)) (t : bstree) (s : @shape K).

Lemma shape_find_insert v a s :
  key_comp v v = false →
  is_Some (shape_find key_comp v (shape_insert key_comp v a s)).
Proof.
  intros Hirr. induction s as [|l IHl b x r IHr]; cbn [shape_insert shape_find].
  { by rewrite Hirr. }
  destruct (key_comp v x) eqn:E1; [|destruct (key_comp x v) eqn:E2];
    cbn [shape_find]; rewrite ?E1, ?E2; done.
Qed.

Lemma shape_insert_height v a s :
  (height (shape_insert key_comp v a s) ≤ S (height s))%nat.
Proof.
  induction s as [|l IHl b x r IHr]; cbn [shape_insert height]; [lia|].
  destruct (key_comp v x); [|destruct (key_comp x v)]; cbn [height]; lia.
Qed.

Lemma shape_insert_nodes_find v a s :
  nodes (shape_insert key_comp v a s)
  = (nodes s + match shape_find key_comp v s with Some _ => 0 | None => 1 end)%nat.
Proof.
  induction s as [|l IHl b x r IHr]; cbn [shape_insert shape_find nodes]; [done|].
  destruct (key_comp v x); [|destruct (key_comp x v)]; cbn [nodes]; lia.
Qed.

(** What the descent of [insert] returns: the iterator to the node where
    the descent for the key now stops, and whether it stopped nowhere
    before. *)
Lemma insert_loop_result s : ∀ fuel c v t h t' r h',
  rep h (Some c) s → key_comp v v = false →
  insert_loop key_comp fuel (Some c) v t h = Ret ((t', r), h') →
  r = (iterator_of (shape_find key_comp v
                      (shape_insert key_comp v (fresh (dom h)) s)),
       bool_decide (shape_find key_comp v s = None)).
Proof.
  induction s as [|l IHl b x r IHr]; intros fuel c v t h t' res h' Hrep Hirr H; [done|].
  destruct Hrep as ([= ->] & nd & Hb & Hv & Hl & Hr).
  destruct fuel as [|f]; [done|]. cbn [insert_loop] in H.
  rewrite (bind_Ret _ _ _ _ _ (load_Some _ _ _ Hb)), Hv in H.
  cbn [shape_insert shape_find].
  destruct (key_comp v x) eqn:E1; [|destruct (key_comp x v) eqn:E2].
  - cbn [shape_find]. rewrite E1.
    destruct (left nd) as [cl|] eqn:El; [by eapply IHl|].
    apply rep_None in Hl as ->.
    destruct (insert_left_spec h b nd v t Hb) as (t1 & E & _).
    rewrite (bind_Ret _ _ _ _ _ E) in H.
    unfold get_left, load, mbind, M_bind, bind, mret, M_ret, ret in H.
    rewrite lookup_insert_eq in H. injection H as _ <- _.
    cbn [shape_insert shape_find set_left left]. by rewrite Hirr.
  - cbn [shape_find]. rewrite E1, E2.
    destruct (right nd) as [cr|] eqn:Er; [by eapply IHr|].
    apply rep_None in Hr as ->.
    destruct (insert_right_spec h b nd v t Hb) as (t1 & E & _).
    rewrite (bind_Ret _ _ _ _ _ E) in H.
    unfold get_right, load, mbind, M_bind, bind, mret, M_ret, ret in H.
    rewrite lookup_insert_eq in H. injection H as _ <- _.
    cbn [shape_insert shape_find set_right right]. by rewrite Hirr.
  - cbn [shape_find]. rewrite E1, E2. by injection H as _ <- _.
Qed.

(** X7.  [insert (v)] on a sound tree returns, with fuel for one more than
    the height, and leaves a sound tree; the size grows by one exactly when
    the flag returned is [true]; [find (v)] on the result returns the
    iterator [insert] returned, which is at a node whose key compares equal
    to [v], and [count (v)] returns 1. *)
Theorem insert_then_find h t s v fuel :
  sound key_comp h t s → key_comp v v = false →
  _tree_size t + 1 < 2 ^ 64 → (S (height s) ≤ fuel)%nat →
  ∃ t' a inserted h' s' nd,
    insert key_comp fuel v t h = Ret ((t', (iterator_of (Some a), inserted)), h') ∧
    sound key_comp h' t' s' ∧
    size t' = size t + (if inserted then 1 else 0) ∧
    h' !! a = Some nd ∧ equiv_key key_comp v (value nd) ∧
    find_impl key_comp fuel v t' h' = Ret (iterator_of (Some a), h') ∧
    count key_comp fuel v t' h' = Ret (1, h').
Proof.
  intros Hs Hirr Hmax Hf.
  destruct (insert_sound key_comp h t s v fuel Hs Hmax) as (t' & r & h' & E & Hs'); [lia|].
  set (s' := shape_insert key_comp v (fresh (dom h)) s) in *.
  destruct (shape_find_insert v (fresh (dom h)) s Hirr) as [a Ha]. fold s' in Ha.
  pose proof (sound_well_formed _ _ _ _ Hs') as (Hrep' & Hbst' & Hsize').
  destruct (shape_find_Some key_comp s' h' _ v a Hrep' Ha) as (nd & Hnd & Heq).
  assert (Hne' : s' ≠ Leaf) by (by intros E'; rewrite E' in Ha).
  destruct (rep_root _ _ _ Hrep' Hne') as [c' Hc']. rewrite Hc' in Hrep'.
  assert (Hres : r = (iterator_of (Some a),
                      bool_decide (shape_find key_comp v s = None))).
  { destruct Hs as (Hlk & Hnd0 & Hbst & Hsize).
    revert E. unfold insert, empty.
    destruct (shape_Leaf_dec s) as [->|Hne].
    - rewrite bool_decide_eq_true_2 by done.
      rewrite (bind_Ret _ _ _ _ _ (make_root_spec _ _ _ _ Hlk)).
      intros [= <- <- <-]. cbn in Ha. rewrite Hirr in Ha. by injection Ha as <-.
    - rewrite bool_decide_eq_false_2
        by (rewrite Hsize; destruct s; [done | simpl; lia]).
      pose proof (linked_rep _ _ _ _ Hlk) as Hrep.
      destruct (rep_root _ _ _ Hrep Hne) as [c Hc]. rewrite Hc in Hrep |- *.
      intros E. rewrite (insert_loop_result s _ _ _ _ _ _ _ _ Hrep Hirr E).
      fold s'. by rewrite Ha. }
  subst r. exists t', a, (bool_decide (shape_find key_comp v s = None)), h', s', nd.
  split; [done|]. split; [done|]. split; [|split; [done|split; [done|]]].
  - unfold size. destruct Hs as (_ & _ & _ & ->). rewrite Hsize'. unfold s'.
    rewrite shape_insert_nodes_find.
    destruct (shape_find key_comp v s); [rewrite bool_decide_eq_false_2 by done|
                                         rewrite bool_decide_eq_true_2 by done]; lia.
  - unfold find_impl, count, empty.
    rewrite bool_decide_eq_false_2
      by (rewrite Hsize'; destruct s'; [done | simpl; lia]).
    pose proof (shape_insert_height v (fresh (dom h)) s) as Hh. fold s' in Hh.
    rewrite Hc'.
    rewrite !(bind_Ret _ _ _ _ _
                (find_loop_shape key_comp s' fuel c' v h' Hrep' ltac:(lia))), Ha.
    done.
Qed.

End insert_find_facts.

Section emplace_facts.
Context {K : Type} (key_comp : K → K → bool).
Implicit Types (h : gmap addr (@node K)) (t : bstree) (s : @shape K).

Lemma get_left_Some h a nd :
  h !! a = Some nd → get_left (Some a) h = Ret (left nd, h).
Proof. intros H. by mrun. Qed.

Lemma get_right_Some h a nd :
  h !! a = Some nd → get_right (Some a) h = Ret (right nd, h).
Proof. intros H. by mrun. Qed.

Lemma get_parent_Some h a nd :
  h !! a = Some nd → get_parent (Some a) h = Ret (parent nd, h).
Proof. intros H. by mrun. Qed.

(** The descent of [emplace], the node being built beforehand at the
    address that [insert] would take, is the descent of [insert]. *)
Lemma emplace_loop_insert_loop s : ∀ fuel p v t h,
  rep h p s →
  emplace_loop key_comp fuel p (Some (fresh (dom h))) t
    (<[fresh (dom h) := Node v None None None]> h)
  = insert_loop key_comp fuel p v t h.
Proof.
  induction s as [|l IHl b x r IHr]; intros fuel p v t h Hrep.
  { simpl in Hrep. subst p. destruct fuel as [|f]; [done|].
    cbn [emplace_loop insert_loop].
    unfold get_value, load, mbind, M_bind, bind, mret, M_ret, ret.
    by rewrite lookup_insert_eq. }
  destruct Hrep as (-> & nd & Hb & Hv & Hl & Hr).
  destruct fuel as [|f]; [done|].
  pose proof (fresh_None h) as Hfresh. set (a := fresh (dom h)) in *.
  assert (Hab : a ≠ b) by (intros E; rewrite E in Hfresh; congruence).
  set (h1 := <[a := Node v None None None]> h).
  assert (Ha1 : h1 !! a = Some (Node v None None None)) by apply lookup_insert_eq.
  assert (Hb1 : h1 !! b = Some nd) by (unfold h1; by rewrite lookup_insert_ne).
  cbn [emplace_loop insert_loop].
  rewrite (bind_Ret _ _ _ _ _ (load_Some _ _ _ Hb)).
  rewrite (bind_Ret _ _ _ _ _ (get_value_Some _ _ _ Ha1)).
  rewrite (bind_Ret _ _ _ _ _ (get_value_Some _ _ _ Hb1)). cbn [value].
  destruct (key_comp v (value nd)) eqn:E1; [|destruct (key_comp (value nd) v) eqn:E2].
  - rewrite (bind_Ret _ _ _ _ _ (get_left_Some _ _ _ Hb1)).
    destruct (left nd) as [cl|] eqn:El; [by apply IHl|].
    unfold insert_left_node, insert_left, insert_left_tail, node_create, modify,
      get_left, load, mbind, M_bind, bind, mret, M_ret, ret.
    fold a. fold h1. rewrite Hb1. rewrite !lookup_insert_ne by done. rewrite Hb, Ha1.
    cbn [set_parent value left right].
    assert (Eh : <[a := set_parent (Some b) (Node v None None None)]>
                   (<[b := set_left (Some a) nd]> h1)
                 = <[b := set_left (Some a) nd]>
                     (<[a := Node v None None (Some b)]> h)).
    { unfold h1, set_parent. cbn [value left right]. rewrite (insert_insert_ne _ a b) by done. by rewrite insert_insert_eq. }
    rewrite Eh. done.
  - rewrite (bind_Ret _ _ _ _ _ (get_right_Some _ _ _ Hb1)).
    destruct (right nd) as [cr|] eqn:Er; [by apply IHr|].
    unfold insert_right_node, insert_right, insert_right_tail, node_create, modify,
      get_right, load, mbind, M_bind, bind, mret, M_ret, ret.
    fold a. fold h1. rewrite Hb1. rewrite !lookup_insert_ne by done. rewrite Hb, Ha1.
    cbn [set_parent value left right].
    assert (Eh : <[a := set_parent (Some b) (Node v None None None)]>
                   (<[b := set_right (Some a) nd]> h1)
                 = <[b := set_right (Some a) nd]>
                     (<[a := Node v None None (Some b)]> h)).
    { unfold h1, set_parent. cbn [value left right]. rewrite (insert_insert_ne _ a b) by done. by rewrite insert_insert_eq. }
    rewrite Eh. done.
  - unfold deallocate, mbind, M_bind, bind, mret, M_ret, ret.
    rewrite Ha1. unfold h1. by rewrite delete_insert_id.
Qed.

(** X8.  On a tree whose child links draw a shape, [emplace (args)] has the
    outcome of [insert] of the value built from [args]: the same result, the
    same tree and the same heap; in particular the node built for a key that
    is there is deallocated. *)
Theorem emplace_is_insert h t s v fuel :
  rep h (_tree_root t) s →
  emplace key_comp fuel v t h = insert key_comp fuel v t h.
Proof.
  intros Hrep. unfold emplace, insert. destruct (empty t); [done|].
  unfold node_create, mbind, M_bind, bind.
  by apply (emplace_loop_insert_loop s).
Qed.

End emplace_facts.

Section copy_facts.
Context {K : Type} (key_comp : K → K → bool).
Implicit Types (h : gmap addr (@node K)) (t : bstree) (s : @shape K).

(** Keys are values: the walk that copies them is the walk that moves
    them. *)
Lemma copy_from_move_from fuel nh h :
  copy_from (K:=K) fuel nh h = move_from fuel nh h.
Proof. reflexivity. Qed.

Lemma copy_of_keys s : ∀ s', copy_of s s' → keys s' = keys s.
Proof.
  induction s as [|l IHl a v r IHr]; intros [|l' a' v' r'] H; try done.
  destruct H as (-> & Hl & Hr). simpl. by rewrite (IHl _ Hl), (IHr _ Hr).
Qed.

Lemma copy_of_bst s : ∀ s', copy_of s s' → bst key_comp s → bst key_comp s'.
Proof.
  induction s as [|l IHl a v r IHr]; intros [|l' a' v' r'] H; try done.
  destruct H as (-> & Hl & Hr). simpl. intros (Hbl & Hbr & Hlt & Hgt).
  rewrite (copy_of_keys _ _ Hl), (copy_of_keys _ _ Hr).
  split; [by apply IHl|]. split; [by apply IHr|]. by split.
Qed.

Lemma copy_of_height s : ∀ s', copy_of s s' → height s' = height s.
Proof.
  induction s as [|l IHl a v r IHr]; intros [|l' a' v' r'] H; try done.
  destruct H as (_ & Hl & Hr). simpl. by rewrite (IHl _ Hl), (IHr _ Hr).
Qed.

(** [set_iterators] on a linked tree: the cursors go to the first and to
    the last node, the state of the begin cache stays what it was. *)
Lemma set_iterators_spec h t s fuel :
  linked h (_tree_root t) None s → _tree_size t = Z.of_nat (nodes s) →
  (height s ≤ fuel)%nat →
  ∃ t', set_iterators fuel t h = Ret (t', h) ∧
        _tree_root t' = _tree_root t ∧ _tree_size t' = _tree_size t ∧
        _node_alloc t' = _node_alloc t ∧
        _iter (_begin t') = inorder s !! 0%nat ∧
        _iter (_end t') = last (inorder s) ∧
        (s ≠ Leaf → _state (_begin t') = _state (_begin t) ∧
                    _state (_end t') = after_end) ∧
        (s = Leaf → _state (_begin t') = valid ∧ _state (_end t') = valid).
Proof.
  intros Hlk Hsize Hf. unfold set_iterators.
  destruct (linked_cases _ _ _ _ Hlk) as [[Hc ->]|(c & Hc & Hcin & _)].
  - rewrite bool_decide_eq_false_2 by (rewrite Hsize; simpl; lia).
    eexists. split; [reflexivity|]. by repeat split.
  - assert (Hne : s ≠ Leaf) by (intros ->; by apply elem_of_nil in Hcin).
    rewrite bool_decide_eq_true_2
      by (rewrite Hsize; destruct s; [done | simpl; lia]).
    rewrite Hc in Hlk |- *.
    destruct (walk_left_first _ _ _ _ _ Hlk Hf) as (m & Hm & Em).
    destruct (walk_right_last _ _ _ _ _ Hlk Hf) as (m' & Hm' & Em').
    rewrite (bind_Ret _ _ _ _ _ Em), (bind_Ret _ _ _ _ _ Em').
    eexists. split; [reflexivity|]. cbn. by repeat split.
Qed.

(** X9.  Copy construction from a sound tree returns a sound tree of new
    nodes with the same keys and the same size and leaves every node that
    was there as it is; the cursors of [begin ()] and [end ()] of the copy
    are at its first and at its last node, and [begin ()] of a copy that is
    not empty is in the [after_end] state of the default-constructed
    iterator it was assigned to. *)
Theorem copy_construct_copies h other s alloc fuel :
  sound key_comp h other s → (walk_cost s ≤ fuel)%nat →
  ∃ t' h' s',
    copy_construct fuel alloc other h = Ret (t', h') ∧
    sound key_comp h' t' s' ∧ keys s' = keys s ∧ size t' = size other ∧
    (∀ b, b ∉ addrs s' → h' !! b = h !! b) ∧
    (∀ b, b ∈ addrs s' → h !! b = None) ∧
    _iter (begin t') = inorder s' !! 0%nat ∧
    _iter (end_ t') = last (inorder s') ∧
    (s ≠ Leaf → _state (begin t') = after_end ∧ _state (end_ t') = after_end).
Proof.
  intros (Hlk & Hnd & Hbst & Hsize) Hf. unfold copy_construct.
  destruct (move_from_linked h _ s fuel Hlk Hf)
    as (h' & r & s' & Em & Hlk' & Hcp & Hsame & Hnew & Hnd' & Hdead).
  rewrite <- copy_from_move_from in Em. rewrite (bind_Ret _ _ _ _ _ Em).
  rewrite (bind_Ret _ _ _ _ _
             (root_assign_None fuel r
                (Tree alloc None 0 iterator_default iterator_default empty_function)
                h' eq_refl)).
  destruct (set_iterators_spec h'
              (with_size (_tree_size other)
                 (with_deleter bound_tree_delete
                    (with_root r (Tree alloc None 0 iterator_default iterator_default
                                       empty_function))))
              s' fuel) as (t' & Es & Hroot & Hsz & _ & Hb & He & Hst & _).
  { done. }
  { cbn. by rewrite (copy_of_nodes _ _ Hcp). }
  { pose proof (height_walk_cost s'). rewrite (copy_of_walk_cost _ _ Hcp) in *. lia. }
  exists t', h', s'. split; [done|]. cbn in Hroot, Hsz.
  split; [|split; [by apply copy_of_keys|split; [done|split; [|split; [done|]]]]].
  - split; [by rewrite Hroot|]. split; [done|].
    split; [by eapply copy_of_bst|]. rewrite Hsz, Hsize. by rewrite (copy_of_nodes _ _ Hcp).
  - intros b Hbn. destruct (h !! b) as [x|] eqn:Eb.
    + rewrite <- Eb. apply Hsame. by rewrite Eb.
    + by apply Hdead.
  - split; [done|]. split; [done|]. intros Hne. apply Hst.
    intros ->. by destruct s.
Qed.

(** X10.  [clear ()] on a tree whose nodes are linked, each at its own
    address, and whose handle holds the deleter that a constructor bound
    (not one left behind by a move of the handle), returns the empty tree
    with the default iterators and deallocates the nodes of the tree and no
    other. *)
Theorem clear_deallocates_the_tree h t s fuel :
  _tree_deleter t = bound_tree_delete →
  linked h (_tree_root t) None s → NoDup (addrs s) → (walk_cost s ≤ fuel)%nat →
  ∃ t' h',
    clear fuel t h = Ret (t', h') ∧
    size t' = 0 ∧ empty t' = true ∧ _tree_root t' = None ∧
    begin t' = iterator_default ∧ end_ t' = iterator_default ∧
    dom h' = dom h ∖ list_to_set (addrs s) ∧
    (∀ b, b ∉ addrs s → h' !! b = h !! b).
Proof.
  intros Hd Hlk Hnd Hf.
  destruct (clear_linked h t s fuel Hd Hlk Hnd Hf) as (h' & E & Hgone & Hsame).
  eexists _, h'. split; [exact E|]. repeat split; try done.
  apply set_eq. intros b. rewrite elem_of_difference, !elem_of_dom, elem_of_list_to_set.
  destruct (decide (b ∈ addrs s)) as [Hb|Hb].
  - rewrite (Hgone b Hb). split; [by intros [? ?]|by intros [_ ?]].
  - rewrite (Hsame b Hb). tauto.
Qed.


(** [_tree_root.reset (p)] on a linked tree deallocates the nodes of the
    tree and no other. *)
Lemma root_reset_linked h t s p fuel :
  _tree_deleter t = bound_tree_delete →
  linked h (_tree_root t) None s → NoDup (addrs s) → (walk_cost s ≤ fuel)%nat →
  ∃ h', root_reset fuel p t h = Ret (with_root p t, h') ∧
        (∀ b, b ∈ addrs s → h' !! b = None) ∧
        (∀ b, b ∉ addrs s → h' !! b = h !! b).
Proof.
  intros Hd Hlk Hnd Hf. unfold root_reset. rewrite Hd.
  destruct (linked_cases _ _ _ _ Hlk) as [[Hc ->]|(c & Hc & Hcin & _)].
  - exists h. rewrite Hc.
    split; [done|]. split; [|done]. intros b Hb. by apply elem_of_nil in Hb.
  - rewrite Hc in Hlk |- *. cbn [call_deleter].
    destruct (tree_delete_subtree s h c None (fuel - walk_cost s) Hlk Hnd)
      as (h' & E & Hgone & Hsame & _); [done|].
    replace (walk_cost s + (fuel - walk_cost s))%nat with fuel in E by lia.
    rewrite tree_delete_None in E.
    exists h'. rewrite (bind_Ret _ _ _ _ _ E). split; [done|]. split; [done|].
    intros b Hb. by apply Hsame.
Qed.

(** The copy of [other], then the old nodes of the assigned tree go. *)
Lemma copy_then_reset h this other st so fuel :
  _tree_deleter this = bound_tree_delete →
  linked h (_tree_root this) None st → NoDup (addrs st) →
  sound key_comp h other so →
  (∀ b, b ∈ addrs st → b ∉ addrs so) →
  (walk_cost st ≤ fuel)%nat → (walk_cost so ≤ fuel)%nat →
  ∃ this' h' s',
    (r ← copy_from fuel (_tree_root other);
     this1 ← root_assign fuel r this;
     set_iterators fuel (with_size (_tree_size other) this1)) h = Ret (this', h') ∧
    sound key_comp h' this' s' ∧ keys s' = keys so ∧ size this' = size other ∧
    (∀ b, b ∈ addrs so → h' !! b = h !! b) ∧
    (∀ b, b ∈ addrs s' → h !! b = None) ∧
    (∀ b, b ∉ addrs s' → b ∈ addrs st → h' !! b = None) ∧
    (∀ b, b ∉ addrs s' → b ∉ addrs st → h' !! b = h !! b).
Proof.
  intros Hd Hst Hndt (Hso & Hndo & Hbsto & Hsizeo) Hdisj Hft Hfo.
  destruct (move_from_linked h _ so fuel Hso Hfo)
    as (h1 & r & s' & Em & Hlk' & Hcp & Hsame & Hnew & Hnd' & Hdead).
  rewrite <- copy_from_move_from in Em. rewrite (bind_Ret _ _ _ _ _ Em).
  assert (Hst1 : linked h1 (_tree_root this) None st).
  { eapply linked_frame; [|exact Hst]. intros b Hb. apply Hsame.
    exact (linked_alive _ _ _ _ _ Hst Hb). }
  destruct (root_reset_linked h1 this st r fuel Hd Hst1 Hndt Hft)
    as (h2 & Er & Hgone & Hkept).
  unfold root_assign. rewrite (bind_Ret _ _ _ _ _ (bind_Ret _ _ _ _ _ Er)).
  assert (Hfresh' : ∀ b, b ∈ addrs s' → b ∉ addrs st).
  { intros b Hb Hbt. destruct (linked_alive _ _ _ _ _ Hst Hbt) as [x Hx].
    rewrite (Hnew b Hb) in Hx. done. }
  assert (Hlk2 : linked h2 r None s').
  { eapply linked_frame; [|exact Hlk']. intros b Hb. apply Hkept. by apply Hfresh'. }
  destruct (set_iterators_spec h2
              (with_size (_tree_size other)
                 (with_deleter bound_tree_delete (with_root r this)))
              s' fuel) as (t' & Es & Hroot & Hsz & _).
  { done. }
  { cbn. by rewrite (copy_of_nodes _ _ Hcp). }
  { pose proof (height_walk_cost s'). rewrite (copy_of_walk_cost _ _ Hcp) in *. lia. }
  exists t', h2, s'. split; [done|]. cbn in Hroot, Hsz.
  split; [|split; [by apply copy_of_keys|split; [done|split; [|split; [done|split]]]]].
  - split; [by rewrite Hroot|]. split; [done|]. split; [by eapply copy_of_bst|].
    rewrite Hsz, Hsizeo. by rewrite (copy_of_nodes _ _ Hcp).
  - intros b Hb. rewrite Hkept by (intros Hbt; by eapply Hdisj).
    apply Hsame. exact (linked_alive _ _ _ _ _ Hso Hb).
  - intros b _ Hb. by apply Hgone.
  - intros b Hbn Hbt. rewrite Hkept by done.
    destruct (h !! b) as [x|] eqn:Eb.
    + rewrite <- Eb. apply Hsame. by rewrite Eb.
    + by apply Hdead.
Qed.

(** X11.  Copy assignment between two sound trees that share no node, to
    a tree whose handle holds the deleter that a constructor bound (not one
    left behind by a move of the handle), returns, whether or not the
    allocator propagates: the assigned tree is
    a sound tree of new nodes with the keys and the size of the source, the
    nodes of the source are as they were, the old nodes of the assigned
    tree are deallocated and every other cell of the heap is as it was. *)
Theorem copy_assign_copies propagate h this other st so fuel :
  _tree_deleter this = bound_tree_delete →
  sound key_comp h this st → sound key_comp h other so →
  (∀ b, b ∈ addrs st → b ∉ addrs so) →
  (walk_cost st ≤ fuel)%nat → (walk_cost so ≤ fuel)%nat →
  ∃ this' h' s',
    copy_assign propagate fuel this other h = Ret (this', h') ∧
    sound key_comp h' this' s' ∧ keys s' = keys so ∧ size this' = size other ∧
    (∀ b, b ∈ addrs so → h' !! b = h !! b ∧ b ∉ addrs s') ∧
    (∀ b, b ∉ addrs s' → b ∈ addrs st → h' !! b = None) ∧
    (∀ b, b ∉ addrs s' → b ∉ addrs st → h' !! b = h !! b).
Proof.
  intros Hd (Hst & Hndt & _ & _) Hsound Hdisj Hft Hfo.
  pose proof Hsound as (Hso & _).
  unfold copy_assign.
  destruct propagate; [destruct (bool_decide (_node_alloc this ≠ _node_alloc other))|].
  - (* the old nodes go first *)
    destruct (root_reset_linked h this st None fuel Hd Hst Hndt Hft)
      as (h1 & Er & Hgone & Hkept).
    assert (Hso1 : linked h1 (_tree_root other) None so).
    { eapply linked_frame; [|exact Hso]. intros b Hb. apply Hkept.
      intros Hbt. by eapply Hdisj. }
    destruct (copy_then_reset h1
                (Tree (_node_alloc other) None (_tree_size this) (_begin this) (_end this)
                      (_tree_deleter this))
                other Leaf so fuel)
      as (this' & h' & s' & E & Hs' & Hk & Hsz & Hso' & Hnew & _ & Hframe);
      [done | done | constructor | | by intros b ?%elem_of_nil | simpl; lia | done |].
    { destruct Hsound as (_ & ? & ? & ?). by repeat split. }
    exists this', h', s'.
    split; [|split; [done|split; [done|split; [done|split; [|split]]]]].
    + unfold mbind, M_bind, bind in E |- *. rewrite Er. exact E.
    + intros b Hb. split.
      * rewrite Hso' by done. apply Hkept. intros Hbt. by eapply Hdisj.
      * intros Hbn.
        destruct (linked_alive _ _ _ _ _ Hso1 Hb) as [x Hx]. by rewrite (Hnew b Hbn) in Hx.
    + intros b Hbn Hbt. rewrite Hframe; [by apply Hgone | done | by intros ?%elem_of_nil].
    + intros b Hbn Hbt. rewrite Hframe; [by apply Hkept | done | by intros ?%elem_of_nil].
  - destruct (copy_then_reset h
                (Tree (_node_alloc other) (_tree_root this) (_tree_size this)
                   (_begin this) (_end this) (_tree_deleter this))
                other st so fuel)
      as (this' & h' & s' & E & Hs' & Hk & Hsz & Hso' & Hnew & Hfreed & Hframe); try done.
    exists this', h', s'.
    split; [exact E|split; [done|split; [done|split; [done|split; [|split; done]]]]].
    intros b Hb. split; [by apply Hso'|]. intros Hbn.
    destruct (linked_alive _ _ _ _ _ Hso Hb) as [x Hx]. by rewrite (Hnew b Hbn) in Hx.
  - destruct (copy_then_reset h this other st so fuel)
      as (this' & h' & s' & E & Hs' & Hk & Hsz & Hso' & Hnew & Hfreed & Hframe); try done.
    exists this', h', s'.
    split; [exact E|split; [done|split; [done|split; [done|split; [|split; done]]]]].
    intros b Hb. split; [by apply Hso'|]. intros Hbn.
    destruct (linked_alive _ _ _ _ _ Hso Hb) as [x Hx]. by rewrite (Hnew b Hbn) in Hx.
Qed.

End copy_facts.

Section build_facts.
Context {K : Type} (key_comp : K → K → bool).
Implicit Types (h : gmap addr (@node K)) (t : bstree) (s : @shape K).

Lemma shape_insert_keys v a s x :
  x ∈ keys (shape_insert key_comp v a s) ↔
  x ∈ keys s ∨ (x = v ∧ shape_find key_comp v s = None).
Proof.
  induction s as [|l IHl b y r IHr]; cbn [shape_insert shape_find keys].
  { simpl. rewrite elem_of_cons, !elem_of_nil. tauto. }
  destruct (key_comp v y); [|destruct (key_comp y v)]; cbn [keys];
    rewrite ?elem_of_app, ?elem_of_cons, ?IHl, ?IHr, ?elem_of_app, ?elem_of_cons;
    [tauto | tauto | ].
  split; [by left | intros [?|[_ ?]]; done].
Qed.

Lemma shape_find_key s key a :
  shape_find key_comp key s = Some a →
  ∃ x, x ∈ keys s ∧ equiv_key key_comp key x.
Proof.
  induction s as [|l IHl b y r IHr]; [done|]. cbn [shape_find keys].
  destruct (key_comp key y) eqn:E1; [|destruct (key_comp y key) eqn:E2].
  - intros H. destruct (IHl H) as (x & Hx & Heq). exists x. split; [|done].
    apply elem_of_app. by left.
  - intros H. destruct (IHr H) as (x & Hx & Heq). exists x. split; [|done].
    apply elem_of_app. right. apply elem_of_cons. by right.
  - intros _. exists y. split; [|done]. apply elem_of_app. right. apply list_elem_of_here.
Qed.

Lemma shape_insert_addrs_mono v a s b :
  b ∈ addrs s → b ∈ addrs (shape_insert key_comp v a s).
Proof.
  induction s as [|l IHl c x r IHr]; [by intros ?%elem_of_nil|].
  cbn [shape_insert]. destruct (key_comp v x); [|destruct (key_comp x v)];
    cbn [addrs]; rewrite !elem_of_cons, !elem_of_app; [|tauto..].
  tauto.
Qed.

(** The descent of [insert] changes no cell but those of the nodes of the
    result. *)
Lemma insert_loop_frame s : ∀ fuel c v t h t' r h' b,
  rep h (Some c) s →
  insert_loop key_comp fuel (Some c) v t h = Ret ((t', r), h') →
  b ∉ addrs (shape_insert key_comp v (fresh (dom h)) s) →
  h' !! b = h !! b.
Proof.
  induction s as [|l IHl c' x r IHr]; intros fuel c v t h t' res h' b Hrep H Hb; [done|].
  destruct Hrep as ([= ->] & nd & Hc & Hv & Hl & Hr).
  destruct fuel as [|f]; [done|]. cbn [insert_loop] in H.
  rewrite (bind_Ret _ _ _ _ _ (load_Some _ _ _ Hc)), Hv in H.
  cbn [shape_insert] in Hb.
  destruct (key_comp v x) eqn:E1; [|destruct (key_comp x v) eqn:E2].
  - cbn [addrs] in Hb. apply not_elem_of_cons in Hb as [Hbc Hb].
    apply not_elem_of_app in Hb as [Hbl Hbr].
    destruct (left nd) as [cl|] eqn:El; [by eapply IHl|].
    apply rep_None in Hl as ->.
    destruct (insert_left_spec h c' nd v t Hc) as (t1 & E & _).
    rewrite (bind_Ret _ _ _ _ _ E) in H.
    unfold get_left, load, mbind, M_bind, bind, mret, M_ret, ret in H.
    rewrite lookup_insert_eq in H. injection H as _ _ <-.
    cbn [shape_insert addrs] in Hbl. apply not_elem_of_cons in Hbl as [Hba _].
    by rewrite !lookup_insert_ne.
  - cbn [addrs] in Hb. apply not_elem_of_cons in Hb as [Hbc Hb].
    apply not_elem_of_app in Hb as [Hbl Hbr].
    destruct (right nd) as [cr|] eqn:Er; [by eapply IHr|].
    apply rep_None in Hr as ->.
    destruct (insert_right_spec h c' nd v t Hc) as (t1 & E & _).
    rewrite (bind_Ret _ _ _ _ _ E) in H.
    unfold get_right, load, mbind, M_bind, bind, mret, M_ret, ret in H.
    rewrite lookup_insert_eq in H. injection H as _ _ <-.
    cbn [shape_insert addrs] in Hbr. apply not_elem_of_cons in Hbr as [Hba _].
    by rewrite !lookup_insert_ne.
  - by injection H as _ _ <-.
Qed.

Lemma insert_frame h t s v fuel t' r h' b :
  sound key_comp h t s →
  insert key_comp fuel v t h = Ret ((t', r), h') →
  b ∉ addrs (shape_insert key_comp v (fresh (dom h)) s) →
  h' !! b = h !! b.
Proof.
  intros (Hlk & Hnd & Hbst & Hsize). unfold insert, empty.
  destruct (shape_Leaf_dec s) as [->|Hne].
  - rewrite bool_decide_eq_true_2 by done.
    rewrite (bind_Ret _ _ _ _ _ (make_root_spec _ _ _ _ Hlk)).
    intros [= _ _ <-] Hb. cbn in Hb. apply not_elem_of_cons in Hb as [Hb _].
    by rewrite lookup_insert_ne.
  - rewrite bool_decide_eq_false_2
      by (rewrite Hsize; destruct s; [done | simpl; lia]).
    pose proof (linked_rep _ _ _ _ Hlk) as Hrep.
    destruct (rep_root _ _ _ Hrep Hne) as [c Hc]. rewrite Hc in Hrep |- *.
    intros E Hb. by eapply insert_loop_frame.
Qed.

(** [insert (first, last)] on a sound tree: the keys of the result are the
    keys that were there and keys of the range, and every key of the range
    has a key that compares equal to it in the result. *)
Lemma insert_range_keys vs : ∀ h t s fuel,
  (∀ x, key_comp x x = false) →
  sound key_comp h t s →
  Z.of_nat (nodes s + length vs) < 2 ^ 64 →
  (nodes s + length vs ≤ fuel)%nat →
  ∃ t' h' s', insert_range key_comp fuel vs t h = Ret (t', h') ∧
              sound key_comp h' t' s' ∧ (nodes s' ≤ nodes s + length vs)%nat ∧
              (∀ x, x ∈ keys s → x ∈ keys s') ∧
              (∀ x, x ∈ keys s' → x ∈ keys s ∨ x ∈ vs) ∧
              (∀ v, v ∈ vs → ∃ x, x ∈ keys s' ∧ equiv_key key_comp v x) ∧
              (∀ b, b ∈ addrs s → b ∈ addrs s') ∧
              (∀ b, b ∉ addrs s' → h' !! b = h !! b).
Proof.
  induction vs as [|v vs IH]; intros h t s fuel Hirr Hs Hmax Hf.
  { exists t, h, s. split; [done|]. split; [done|]. split; [lia|].
    split; [done|]. split; [by left|]. split; [by intros v ?%elem_of_nil|done]. }
  cbn [length] in Hmax, Hf. pose proof (height_nodes s).
  destruct (insert_sound key_comp h t s v fuel Hs) as (t1 & r & h1 & E & Hs1);
    [destruct Hs as (_ & _ & _ & ->); lia | lia |].
  set (s1 := shape_insert key_comp v (fresh (dom h)) s) in *.
  assert (Hn1 : (nodes s1 ≤ S (nodes s))%nat).
  { unfold s1. destruct (shape_insert_nodes key_comp v (fresh (dom h)) s); lia. }
  destruct (IH h1 t1 s1 fuel Hirr Hs1)
    as (t' & h' & s' & E' & Hs' & Hn & Hsub & Hsup & Hall & Haddr & Hframe); [lia | lia |].
  exists t', h', s'. split; [|split; [done|split; [cbn [length]; lia|]]].
  { cbn [insert_range]. by rewrite (bind_Ret _ _ _ _ _ E). }
  split; [|split; [|split; [|split]]].
  - intros x Hx. apply Hsub. apply shape_insert_keys. by left.
  - intros x Hx. destruct (Hsup x Hx) as [Hx1|Hx1].
    + apply shape_insert_keys in Hx1 as [?|[-> _]]; [by left|].
      right. apply list_elem_of_here.
    + right. apply elem_of_cons. by right.
  - intros w Hw. apply elem_of_cons in Hw as [->|Hw]; [|by apply Hall].
    destruct (shape_find_insert key_comp v (fresh (dom h)) s (Hirr v)) as [a Ha].
    destruct (shape_find_key _ _ _ Ha) as (x & Hx & Heq).
    exists x. split; [by apply Hsub|done].
  - intros b Hb. apply Haddr. by apply shape_insert_addrs_mono.
  - intros b Hb. rewrite Hframe by done.
    eapply insert_frame; [exact Hs | exact E |].
    intros Hin. apply Hb. by apply Haddr.
Qed.

(** X12.  The inserts of a range into the empty tree return, with fuel for
    the length of the range, and build a sound tree: its keys, read in
    order, increase strictly, each of them is a key of the range, and every
    key of the range has a key that compares equal to it in the tree. *)
Theorem inserts_build_a_search_tree alloc vs fuel :
  (∀ x y z, key_comp x y = true → key_comp y z = true → key_comp x z = true) →
  (∀ x, key_comp x x = false) →
  Z.of_nat (length vs) < 2 ^ 64 → (length vs ≤ fuel)%nat →
  ∃ t h s,
    insert_range key_comp fuel vs (bstree_new alloc) ∅ = Ret (t, h) ∧
    sound key_comp h t s ∧
    StronglySorted (λ x y, key_comp x y = true) (keys s) ∧
    (∀ x, x ∈ keys s → x ∈ vs) ∧
    (∀ v, v ∈ vs → ∃ x, x ∈ keys s ∧ equiv_key key_comp v x).
Proof.
  intros Htrans Hirr Hmax Hf.
  destruct (insert_range_keys vs ∅ (bstree_new alloc) Leaf fuel Hirr)
    as (t & h & s & E & Hs & _ & _ & Hsup & Hall & _); [|exact Hmax | exact Hf |].
  { split; [done|]. split; [constructor|]. by split. }
  exists t, h, s. split; [done|]. split; [done|].
  split; [|split; [|done]].
  - apply bst_sorted; [done|]. by destruct Hs as (_ & _ & ? & _).
  - intros x Hx. destruct (Hsup x Hx) as [?%elem_of_nil|?]; done.
Qed.

(** Inserts into a tree that is not empty leave the root where it is and
    the end cache as it is. *)
Lemma insert_range_root vs : ∀ h t l b x r fuel,
  sound key_comp h t (Br l b x r) →
  _end t = Iterator (Some b) after_end →
  Z.of_nat (nodes (Br l b x r) + length vs) < 2 ^ 64 →
  (nodes (Br l b x r) + length vs ≤ fuel)%nat →
  ∃ t' h' l' r', insert_range key_comp fuel vs t h = Ret (t', h') ∧
                 sound key_comp h' t' (Br l' b x r') ∧
                 _end t' = Iterator (Some b) after_end.
Proof.
  induction vs as [|v vs IH]; intros h t l b x r fuel Hs He Hmax Hf.
  { by exists t, h, l, r. }
  cbn [length] in Hmax, Hf. pose proof (height_nodes (Br l b x r)).
  destruct (insert_sound key_comp h t _ v fuel Hs) as (t1 & res & h1 & E & Hs1);
    [destruct Hs as (_ & _ & _ & ->); lia | lia |].
  assert (He1 : _end t1 = Iterator (Some b) after_end).
  { rewrite <- He. eapply insert_end; [by rewrite He | | exact E].
    destruct Hs as (_ & _ & _ & ->). simpl. lia. }
  assert (∃ l1 r1, shape_insert key_comp v (fresh (dom h)) (Br l b x r) = Br l1 b x r1
                   ∧ (nodes (Br l1 b x r1) ≤ S (nodes (Br l b x r)))%nat)
    as (l1 & r1 & Es & Hn1).
  { destruct (shape_insert_nodes key_comp v (fresh (dom h)) (Br l b x r)) as [Hn|Hn];
      revert Hn; cbn [shape_insert];
      destruct (key_comp v x); [|destruct (key_comp x v)| |destruct (key_comp x v)];
      intros Hn; eexists _, _; (split; [reflexivity | lia]). }
  rewrite Es in Hs1.
  destruct (IH h1 t1 l1 b x r1 fuel Hs1 He1) as (t' & h' & l' & r' & E' & Hs' & He');
    [lia | lia |].
  exists t', h', l', r'. split; [|done].
  cbn [insert_range]. by rewrite (bind_Ret _ _ _ _ _ E).
Qed.

(** X13.  Whatever is inserted after the first key, the root stays the
    node of the first key and [end ()] stays the iterator it was after the
    first insert: at the root, in the [after_end] state. *)
Theorem inserts_never_move_end alloc v vs fuel :
  Z.of_nat (S (length vs)) < 2 ^ 64 → (S (length vs) ≤ fuel)%nat →
  ∃ t h a nd,
    insert_range key_comp fuel (v :: vs) (bstree_new alloc) ∅ = Ret (t, h) ∧
    _tree_root t = Some a ∧ h !! a = Some nd ∧ value nd = v ∧
    end_ t = Iterator (Some a) after_end.
Proof.
  intros Hmax Hf. cbn [insert_range]. unfold insert at 1, empty. cbn [bstree_new _tree_size].
  rewrite bool_decide_eq_true_2 by done.
  rewrite (bind_Ret _ _ _ _ _ (bind_Ret _ _ _ _ _ (make_root_spec fuel v (bstree_new alloc) ∅ eq_refl))).
  cbn [mret M_ret ret].
  set (a := fresh (dom (∅ : gmap addr (@node K)))).
  destruct (insert_range_root vs (<[a := Node v None None None]> ∅)
              (Tree alloc (Some a) 1 (Iterator (Some a) valid) (Iterator (Some a) after_end)
                    bound_tree_delete)
              Leaf a v Leaf fuel)
    as (t' & h' & l' & r' & E & Hs' & He); [ | done | simpl; lia | simpl; lia |].
  { split; [|split; [apply NoDup_singleton | by repeat split]].
    split; [done|]. eexists. rewrite lookup_insert_eq. by repeat split. }
  destruct Hs' as ((Hroot & nd & Hnd & Hv & _) & _).
  by exists t', h', a, nd.
Qed.

(** X14.  The assignment of an initializer list to a sound tree whose
    handle holds the deleter that a constructor bound (not one left behind
    by a move of the handle) returns: the old nodes are deallocated and the
    tree is the sound tree built from the list, as the inserts into an empty
    tree build it. *)
Theorem assign_list_rebuilds h t s ilist fuel :
  (∀ x, key_comp x x = false) →
  _tree_deleter t = bound_tree_delete →
  sound key_comp h t s →
  Z.of_nat (length ilist) < 2 ^ 64 →
  (walk_cost s ≤ fuel)%nat → (length ilist ≤ fuel)%nat →
  ∃ t' h' s',
    assign_list key_comp fuel ilist t h = Ret (t', h') ∧
    sound key_comp h' t' s' ∧
    (∀ x, x ∈ keys s' → x ∈ ilist) ∧
    (∀ v, v ∈ ilist → ∃ x, x ∈ keys s' ∧ equiv_key key_comp v x) ∧
    (∀ b, b ∉ addrs s' → b ∈ addrs s → h' !! b = None) ∧
    (∀ b, b ∉ addrs s' → b ∉ addrs s → h' !! b = h !! b).
Proof.
  intros Hirr Hd (Hlk & Hnd & _ & _) Hmax Hfs Hfl. unfold assign_list.
  destruct (clear_linked h t s fuel Hd Hlk Hnd Hfs) as (h1 & Ec & Hgone & Hsame).
  rewrite (bind_Ret _ _ _ _ _ Ec).
  destruct (insert_range_keys ilist h1
              (Tree (_node_alloc t) None 0 iterator_default iterator_default
                    bound_tree_delete) Leaf fuel Hirr)
    as (t' & h' & s' & E & Hs' & _ & _ & Hsup & Hall & _ & Hframe);
    [|exact Hmax | exact Hfl |].
  { split; [done|]. split; [constructor|]. by split. }
  exists t', h', s'. split; [done|]. split; [done|].
  split; [|split; [done|split]].
  - intros x Hx. destruct (Hsup x Hx) as [?%elem_of_nil|?]; done.
  - intros b Hbn Hb. rewrite Hframe by done. by apply Hgone.
  - intros b Hbn Hb. rewrite Hframe by done. by apply Hsame.
Qed.

End build_facts.

Section move_facts.
Context {K : Type} (key_comp : K → K → bool).
Implicit Types (h : gmap addr (@node K)) (t : bstree) (s : @shape K).

(** X15.  Move assignment between two sound trees that share no node and
    whose handles hold the deleters that their constructors bound (not ones
    left behind by a move of a handle) returns, and the assigned tree is a
    sound tree with the keys and the
    size of the source, which is left empty.  When the allocator propagates
    or the allocators are equal the assigned tree takes the nodes of the
    source themselves; otherwise it is made of new nodes and the nodes of
    the source are deallocated.  The old nodes of the assigned tree are
    deallocated and the cells of no other node change. *)
Theorem move_assign_moves_keys propagate h this other st so fuel :
  _tree_deleter this = bound_tree_delete → _tree_deleter other = bound_tree_delete →
  sound key_comp h this st → sound key_comp h other so →
  (∀ b, b ∈ addrs st → b ∉ addrs so) →
  (walk_cost st ≤ fuel)%nat → (walk_cost so ≤ fuel)%nat →
  ∃ this' other' h' s',
    move_assign propagate fuel this other h = Ret ((this', other'), h') ∧
    sound key_comp h' this' s' ∧ keys s' = keys so ∧
    size this' = size other ∧ size other' = 0 ∧
    (∀ b, b ∉ addrs s' → b ∈ addrs st → h' !! b = None) ∧
    (∀ b, b ∉ addrs s' → b ∉ addrs st → b ∉ addrs so → h' !! b = h !! b) ∧
    ((propagate = true ∨ _node_alloc this = _node_alloc other) →
     s' = so ∧ ∀ b, b ∈ addrs so → h' !! b = h !! b) ∧
    (propagate = false → _node_alloc this ≠ _node_alloc other →
     ∀ b, b ∈ addrs so → h' !! b = None ∧ b ∉ addrs s').
Proof.
  intros Hdt Hdo (Hst & Hndt & _ & _) (Hso & Hndo & Hbsto & Hsizeo) Hdisj Hft Hfo.
  destruct (clear_linked h this st fuel Hdt Hst Hndt Hft) as (h1 & Ec & Hgone & Hsame).
  assert (Hso1 : linked h1 (_tree_root other) None so).
  { eapply linked_frame; [|exact Hso]. intros b Hb. apply Hsame.
    intros Hbt. by eapply Hdisj. }
  (* the branches that swap *)
  assert (Hswap : ∀ alloc d,
    let this' := Tree alloc (_tree_root other) (_tree_size other)
                      (_begin other) (_end other) d in
    sound key_comp h1 this' so ∧ keys so = keys so ∧
    size this' = size other ∧
    (∀ b, b ∉ addrs so → b ∈ addrs st → h1 !! b = None) ∧
    (∀ b, b ∉ addrs so → b ∉ addrs st → b ∉ addrs so → h1 !! b = h !! b) ∧
    ((propagate = true ∨ _node_alloc this = _node_alloc other) →
     so = so ∧ ∀ b, b ∈ addrs so → h1 !! b = h !! b)).
  { intros alloc d this'. split; [by repeat split|]. split; [done|]. split; [done|].
    split; [by intros b _ Hb; apply Hgone|]. split; [by intros b _ Hb _; apply Hsame|].
    intros _. split; [done|]. intros b Hb. apply Hsame. intros Hbt. by eapply Hdisj. }
  unfold move_assign.
  destruct propagate.
  { rewrite (bind_Ret _ _ _ _ _ Ec). eexists _, _, h1, so. split; [reflexivity|].
    destruct (Hswap (_node_alloc other) (_tree_deleter other)) as (? & ? & ? & ? & ? & ?).
    do 6 (split; [done|]). split; [done|]. done. }
  destruct (decide (_node_alloc this = _node_alloc other)) as [Ealloc|Ealloc].
  { rewrite bool_decide_eq_false_2 by (by intros ?).
    rewrite (bind_Ret _ _ _ _ _ Ec). eexists _, _, h1, so. split; [reflexivity|].
    destruct (Hswap (_node_alloc this) (_tree_deleter other)) as (? & ? & ? & ? & ? & ?).
    do 6 (split; [done|]). split; [done|]. done. }
  rewrite bool_decide_eq_true_2 by done.
  rewrite (bind_Ret _ _ _ _ _ Ec).
  destruct (move_from_linked h1 _ so fuel Hso1 Hfo)
    as (h2 & r & s' & Em & Hlk' & Hcp & Hsame2 & Hnew2 & Hnd2 & Hdead2).
  rewrite (bind_Ret _ _ _ _ _ Em).
  rewrite (bind_Ret _ _ _ _ _
             (root_assign_None fuel r
                (Tree (_node_alloc this) None 0 iterator_default iterator_default
                      bound_tree_delete)
                h2 eq_refl)).
  destruct (set_iterators_spec h2
              (with_size (_tree_size other)
                 (with_deleter bound_tree_delete
                    (with_root r (Tree (_node_alloc this) None 0
                                    iterator_default iterator_default
                                    bound_tree_delete))))
              s' fuel) as (t' & Es & Hroot & Hsz & _).
  { done. }
  { cbn. by rewrite (copy_of_nodes _ _ Hcp). }
  { pose proof (height_walk_cost s'). rewrite (copy_of_walk_cost _ _ Hcp) in *. lia. }
  rewrite (bind_Ret _ _ _ _ _ Es).
  assert (Hso2 : linked h2 (_tree_root other) None so).
  { eapply linked_frame; [|exact Hso1]. intros b Hb. apply Hsame2.
    exact (linked_alive _ _ _ _ _ Hso1 Hb). }
  destruct (clear_linked h2 other so fuel Hdo Hso2 Hndo Hfo) as (h3 & Ec' & Hgone3 & Hsame3).
  rewrite (bind_Ret _ _ _ _ _ Ec').
  assert (Hsep : ∀ b, b ∈ addrs s' → b ∉ addrs so).
  { intros b Hb Hbo. destruct (linked_alive _ _ _ _ _ Hso1 Hbo) as [x Hx].
    by rewrite (Hnew2 b Hb) in Hx. }
  eexists _, _, h3, s'. split; [reflexivity|]. cbn in Hroot, Hsz.
  split; [|split; [by apply copy_of_keys|split; [done|split; [done|]]]].
  { split; [|split; [done|split; [by eapply copy_of_bst|]]].
    - rewrite Hroot. eapply linked_frame; [|exact Hlk']. intros b Hb.
      apply Hsame3. by apply Hsep.
    - rewrite Hsz, Hsizeo. by rewrite (copy_of_nodes _ _ Hcp). }
  assert (Hframe : ∀ b, b ∉ addrs s' → b ∉ addrs so → h3 !! b = h1 !! b).
  { intros b Hbn Hbo. rewrite Hsame3 by done.
    destruct (h1 !! b) as [x|] eqn:Eb.
    - rewrite <- Eb. apply Hsame2. by rewrite Eb.
    - by apply Hdead2. }
  split; [|split; [|split]].
  - intros b Hbn Hbt. rewrite Hframe; [by apply Hgone | done | by apply Hdisj].
  - intros b Hbn Hbt Hbo. rewrite Hframe by done. by apply Hsame.
  - intros [?|?]; done.
  - intros _ _ b Hb. split; [by apply Hgone3|]. intros Hbn. by eapply Hsep.
Qed.

End move_facts.

Section bound_facts.
Context {K : Type} (key_comp : K → K → bool).
Implicit Types (h : gmap addr (@node K)) (t : bstree) (s : @shape K).

(** The forward walk of the bound queries from the place [i] stops at the
    first place from [i] on whose key is not less than [key]. *)
Lemma bound_forward_finds h t s key m b : ∀ k i a fuel,
  linked h (_tree_root t) None s → NoDup (addrs s) →
  _state (_end t) = after_end →
  (m = i + k)%nat → inorder s !! i = Some a → inorder s !! m = Some b →
  (∀ j x, (i ≤ j < m)%nat → keys s !! j = Some x → key_comp x key = true) →
  (∀ y, keys s !! m = Some y → key_comp y key = false) →
  (k + height s + 2 ≤ fuel)%nat →
  bound_forward key_comp fuel key (iterator_of (Some a)) t h
  = Ret (inr (iterator_of (Some b)), h).
Proof.
  induction k as [|k IH]; intros i a fuel Hlk Hnd He Hm Ha Hb Hless Hstop Hf;
    (destruct fuel as [|f]; [lia|]); cbn [bound_forward iterator_of _iter];
    destruct (inorder_keys _ _ _ _ _ _ Hlk Ha) as (nd & Hnd' & Hkey);
    rewrite (bind_Ret _ _ _ _ _ (get_value_Some _ _ _ Hnd')).
  - replace i with m in * by lia. rewrite (Hstop _ Hkey).
    rewrite Ha in Hb. by injection Hb as <-.
  - rewrite (Hless i _ ltac:(lia) Hkey).
    unfold iter_eq. rewrite He. cbn [_state iterator_of].
    rewrite (bind_Ret _ _ _ _ _
               (incr_linked h _ s i a f Hlk Hnd Ha ltac:(lia)
                : incr f (Iterator (Some a) valid) h = _)).
    destruct (inorder s !! S i) as [a'|] eqn:Ea'.
    + apply (IH (S i)); try done; [lia | | lia].
      intros j x Hj. apply Hless. lia.
    + apply lookup_ge_None in Ea'. apply lookup_lt_Some in Hb. lia.
Qed.

(** The place of the root in the in-order sequence. *)
Lemma root_place h c par s :
  linked h (Some c) par s → ∃ i, inorder s !! i = Some c.
Proof.
  intros Hlk. apply list_elem_of_lookup, inorder_addrs.
  destruct (linked_cases _ _ _ _ Hlk) as [[? _]|(x & [= <-] & Hin & _)]; done.
Qed.

(** In a search tree by a transitive order the root's key, when it is less
    than [key], stands before the first key that is not. *)
Lemma root_before_bound h t s c nd key ks1 y ks2 i :
  (∀ x y z, key_comp x y = true → key_comp y z = true → key_comp x z = true) →
  sound key_comp h t s → inorder s !! i = Some c → h !! c = Some nd →
  key_comp (value nd) key = true →
  keys s = ks1 ++ y :: ks2 → key_comp y key = false →
  (i < length ks1)%nat.
Proof.
  intros Htrans (Hlk & Hnd & Hbst & _) Hi Hc Hlt Hkeys Hy.
  destruct (inorder_keys _ _ _ _ _ _ Hlk Hi) as (nd' & Hnd' & Hkey).
  rewrite Hc in Hnd'. injection Hnd' as <-.
  pose proof (bst_sorted key_comp s Htrans Hbst) as Hsorted.
  rewrite Hkeys in Hsorted, Hkey.
  destruct (decide (i < length ks1)%nat) as [|Hge]; [done|]. exfalso.
  rewrite lookup_app_r in Hkey by lia.
  destruct (i - length ks1)%nat as [|j] eqn:Ej.
  - injection Hkey as ->. congruence.
  - apply StronglySorted_app_1_r in Hsorted.
    apply StronglySorted_inv in Hsorted as [_ Hall].
    rewrite Forall_forall in Hall.
    assert (Hin : value nd ∈ ks2) by (by eapply list_elem_of_lookup_2).
    rewrite (Htrans _ _ _ (Hall _ Hin) Hlt) in Hy. done.
Qed.

(** The forward walk from the root, when the root's key is less than
    [key] and a key of the tree is not. *)
Lemma bound_forward_from_root h t s c nd key ks1 y ks2 b fuel :
  (∀ x y z, key_comp x y = true → key_comp y z = true → key_comp x z = true) →
  sound key_comp h t s → _state (end_ t) = after_end →
  _tree_root t = Some c → h !! c = Some nd →
  key_comp (value nd) key = true →
  keys s = ks1 ++ y :: ks2 →
  Forall (λ x, key_comp x key = true) ks1 → key_comp y key = false →
  inorder s !! length ks1 = Some b →
  (nodes s + height s + 2 ≤ fuel)%nat →
  bound_forward key_comp fuel key (iterator_of (Some c)) t h
  = Ret (inr (iterator_of (Some b)), h) ∧
  _tree_size t ≠ 0 ∧ ∃ bn, h !! b = Some bn ∧ value bn = y.
Proof.
  intros Htrans Hs He Hroot Hc Hlt Hkeys Hall Hy Hb Hf.
  pose proof Hs as (Hlk & Hnd & Hbst & Hsize).
  rewrite Hroot in Hlk. destruct (root_place _ _ _ _ Hlk) as [i Hi].
  pose proof (root_before_bound h t s c nd key ks1 y ks2 i Htrans Hs Hi Hc Hlt Hkeys Hy)
    as Hil.
  rewrite <- Hroot in Hlk.
  split; [|split].
  - apply (bound_forward_finds h t s key (length ks1) b (length ks1 - i) i c fuel);
      try done.
    + lia.
    + intros j x Hj Hx. rewrite Hkeys, lookup_app_l in Hx by lia.
      rewrite Forall_forall in Hall. apply Hall. by eapply list_elem_of_lookup_2.
    + intros y' Hy'. rewrite Hkeys, list_lookup_middle in Hy' by done.
      by injection Hy' as <-.
    + apply lookup_lt_Some in Hb. rewrite inorder_length in Hb. lia.
  - rewrite Hsize. apply lookup_lt_Some in Hb. rewrite inorder_length in Hb. lia.
  - destruct (inorder_keys _ _ _ _ _ _ Hlk Hb) as (bn & Hbn & Hkey).
    rewrite Hkeys, list_lookup_middle in Hkey by done. injection Hkey as Hkey.
    by exists bn.
Qed.

Lemma lower_bound_from_root h t c nd key b fuel :
  _tree_size t ≠ 0 → _tree_root t = Some c → h !! c = Some nd →
  key_comp (value nd) key = true → key_comp key (value nd) = false →
  bound_forward key_comp fuel key (iterator_of (Some c)) t h
  = Ret (inr (iterator_of (Some b)), h) →
  lower_bound key_comp fuel key t h = Ret (iterator_of (Some b), h).
Proof.
  intros Hne Hroot Hc Hlt Hnlt Hwalk.
  unfold lower_bound, lower_bound_impl, empty.
  rewrite bool_decide_eq_false_2 by done. rewrite Hroot. cbn [iterator_of _iter].
  rewrite (bind_Ret _ _ _ _ _ (get_value_Some _ _ _ Hc)), Hnlt, Hlt.
  by rewrite (bind_Ret _ _ _ _ _ Hwalk).
Qed.

(** X16.  On a sound tree whose root's key is less than [key] and that
    holds a key not less than [key], [lower_bound (key)] returns, with fuel
    for the size and the height, the iterator to the first node in order
    whose key is not less than [key]; [upper_bound (key)] returns that
    iterator when [key] is less than the key of the node, and its increment
    when the two compare equal. *)
Theorem bounds_above_the_root h t s c nd key ks1 y ks2 b fuel :
  (∀ x y z, key_comp x y = true → key_comp y z = true → key_comp x z = true) →
  sound key_comp h t s → _state (end_ t) = after_end →
  _tree_root t = Some c → h !! c = Some nd →
  key_comp (value nd) key = true → key_comp key (value nd) = false →
  keys s = ks1 ++ y :: ks2 →
  Forall (λ x, key_comp x key = true) ks1 → key_comp y key = false →
  inorder s !! length ks1 = Some b →
  (nodes s + height s + 2 ≤ fuel)%nat →
  lower_bound key_comp fuel key t h = Ret (iterator_of (Some b), h) ∧
  upper_bound key_comp fuel key t h
  = (if key_comp key y then Ret (iterator_of (Some b), h)
     else incr fuel (iterator_of (Some b)) h).
Proof.
  intros Htrans Hs He Hroot Hc Hlt Hnlt Hkeys Hall Hy Hb Hf.
  destruct (bound_forward_from_root h t s c nd key ks1 y ks2 b fuel)
    as (Hwalk & Hne & bn & Hbn & Hkey); try done.
  split; [by eapply lower_bound_from_root|].
  unfold upper_bound, upper_bound_impl, empty.
  rewrite bool_decide_eq_false_2 by done. rewrite Hroot. cbn [iterator_of _iter].
  rewrite (bind_Ret _ _ _ _ _ (get_value_Some _ _ _ Hc)), Hnlt, Hlt.
  rewrite (bind_Ret _ _ _ _ _ Hwalk). cbn [iterator_of _iter].
  rewrite (bind_Ret _ _ _ _ _ (get_value_Some _ _ _ Hbn)), Hkey.
  by destruct (key_comp key y).
Qed.

(** X17.  In the same situation [equal_range (key)] returns the pair of
    [lower_bound (key)] and its increment, also when no key of the tree
    compares equal to [key]: the range then holds the first greater key. *)
Theorem equal_range_above_the_root h t s c nd key ks1 y ks2 b fuel :
  (∀ x y z, key_comp x y = true → key_comp y z = true → key_comp x z = true) →
  sound key_comp h t s → _state (end_ t) = after_end →
  _tree_root t = Some c → h !! c = Some nd →
  key_comp (value nd) key = true → key_comp key (value nd) = false →
  keys s = ks1 ++ y :: ks2 →
  Forall (λ x, key_comp x key = true) ks1 → key_comp y key = false →
  inorder s !! length ks1 = Some b →
  (nodes s + height s + 2 ≤ fuel)%nat →
  equal_range key_comp fuel key t h
  = Ret ((iterator_of (Some b),
          match inorder s !! S (length ks1) with
          | Some b' => iterator_of (Some b')
          | None => Iterator (Some b) after_end
          end), h).
Proof.
  intros Htrans Hs He Hroot Hc Hlt Hnlt Hkeys Hall Hy Hb Hf.
  destruct (bound_forward_from_root h t s c nd key ks1 y ks2 b fuel)
    as (Hwalk & Hne & _); try done.
  pose proof (lower_bound_from_root h t c nd key b fuel Hne Hroot Hc Hlt Hnlt Hwalk) as Hlow.
  destruct Hs as (Hlk & Hnd & _).
  unfold equal_range. rewrite (bind_Ret _ _ _ _ _ Hlow).
  by rewrite (bind_Ret _ _ _ _ _
                (incr_linked h _ s _ b fuel Hlk Hnd Hb ltac:(lia))).
Qed.

End bound_facts.

Section erase_facts.
Context {K : Type} (key_comp : K → K → bool).
Implicit Types (h : gmap addr (@node K)) (t : bstree) (s : @shape K)
  (nd an : @node K).

Lemma shape_remove_notin a s : a ∉ addrs s → shape_remove a s = s.
Proof.
  induction s as [|l IHl b x r IHr]; [done|]. cbn [addrs shape_remove].
  intros Ha. apply not_elem_of_cons in Ha as [Hab Ha].
  apply not_elem_of_app in Ha as [Hal Har].
  rewrite decide_False by done. by rewrite IHl, IHr.
Qed.

Lemma shape_remove_addrs a s b :
  b ∈ addrs (shape_remove a s) → b ∈ addrs s.
Proof.
  induction s as [|l IHl c x r IHr]; [done|]. cbn [addrs shape_remove].
  destruct (decide (a = c)) as [->|Hne].
  - intros Hb. apply elem_of_cons. right. apply elem_of_app.
    destruct l; [by right | by left].
  - cbn [addrs]. rewrite !elem_of_cons, !elem_of_app. intros [?|[?|?]]; auto.
Qed.

Lemma shape_remove_gone a s :
  NoDup (addrs s) → a ∉ addrs (shape_remove a s).
Proof.
  induction s as [|l IHl c x r IHr]; [by intros _ ?%elem_of_nil|].
  cbn [addrs shape_remove]. intros Hnd.
  apply NoDup_cons in Hnd as [Hc Hnd]. apply NoDup_app in Hnd as (Hl & Hdisj & Hr).
  apply not_elem_of_app in Hc as [Hcl Hcr].
  destruct (decide (a = c)) as [->|Hne].
  - by destruct l.
  - cbn [addrs]. apply not_elem_of_cons. split; [done|].
    apply not_elem_of_app. split; [by apply IHl | by apply IHr].
Qed.

Lemma shape_remove_NoDup a s :
  NoDup (addrs s) → NoDup (addrs (shape_remove a s)).
Proof.
  induction s as [|l IHl c x r IHr]; [done|]. cbn [addrs shape_remove]. intros Hnd.
  apply NoDup_cons in Hnd as [Hc Hnd]. apply NoDup_app in Hnd as (Hl & Hdisj & Hr).
  apply not_elem_of_app in Hc as [Hcl Hcr].
  destruct (decide (a = c)) as [->|Hne]; [by destruct l|].
  cbn [addrs]. apply NoDup_cons. split.
  - apply not_elem_of_app. split; intros ?%shape_remove_addrs; done.
  - apply NoDup_app. split; [by apply IHl|]. split; [|by apply IHr].
    intros b Hbl%shape_remove_addrs Hbr%shape_remove_addrs. by eapply Hdisj.
Qed.

Lemma shape_remove_keys a s x :
  x ∈ keys (shape_remove a s) → x ∈ keys s.
Proof.
  induction s as [|l IHl c y r IHr]; [done|]. cbn [keys shape_remove].
  destruct (decide (a = c)) as [->|Hne].
  - intros Hx. apply elem_of_app. destruct l; [right; by apply elem_of_cons; right | by left].
  - cbn [keys]. rewrite !elem_of_app, !elem_of_cons. intros [?|[?|?]]; auto.
Qed.

Lemma shape_remove_bst a s :
  bst key_comp s → bst key_comp (shape_remove a s).
Proof.
  induction s as [|l IHl c y r IHr]; [done|]. cbn [shape_remove].
  intros (Hl & Hr & Hlt & Hgt).
  destruct (decide (a = c)) as [->|Hne]; [by destruct l|].
  cbn [bst]. split; [by apply IHl|]. split; [by apply IHr|].
  rewrite Forall_forall in Hlt, Hgt.
  split; apply Forall_forall; intros x Hx%shape_remove_keys; auto.
Qed.

(** The children of a node of a linked shape are nodes of the shape. *)
Lemma linked_child s : ∀ h p par a an x,
  linked h p par s → a ∈ addrs s → h !! a = Some an →
  left an = Some x ∨ right an = Some x → x ∈ addrs s.
Proof.
  induction s as [|l IHl b v r IHr]; intros h p par a an x Hlk Ha Han Hx.
  { by apply elem_of_nil in Ha. }
  destruct Hlk as (-> & nd & Hb & Hv & Hp & Hl & Hr). cbn [addrs] in *.
  apply elem_of_cons. right. apply elem_of_app.
  apply elem_of_cons in Ha as [->|Ha]; [|apply elem_of_app in Ha as [Ha|Ha]].
  - rewrite Hb in Han. injection Han as <-. destruct Hx as [Hx|Hx]; rewrite Hx in *.
    + left. destruct (linked_cases _ _ _ _ Hl) as [[? _]|(y & [= <-] & Hin & _)]; done.
    + right. destruct (linked_cases _ _ _ _ Hr) as [[? _]|(y & [= <-] & Hin & _)]; done.
  - left. by eapply IHl.
  - right. by eapply IHr.
Qed.

(** A node of a linked shape is its root, with the parent link of the
    root, or a child of its parent, which is a node of the shape. *)
Lemma linked_parent s : ∀ h p par a an,
  linked h p par s → NoDup (addrs s) → a ∈ addrs s → h !! a = Some an →
  (p = Some a ∧ parent an = par) ∨
  (p ≠ Some a ∧ ∃ q qn, parent an = Some q ∧ q ∈ addrs s ∧ h !! q = Some qn ∧
                        (left qn = Some a ∨ right qn = Some a)).
Proof.
  induction s as [|l IHl b v r IHr]; intros h p par a an Hlk Hnd Ha Han.
  { by apply elem_of_nil in Ha. }
  destruct Hlk as (-> & nd & Hb & Hv & Hp & Hl & Hr). cbn [addrs] in *.
  apply NoDup_cons in Hnd as [Hbn Hnd]. apply NoDup_app in Hnd as (Hndl & Hdisj & Hndr).
  apply not_elem_of_app in Hbn as [Hbl Hbr].
  apply elem_of_cons in Ha as [->|Ha]; [|apply elem_of_app in Ha as [Ha|Ha]].
  - left. rewrite Hb in Han. by injection Han as <-.
  - right. split; [intros [= ->]; done|].
    destruct (IHl _ _ _ _ _ Hl Hndl Ha Han) as [[E1 E2]|(_ & q & qn & ? & ? & ? & ?)].
    + exists b, nd. split; [done|]. split; [apply list_elem_of_here|]. split; [done|]. by left.
    + exists q, qn. split; [done|]. split; [|done]. apply elem_of_cons. right.
      apply elem_of_app. by left.
  - right. split; [intros [= ->]; done|].
    destruct (IHr _ _ _ _ _ Hr Hndr Ha Han) as [[E1 E2]|(_ & q & qn & ? & ? & ? & ?)].
    + exists b, nd. split; [done|]. split; [apply list_elem_of_here|]. split; [done|]. by right.
    + exists q, qn. split; [done|]. split; [|done]. apply elem_of_cons. right.
      apply elem_of_app. by right.
Qed.

Lemma spliced_id a an b nd :
  parent an ≠ Some b →
  match left an with Some _ => left an | None => right an end ≠ Some b →
  spliced a an b nd = nd.
Proof. intros H1 H2. unfold spliced. by rewrite !decide_False. Qed.

Lemma spliced_child a an b nd :
  parent an ≠ Some b →
  match left an with Some _ => left an | None => right an end = Some b →
  spliced a an b nd = set_parent (parent an) nd.
Proof.
  intros H1 H2. unfold spliced. rewrite (decide_False (P := parent an = Some b)) by done.
  by rewrite decide_True.
Qed.

Lemma spliced_parent_left a an b nd :
  parent an = Some b → left nd = Some a →
  match left an with Some _ => left an | None => right an end ≠ Some b →
  spliced a an b nd
  = set_left (match left an with Some _ => left an | None => right an end) nd.
Proof.
  intros H1 H2 H3. unfold spliced. rewrite (decide_True (P := parent an = Some b)) by done.
  rewrite (decide_True (P := left nd = Some a)) by done. by rewrite decide_False.
Qed.

Lemma spliced_parent_right a an b nd :
  parent an = Some b → left nd ≠ Some a → right nd = Some a →
  match left an with Some _ => left an | None => right an end ≠ Some b →
  spliced a an b nd
  = set_right (match left an with Some _ => left an | None => right an end) nd.
Proof.
  intros H1 H2 H3 H4. unfold spliced.
  rewrite (decide_True (P := parent an = Some b)) by done.
  rewrite (decide_False (P := left nd = Some a)) by done.
  rewrite (decide_True (P := right nd = Some a)) by done. by rewrite decide_False.
Qed.

(** A heap in which the nodes of a linked shape, but the one at [a], are
    spliced links the shape without the node at [a]. *)
Lemma linked_remove h h' a an s : ∀ p par,
  h !! a = Some an → left an = None ∨ right an = None →
  linked h p par s → NoDup (addrs s) → a ∈ addrs s →
  (∀ q, par = Some q → q ∉ addrs s) →
  (∀ b nd, b ∈ addrs s → b ≠ a → h !! b = Some nd →
           h' !! b = Some (spliced a an b nd)) →
  linked h'
    (if decide (p = Some a)
     then match left an with Some _ => left an | None => right an end
     else p)
    par (shape_remove a s).
Proof.
  set (c := match left an with Some _ => left an | None => right an end).
  induction s as [|l IHl b x r IHr]; intros p par Han Hone Hlk Hnd Ha Hpar Hh'.
  { by apply elem_of_nil in Ha. }
  destruct Hlk as (-> & nd & Hb & Hv & Hp & Hl & Hr). cbn [addrs] in *.
  apply NoDup_cons in Hnd as [Hbn Hnd]. apply NoDup_app in Hnd as (Hndl & Hdisj & Hndr).
  apply not_elem_of_app in Hbn as [Hbl Hbr].
  (* a subtree that holds neither [a], nor its child, nor its parent stays *)
  assert (Hframe : ∀ u q pq, linked h q pq u →
            (∀ b', b' ∈ addrs u → b' ∈ b :: addrs l ++ addrs r) →
            (∀ b', b' ∈ addrs u → b' ≠ a ∧ parent an ≠ Some b' ∧ c ≠ Some b') →
            linked h' q pq u).
  { intros u q pq Hu Hsub Hfar. eapply linked_frame; [|exact Hu]. intros b' Hb'.
    destruct (Hfar b' Hb') as (Hne & Hnp & Hnc).
    destruct (linked_alive _ _ _ _ _ Hu Hb') as [nd' Hnd'].
    rewrite (Hh' b' nd' (Hsub b' Hb') Hne Hnd'), Hnd'. f_equal.
    by apply spliced_id. }
  destruct (decide (b = a)) as [->|Hba].
  - (* the node itself: its subtree takes its place *)
    rewrite Hb in Han. injection Han as <-.
    rewrite decide_True by done. cbn [shape_remove]. rewrite decide_True by done.
    assert (Hsub : ∀ u q, linked h q (Some a) u →
              (∀ b', b' ∈ addrs u → b' ∈ a :: addrs l ++ addrs r) →
              (∀ b', b' ∈ addrs u → b' ≠ a) →
              NoDup (addrs u) → c = q → linked h' q par u).
    { intros u q Hu Hin Hne Hndu Hc. destruct u as [|ul uc ux ur]; [done|].
      destruct Hu as (-> & cn & Hcn & Hcv & Hcp & Hul & Hur). cbn [addrs] in *.
      apply NoDup_cons in Hndu as [Hucn Hndu].
      apply not_elem_of_app in Hucn as [Hucl Hucr].
      assert (Huc : uc ∈ a :: addrs l ++ addrs r) by (apply Hin, list_elem_of_here).
      assert (Hpuc : parent nd ≠ Some uc).
      { intros E. rewrite Hp in E. by apply (Hpar uc E). }
      split; [done|]. exists (set_parent par cn).
      split; [|split; [done|split; [done|split]]].
      - rewrite (Hh' uc cn Huc (Hne _ (list_elem_of_here _ _)) Hcn). f_equal.
        rewrite spliced_child by done. by rewrite Hp.
      - apply (Hframe ul (left cn) (Some uc) Hul).
        + intros b' Hb'. apply Hin. apply elem_of_cons. right. apply elem_of_app. by left.
        + intros b' Hb'. split; [|split].
          * apply Hne. apply elem_of_cons. right. apply elem_of_app. by left.
          * intros E. rewrite Hp in E. apply (Hpar b' E). apply Hin.
            apply elem_of_cons. right. apply elem_of_app. by left.
          * rewrite Hc. intros [= ->]. done.
      - apply (Hframe ur (right cn) (Some uc) Hur).
        + intros b' Hb'. apply Hin. apply elem_of_cons. right. apply elem_of_app. by right.
        + intros b' Hb'. split; [|split].
          * apply Hne. apply elem_of_cons. right. apply elem_of_app. by right.
          * intros E. rewrite Hp in E. apply (Hpar b' E). apply Hin.
            apply elem_of_cons. right. apply elem_of_app. by right.
          * rewrite Hc. intros [= ->]. done. }
    destruct (left nd) as [la|] eqn:El.
    + destruct Hone as [?|Hrn]; [done|]. rewrite Hrn in Hr.
      apply linked_None in Hr as ->.
      destruct l as [|ll lc lx lr]; [done|].
      apply (Hsub _ _ Hl); try done.
      * intros b' Hb'. apply elem_of_cons. right. apply elem_of_app. by left.
      * intros b' Hb' ->. done.
    + apply linked_None in Hl as ->.
      apply (Hsub _ _ Hr); try done.
      * intros b' Hb'. apply elem_of_cons. right. by apply elem_of_app; right.
      * intros b' Hb' ->. done.
  - (* another node *)
    rewrite decide_False by (intros [= ->]; done).
    cbn [shape_remove]. rewrite decide_False by done.
    apply elem_of_cons in Ha as [->|Ha]; [done|].
    assert (Hc_in : ∀ u q pq y, linked h q pq u → a ∈ addrs u → c = Some y → y ∈ addrs u).
    { intros u q pq y Hu Hau Hcx. eapply linked_child; [exact Hu | exact Hau | exact Han |].
      unfold c in Hcx. destruct (left an); [by left | by right]. }
    split; [done|]. apply elem_of_app in Ha as [Ha|Ha].
    + (* in the left subtree *)
      assert (Har : a ∉ addrs r) by (intros ?; by eapply Hdisj).
      assert (Hcb : c ≠ Some b).
      { intros E. by apply Hbl, (Hc_in _ _ _ _ Hl Ha E). }
      rewrite (shape_remove_notin a r Har).
      assert (Hr' : linked h' (right nd) (Some b) r).
      { apply (Hframe r _ _ Hr).
        - intros b' Hb'. apply elem_of_cons. right. by apply elem_of_app; right.
        - intros b' Hb'. split; [by intros ->|]. split.
          + destruct (linked_parent _ _ _ _ _ _ Hl Hndl Ha Han)
              as [[_ E]|(_ & q & qn & E & Hq & _)]; rewrite E.
            * intros [= ->]. done.
            * intros [= ->]. by eapply Hdisj.
          + intros E. eapply Hdisj; [|exact Hb']. by apply (Hc_in _ _ _ _ Hl Ha E). }
      assert (Hl' : linked h' (if decide (left nd = Some a) then c else left nd)
                      (Some b) (shape_remove a l)).
      { apply IHl; try done.
        - by intros q [= <-].
        - intros b' nd' Hb'. apply Hh'. apply elem_of_cons. right.
          apply elem_of_app. by left. }
      destruct (linked_parent _ _ _ _ _ _ Hl Hndl Ha Han)
        as [[E1 E2]|(Hne & q & qn & E & Hq & _)].
      * exists (set_left c nd).
        rewrite (Hh' b nd (list_elem_of_here _ _) Hba Hb).
        split; [|split; [done|split; [done|split; [|done]]]].
        -- f_equal. by apply spliced_parent_left.
        -- cbn. by rewrite decide_True in Hl' by done.
      * exists nd. rewrite (Hh' b nd (list_elem_of_here _ _) Hba Hb).
        split; [|split; [done|split; [done|split; [|done]]]].
        -- f_equal. apply spliced_id; [|done]. rewrite E. by intros [= ->].
        -- by rewrite decide_False in Hl' by done.
    + (* in the right subtree *)
      assert (Hal : a ∉ addrs l) by (intros ?; by eapply Hdisj).
      assert (Hcb : c ≠ Some b).
      { intros E. by apply Hbr, (Hc_in _ _ _ _ Hr Ha E). }
      rewrite (shape_remove_notin a l Hal).
      assert (Hl' : linked h' (left nd) (Some b) l).
      { apply (Hframe l _ _ Hl).
        - intros b' Hb'. apply elem_of_cons. right. by apply elem_of_app; left.
        - intros b' Hb'. split; [by intros ->|]. split.
          + destruct (linked_parent _ _ _ _ _ _ Hr Hndr Ha Han)
              as [[_ E]|(_ & q & qn & E & Hq & _)]; rewrite E.
            * intros [= ->]. done.
            * intros [= ->]. by eapply Hdisj.
          + intros E. eapply Hdisj; [exact Hb'|]. by apply (Hc_in _ _ _ _ Hr Ha E). }
      assert (Hr' : linked h' (if decide (right nd = Some a) then c else right nd)
                      (Some b) (shape_remove a r)).
      { apply IHr; try done.
        - by intros q [= <-].
        - intros b' nd' Hb'. apply Hh'. apply elem_of_cons. right.
          apply elem_of_app. by right. }
      assert (Hla : left nd ≠ Some a).
      { intros E. rewrite E in Hl.
        destruct (linked_cases _ _ _ _ Hl) as [[? _]|(y & [= <-] & Hin & _)]; done. }
      destruct (linked_parent _ _ _ _ _ _ Hr Hndr Ha Han)
        as [[E1 E2]|(Hne & q & qn & E & Hq & _)].
      * exists (set_right c nd).
        rewrite (Hh' b nd (list_elem_of_here _ _) Hba Hb).
        split; [|split; [done|split; [done|split; [done|]]]].
        -- f_equal. by apply spliced_parent_right.
        -- cbn. by rewrite decide_True in Hr' by done.
      * exists nd. rewrite (Hh' b nd (list_elem_of_here _ _) Hba Hb).
        split; [|split; [done|split; [done|split; [done|]]]].
        -- f_equal. apply spliced_id; [|done]. rewrite E. by intros [= ->].
        -- by rewrite decide_False in Hr' by done.
Qed.

End erase_facts.

Section erase_run.
Context {K : Type} (key_comp : K → K → bool).
Implicit Types (h : gmap addr (@node K)) (t : bstree) (s : @shape K)
  (nd an : @node K).

Lemma shape_remove_nodes s : ∀ h p par a an,
  linked h p par s → NoDup (addrs s) → a ∈ addrs s → h !! a = Some an →
  left an = None ∨ right an = None →
  S (nodes (shape_remove a s)) = nodes s.
Proof.
  induction s as [|l IHl b x r IHr]; intros h p par a an Hlk Hnd Ha Han Hone.
  { by apply elem_of_nil in Ha. }
  destruct Hlk as (-> & nd & Hb & Hv & Hp & Hl & Hr). cbn [addrs] in *.
  apply NoDup_cons in Hnd as [Hbn Hnd]. apply NoDup_app in Hnd as (Hndl & Hdisj & Hndr).
  apply not_elem_of_app in Hbn as [Hbl Hbr]. cbn [shape_remove nodes].
  destruct (decide (a = b)) as [->|Hab].
  - rewrite Hb in Han. injection Han as <-.
    destruct Hone as [E|E]; rewrite E in *.
    + apply linked_None in Hl as ->. simpl. lia.
    + apply linked_None in Hr as ->. destruct l; simpl; lia.
  - apply elem_of_cons in Ha as [->|Ha]; [done|]. cbn [nodes].
    apply elem_of_app in Ha as [Ha|Ha].
    + rewrite (shape_remove_notin a r) by (intros ?; by eapply Hdisj).
      pose proof (IHl _ _ _ _ _ Hl Hndl Ha Han Hone). lia.
    + rewrite (shape_remove_notin a l) by (intros ?; by eapply Hdisj).
      pose proof (IHr _ _ _ _ _ Hr Hndr Ha Han Hone). lia.
Qed.

Lemma replace_child_root fuel t h a c :
  _tree_root t = Some a →
  replace_child fuel false (Some a) c t h = Ret (with_root c (root_release t), h).
Proof.
  intros Hroot. unfold replace_child. rewrite decide_True by done.
  by apply root_reset_None.
Qed.

Lemma replace_child_inner fuel rst t h a an p pn c :
  _tree_root t ≠ Some a → h !! a = Some an → parent an = Some p →
  h !! p = Some pn → left pn = Some a ∨ right pn = Some a →
  replace_child fuel rst (Some a) c t h
  = Ret (t, <[p := if decide (left pn = Some a) then set_left c pn
                   else set_right c pn]> h).
Proof.
  intros Hroot Han Hp Hpn Hchild. unfold replace_child.
  rewrite decide_False by done.
  rewrite (bind_Ret _ _ _ _ _ (get_parent_Some _ _ _ Han)), Hp.
  rewrite (bind_Ret _ _ _ _ _ (get_left_Some _ _ _ Hpn)).
  destruct (decide (left pn = Some a)) as [El|El].
  { unfold modify, mbind, M_bind, bind, mret, M_ret, ret. by rewrite Hpn. }
  destruct Hchild as [?|Er]; [done|].
  rewrite (bind_Ret _ _ _ _ _ (get_parent_Some _ _ _ Han)), Hp.
  rewrite (bind_Ret _ _ _ _ _ (get_right_Some _ _ _ Hpn)).
  rewrite decide_True by done.
  unfold modify, mbind, M_bind, bind, mret, M_ret, ret. by rewrite Hpn.
Qed.

(** The heap after the parent and the child of the node at [a] have been
    relinked holds the spliced nodes. *)
Lemma relinked_heap h h1 a an :
  let c := match left an with Some _ => left an | None => right an end in
  h !! a = Some an →
  (∀ p, parent an = Some p → p ≠ a ∧ ∃ pn, h !! p = Some pn ∧
      (left pn = Some a ∨ right pn = Some a) ∧
      h1 = <[p := if decide (left pn = Some a) then set_left c pn
                  else set_right c pn]> h) →
  (parent an = None → h1 = h) →
  (∀ ca, c = Some ca → ca ≠ a ∧ is_Some (h !! ca)) →
  ∃ h2,
    (match c with
     | Some ca => modify (Some ca) (set_parent (parent an))
     | None => mret ()
     end) h1 = Ret ((), h2) ∧
    h1 !! a = Some an ∧ h2 !! a = Some an ∧
    (∀ b nd, b ≠ a → h !! b = Some nd → h2 !! b = Some (spliced a an b nd)) ∧
    (∀ b, h !! b = None → h2 !! b = None).
Proof.
  intros c Han Hpar Hroot Hc.
  assert (H1 : h1 !! a = Some an ∧
               (∀ b nd, b ≠ a → h !! b = Some nd →
                  h1 !! b = Some (if decide (parent an = Some b) then
                                    if decide (left nd = Some a) then set_left c nd
                                    else if decide (right nd = Some a) then set_right c nd
                                    else nd
                                  else nd)) ∧
               (∀ b, h !! b = None → h1 !! b = None)).
  { destruct (parent an) as [p|] eqn:Ep.
    - destruct (Hpar p eq_refl) as (Hpa & pn & Hpn & Hchild & ->).
      split; [by rewrite lookup_insert_ne|]. split.
      + intros b nd Hb Hnd. destruct (decide (Some p = Some b)) as [[= <-]|Hne].
        * rewrite lookup_insert_eq. rewrite Hpn in Hnd. injection Hnd as <-.
          f_equal. destruct (decide (left pn = Some a)); [done|].
          destruct Hchild as [?|Er]; [done|]. by rewrite decide_True.
        * rewrite lookup_insert_ne by congruence. done.
      + intros b Hb. rewrite lookup_insert_ne; [done|]. intros <-. congruence.
    - rewrite (Hroot eq_refl). split; [done|]. split; [|done].
      intros b nd Hb Hnd. done. }
  destruct H1 as (Ha1 & Hlive1 & Hdead1).
  destruct c as [ca|] eqn:Ec.
  - destruct (Hc ca eq_refl) as (Hca & cn & Hcn).
    pose proof (Hlive1 ca cn Hca Hcn) as Hcn1.
    eexists. split; [unfold modify; rewrite Hcn1; reflexivity|].
    split; [done|]. split; [by rewrite lookup_insert_ne|]. split.
    + intros b nd Hb Hnd. unfold spliced. fold c. rewrite Ec.
      destruct (decide (Some ca = Some b)) as [[= <-]|Hne].
      * rewrite lookup_insert_eq. rewrite Hcn in Hnd. by injection Hnd as <-.
      * rewrite lookup_insert_ne by congruence. by apply Hlive1.
    + intros b Hb. rewrite lookup_insert_ne; [by apply Hdead1|]. intros <-. congruence.
  - exists h1. split; [done|]. split; [done|]. split; [done|]. split; [|done].
    intros b nd Hb Hnd. unfold spliced. fold c. rewrite Ec.
    rewrite (decide_False (P := None = Some b)) by done. by apply Hlive1.
Qed.


Lemma linked_child_ne s : ∀ h p par a an x,
  linked h p par s → NoDup (addrs s) → a ∈ addrs s → h !! a = Some an →
  left an = Some x ∨ right an = Some x → x ≠ a.
Proof.
  induction s as [|l IHl b v r IHr]; intros h p par a an x Hlk Hnd Ha Han Hx.
  { by apply elem_of_nil in Ha. }
  destruct Hlk as (-> & nd & Hb & Hv & Hp & Hl & Hr). cbn [addrs] in *.
  apply NoDup_cons in Hnd as [Hbn Hnd]. apply NoDup_app in Hnd as (Hndl & Hdisj & Hndr).
  apply not_elem_of_app in Hbn as [Hbl Hbr].
  apply elem_of_cons in Ha as [->|Ha]; [|apply elem_of_app in Ha as [Ha|Ha]].
  - rewrite Hb in Han. injection Han as <-. intros ->.
    destruct Hx as [Hx|Hx]; rewrite Hx in *.
    + destruct (linked_cases _ _ _ _ Hl) as [[? _]|(y & [= <-] & Hin & _)]; done.
    + destruct (linked_cases _ _ _ _ Hr) as [[? _]|(y & [= <-] & Hin & _)]; done.
  - by eapply IHl.
  - by eapply IHr.
Qed.

(** The last statements of [erase]. *)
Lemma erase_tail (m : M (gmap addr (@node K)) bstree) t1 h h2 retval a an :
  m h = Ret (t1, h2) → h2 !! a = Some an →
  (t ← m;
   let t := with_size (size_t (_tree_size t - 1)) t in
   _ ← deallocate a;
   mret (t, (retval : bstree_iterator))) h
  = Ret ((with_size (size_t (_tree_size t1 - 1)) t1, retval), delete a h2).
Proof.
  intros Hm Ha. rewrite (bind_Ret _ _ _ _ _ Hm). cbn zeta.
  unfold deallocate, mbind, M_bind, bind, mret, M_ret, ret. by rewrite Ha.
Qed.

(** [erase (pos)] at a node with at most one child, other than a root
    without children. *)
Lemma erase_sound h t s a an fuel :
  sound key_comp h t s → a ∈ addrs s → h !! a = Some an →
  left an = None ∨ right an = None →
  ¬ (left an = None ∧ right an = None ∧ _tree_root t = Some a) →
  _tree_size t < 2 ^ 64 → (S (height s) ≤ fuel)%nat →
  ∃ t' retval h',
    erase key_comp fuel (iterator_of (Some a)) t h = Ret ((t', retval), h') ∧
    incr fuel (iterator_of (Some a)) h = Ret (retval, h) ∧
    sound key_comp h' t' (shape_remove a s) ∧
    size t' = size t - 1 ∧
    h' !! a = None ∧ (∀ b, b ∉ addrs s → h' !! b = h !! b).
Proof.
  intros (Hlk & Hnd & Hbst & Hsize) Ha Han Hone Hnot Hmax Hf.
  set (c := match left an with Some _ => left an | None => right an end).
  (* the increment *)
  assert (∃ i, inorder s !! i = Some a) as [i Hi]
    by (by apply list_elem_of_lookup, inorder_addrs).
  pose proof (incr_linked h _ s i a fuel Hlk Hnd Hi Hf) as Hincr.
  set (retval := match inorder s !! S i with
                 | Some b => iterator_of (Some b)
                 | None => Iterator (Some a) after_end
                 end) in Hincr.
  (* where the node is *)
  assert (Hc : ∀ ca, c = Some ca → ca ≠ a ∧ is_Some (h !! ca)).
  { intros ca Hca.
    assert (Hchild : left an = Some ca ∨ right an = Some ca).
    { unfold c in Hca. destruct (left an); [by left | by right]. }
    split; [by eapply linked_child_ne|].
    eapply linked_alive; [exact Hlk|]. by eapply linked_child. }
  assert (Hsize1 : _tree_size t - 1 = Z.of_nat (nodes (shape_remove a s))).
  { pose proof (shape_remove_nodes s h _ None a an Hlk Hnd Ha Han Hone). lia. }
  (* what is left to do once the links are set *)
  assert (Hfinish : ∀ (m : M (gmap addr (@node K)) bstree) h2,
    (∃ t1, m h = Ret (t1, h2) ∧
           _tree_root t1 = (if decide (_tree_root t = Some a) then c else _tree_root t) ∧
           _tree_size t1 = _tree_size t) →
    h2 !! a = Some an →
    (∀ b nd, b ≠ a → h !! b = Some nd → h2 !! b = Some (spliced a an b nd)) →
    (∀ b, h !! b = None → h2 !! b = None) →
    ∃ t' h',
      (t ← m;
       let t := with_size (size_t (_tree_size t - 1)) t in
       _ ← deallocate a;
       mret (t, retval)) h = Ret ((t', retval), h') ∧
      sound key_comp h' t' (shape_remove a s) ∧
      size t' = size t - 1 ∧
      h' !! a = None ∧ (∀ b, b ∉ addrs s → h' !! b = h !! b)).
  { intros m h2 (t1 & Em & Hroot1 & Hsz1) Ha2 Hlive2 Hdead2.
    eexists _, _. split; [exact (erase_tail m t1 h h2 retval a an Em Ha2)|].
    assert (Hmod : size_t (_tree_size t1 - 1) = _tree_size t - 1).
    { rewrite Hsz1. unfold size_t. apply Z.mod_small.
      pose proof (shape_remove_nodes s h _ None a an Hlk Hnd Ha Han Hone).
      lia. }
    split; [|split; [exact Hmod|split; [apply lookup_delete_eq|]]].
    - split; [|split; [by apply shape_remove_NoDup|split; [by apply shape_remove_bst|]]].
      + cbn [with_size _tree_root]. rewrite Hroot1.
        apply (linked_remove h _ a an s (_tree_root t) None Han Hone Hlk Hnd Ha).
        * done.
        * intros b nd Hb Hba Hbn. rewrite lookup_delete_ne by done. by apply Hlive2.
      + cbn [with_size _tree_size]. rewrite Hmod. exact Hsize1.
    - intros b Hb. rewrite lookup_delete_ne by (intros <-; done).
      destruct (h !! b) as [nd|] eqn:Eb; [|by apply Hdead2].
      rewrite (Hlive2 b nd) by (done || by intros ->). f_equal.
      apply spliced_id.
      + intros E. apply Hb.
        destruct (linked_parent _ _ _ _ _ _ Hlk Hnd Ha Han)
          as [[_ Epar]|(_ & q & qn & Epar & Hq & _)]; rewrite Epar in E; [done|].
        by injection E as <-.
      + intros E. apply Hb. eapply linked_child; [exact Hlk | exact Ha | exact Han |].
        destruct (left an); [by left | by right]. }
  cut (∃ t' h',
         erase key_comp fuel (iterator_of (Some a)) t h = Ret ((t', retval), h') ∧
         sound key_comp h' t' (shape_remove a s) ∧
         size t' = size t - 1 ∧
         h' !! a = None ∧ (∀ b, b ∉ addrs s → h' !! b = h !! b)).
  { intros (t' & h' & E & ?). by exists t', retval, h'. }
  unfold erase. cbn [iterator_of _iter].
  rewrite (bind_Ret _ _ _ _ _
             (Hincr : incr fuel (Iterator (Some a) valid) h = _)).
  rewrite (bind_Ret _ _ _ _ _ (get_left_Some _ _ _ Han)).
  rewrite (bind_Ret _ _ _ _ _ (get_right_Some _ _ _ Han)).
  destruct (linked_parent _ _ _ _ _ _ Hlk Hnd Ha Han)
    as [[Eroot Epar]|(Hnroot & p & pn & Epar & Hp & Hpn & Hchild)].
  - (* the root, with one child *)
    destruct (relinked_heap h h a an Han) as (h2 & Emod & _ & Ha2 & Hlive2 & Hdead2);
      [by rewrite Epar | done | exact Hc |].
    rewrite Epar in Emod.
    destruct (left an) as [la|] eqn:El; destruct (right an) as [ra|] eqn:Er.
    + by destruct Hone.
    + apply Hfinish with (h2 := h2); try done.
      rewrite (bind_Ret _ _ _ _ _ (get_left_Some _ _ _ Han)), El.
      rewrite (bind_Ret _ _ _ _ _ (replace_child_root fuel t h a (Some la) Eroot)).
      rewrite (bind_Ret _ _ _ _ _ (get_left_Some _ _ _ Han)), El.
      rewrite (bind_Ret _ _ _ _ _ (get_parent_Some _ _ _ Han)), Epar.
      rewrite (bind_Ret _ _ _ _ _ Emod).
      destruct (iter_eq _ _);
        [rewrite (bind_Ret _ _ _ _ _ (get_parent_Some _ _ _ Ha2))|];
        (eexists; split; [reflexivity|]; cbn; by rewrite decide_True).
    + apply Hfinish with (h2 := h2); try done.
      rewrite (bind_Ret _ _ _ _ _ (get_right_Some _ _ _ Han)), Er.
      rewrite (bind_Ret _ _ _ _ _ (replace_child_root fuel t h a (Some ra) Eroot)).
      rewrite (bind_Ret _ _ _ _ _ (get_right_Some _ _ _ Han)), Er.
      rewrite (bind_Ret _ _ _ _ _ (get_parent_Some _ _ _ Han)), Epar.
      rewrite (bind_Ret _ _ _ _ _ Emod).
      destruct (iter_eq _ _);
        [rewrite (bind_Ret _ _ _ _ _ (get_parent_Some _ _ _ Ha2))|];
        (eexists; split; [reflexivity|]; cbn; by rewrite decide_True).
    + destruct Hnot. by rewrite Eroot.
  - (* below the root *)
    assert (Hpa : p ≠ a).
    { intros ->. by eapply (linked_child_ne s h _ None a pn a Hlk Hnd). }
    destruct (relinked_heap h
                (<[p := if decide (left pn = Some a) then set_left c pn
                        else set_right c pn]> h) a an Han)
      as (h2 & Emod & Ha1 & Ha2 & Hlive2 & Hdead2);
      [ | by rewrite Epar | exact Hc |].
    { intros p' Ep'. rewrite Epar in Ep'. injection Ep' as <-.
      split; [done|]. by exists pn. }
    rewrite Epar in Emod. fold c in Emod.
    pose proof (replace_child_inner fuel true t h a an p pn c Hnroot Han Epar Hpn Hchild)
      as Erep1.
    pose proof (replace_child_inner fuel false t h a an p pn c Hnroot Han Epar Hpn Hchild)
      as Erep0.
    unfold c in Emod, Erep0, Erep1.
    destruct (left an) as [la|] eqn:El; destruct (right an) as [ra|] eqn:Er.
    + by destruct Hone.
    + apply Hfinish with (h2 := h2); try done.
      rewrite (bind_Ret _ _ _ _ _ (get_left_Some _ _ _ Han)), El.
      rewrite (bind_Ret _ _ _ _ _ Erep0).
      rewrite (bind_Ret _ _ _ _ _ (get_left_Some _ _ _ Ha1)), El.
      rewrite (bind_Ret _ _ _ _ _ (get_parent_Some _ _ _ Ha1)), Epar.
      rewrite (bind_Ret _ _ _ _ _ Emod).
      destruct (iter_eq _ _);
        [rewrite (bind_Ret _ _ _ _ _ (get_parent_Some _ _ _ Ha2))|];
        (eexists; split; [reflexivity|]; cbn; by rewrite decide_False).
    + apply Hfinish with (h2 := h2); try done.
      rewrite (bind_Ret _ _ _ _ _ (get_right_Some _ _ _ Han)), Er.
      rewrite (bind_Ret _ _ _ _ _ Erep0).
      rewrite (bind_Ret _ _ _ _ _ (get_right_Some _ _ _ Ha1)), Er.
      rewrite (bind_Ret _ _ _ _ _ (get_parent_Some _ _ _ Ha1)), Epar.
      rewrite (bind_Ret _ _ _ _ _ Emod).
      destruct (iter_eq _ _);
        [rewrite (bind_Ret _ _ _ _ _ (get_parent_Some _ _ _ Ha2))|];
        (eexists; split; [reflexivity|]; cbn; by rewrite decide_False).
    + injection Emod as <-.
      apply Hfinish with (h2 := <[p := if decide (left pn = Some a)
                                        then set_left None pn
                                        else set_right None pn]> h); try done.
      rewrite (bind_Ret _ _ _ _ _ Erep1).
      destruct (iter_eq _ _);
        [rewrite (bind_Ret _ _ _ _ _ (get_parent_Some _ _ _ Ha1))|
         destruct (iter_eq _ _);
           [rewrite (bind_Ret _ _ _ _ _ (get_parent_Some _ _ _ Ha1))|]];
        (eexists; split; [reflexivity|]; cbn; by rewrite decide_False).
Qed.


Lemma shape_remove_keys_split s : ∀ h p par a an,
  linked h p par s → NoDup (addrs s) → a ∈ addrs s → h !! a = Some an →
  left an = None ∨ right an = None →
  ∃ k1 k2, keys s = k1 ++ value an :: k2 ∧ keys (shape_remove a s) = k1 ++ k2.
Proof.
  induction s as [|l IHl b x r IHr]; intros h p par a an Hlk Hnd Ha Han Hone.
  { by apply elem_of_nil in Ha. }
  destruct Hlk as (-> & nd & Hb & Hv & Hp & Hl & Hr). cbn [addrs] in *.
  apply NoDup_cons in Hnd as [Hbn Hnd]. apply NoDup_app in Hnd as (Hndl & Hdisj & Hndr).
  apply not_elem_of_app in Hbn as [Hbl Hbr]. cbn [shape_remove keys].
  destruct (decide (a = b)) as [->|Hab].
  - rewrite Hb in Han. injection Han as <-. rewrite Hv.
    destruct Hone as [E|E]; rewrite E in *.
    + apply linked_None in Hl as ->. by exists [], (keys r).
    + apply linked_None in Hr as ->. exists (keys l), []. split; [done|].
      destruct l; [done | by rewrite app_nil_r].
  - apply elem_of_cons in Ha as [->|Ha]; [done|]. cbn [keys].
    apply elem_of_app in Ha as [Ha|Ha].
    + rewrite (shape_remove_notin a r) by (intros ?; by eapply Hdisj).
      destruct (IHl _ _ _ _ _ Hl Hndl Ha Han Hone) as (k1 & k2 & -> & ->).
      exists k1, (k2 ++ x :: keys r). by rewrite <- !app_assoc.
    + rewrite (shape_remove_notin a l) by (intros ?; by eapply Hdisj).
      destruct (IHr _ _ _ _ _ Hr Hndr Ha Han Hone) as (k1 & k2 & -> & ->).
      exists (keys l ++ x :: k1), k2. by rewrite <- !app_assoc.
Qed.

(** X18.  [erase (pos)] at a node of a sound tree that has at most one
    child, and is not a root without children, returns the iterator that
    [++pos] returned beforehand and leaves a sound tree: the shape without
    the node, whose subtree has taken its place.  The in-order sequence of
    the keys loses the key of the node and nothing else, the size is one
    less, the node is deallocated and the cells outside the tree are as
    they were. *)
Theorem erase_splices_node h t s a an fuel :
  sound key_comp h t s → a ∈ addrs s → h !! a = Some an →
  left an = None ∨ right an = None →
  ¬ (left an = None ∧ right an = None ∧ _tree_root t = Some a) →
  _tree_size t < 2 ^ 64 → (S (height s) ≤ fuel)%nat →
  ∃ t' retval h' s' k1 k2,
    erase key_comp fuel (iterator_of (Some a)) t h = Ret ((t', retval), h') ∧
    incr fuel (iterator_of (Some a)) h = Ret (retval, h) ∧
    sound key_comp h' t' s' ∧
    keys s = k1 ++ value an :: k2 ∧ keys s' = k1 ++ k2 ∧
    size t' = size t - 1 ∧
    h' !! a = None ∧ (∀ b, b ∉ addrs s → h' !! b = h !! b).
Proof.
  intros Hs Ha Han Hone Hnot Hmax Hf.
  destruct (erase_sound h t s a an fuel Hs Ha Han Hone Hnot Hmax Hf)
    as (t' & retval & h' & E & Hincr & Hs' & Hsz & Hgone & Hframe).
  destruct Hs as (Hlk & Hnd & _).
  destruct (shape_remove_keys_split s h _ None a an Hlk Hnd Ha Han Hone)
    as (k1 & k2 & Hk & Hk').
  by exists t', retval, h', (shape_remove a s), k1, k2.
Qed.

End erase_run.

Section erase_key_facts.
Context {K : Type} (key_comp : K → K → bool).
Implicit Types (h : gmap addr (@node K)) (t : bstree) (s : @shape K)
  (nd an : @node K).

(** The descent of [erase (key)] that finds the node of the key erases it
    there, with the fuel that is left. *)
Lemma erase_loop_found s : ∀ fuel c key t h a,
  rep h (Some c) s → shape_find key_comp key s = Some a → (height s ≤ fuel)%nat →
  ∃ f', (fuel < f' + height s)%nat ∧ (f' ≤ fuel)%nat ∧
        erase_loop key_comp fuel (Some c) key t h
        = ('(t, _) ← erase key_comp f' (iterator_of (Some a)) t; mret (t, 1)) h.
Proof.
  induction s as [|l IHl b x r IHr]; intros fuel c key t h a Hrep Hfind Hf; [done|].
  destruct Hrep as ([= ->] & nd & Hb & Hv & Hl & Hr).
  destruct fuel as [|f]; [simpl in Hf; lia|]. cbn [height] in *.
  cbn [erase_loop shape_find] in *.
  rewrite (bind_Ret _ _ _ _ _ (load_Some _ _ _ Hb)), Hv.
  destruct (key_comp key x); [|destruct (key_comp x key)].
  - destruct (left nd) as [cl|].
    + destruct (IHl f cl key t h a Hl Hfind) as (f' & ? & ? & E); [lia|].
      exists f'. split; [lia|]. split; [lia|done].
    + apply rep_None in Hl as ->. done.
  - destruct (right nd) as [cr|].
    + destruct (IHr f cr key t h a Hr Hfind) as (f' & ? & ? & E); [lia|].
      exists f'. split; [lia|]. split; [lia|done].
    + apply rep_None in Hr as ->. done.
  - injection Hfind as <-. exists (S f). split; [lia|]. split; [lia|done].
Qed.

(** [erase (key)] at a key of the tree takes out the node where the descent
    stops. *)
Lemma erase_key_sound h t s key a an fuel :
  sound key_comp h t s → shape_find key_comp key s = Some a →
  h !! a = Some an →
  left an = None ∨ right an = None →
  ¬ (left an = None ∧ right an = None ∧ _tree_root t = Some a) →
  _tree_size t < 2 ^ 64 → (2 * height s ≤ fuel)%nat →
  ∃ t' h',
    erase_key key_comp fuel key t h = Ret ((t', 1), h') ∧
    sound key_comp h' t' (shape_remove a s) ∧
    size t' = size t - 1 ∧
    equiv_key key_comp key (value an) ∧
    h' !! a = None ∧ (∀ b, b ∉ addrs s → h' !! b = h !! b).
Proof.
  intros Hs Hfind Han Hone Hnot Hmax Hf.
  pose proof Hs as (Hlk & Hnd & Hbst & Hsize).
  pose proof (linked_rep _ _ _ _ Hlk) as Hrep.
  assert (Hne : s ≠ Leaf) by (by intros ->).
  destruct (rep_root _ _ _ Hrep Hne) as [c Hc].
  assert (Ha : a ∈ addrs s).
  { clear -Hfind. induction s as [|l IHl b x r IHr]; [done|].
    cbn [shape_find addrs] in *. rewrite elem_of_cons, elem_of_app.
    destruct (key_comp key x); [by right; left; apply IHl|].
    destruct (key_comp x key); [by right; right; apply IHr|].
    injection Hfind as <-. by left. }
  destruct (shape_find_Some key_comp s h _ key a Hrep Hfind) as (an' & Han' & Heq).
  rewrite Han in Han'. injection Han' as <-.
  rewrite Hc in Hrep.
  destruct (erase_loop_found s fuel c key t h a Hrep Hfind) as (f' & Hf1 & Hf2 & E); [lia|].
  destruct (erase_sound key_comp h t s a an f' Hs Ha Han Hone Hnot Hmax)
    as (t' & retval & h' & Ee & _ & Hs' & Hsz & Hgone & Hframe); [lia|].
  exists t', h'. split; [|done].
  unfold erase_key. rewrite Hc, E. by rewrite (bind_Ret _ _ _ _ _ Ee).
Qed.

(** X19.  [erase (key)] on a sound tree, when the descent for [key] stops
    at a node that has at most one child and is not a root without
    children, returns 1 and leaves a sound tree: the shape without that
    node; the size is one less and the node is deallocated. *)
Theorem erase_of_present_key h t s key a an fuel :
  sound key_comp h t s → shape_find key_comp key s = Some a →
  h !! a = Some an →
  left an = None ∨ right an = None →
  ¬ (left an = None ∧ right an = None ∧ _tree_root t = Some a) →
  _tree_size t < 2 ^ 64 → (2 * height s ≤ fuel)%nat →
  ∃ t' h',
    erase_key key_comp fuel key t h = Ret ((t', 1), h') ∧
    sound key_comp h' t' (shape_remove a s) ∧
    size t' = size t - 1 ∧
    equiv_key key_comp key (value an) ∧
    h' !! a = None ∧ (∀ b, b ∉ addrs s → h' !! b = h !! b).
Proof.
  intros Hs Hfind Han Hone Hnot Hmax Hf.
  destruct (erase_key_sound h t s key a an fuel Hs Hfind Han Hone Hnot Hmax Hf)
    as (t' & h' & E & Hs' & Hrest).
  by exists t', h'.
Qed.

(** X20.  [erase (pos)] at a root without children, the only node of its
    tree, never returns: [_tree_root.reset ()] deallocates the node through
    the deleter, and the node is then read for the update of the caches or
    deallocated a second time.  With an empty deleter it is the call of the
    deleter that fails; with a deleter that a move left behind it is one or
    the other. *)
Theorem erase_of_the_only_node_crashes h t a an st fuel :
  _tree_root t = Some a → h !! a = Some an →
  left an = None → right an = None → parent an = None → (1 ≤ fuel)%nat →
  ∃ f, erase key_comp fuel (Iterator (Some a) st) t h = Crash f ∧
       match _tree_deleter t with
       | bound_tree_delete => f = DanglingDeref a ∨ f = DoubleFree a
       | empty_function => f = BadFunctionCall
       | moved_from_function =>
           f = BadFunctionCall ∨ f = DanglingDeref a ∨ f = DoubleFree a
       end.
Proof.
  intros Hroot Han Hl Hr Hp Hf. destruct fuel as [|f]; [lia|].
  assert (Hincr : ∃ retval, incr (S f) (Iterator (Some a) st) h = Ret (retval, h)).
  { unfold incr. cbn [_iter _state]. destruct st; try by eexists.
    rewrite (bind_Ret _ _ _ _ _ (load_Some _ _ _ Han)), Hr, Hp. by eexists. }
  destruct Hincr as [retval Hincr].
  assert (Hbad : _tree_deleter t ≠ bound_tree_delete →
                 replace_child (S f) true (Some a) None t h = Crash BadFunctionCall).
  { intros Hd. unfold replace_child, root_reset. rewrite decide_True by done.
    rewrite Hroot. by destruct (_tree_deleter t). }
  unfold erase. cbn [_iter].
  rewrite (bind_Ret _ _ _ _ _ Hincr).
  rewrite (bind_Ret _ _ _ _ _ (get_left_Some _ _ _ Han)), Hl.
  rewrite (bind_Ret _ _ _ _ _ (get_right_Some _ _ _ Han)), Hr.
  unfold mbind at 1, M_bind at 1, bind at 1.
  destruct (_tree_deleter t) eqn:Hd;
    [| exists BadFunctionCall; by rewrite (bind_Crash _ _ _ _ (Hbad ltac:(done)))
     | exists BadFunctionCall;
       rewrite (bind_Crash _ _ _ _ (Hbad ltac:(done))); split; [done | by left]].
  assert (Hreset : replace_child (S f) true (Some a) None t h
                   = Ret (with_root None t, delete a h)).
  { unfold replace_child, root_reset. rewrite decide_True by done. rewrite Hroot, Hd.
    cbn [call_deleter tree_delete].
    unfold load, deallocate, mbind, M_bind, bind, mret, M_ret, ret.
    rewrite Han. cbn. rewrite Hl, Hr, Hp. cbn. rewrite Han.
    by rewrite tree_delete_None. }
  assert (Hgone : delete a h !! a = None) by apply lookup_delete_eq.
  rewrite (bind_Ret _ _ _ _ _ Hreset).
  destruct (iter_eq _ _).
  { exists (DanglingDeref a). split; [|by left].
    unfold get_parent, load, mbind, M_bind, bind. by rewrite Hgone. }
  destruct (iter_eq _ _).
  { exists (DanglingDeref a). split; [|by left].
    unfold get_parent, load, mbind, M_bind, bind. by rewrite Hgone. }
  exists (DoubleFree a). split; [|by right].
  unfold deallocate, mbind, M_bind, bind, mret, M_ret, ret. by rewrite Hgone.
Qed.

End erase_key_facts.

Section ranges.
Local Open Scope nat_scope.
Context {T : Type}.
Implicit Types (arr l pre post : list T).

Lemma sub_range_split arr a b :
  a ≤ b → arr = take a arr ++ sub_range arr a b ++ drop b arr.
Proof.
  intros Hab. unfold sub_range.
  rewrite <- (take_drop a arr) at 1. f_equal.
  rewrite <- (take_drop (b - a) (drop a arr)) at 1. f_equal.
  rewrite drop_drop. f_equal. lia.
Qed.

Lemma sub_range_length arr a b :
  b ≤ length arr → length (sub_range arr a b) = b - a.
Proof. intros Hb. unfold sub_range. rewrite length_take, length_drop. lia. Qed.

Lemma sub_range_app arr a b c :
  a ≤ b → b ≤ c → sub_range arr a c = sub_range arr a b ++ sub_range arr b c.
Proof.
  intros Hab Hbc. unfold sub_range.
  replace (c - a) with ((b - a) + (c - b)) by lia.
  rewrite <- take_take_drop. f_equal. rewrite drop_drop. do 2 f_equal. lia.
Qed.

Lemma sub_range_block pre l post :
  sub_range (pre ++ l ++ post) (length pre) (length pre + length l) = l.
Proof.
  unfold sub_range. rewrite drop_app_length.
  replace (length pre + length l - length pre) with (length l) by lia.
  by rewrite take_app_length.
Qed.

Lemma sub_range_pre pre post a b :
  b ≤ length pre → sub_range (pre ++ post) a b = sub_range pre a b.
Proof.
  intros Hb. unfold sub_range. destruct (decide (a ≤ b)) as [Hab|Hab].
  - rewrite drop_app_le by lia. rewrite take_app_le; [done|]. rewrite length_drop. lia.
  - replace (b - a) with 0 by lia. done.
Qed.

Lemma sub_range_all arr : sub_range arr 0 (length arr) = arr.
Proof. unfold sub_range. rewrite Nat.sub_0_r. cbn [drop]. apply firstn_all. Qed.

Lemma for_each_app {S A} (xs ys : list A) (body : A → M S ()) s :
  for_each (xs ++ ys) body s = (_ ← for_each xs body; for_each ys body) s.
Proof.
  revert s. induction xs as [|x xs IH]; intros s; [done|].
  cbn [app for_each]. unfold mbind, M_bind, bind in *.
  destruct (body x s) as [[[] s1]| |]; [|done..]. apply IH.
Qed.

Lemma for_each_fmap {S A B} (f : A → B) (xs : list A) (body : B → M S ()) s :
  for_each (f <$> xs) body s = for_each xs (λ x, body (f x)) s.
Proof.
  revert s. induction xs as [|x xs IH]; intros s; [done|].
  cbn [fmap list_fmap for_each]. unfold mbind, M_bind, bind in *.
  destruct (body (f x) s) as [[[] s1]| |]; [|done..]. apply IH.
Qed.

Lemma for_each_ext {S A} (xs : list A) (body1 body2 : A → M S ()) s :
  (∀ x s, x ∈ xs → body1 x s = body2 x s) →
  for_each xs body1 s = for_each xs body2 s.
Proof.
  revert s. induction xs as [|x xs IH]; intros s Hext; [done|].
  cbn [for_each]. unfold mbind, M_bind, bind in *.
  rewrite <- Hext by apply list_elem_of_here.
  destruct (body1 x s) as [[[] s1]| |]; [|done..]. apply IH.
  intros y s' Hy. apply Hext. by apply elem_of_cons; right.
Qed.

(** A loop over the consecutive ranges between the cuts [cut 0 ≤ cut 1 ≤ ...]
    whose body works inside its range. *)
Lemma pass_over_ranges (cut : nat → nat) (body : nat → M (list T) ())
    (Pre Post : nat → list T → Prop) :
  (∀ i j, i ≤ j → cut i ≤ cut j) →
  ∀ k,
  (∀ i pre l post, i < k → length pre = cut i → length l = cut (S i) - cut i →
     Pre i l →
     ∃ l', body i (pre ++ l ++ post) = Ret ((), pre ++ l' ++ post) ∧ l' ≡ₚ l ∧ Post i l') →
  ∀ arr, cut k ≤ length arr →
  (∀ i, i < k → Pre i (sub_range arr (cut i) (cut (S i)))) →
  ∃ arr', for_each (seq 0 k) body arr = Ret ((), arr') ∧
          arr' ≡ₚ arr ∧
          drop (cut k) arr' = drop (cut k) arr ∧
          (∀ i, i < k → Post i (sub_range arr' (cut i) (cut (S i)))).
Proof.
  intros Hmono. induction k as [|k IH]; intros Hbody arr Hk Hpre.
  { exists arr. split; [done|]. split; [done|]. split; [done|]. intros; lia. }
  destruct (IH (λ i pre l post Hi, Hbody i pre l post (Nat.lt_lt_succ_r _ _ Hi)) arr)
    as (arr1 & E1 & Hperm1 & Hdrop1 & Hpost1).
  { pose proof (Hmono k (S k)). lia. }
  { intros i Hi. apply Hpre. lia. }
  pose proof (Hmono k (S k) ltac:(lia)) as Hcut.
  assert (Hlen1 : length arr1 = length arr) by (by rewrite Hperm1).
  assert (Hchunk : sub_range arr1 (cut k) (cut (S k)) = sub_range arr (cut k) (cut (S k))).
  { unfold sub_range. by rewrite Hdrop1. }
  destruct (Hbody k (take (cut k) arr1) (sub_range arr1 (cut k) (cut (S k)))
              (drop (cut (S k)) arr1)) as (l' & E2 & Hperm2 & Hpost2).
  { lia. }
  { rewrite length_take. lia. }
  { apply sub_range_length. lia. }
  { rewrite Hchunk. apply Hpre. lia. }
  rewrite <- (sub_range_split arr1 (cut k) (cut (S k)) Hcut) in E2.
  assert (Hlenl : length l' = cut (S k) - cut k).
  { rewrite Hperm2. apply sub_range_length. lia. }
  assert (Hlenp : length (take (cut k) arr1) = cut k) by (rewrite length_take; lia).
  exists (take (cut k) arr1 ++ l' ++ drop (cut (S k)) arr1).
  split.
  { rewrite seq_S, for_each_app. cbn [Nat.add].
    rewrite (bind_Ret _ _ _ _ _ E1). cbn [for_each].
    by rewrite (bind_Ret _ _ _ _ _ E2). }
  split.
  { rewrite Hperm2. by rewrite <- sub_range_split. }
  split.
  { rewrite app_assoc. rewrite drop_app_length'.
    - replace (cut (S k)) with (cut k + (cut (S k) - cut k)) by lia.
      rewrite <- !drop_drop. by rewrite Hdrop1.
    - rewrite length_app. lia. }
  intros i Hi. destruct (decide (i = k)) as [->|Hne].
  - pose proof (sub_range_block (take (cut k) arr1) l' (drop (cut (S k)) arr1)) as Hb.
    rewrite Hlenp, Hlenl in Hb.
    replace (cut k + (cut (S k) - cut k)) with (cut (S k)) in Hb by lia.
    by rewrite Hb.
  - assert (Hik : cut (S i) ≤ cut k) by (apply Hmono; lia).
    rewrite sub_range_pre by lia.
    rewrite <- (sub_range_pre _ (drop (cut k) arr1)) by lia.
    rewrite take_drop. apply Hpost1. lia.
Qed.

End ranges.

Section shellsort_facts.
Local Open Scope nat_scope.
Context {T : Type} (comp : T → T → bool).
Implicit Types (l pre post : list T) (x tmp : T).

Lemma index_get_block pre l post i x :
  l !! i = Some x →
  index_get (length pre) i (pre ++ l ++ post) = Ret (x, pre ++ l ++ post).
Proof.
  intros Hi. unfold index_get. rewrite lookup_app_r by lia.
  replace (length pre + i - length pre) with i by lia.
  rewrite lookup_app_l by (by eapply lookup_lt_Some). by rewrite Hi.
Qed.

Lemma index_set_block pre l post i x :
  i < length l →
  index_set (length pre) i x (pre ++ l ++ post) = Ret ((), pre ++ <[i := x]> l ++ post).
Proof.
  intros Hi. unfold index_set. rewrite decide_True by (rewrite !length_app; lia).
  rewrite insert_app_r. by rewrite insert_app_l.
Qed.

Lemma insert_exchange l : ∀ k a b,
  k < length l → a :: <[k := b]> l ≡ₚ b :: <[k := a]> l.
Proof.
  induction l as [|c l IH]; intros [|k] a b Hk; simpl in *; try lia.
  - apply perm_swap.
  - rewrite (perm_swap c a). rewrite (IH k a b) by lia. apply perm_swap.
Qed.

(** Writing the element of the place [i] to a later place [k] and another
    value to [i] permutes the list in which that value is written to [k]. *)
Lemma insert_swap_perm l : ∀ i k x t,
  i < k → k < length l → l !! i = Some x →
  <[i := t]> (<[k := x]> l) ≡ₚ <[k := t]> l.
Proof.
  induction l as [|a l IH]; intros [|i] [|k] x t Hik Hk Hx; simpl in *; try lia.
  - injection Hx as ->. apply insert_exchange. lia.
  - constructor. apply IH; [lia | lia | done].
Qed.

(** The inner loop on a block: the values shift, the hole moves down. *)
Lemma gap_shift_block pre post g tmp fuel : ∀ j l,
  0 < g → j < length l → j < fuel →
  ∃ j' l', gap_shift comp fuel (length pre) g tmp j (pre ++ l ++ post)
           = Ret (j', pre ++ l' ++ post) ∧
           j' ≤ j ∧ length l' = length l ∧
           <[j' := tmp]> l' ≡ₚ <[j := tmp]> l.
Proof.
  induction fuel as [|f IH]; intros j l Hg Hj Hf; [lia|].
  cbn [gap_shift]. destruct (decide (g ≤ j)) as [Hgj|Hgj]; [|by exists j, l].
  destruct (lookup_lt_is_Some_2 l (j - g)) as [x Hx]; [lia|].
  rewrite (bind_Ret _ _ _ _ _ (index_get_block pre l post _ x Hx)).
  destruct (comp tmp x); [|by exists j, l].
  rewrite (bind_Ret _ _ _ _ _ (index_set_block pre l post j x Hj)).
  destruct (IH (j - g) (<[j := x]> l)) as (j' & l' & E & Hj' & Hlen & Hperm);
    [done | rewrite length_insert; lia | lia |].
  exists j', l'. split; [done|]. split; [lia|].
  rewrite length_insert in Hlen. split; [done|].
  rewrite Hperm. apply insert_swap_perm; [lia | done | done].
Qed.

(** One insertion of a pass of gap [g]. *)
Lemma shell_step_block pre post g i l :
  0 < g → i < length l →
  ∃ l', (tmp ← index_get (length pre) i;
         j ← gap_shift comp (S i) (length pre) g tmp i;
         index_set (length pre) j tmp) (pre ++ l ++ post)
        = Ret ((), pre ++ l' ++ post) ∧
        length l' = length l ∧ l' ≡ₚ l.
Proof.
  intros Hg Hi. destruct (lookup_lt_is_Some_2 l i Hi) as [tmp Htmp].
  rewrite (bind_Ret _ _ _ _ _ (index_get_block pre l post _ tmp Htmp)).
  destruct (gap_shift_block pre post g tmp (S i) i l) as (j' & l' & E & Hj' & Hlen & Hperm);
    [done | done | lia |].
  rewrite (bind_Ret _ _ _ _ _ E).
  rewrite index_set_block by lia.
  eexists. split; [reflexivity|]. split; [by rewrite length_insert|].
  rewrite Hperm. by rewrite list_insert_id.
Qed.

(** A pass of gap [g] over places of the block. *)
Lemma shell_pass_block pre post g (places : list nat) : ∀ l,
  0 < g → Forall (λ i, i < length l) places →
  ∃ l', for_each places (λ i,
          tmp ← index_get (length pre) i;
          j ← gap_shift comp (S i) (length pre) g tmp i;
          index_set (length pre) j tmp) (pre ++ l ++ post)
        = Ret ((), pre ++ l' ++ post) ∧
        length l' = length l ∧ l' ≡ₚ l.
Proof.
  induction places as [|i places IH]; intros l Hg Hall; [by exists l|].
  apply Forall_cons in Hall as [Hi Hall]. cbn [for_each].
  destruct (shell_step_block pre post g i l Hg Hi) as (l1 & E1 & Hlen1 & Hperm1).
  rewrite (bind_Ret _ _ _ _ _ E1).
  destruct (IH l1 Hg) as (l' & E & Hlen & Hperm); [by rewrite Hlen1|].
  exists l'. split; [done|]. split; [congruence|]. by rewrite Hperm.
Qed.


(** The passes of a list of gaps permute the block. *)
Lemma gap_passes_block pre post (gs : list nat) n : ∀ l,
  Forall (λ g, 0 < g) gs → length l = n →
  ∃ l', for_each gs (λ g,
          for_each (seq g (n - g)) (λ i,
            tmp ← index_get (length pre) i;
            j ← gap_shift comp (S i) (length pre) g tmp i;
            index_set (length pre) j tmp)) (pre ++ l ++ post)
        = Ret ((), pre ++ l' ++ post) ∧
        length l' = n ∧ l' ≡ₚ l.
Proof.
  induction gs as [|g gs IH]; intros l Hgs Hn; [by exists l|].
  apply Forall_cons in Hgs as [Hg Hgs]. cbn [for_each].
  destruct (shell_pass_block pre post g (seq g (n - g)) l Hg)
    as (l1 & E1 & Hlen1 & Hperm1).
  { apply Forall_forall. intros i Hi. apply elem_of_seq in Hi. lia. }
  rewrite (bind_Ret _ _ _ _ _ E1).
  destruct (IH l1 Hgs) as (l' & E & Hlen & Hperm); [congruence|].
  exists l'. split; [done|]. split; [done|]. by rewrite Hperm.
Qed.

(** The inner loop of the pass of gap 1 at the end of a sorted prefix [Q]:
    the keys greater than [tmp] move up by one place. *)
Lemma gap_shift_one pre post tmp (Q : list T) : ∀ R hole fuel,
  length Q < fuel →
  ∃ Q1 Q2 hole',
    gap_shift comp fuel (length pre) 1 tmp (length Q) (pre ++ (Q ++ hole :: R) ++ post)
    = Ret (length Q1, pre ++ (Q1 ++ hole' :: Q2 ++ R) ++ post) ∧
    Q = Q1 ++ Q2 ∧ Forall (λ y, comp tmp y = true) Q2 ∧
    (Q1 = [] ∨ ∃ Q0 q, Q1 = Q0 ++ [q] ∧ comp tmp q = false).
Proof.
  induction Q as [|x Q IH] using rev_ind; intros R hole fuel Hf.
  { destruct fuel as [|f]; [simpl in Hf; lia|]. exists [], [], hole.
    split; [done|]. split; [done|]. split; [constructor | by left]. }
  destruct fuel as [|f]; [lia|]. rewrite length_app in Hf |- *. cbn [length] in *.
  cbn [gap_shift]. rewrite decide_True by lia.
  assert (Hx : ((Q ++ [x]) ++ hole :: R) !! (length Q + 1 - 1) = Some x).
  { replace (length Q + 1 - 1) with (length Q) by lia.
    rewrite <- app_assoc. by apply list_lookup_middle. }
  rewrite (bind_Ret _ _ _ _ _ (index_get_block pre _ post _ x Hx)).
  destruct (comp tmp x) eqn:Ecomp.
  - assert (Hlt : length Q + 1 < length ((Q ++ [x]) ++ hole :: R))
      by (rewrite !length_app; cbn; lia).
    rewrite (bind_Ret _ _ _ _ _ (index_set_block pre _ post _ x Hlt)).
    assert (Eset : <[length Q + 1 := x]> ((Q ++ [x]) ++ hole :: R)
                   = Q ++ x :: x :: R).
    { rewrite <- app_assoc. cbn [app].
      replace (length Q + 1) with (length Q + 1 + 0) by lia.
      rewrite <- Nat.add_assoc. rewrite insert_app_r. done. }
    rewrite Eset.
    replace (length Q + 1 - 1) with (length Q) by lia.
    destruct (IH (x :: R) x f) as (Q1 & Q2 & hole' & E & HQ & Hall & Hlast); [lia|].
    exists Q1, (Q2 ++ [x]), hole'. split.
    { rewrite E. by rewrite <- (app_assoc Q2). }
    split; [by rewrite HQ, app_assoc|]. split; [|done].
    apply Forall_app. split; [done|]. by repeat constructor.
  - exists (Q ++ [x]), [], hole. rewrite length_app. cbn [length app].
    split; [done|]. split; [by rewrite app_nil_r|]. split; [constructor|].
    right. by exists Q, x.
Qed.

Section order.
(** The comparison is a strict weak order: asymmetric, and what is less
    than [z] is less than [y] or [y] is less than [z]. *)
Hypothesis comp_asym : ∀ x y, comp x y = true → comp y x = false.
Hypothesis comp_negtrans : ∀ x y z, comp x z = true → comp x y = true ∨ comp y z = true.

Lemma not_less_trans x y z : not_less comp x y → not_less comp y z → not_less comp x z.
Proof.
  unfold not_less. intros Hxy Hyz. destruct (comp z x) eqn:E; [|done].
  destruct (comp_negtrans z y x E); congruence.
Qed.

(** An element put into a sorted range behind what is not greater and
    before what is greater leaves the range sorted. *)
Lemma insertion_point_sorted (Q1 Q2 : list T) x :
  StronglySorted (not_less comp) (Q1 ++ Q2) →
  Forall (λ y, comp x y = true) Q2 →
  (Q1 = [] ∨ ∃ Q0 q, Q1 = Q0 ++ [q] ∧ comp x q = false) →
  StronglySorted (not_less comp) (Q1 ++ x :: Q2).
Proof.
  intros Hsorted Hall Hlast.
  apply StronglySorted_app in Hsorted as (Hcross & H1 & H2).
  apply StronglySorted_app_2; [|done|].
  - intros u y Hu Hy.
    assert (Hux : not_less comp u x).
    { destruct Hlast as [->|(Q0 & q & -> & Hq)]; [by apply elem_of_nil in Hu|].
      apply elem_of_app in Hu as [Hu|Hu].
      - apply not_less_trans with q; [|done].
        apply StronglySorted_app in H1 as (Hc & _ & _). apply Hc; [done|].
        apply list_elem_of_here.
      - apply elem_of_cons in Hu as [->|?%elem_of_nil]; done. }
    apply elem_of_cons in Hy as [->|Hy]; [done|]. by apply Hcross.
  - apply StronglySorted_cons. split; [|done].
    rewrite Forall_forall in Hall |- *. intros y Hy. apply comp_asym. by apply Hall.
Qed.

(** One insertion of the pass of gap 1: the sorted prefix takes the next
    element. *)
Lemma shell_step_one pre post P tmp U :
  StronglySorted (not_less comp) P →
  ∃ P', (tmp ← index_get (length pre) (length P);
         j ← gap_shift comp (S (length P)) (length pre) 1 tmp (length P);
         index_set (length pre) j tmp) (pre ++ (P ++ tmp :: U) ++ post)
        = Ret ((), pre ++ (P' ++ U) ++ post) ∧
        length P' = S (length P) ∧ P' ≡ₚ P ++ [tmp] ∧ StronglySorted (not_less comp) P'.
Proof.
  intros Hsorted.
  rewrite (bind_Ret _ _ _ _ _
             (index_get_block pre _ post _ tmp (list_lookup_middle P U tmp _ eq_refl))).
  destruct (gap_shift_one pre post tmp P U tmp (S (length P)))
    as (Q1 & Q2 & hole' & E & HP & Hall & Hlast); [lia|].
  rewrite (bind_Ret _ _ _ _ _ E).
  rewrite index_set_block by (rewrite !length_app; cbn; lia).
  replace (length Q1) with (length Q1 + 0) by lia. rewrite insert_app_r. cbn.
  exists (Q1 ++ tmp :: Q2). split; [by rewrite <- (app_assoc Q1 (tmp :: Q2) U)|].
  subst P. rewrite !length_app. cbn [length]. split; [lia|].
  split; [by rewrite <- (Permutation_middle Q1 Q2 tmp), (Permutation_app_comm (Q1 ++ Q2) [tmp])|].
  by apply insertion_point_sorted.
Qed.

(** The pass of gap 1 from the end of a sorted prefix sorts the block. *)
Lemma shell_pass_one pre post (U : list T) : ∀ P,
  StronglySorted (not_less comp) P →
  ∃ l', for_each (seq (length P) (length U)) (λ i,
          tmp ← index_get (length pre) i;
          j ← gap_shift comp (S i) (length pre) 1 tmp i;
          index_set (length pre) j tmp) (pre ++ (P ++ U) ++ post)
        = Ret ((), pre ++ l' ++ post) ∧
        l' ≡ₚ P ++ U ∧ StronglySorted (not_less comp) l'.
Proof.
  induction U as [|tmp U IH]; intros P HP.
  { exists P. rewrite app_nil_r. by split. }
  cbn [length seq for_each].
  destruct (shell_step_one pre post P tmp U HP) as (P' & E & Hlen & Hperm & HP').
  rewrite (bind_Ret _ _ _ _ _ E). rewrite <- Hlen.
  destruct (IH P' HP') as (l' & E' & Hperm' & Hl').
  exists l'. split; [done|]. split; [|done].
  rewrite Hperm', Hperm. by rewrite <- app_assoc.
Qed.

(** A sequence of gaps that ends with the gap 1 sorts the block. *)
Lemma gap_sequence_sorts pre l post (gs : list nat) :
  Forall (λ g, 0 < g) gs →
  ∃ l', for_each (gs ++ [1]) (λ g,
          for_each (seq g (length l - g)) (λ i,
            tmp ← index_get (length pre) i;
            j ← gap_shift comp (S i) (length pre) g tmp i;
            index_set (length pre) j tmp)) (pre ++ l ++ post)
        = Ret ((), pre ++ l' ++ post) ∧
        l' ≡ₚ l ∧ StronglySorted (not_less comp) l'.
Proof.
  intros Hgs. rewrite for_each_app.
  destruct (gap_passes_block pre post gs (length l) l Hgs eq_refl)
    as (l1 & E1 & Hlen1 & Hperm1).
  rewrite (bind_Ret _ _ _ _ _ E1). cbn [for_each].
  destruct l1 as [|x0 U].
  { exists []. rewrite <- Hlen1. cbn. split; [done|]. split; [done|constructor]. }
  destruct (shell_pass_one pre post U [x0]) as (l' & E & Hperm & Hl').
  { by repeat constructor. }
  cbn [length] in Hlen1. rewrite <- Hlen1.
  replace (S (length U) - 1) with (length U) by lia.
  cbn [length app] in E. rewrite (bind_Ret _ _ _ _ _ E).
  exists l'. split; [done|]. split; [|done]. by rewrite Hperm.
Qed.

(** The gaps 23, 10 and 4 permute the block, the gap 1 sorts it. *)
Lemma shellsort_block pre l post :
  ∃ l', shellsort comp (length pre) (length pre + length l) (pre ++ l ++ post)
        = Ret ((), pre ++ l' ++ post) ∧
        l' ≡ₚ l ∧ StronglySorted (not_less comp) l'.
Proof.
  unfold shellsort, curia_gap_sequence.
  replace (length pre + length l - length pre) with (length l) by lia.
  apply (gap_sequence_sorts pre l post [23; 10; 4]).
  repeat constructor; lia.
Qed.

End order.

End shellsort_facts.

Section merging.
Local Open Scope nat_scope.
Context {T : Type} (comp : T → T → bool).
Implicit Types (arr l pre post A B : list T).

Lemma index_before_block pre l post i x :
  l !! i = Some x →
  index_before (length pre + S i) (pre ++ l ++ post) = Ret (x, pre ++ l ++ post).
Proof.
  intros Hi. rewrite Nat.add_succ_r. cbn [index_before].
  unfold index_get. rewrite Nat.add_0_r.
  rewrite lookup_app_r by lia.
  replace (length pre + i - length pre) with i by lia.
  rewrite lookup_app_l by (by eapply lookup_lt_Some). by rewrite Hi.
Qed.

Lemma merge_nil_l l : merge comp [] l = l.
Proof. by destruct l. Qed.

Lemma merge_nil_r l : merge comp l [] = l.
Proof. by destruct l. Qed.

Lemma merge_cons a1 l1 a2 l2 :
  merge comp (a1 :: l1) (a2 :: l2)
  = if comp a2 a1 then a2 :: merge comp (a1 :: l1) l2 else a1 :: merge comp l1 (a2 :: l2).
Proof. reflexivity. Qed.

Lemma merge_perm l1 : ∀ l2, merge comp l1 l2 ≡ₚ l1 ++ l2.
Proof.
  induction l1 as [|a1 l1 IH1]; intros l2; [by rewrite merge_nil_l|].
  induction l2 as [|a2 l2 IH2]; [by rewrite merge_nil_r, app_nil_r|].
  rewrite merge_cons. destruct (comp a2 a1).
  - rewrite IH2. by rewrite <- Permutation_middle.
  - by rewrite IH1.
Qed.

(** The three parts of a range cut at [m]. *)
Lemma three_way pre A B post s m e :
  s = length pre → m = s + length A → e = m + length B →
  let arr := pre ++ (A ++ B) ++ post in
  take s arr = pre ∧ take (m - s) (drop s arr) = A ∧
  take (e - m) (drop m arr) = B ∧ drop e arr = post ∧ e ≤ length arr.
Proof.
  intros -> -> ->. cbn zeta. split; [by rewrite take_app_length|].
  split.
  { rewrite drop_app_length, <- !app_assoc.
    replace (length pre + length A - length pre) with (length A) by lia.
    by rewrite take_app_length. }
  split.
  { rewrite <- !app_assoc, (app_assoc pre A).
    rewrite drop_app_length' by (by rewrite length_app).
    replace (length pre + length A + length B - (length pre + length A))
      with (length B) by lia.
    by rewrite take_app_length. }
  split.
  { rewrite app_assoc. rewrite drop_app_length'; [done|]. rewrite !length_app. lia. }
  rewrite !length_app. lia.
Qed.

Section order.
Hypothesis comp_asym : ∀ x y, comp x y = true → comp y x = false.
Hypothesis comp_negtrans : ∀ x y z, comp x z = true → comp x y = true ∨ comp y z = true.

Lemma not_less_refl x : not_less comp x x.
Proof.
  unfold not_less. destruct (comp x x) eqn:E; [|done].
  pose proof (comp_asym _ _ E). congruence.
Qed.

Lemma sorted_from_first x l y :
  StronglySorted (not_less comp) (x :: l) → y ∈ x :: l → not_less comp x y.
Proof.
  intros Hs Hy. apply StronglySorted_inv in Hs as [_ Hall].
  apply elem_of_cons in Hy as [->|Hy]; [apply not_less_refl|].
  rewrite Forall_forall in Hall. by apply Hall.
Qed.

Lemma sorted_to_last l z y :
  StronglySorted (not_less comp) l → l !! (length l - 1) = Some z → y ∈ l →
  not_less comp y z.
Proof.
  induction 1 as [|x l Hs IH Hall]; intros Hz Hy; [done|].
  cbn [length] in Hz. rewrite Nat.sub_1_r in Hz. cbn [Nat.pred] in Hz.
  rewrite Forall_forall in Hall.
  destruct l as [|x' l'].
  { injection Hz as <-. apply elem_of_cons in Hy as [->|[]%elem_of_nil].
    apply not_less_refl. }
  cbn [length] in Hz, IH.
  assert (Hz' : (x' :: l') !! (S (length l') - 1) = Some z).
  { by replace (S (length l') - 1) with (length l') by lia. }
  apply elem_of_cons in Hy as [->|Hy]; [|by apply IH].
  apply Hall. by eapply list_elem_of_lookup_2.
Qed.

Lemma merge_sorted l1 : ∀ l2,
  StronglySorted (not_less comp) l1 → StronglySorted (not_less comp) l2 →
  StronglySorted (not_less comp) (merge comp l1 l2).
Proof.
  induction l1 as [|a1 l1 IH1]; intros l2 H1 H2; [by rewrite merge_nil_l|].
  induction l2 as [|a2 l2 IH2]; [by rewrite merge_nil_r|].
  rewrite merge_cons.
  pose proof H1 as [H1' Hall1]%StronglySorted_inv.
  pose proof H2 as [H2' Hall2]%StronglySorted_inv.
  destruct (comp a2 a1) eqn:E.
  - constructor; [by apply IH2|]. rewrite merge_perm.
    assert (H21 : not_less comp a2 a1) by (by apply comp_asym).
    apply Forall_app. split; [|done]. constructor; [done|].
    eapply Forall_impl; [exact Hall1|]. intros x Hx.
    by apply (not_less_trans comp comp_negtrans a2 a1 x).
  - constructor; [by apply IH1|]. rewrite merge_perm.
    apply Forall_app. split; [done|]. constructor; [done|].
    eapply Forall_impl; [exact Hall2|]. intros x Hx.
    by apply (not_less_trans comp comp_negtrans a1 a2 x).
Qed.

(** One step of a merge pass of [blocksort]: two sorted ranges next to each
    other, neither of them empty, become one sorted range. *)
Lemma merge_step pre A B post s m e :
  s = length pre → m = s + length A → e = m + length B →
  A ≠ [] → B ≠ [] →
  StronglySorted (not_less comp) A → StronglySorted (not_less comp) B →
  ∃ l',
    (x ← index_before e;
     y ← index_get s 0;
     if comp x y then rotate s m e
     else
       x ← index_get m 0;
       y ← index_before m;
       if comp x y then inplace_merge comp s m e
       else mret ()) (pre ++ (A ++ B) ++ post)
    = Ret ((), pre ++ l' ++ post) ∧
    l' ≡ₚ A ++ B ∧ StronglySorted (not_less comp) l'.
Proof.
  intros Hs Hm He HA HB HsA HsB.
  destruct (three_way pre A B post s m e Hs Hm He) as (Ht1 & Ht2 & Ht3 & Ht4 & Hlen).
  destruct A as [|a0 A']; [done|]. destruct B as [|b0 B']; [done|].
  destruct (lookup_lt_is_Some_2 (a0 :: A') (length (a0 :: A') - 1)) as [al Hal];
    [cbn [length]; lia|].
  destruct (lookup_lt_is_Some_2 (b0 :: B') (length (b0 :: B') - 1)) as [bl Hbl];
    [cbn [length]; lia|].
  assert (E1 : index_before e (pre ++ ((a0 :: A') ++ b0 :: B') ++ post)
               = Ret (bl, pre ++ ((a0 :: A') ++ b0 :: B') ++ post)).
  { replace e with (length pre + S (length (a0 :: A') + (length (b0 :: B') - 1)))
      by (cbn [length] in *; lia).
    apply index_before_block. rewrite lookup_app_r by lia.
    by replace (length (a0 :: A') + (length (b0 :: B') - 1) - length (a0 :: A'))
      with (length (b0 :: B') - 1) by lia. }
  assert (E2 : index_get s 0 (pre ++ ((a0 :: A') ++ b0 :: B') ++ post)
               = Ret (a0, pre ++ ((a0 :: A') ++ b0 :: B') ++ post)).
  { subst s. by apply index_get_block. }
  assert (E3 : index_get m 0 (pre ++ ((a0 :: A') ++ b0 :: B') ++ post)
               = Ret (b0, pre ++ ((a0 :: A') ++ b0 :: B') ++ post)).
  { unfold index_get. rewrite Nat.add_0_r. subst m s.
    rewrite lookup_app_r by lia.
    replace (length pre + length (a0 :: A') - length pre) with (length (a0 :: A')) by lia.
    rewrite lookup_app_l by (rewrite length_app; cbn [length]; lia).
    by rewrite list_lookup_middle. }
  assert (E4 : index_before m (pre ++ ((a0 :: A') ++ b0 :: B') ++ post)
               = Ret (al, pre ++ ((a0 :: A') ++ b0 :: B') ++ post)).
  { replace m with (length pre + S (length (a0 :: A') - 1))
      by (cbn [length] in *; lia).
    apply index_before_block. rewrite lookup_app_l by (cbn [length]; lia). done. }
  rewrite (bind_Ret _ _ _ _ _ E1), (bind_Ret _ _ _ _ _ E2).
  destruct (comp bl a0) eqn:Erot.
  { exists ((b0 :: B') ++ a0 :: A'). unfold rotate.
    rewrite decide_True by lia. rewrite Ht1, Ht2, Ht3, Ht4.
    split; [done|]. split; [apply Permutation_app_comm|].
    apply StronglySorted_app_2; [|done..].
    intros b a Hb Ha. unfold not_less.
    destruct (comp a b) eqn:Eab; [|done]. exfalso.
    pose proof (sorted_from_first a0 A' a HsA Ha) as Ha0.
    pose proof (sorted_to_last (b0 :: B') bl b HsB Hbl Hb) as Hb0.
    unfold not_less in Ha0, Hb0.
    destruct (comp_negtrans a a0 b Eab) as [?|E']; [congruence|].
    destruct (comp_negtrans a0 bl b E') as [E''|?]; [|congruence].
    apply comp_asym in E''. congruence. }
  rewrite (bind_Ret _ _ _ _ _ E3), (bind_Ret _ _ _ _ _ E4).
  destruct (comp b0 al) eqn:Emerge.
  { exists (merge comp (a0 :: A') (b0 :: B')). unfold inplace_merge.
    rewrite decide_True by lia. rewrite Ht1, Ht2, Ht3, Ht4.
    split; [done|]. split; [apply merge_perm | by apply merge_sorted]. }
  exists ((a0 :: A') ++ b0 :: B'). split; [done|]. split; [done|].
  apply StronglySorted_app_2; [|done..].
  intros a b Ha Hb.
  apply (not_less_trans comp comp_negtrans a al b).
  { by apply (sorted_to_last (a0 :: A')). }
  apply (not_less_trans comp comp_negtrans al b0 b); [done|].
  by apply (sorted_from_first b0 B').
Qed.

End order.
End merging.

Section powers.

Lemma smear_bits (n x w : N) :
  (∀ i, N.testbit x i = true ↔ ∃ j, (i ≤ j < i + w)%N ∧ N.testbit n j = true) →
  ∀ i, N.testbit (N.lor x (N.shiftr x w)) i = true
       ↔ ∃ j, (i ≤ j < i + 2 * w)%N ∧ N.testbit n j = true.
Proof.
  intros H i. rewrite N.lor_spec, N.shiftr_spec by lia.
  rewrite orb_true_iff, (H i), (H (i + w)%N). split.
  - intros [(j & Hj & Hb)|(j & Hj & Hb)]; exists j; (split; [lia|done]).
  - intros (j & Hj & Hb). destruct (decide (j < i + w)%N).
    + left. exists j. split; [lia|done].
    + right. exists j. split; [lia|done].
Qed.

(** The bit trick gives the greatest power of two that is not above the
    length. *)
Lemma prev_pow2_log2 (n : N) :
  (0 < n)%N → (n < 2 ^ 64)%N → prev_pow2 n = (2 ^ N.log2 n)%N.
Proof.
  intros Hpos Hmax.
  assert (H0 : ∀ i, N.testbit n i = true
                    ↔ ∃ j, (i ≤ j < i + 1)%N ∧ N.testbit n j = true).
  { intros i. split; [intros Hi; exists i; split; [lia|done]|].
    intros (j & Hj & Hb). by replace i with j by lia. }
  set (x1 := N.lor n (N.shiftr n 1)).
  assert (H1 : ∀ i, N.testbit x1 i = true
                    ↔ ∃ j, (i ≤ j < i + 2)%N ∧ N.testbit n j = true)
    by exact (smear_bits n n 1 H0).
  set (x2 := N.lor x1 (N.shiftr x1 2)).
  assert (H2 : ∀ i, N.testbit x2 i = true
                    ↔ ∃ j, (i ≤ j < i + 4)%N ∧ N.testbit n j = true)
    by exact (smear_bits n x1 2 H1).
  set (x3 := N.lor x2 (N.shiftr x2 4)).
  assert (H3 : ∀ i, N.testbit x3 i = true
                    ↔ ∃ j, (i ≤ j < i + 8)%N ∧ N.testbit n j = true)
    by exact (smear_bits n x2 4 H2).
  set (x4 := N.lor x3 (N.shiftr x3 8)).
  assert (H4 : ∀ i, N.testbit x4 i = true
                    ↔ ∃ j, (i ≤ j < i + 16)%N ∧ N.testbit n j = true)
    by exact (smear_bits n x3 8 H3).
  set (x5 := N.lor x4 (N.shiftr x4 16)).
  assert (H5 : ∀ i, N.testbit x5 i = true
                    ↔ ∃ j, (i ≤ j < i + 32)%N ∧ N.testbit n j = true)
    by exact (smear_bits n x4 16 H4).
  set (x6 := N.lor x5 (N.shiftr x5 32)).
  assert (H6 : ∀ i, N.testbit x6 i = true
                    ↔ ∃ j, (i ≤ j < i + 64)%N ∧ N.testbit n j = true)
    by exact (smear_bits n x5 32 H5).
  change (prev_pow2 n) with (x6 - N.shiftr x6 1)%N.
  assert (Hk : (N.log2 n < 64)%N) by (apply N.log2_lt_pow2; lia).
  assert (Hones : x6 = N.ones (N.succ (N.log2 n))).
  { apply N.bits_inj. intros i. apply Bool.eq_iff_eq_true.
    rewrite H6, N.ones_spec_iff. split.
    - intros (j & Hj & Hb). destruct (decide (j ≤ N.log2 n)%N); [lia|].
      rewrite N.bits_above_log2 in Hb by lia. done.
    - intros Hi. exists (N.log2 n). split; [lia|]. apply N.bit_log2. lia. }
  rewrite Hones, N.shiftr_div_pow2, N.ones_equiv, N.pow_succ_r', N.pow_1_r.
  assert (Hp : (0 < 2 ^ N.log2 n)%N) by (apply N.neq_0_lt_0, N.pow_nonzero; lia).
  generalize dependent (2 ^ N.log2 n)%N. intros p Hp.
  assert (Hdiv : (N.pred (2 * p) / 2 = p - 1)%N).
  { symmetry. apply (N.div_unique _ _ _ 1%N); lia. }
  rewrite Hdiv. lia.
Qed.

Local Open Scope nat_scope.

(** For a range of 16 elements or more the power of two is a multiple of
    16 that is not above the length. *)
Lemma prev_pow2_blocks (n : nat) :
  16 ≤ n → (N.of_nat n < 2 ^ 26)%N →
  ∃ e, N.to_nat (prev_pow2 (N.of_nat n)) = 16 * 2 ^ e ∧ 16 * 2 ^ e ≤ n.
Proof.
  intros Hmin Hmax.
  rewrite prev_pow2_log2 by lia.
  assert (H4 : (4 ≤ N.log2 (N.of_nat n))%N).
  { apply N.log2_le_pow2; [lia|]. change (2 ^ 4)%N with 16%N. lia. }
  assert (Hle : (2 ^ N.log2 (N.of_nat n) ≤ N.of_nat n)%N).
  { apply N.log2_spec. lia. }
  exists (N.to_nat (N.log2 (N.of_nat n) - 4)).
  assert (E : N.to_nat (2 ^ N.log2 (N.of_nat n)) = 16 * 2 ^ N.to_nat (N.log2 (N.of_nat n) - 4)).
  { replace (N.log2 (N.of_nat n)) with (4 + (N.log2 (N.of_nat n) - 4))%N at 1 by lia.
    rewrite N.pow_add_r. change (2 ^ 4)%N with 16%N.
    rewrite N2Nat.inj_mul, N2Nat.inj_pow. done. }
  split; [done|]. rewrite <- E. lia.
Qed.

Lemma scaled_0 n P : scaled n P 0 = 0.
Proof. unfold scaled. cbn [Nat.mul]. destruct P; [done|]. by apply Nat.div_small; lia. Qed.

Lemma scaled_all n P : 0 < P → scaled n P P = n.
Proof. intros HP. unfold scaled. rewrite Nat.mul_comm. apply Nat.div_mul. lia. Qed.

Lemma scaled_mono n P b b' : b ≤ b' → scaled n P b ≤ scaled n P b'.
Proof.
  intros Hb. unfold scaled. destruct P; [done|].
  apply Nat.Div0.div_le_mono. by apply Nat.mul_le_mono_r.
Qed.

Lemma scaled_grows n P b d : 0 < P → P ≤ n → scaled n P b + d ≤ scaled n P (b + d).
Proof.
  intros HP Hn. unfold scaled.
  rewrite <- (Nat.div_add (b * n) d P) by lia.
  apply Nat.Div0.div_le_mono. nia.
Qed.

Lemma steps_multiple step q :
  0 < step → steps 0 step (q * step) = (λ k, 0 + k * step) <$> seq 0 q.
Proof.
  intros Hstep. unfold steps. do 2 f_equal.
  rewrite Nat.sub_0_r, Nat.add_comm, Nat.div_add by lia.
  rewrite Nat.div_small by lia. done.
Qed.

End powers.

Section blocksort_facts.
Local Open Scope nat_scope.
Context {T : Type} (comp : T → T → bool).
Implicit Types (arr l pre post A B : list T).
Hypothesis comp_asym : ∀ x y, comp x y = true → comp y x = false.
Hypothesis comp_negtrans : ∀ x y z, comp x z = true → comp x y = true ∨ comp y z = true.

(** The first loop of [blocksort] sorts every block. *)
Lemma block_pass n P q arr :
  length arr = n → 0 < P → P ≤ n → P = q * 16 →
  ∃ arr',
    for_each (steps 0 16 P) (λ b,
      shellsort comp (scaled n P b) (scaled n P (b + 16))) arr = Ret ((), arr') ∧
    arr' ≡ₚ arr ∧
    ∀ i, i < q →
      StronglySorted (not_less comp)
        (sub_range arr' (scaled n P (i * 16)) (scaled n P (S i * 16))).
Proof.
  intros Hn HP HPn HPq.
  rewrite (f_equal (steps 0 16) HPq), steps_multiple by lia. rewrite for_each_fmap.
  destruct (pass_over_ranges (λ i, scaled n P (i * 16))
              (λ i, shellsort comp (scaled n P (0 + i * 16)) (scaled n P (0 + i * 16 + 16)))
              (λ _ _, True) (λ _ l, StronglySorted (not_less comp) l))
    with (k := q) (arr := arr) as (arr' & E & Hperm & _ & Hpost).
  - intros i j Hij. apply scaled_mono. lia.
  - intros i pre l post Hi Hpre Hl _.
    destruct (shellsort_block comp comp_asym comp_negtrans pre l post)
      as (l' & E & Hperm & Hs).
    exists l'. split; [|done]. rewrite <- E.
    pose proof (scaled_mono n P (i * 16) (S i * 16) ltac:(lia)).
    rewrite Nat.add_0_l. replace (i * 16 + 16) with (S i * 16) by lia.
    f_equal; lia.
  - rewrite <- HPq, scaled_all by done. lia.
  - done.
  - by exists arr'.
Qed.

(** A merge pass of [blocksort]: the sorted chunks of [len] scaled places
    become sorted chunks of twice as many. *)
Lemma merge_pass n P len q arr :
  length arr = n → 0 < len → 0 < P → P ≤ n → P = q * (len * 2) →
  (∀ i, i < 2 * q →
     StronglySorted (not_less comp)
       (sub_range arr (scaled n P (i * len)) (scaled n P (S i * len)))) →
  ∃ arr',
    for_each (steps 0 (len * 2) P) (λ merge,
      x ← index_before (scaled n P (merge + len * 2));
      y ← index_get (scaled n P merge) 0;
      if comp x y
      then rotate (scaled n P merge) (scaled n P (merge + len)) (scaled n P (merge + len * 2))
      else
        x ← index_get (scaled n P (merge + len)) 0;
        y ← index_before (scaled n P (merge + len));
        if comp x y
        then inplace_merge comp (scaled n P merge) (scaled n P (merge + len))
               (scaled n P (merge + len * 2))
        else mret ()) arr = Ret ((), arr') ∧
    arr' ≡ₚ arr ∧
    ∀ i, i < q →
      StronglySorted (not_less comp)
        (sub_range arr' (scaled n P (i * (2 * len))) (scaled n P (S i * (2 * len)))).
Proof.
  intros Hn Hlen HP HPn HPq Hchunks.
  rewrite (f_equal (steps 0 (len * 2)) HPq), steps_multiple by lia. rewrite for_each_fmap.
  assert (Hcuts : ∀ i, i < q →
            scaled n P (i * (len * 2)) + len ≤ scaled n P (i * (len * 2) + len) ∧
            scaled n P (i * (len * 2) + len) + len ≤ scaled n P (S i * (len * 2)) ∧
            scaled n P (S i * (len * 2)) ≤ n).
  { intros i Hi. split; [by apply scaled_grows|]. split.
    - replace (S i * (len * 2)) with (i * (len * 2) + len + len) by lia.
      by apply scaled_grows.
    - rewrite <- (scaled_all n P HP) at 2. apply scaled_mono. nia. }
  destruct (pass_over_ranges (λ i, scaled n P (i * (len * 2)))
              (λ i,
                 x ← index_before (scaled n P (0 + i * (len * 2) + len * 2));
                 y ← index_get (scaled n P (0 + i * (len * 2))) 0;
                 if comp x y
                 then rotate (scaled n P (0 + i * (len * 2)))
                        (scaled n P (0 + i * (len * 2) + len))
                        (scaled n P (0 + i * (len * 2) + len * 2))
                 else
                   x ← index_get (scaled n P (0 + i * (len * 2) + len)) 0;
                   y ← index_before (scaled n P (0 + i * (len * 2) + len));
                   if comp x y
                   then inplace_merge comp (scaled n P (0 + i * (len * 2)))
                          (scaled n P (0 + i * (len * 2) + len))
                          (scaled n P (0 + i * (len * 2) + len * 2))
                   else mret ())
              (λ i l, ∃ A B, l = A ++ B ∧
                  length A = scaled n P (i * (len * 2) + len) - scaled n P (i * (len * 2)) ∧
                  A ≠ [] ∧ B ≠ [] ∧
                  StronglySorted (not_less comp) A ∧ StronglySorted (not_less comp) B)
              (λ _ l, StronglySorted (not_less comp) l))
    with (k := q) (arr := arr) as (arr' & E & Hperm & _ & Hpost).
  - intros i j Hij. apply scaled_mono. nia.
  - intros i pre l post Hi Hpre Hl (A & B & -> & HlenA & HA & HB & HsA & HsB).
    destruct (Hcuts i Hi) as (Hc1 & Hc2 & Hc3).
    rewrite length_app in Hl. rewrite !Nat.add_0_l.
    replace (i * (len * 2) + len * 2) with (S i * (len * 2)) by lia.
    apply (merge_step comp comp_asym comp_negtrans pre A B post); try done; lia.
  - rewrite <- HPq, scaled_all by done. lia.
  - intros i Hi. destruct (Hcuts i Hi) as (Hc1 & Hc2 & Hc3).
    exists (sub_range arr (scaled n P (i * (len * 2))) (scaled n P (i * (len * 2) + len))),
           (sub_range arr (scaled n P (i * (len * 2) + len)) (scaled n P (S i * (len * 2)))).
    split; [apply sub_range_app; lia|].
    split; [apply sub_range_length; lia|].
    split.
    { intros HA%(f_equal length). rewrite sub_range_length in HA by lia.
      cbn [length] in HA. lia. }
    split.
    { intros HB%(f_equal length). rewrite sub_range_length in HB by lia.
      cbn [length] in HB. lia. }
    split.
    + replace (i * (len * 2)) with (2 * i * len) by lia.
      replace (2 * i * len + len) with (S (2 * i) * len) by lia.
      apply Hchunks. lia.
    + replace (i * (len * 2) + len) with (S (2 * i) * len) by lia.
      replace (S i * (len * 2)) with (S (S (2 * i)) * len) by lia.
      apply Hchunks. lia.
  - exists arr'. split; [done|]. split; [done|].
    intros i Hi. replace (2 * len) with (len * 2) by lia. by apply Hpost.
Qed.

(** The merge passes, from chunks of [len] to the whole range. *)
Lemma merge_passes n P : ∀ d len fuel arr,
  length arr = n → 0 < len → P ≤ n → P = len * 2 ^ d → d ≤ fuel →
  (∀ i, i < 2 ^ d →
     StronglySorted (not_less comp)
       (sub_range arr (scaled n P (i * len)) (scaled n P (S i * len)))) →
  ∃ arr',
    for_each (doubling fuel len P) (λ len,
      for_each (steps 0 (len * 2) P) (λ merge,
        x ← index_before (scaled n P (merge + len * 2));
        y ← index_get (scaled n P merge) 0;
        if comp x y
        then rotate (scaled n P merge) (scaled n P (merge + len))
               (scaled n P (merge + len * 2))
        else
          x ← index_get (scaled n P (merge + len)) 0;
          y ← index_before (scaled n P (merge + len));
          if comp x y
          then inplace_merge comp (scaled n P merge) (scaled n P (merge + len))
                 (scaled n P (merge + len * 2))
          else mret ())) arr = Ret ((), arr') ∧
    arr' ≡ₚ arr ∧ StronglySorted (not_less comp) arr'.
Proof.
  induction d as [|d IH]; intros len fuel arr Hn Hlen HPn HP Hfuel Hchunks.
  { rewrite Nat.pow_0_r, Nat.mul_1_r in HP. subst P.
    exists arr. split.
    { destruct fuel; [done|]. cbn [doubling]. by rewrite decide_False by lia. }
    split; [done|].
    specialize (Hchunks 0 ltac:(cbn; lia)).
    rewrite Nat.mul_0_l, Nat.mul_1_l, scaled_0, scaled_all in Hchunks by done.
    rewrite <- Hn in Hchunks. by rewrite sub_range_all in Hchunks. }
  destruct fuel as [|fuel]; [lia|].
  assert (Hpow : 0 < 2 ^ d) by (apply Nat.neq_0_lt_0, Nat.pow_nonzero; lia).
  rewrite Nat.pow_succ_r' in HP, Hchunks.
  assert (HlenP : len < P) by nia.
  cbn [doubling]. rewrite decide_True by done. cbn [for_each].
  destruct (merge_pass n P len (2 ^ d) arr) as (arr1 & E1 & Hperm1 & Hchunks1);
    [done | done | lia | done | nia | done |].
  rewrite (bind_Ret _ _ _ _ _ E1).
  destruct (IH (2 * len) fuel arr1) as (arr' & E & Hperm & Hsorted);
    [by rewrite Hperm1 | lia | done | nia | lia | done |].
  exists arr'. split; [done|]. split; [|done]. by rewrite Hperm.
Qed.

Lemma blocksort_sorts_helper arr :
  16 ≤ length arr → (N.of_nat (length arr) < 2 ^ 26)%N →
  ∃ arr', blocksort comp arr = Ret ((), arr') ∧
          arr' ≡ₚ arr ∧ StronglySorted (not_less comp) arr'.
Proof.
  intros Hmin Hmax. unfold blocksort. cbv zeta.
  destruct (prev_pow2_blocks (length arr) Hmin Hmax) as (e & -> & HPn).
  assert (Hpow : 0 < 2 ^ e) by (apply Nat.neq_0_lt_0, Nat.pow_nonzero; lia).
  destruct (block_pass (length arr) (16 * 2 ^ e) (2 ^ e) arr)
    as (arr1 & E1 & Hperm1 & Hchunks1); [done | lia | done | lia |].
  rewrite (bind_Ret _ _ _ _ _ E1).
  destruct (merge_passes (length arr) (16 * 2 ^ e) e 16 (16 * 2 ^ e) arr1)
    as (arr' & E & Hperm & Hsorted);
    [by rewrite Hperm1 | lia | done | done | | done |].
  { pose proof (Nat.pow_gt_lin_r 2 e). lia. }
  exists arr'. split; [done|]. split; [|done]. by rewrite Hperm.
Qed.

End blocksort_facts.

Section insertionsort_facts.
Local Open Scope nat_scope.
Context {T : Type} (comp : T → T → bool).
Implicit Types (arr l pre post : list T) (x : T).

Lemma swap_block pre l post i j x y :
  l !! i = Some x → l !! j = Some y →
  swap (length pre) i j (pre ++ l ++ post)
  = Ret ((), pre ++ <[j := x]> (<[i := y]> l) ++ post).
Proof.
  intros Hi Hj. unfold swap.
  rewrite (bind_Ret _ _ _ _ _ (index_get_block pre l post i x Hi)).
  rewrite (bind_Ret _ _ _ _ _ (index_get_block pre l post j y Hj)).
  assert (Hilt : i < length l) by (by eapply lookup_lt_Some).
  assert (Hjlt : j < length (<[i := y]> l))
    by (rewrite length_insert; by eapply lookup_lt_Some).
  rewrite (bind_Ret _ _ _ _ _ (index_set_block pre l post i y Hilt)).
  by rewrite (index_set_block pre _ post j x Hjlt).
Qed.

(** The inner loop of [insertionsort] at the end of a sorted prefix [Q]:
    [x] goes down past the keys that are greater. *)
Lemma swap_down_prefix pre post x (Q : list T) : ∀ R fuel,
  length Q < fuel →
  ∃ Q1 Q2,
    swap_down comp fuel (length pre) (length Q) (pre ++ (Q ++ x :: R) ++ post)
    = Ret ((), pre ++ (Q1 ++ x :: Q2 ++ R) ++ post) ∧
    Q = Q1 ++ Q2 ∧ Forall (λ y, comp x y = true) Q2 ∧
    (Q1 = [] ∨ ∃ Q0 q, Q1 = Q0 ++ [q] ∧ comp x q = false).
Proof.
  induction Q as [|q Q IH] using rev_ind; intros R fuel Hf.
  { destruct fuel as [|f]; [simpl in Hf; lia|]. exists [], [].
    split; [done|]. split; [done|]. split; [constructor | by left]. }
  destruct fuel as [|f]; [lia|]. rewrite length_app in Hf |- *. cbn [length] in *.
  cbn [swap_down]. rewrite decide_True by lia.
  assert (Hx : ((Q ++ [q]) ++ x :: R) !! (length Q + 1) = Some x).
  { replace (length Q + 1) with (length (Q ++ [q])) by (rewrite length_app; cbn; lia).
    by apply list_lookup_middle. }
  assert (Hq : ((Q ++ [q]) ++ x :: R) !! (length Q + 1 - 1) = Some q).
  { replace (length Q + 1 - 1) with (length Q) by lia.
    rewrite <- app_assoc. by apply list_lookup_middle. }
  rewrite (bind_Ret _ _ _ _ _ (index_get_block pre _ post _ x Hx)).
  rewrite (bind_Ret _ _ _ _ _ (index_get_block pre _ post _ q Hq)).
  destruct (comp x q) eqn:Ecomp.
  - rewrite (bind_Ret _ _ _ _ _ (swap_block pre _ post _ _ x q Hx Hq)).
    assert (Eset : <[length Q + 1 - 1 := x]>
                     (<[length Q + 1 := q]> ((Q ++ [q]) ++ x :: R))
                   = Q ++ x :: q :: R).
    { rewrite <- app_assoc. cbn [app].
      replace (length Q + 1 - 1) with (length Q + 0) by lia.
      rewrite !insert_app_r. done. }
    rewrite Eset.
    replace (length Q + 1 - 1) with (length Q) by lia.
    destruct (IH (q :: R) f) as (Q1 & Q2 & E & HQ & Hall & Hlast); [lia|].
    exists Q1, (Q2 ++ [q]). split.
    { rewrite E. by rewrite <- (app_assoc Q2). }
    split; [by rewrite HQ, app_assoc|]. split; [|done].
    apply Forall_app. split; [done|]. by repeat constructor.
  - exists (Q ++ [q]), []. cbn [app].
    split; [done|]. split; [by rewrite app_nil_r|]. split; [constructor|].
    right. by exists Q, q.
Qed.

Lemma filter_none (f : T → bool) l :
  Forall (λ y, f y = false) l → List.filter f l = [].
Proof.
  induction 1 as [|y l Hy _ IH]; [done|]. cbn [List.filter]. by rewrite Hy.
Qed.

Section order.
Hypothesis comp_asym : ∀ x y, comp x y = true → comp y x = false.
Hypothesis comp_negtrans : ∀ x y z, comp x z = true → comp x y = true ∨ comp y z = true.

(** An element that goes down past greater keys passes no key equivalent
    to it. *)
Lemma insertion_point_stable (Q1 Q2 : list T) x z :
  Forall (λ y, comp x y = true) Q2 →
  List.filter (equivalent comp z) (Q1 ++ x :: Q2)
  = List.filter (equivalent comp z) ((Q1 ++ Q2) ++ [x]).
Proof.
  intros Hall. rewrite !List.filter_app. cbn [List.filter].
  destruct (equivalent comp z x) eqn:Ezx.
  - rewrite (filter_none _ Q2); [by rewrite app_nil_r|].
    eapply Forall_impl; [exact Hall|]. intros y Hy. cbv beta in Hy.
    unfold equivalent in *.
    apply andb_true_iff in Ezx as [Hzx Hxz].
    apply negb_true_iff in Hzx, Hxz.
    destruct (comp_negtrans x z y Hy) as [?|Hzy]; [congruence|].
    by rewrite Hzy.
  - by rewrite app_nil_r.
Qed.

(** One pass of the outer loop of [insertionsort]. *)
Lemma insertion_step pre post P x U :
  StronglySorted (not_less comp) P →
  ∃ P', swap_down comp (S (length P)) (length pre) (length P)
          (pre ++ (P ++ x :: U) ++ post)
        = Ret ((), pre ++ (P' ++ U) ++ post) ∧
        length P' = S (length P) ∧ P' ≡ₚ P ++ [x] ∧
        StronglySorted (not_less comp) P' ∧
        ∀ z, List.filter (equivalent comp z) P'
             = List.filter (equivalent comp z) (P ++ [x]).
Proof.
  intros Hsorted.
  destruct (swap_down_prefix pre post x P U (S (length P)))
    as (Q1 & Q2 & E & HP & Hall & Hlast); [lia|].
  exists (Q1 ++ x :: Q2). split; [by rewrite E, <- (app_assoc Q1 (x :: Q2) U)|].
  subst P. rewrite !length_app. cbn [length]. split; [lia|].
  split; [by rewrite <- (Permutation_middle Q1 Q2 x), (Permutation_app_comm (Q1 ++ Q2) [x])|].
  split; [by apply (insertion_point_sorted comp comp_asym comp_negtrans)|].
  intros z. by apply insertion_point_stable.
Qed.

Lemma insertion_pass pre post (U : list T) : ∀ P,
  StronglySorted (not_less comp) P →
  ∃ l', for_each (seq (length P) (length U)) (λ i,
          swap_down comp (S i) (length pre) i) (pre ++ (P ++ U) ++ post)
        = Ret ((), pre ++ l' ++ post) ∧
        l' ≡ₚ P ++ U ∧ StronglySorted (not_less comp) l' ∧
        ∀ z, List.filter (equivalent comp z) l'
             = List.filter (equivalent comp z) (P ++ U).
Proof.
  induction U as [|x U IH]; intros P HP.
  { exists P. rewrite app_nil_r. by repeat split. }
  cbn [length seq for_each].
  destruct (insertion_step pre post P x U HP) as (P' & E & Hlen & Hperm & HP' & Hst).
  rewrite (bind_Ret _ _ _ _ _ E). rewrite <- Hlen.
  destruct (IH P' HP') as (l' & E' & Hperm' & Hl' & Hst').
  exists l'. split; [done|]. split; [|split; [done|]].
  - rewrite Hperm', Hperm. by rewrite <- app_assoc.
  - intros z. rewrite Hst', !List.filter_app, Hst, List.filter_app.
    rewrite <- app_assoc. cbn [List.filter]. by destruct (equivalent comp z x).
Qed.

Lemma insertionsort_block pre l post :
  ∃ l', insertionsort comp (length pre) (length pre + length l) (pre ++ l ++ post)
        = Ret ((), pre ++ l' ++ post) ∧
        l' ≡ₚ l ∧ StronglySorted (not_less comp) l' ∧
        ∀ z, List.filter (equivalent comp z) l' = List.filter (equivalent comp z) l.
Proof.
  unfold insertionsort.
  replace (length pre + length l - length pre) with (length l) by lia.
  destruct l as [|x0 U].
  { exists []. split; [done|]. split; [done|]. split; [constructor|done]. }
  destruct (insertion_pass pre post U [x0]) as (l' & E & Hperm & Hl' & Hst).
  { by repeat constructor. }
  cbn [length]. replace (S (length U) - 1) with (length U) by lia.
  by exists l'.
Qed.

End order.
End insertionsort_facts.

Section sorting_theorems.
Local Open Scope nat_scope.
Context {T : Type} (comp : T → T → bool).
Implicit Types (arr l pre post : list T) (x : T).

(** What a sort does on every block it does on the range between two
    offsets of a list. *)
Lemma on_range (m : nat → nat → M (list T) ()) (Q : list T → list T → Prop) :
  (∀ pre l post,
     ∃ l', m (length pre) (length pre + length l) (pre ++ l ++ post)
           = Ret ((), pre ++ l' ++ post) ∧ Q l l') →
  ∀ arr first last, first ≤ last → last ≤ length arr →
  ∃ l', m first last arr = Ret ((), take first arr ++ l' ++ drop last arr) ∧
        Q (sub_range arr first last) l'.
Proof.
  intros H arr first last Hfl Hlast.
  destruct (H (take first arr) (sub_range arr first last) (drop last arr))
    as (l' & E & HQ).
  exists l'. split; [|done].
  rewrite <- sub_range_split in E by done.
  rewrite length_take, sub_range_length in E by lia.
  replace (first `min` length arr) with first in E by lia.
  by replace (first + (last - first)) with last in E by lia.
Qed.

Lemma shellsort_block_permuted pre l post :
  ∃ l', shellsort comp (length pre) (length pre + length l) (pre ++ l ++ post)
        = Ret ((), pre ++ l' ++ post) ∧ l' ≡ₚ l.
Proof.
  unfold shellsort, curia_gap_sequence.
  replace (length pre + length l - length pre) with (length l) by lia.
  destruct (gap_passes_block comp pre post [23; 10; 4; 1] (length l) l)
    as (l' & E & _ & Hperm); [repeat constructor; lia | done |].
  by exists l'.
Qed.

(** X21.  The [shellsort] of [blocksort.hpp], with any comparison at all,
    returns: it reads and writes inside its range only, and leaves there a
    permutation of what was there. *)
Theorem shellsort_permutes_its_range arr first last :
  first ≤ last → last ≤ length arr →
  ∃ l', shellsort comp first last arr
        = Ret ((), take first arr ++ l' ++ drop last arr) ∧
        l' ≡ₚ sub_range arr first last.
Proof.
  intros Hfl Hlast.
  destruct (on_range (shellsort comp) (λ l l', l' ≡ₚ l) shellsort_block_permuted
              arr first last Hfl Hlast) as (l' & E & Hperm).
  by exists l'.
Qed.

(** X25.  For a range of fewer than 2^26 elements, where the scaled offsets
    are exact, the blocks of the first loop of [blocksort] tile the range:
    with [rl_pow2] the power of two that the bit trick gives, offset 0
    scales to the start, offset [rl_pow2] to the end, and each block from
    [b] to [b + 16], up to [rl_pow2], holds at least 16 and at most 32
    elements. *)
Theorem blocks_tile_the_range n b :
  let rl_pow2 := N.to_nat (prev_pow2 (N.of_nat n)) in
  0 < n → (N.of_nat n < 2 ^ 26)%N → b + 16 ≤ rl_pow2 →
  scaled n rl_pow2 0 = 0 ∧ scaled n rl_pow2 rl_pow2 = n ∧
  scaled n rl_pow2 b + 16 ≤ scaled n rl_pow2 (b + 16) ∧
  scaled n rl_pow2 (b + 16) ≤ scaled n rl_pow2 b + 32.
Proof.
  intros P Hpos Hmax Hb.
  assert (HP : P ≤ n ∧ n < 2 * P).
  { unfold P. rewrite prev_pow2_log2 by lia.
    destruct (N.log2_spec (N.of_nat n)) as [Hle Hlt]; [lia|].
    rewrite N.pow_succ_r' in Hlt. lia. }
  destruct HP as [HPn HnP].
  split; [apply scaled_0|]. split; [apply scaled_all; lia|].
  split; [apply scaled_grows; lia|].
  unfold scaled. rewrite <- (Nat.div_add (b * n) 32 P) by lia.
  apply Nat.Div0.div_le_mono. nia.
Qed.

(** X24.  The bit trick of [blocksort] gives, for a length that is not 0
    and fits 64 bits, the power of two [2 ^ k] with
    [2 ^ k <= rangelen < 2 ^ (k + 1)]. *)
Theorem prev_pow2_is_the_power_of_two_below (n : N) :
  (0 < n)%N → (n < 2 ^ 64)%N →
  ∃ k, prev_pow2 n = (2 ^ k)%N ∧ (2 ^ k ≤ n)%N ∧ (n < 2 ^ (k + 1))%N.
Proof.
  intros Hpos Hmax. exists (N.log2 n).
  split; [by apply prev_pow2_log2|].
  rewrite N.add_1_r. by apply N.log2_spec.
Qed.

Lemma shellsort_hpp_block
    (comp_asym : ∀ x y, comp x y = true → comp y x = false)
    (comp_negtrans : ∀ x y z, comp x z = true → comp x y = true ∨ comp y z = true)
    seq pre l post :
  ∃ l', shellsort_hpp.shellsort comp (length pre) (length pre + length l) seq
          (pre ++ l ++ post)
        = Ret ((), pre ++ l' ++ post) ∧
        l' ≡ₚ l ∧ StronglySorted (not_less comp) l'.
Proof.
  unfold shellsort_hpp.shellsort. cbv zeta.
  replace (length pre + length l - length pre) with (length l) by lia.
  destruct seq.
  - apply (gap_sequence_sorts comp comp_asym comp_negtrans pre l post
             [701; 301; 132; 57; 23; 10; 4]).
    repeat constructor; lia.
  - apply (gap_sequence_sorts comp comp_asym comp_negtrans pre l post
             [1182; 525; 233; 103; 46; 20; 9; 4]).
    repeat constructor; lia.
  - apply (gap_sequence_sorts comp comp_asym comp_negtrans pre l post
             [1073; 281; 77; 23; 8]).
    repeat constructor; lia.
Qed.

Section order.
Hypothesis comp_asym : ∀ x y, comp x y = true → comp y x = false.
Hypothesis comp_negtrans : ∀ x y z, comp x z = true → comp x y = true ∨ comp y z = true.

(** X22.  For a strict weak order the [shellsort] of [blocksort.hpp] sorts
    its range, whatever the length: the range holds a permutation of what
    it held, no element of it is less than one before it, and the rest of
    the list is as it was. *)
Theorem shellsort_sorts_its_range arr first last :
  first ≤ last → last ≤ length arr →
  ∃ l', shellsort comp first last arr
        = Ret ((), take first arr ++ l' ++ drop last arr) ∧
        l' ≡ₚ sub_range arr first last ∧ StronglySorted (not_less comp) l'.
Proof.
  intros Hfl Hlast.
  destruct (on_range (shellsort comp)
              (λ l l', l' ≡ₚ l ∧ StronglySorted (not_less comp) l')
              (shellsort_block comp comp_asym comp_negtrans)
              arr first last Hfl Hlast) as (l' & E & Hperm & Hsorted).
  by exists l'.
Qed.

(** X23.  For a strict weak order [blocksort] sorts a range of 16 elements
    or more (and fewer than 2^26, where the scaled offsets are exact): it
    returns, and the list is a permutation of the input in which no
    element is less than one before it. *)
Theorem blocksort_sorts arr :
  16 ≤ length arr → (N.of_nat (length arr) < 2 ^ 26)%N →
  ∃ arr', blocksort comp arr = Ret ((), arr') ∧
          arr' ≡ₚ arr ∧ StronglySorted (not_less comp) arr'.
Proof.
  intros Hmin Hmax.
  destruct (blocksort_sorts_helper comp comp_asym comp_negtrans arr Hmin Hmax)
    as (arr' & E & Hperm & Hsorted).
  by exists arr'.
Qed.

(** X26.  For a strict weak order the [shellsort] of [shellsort.hpp] sorts
    its range with each of the three gap sequences. *)
Theorem shellsort_sorts_with_every_sequence arr first last seq :
  first ≤ last → last ≤ length arr →
  ∃ l', shellsort_hpp.shellsort comp first last seq arr
        = Ret ((), take first arr ++ l' ++ drop last arr) ∧
        l' ≡ₚ sub_range arr first last ∧ StronglySorted (not_less comp) l'.
Proof.
  intros Hfl Hlast.
  destruct (on_range (λ first last, shellsort_hpp.shellsort comp first last seq)
              (λ l l', l' ≡ₚ l ∧ StronglySorted (not_less comp) l')
              (shellsort_hpp_block comp_asym comp_negtrans seq)
              arr first last Hfl Hlast) as (l' & E & Hperm & Hsorted).
  by exists l'.
Qed.

(** X27.  For a strict weak order [insertionsort] sorts its range: the
    range holds a permutation of what it held, no element of it is less
    than one before it, and the rest of the list is as it was. *)
Theorem insertionsort_sorts_its_range arr first last :
  first ≤ last → last ≤ length arr →
  ∃ l', insertionsort comp first last arr
        = Ret ((), take first arr ++ l' ++ drop last arr) ∧
        l' ≡ₚ sub_range arr first last ∧ StronglySorted (not_less comp) l'.
Proof.
  intros Hfl Hlast.
  destruct (on_range (insertionsort comp)
              (λ l l', l' ≡ₚ l ∧ StronglySorted (not_less comp) l' ∧
                 ∀ z, List.filter (equivalent comp z) l'
                      = List.filter (equivalent comp z) l)
              (insertionsort_block comp comp_asym comp_negtrans)
              arr first last Hfl Hlast) as (l' & E & Hperm & Hsorted & _).
  by exists l'.
Qed.

(** X28.  [insertionsort] is stable: the elements of the range that are
    equivalent to a given one, neither less than the other, stand after
    the sort in the order in which they stood before. *)
Theorem insertionsort_is_stable arr first last :
  first ≤ last → last ≤ length arr →
  ∃ l', insertionsort comp first last arr
        = Ret ((), take first arr ++ l' ++ drop last arr) ∧
        ∀ z, List.filter (equivalent comp z) l'
             = List.filter (equivalent comp z) (sub_range arr first last).
Proof.
  intros Hfl Hlast.
  destruct (on_range (insertionsort comp)
              (λ l l', l' ≡ₚ l ∧ StronglySorted (not_less comp) l' ∧
                 ∀ z, List.filter (equivalent comp z) l'
                      = List.filter (equivalent comp z) l)
              (insertionsort_block comp comp_asym comp_negtrans)
              arr first last Hfl Hlast) as (l' & E & _ & _ & Hstable).
  by exists l'.
Qed.

End order.
End sorting_theorems.

Section erase_find_facts.
Context {K : Type} (key_comp : K → K → bool).
Implicit Types (h : gmap addr (@node K)) (t : bstree) (s : @shape K)
  (nd an : @node K).

Lemma shape_remove_height a s : (height (shape_remove a s) ≤ height s)%nat.
Proof.
  induction s as [|l IHl b x r IHr]; [done|]. cbn [shape_remove].
  destruct (decide (a = b)) as [->|Hne].
  - destruct l; cbn [height]; lia.
  - cbn [height]. lia.
Qed.

Section order.
Hypothesis comp_asym : ∀ x y, key_comp x y = true → key_comp y x = false.
Hypothesis comp_negtrans :
  ∀ x y z, key_comp x z = true → key_comp x y = true ∨ key_comp y z = true.

Lemma comp_trans x y z :
  key_comp x y = true → key_comp y z = true → key_comp x z = true.
Proof.
  intros Hxy Hyz. destruct (comp_negtrans x z y Hxy) as [?|Hzy]; [done|].
  apply comp_asym in Hzy. congruence.
Qed.

(** In a strictly sorted sequence no other key is equivalent to a key that
    is equivalent to one of them. *)
Lemma sorted_no_other_equivalent (k1 k2 : list K) v key y :
  StronglySorted (λ x y, key_comp x y = true) (k1 ++ v :: k2) →
  equiv_key key_comp key v → y ∈ k1 ++ k2 → ¬ equiv_key key_comp key y.
Proof.
  intros Hsorted [Hkv Hvk] Hy [Hky Hyk].
  apply StronglySorted_app in Hsorted as (Hcross & _ & Hs2).
  apply StronglySorted_inv in Hs2 as [_ Hall]. rewrite Forall_forall in Hall.
  apply elem_of_app in Hy as [Hy|Hy].
  - assert (Hyv : key_comp y v = true) by (apply Hcross; [done|apply list_elem_of_here]).
    destruct (comp_negtrans y key v Hyv); congruence.
  - assert (Hvy : key_comp v y = true) by (by apply Hall).
    destruct (comp_negtrans v key y Hvy); congruence.
Qed.

(** X30.  After [erase (key)] has taken out the node of [key], the key is
    gone: [find (key)] returns [end ()] and [count (key)] returns 0. *)
Theorem erase_then_find h t s key a an fuel :
  sound key_comp h t s → shape_find key_comp key s = Some a →
  h !! a = Some an →
  left an = None ∨ right an = None →
  ¬ (left an = None ∧ right an = None ∧ _tree_root t = Some a) →
  _tree_size t < 2 ^ 64 → (2 * height s ≤ fuel)%nat →
  ∃ t' h',
    erase_key key_comp fuel key t h = Ret ((t', 1), h') ∧
    find_impl key_comp fuel key t' h' = Ret (end_ t', h') ∧
    count key_comp fuel key t' h' = Ret (0, h').
Proof.
  intros Hs Hfind Han Hone Hnot Hmax Hf.
  destruct (erase_key_sound key_comp h t s key a an fuel Hs Hfind Han Hone Hnot Hmax Hf)
    as (t' & h' & E & Hs' & _ & Heq & _).
  exists t', h'. split; [done|].
  pose proof Hs as (Hlk & Hnd & Hbst & _).
  assert (Ha : a ∈ addrs s).
  { clear -Hfind. induction s as [|l IHl b x r IHr]; [done|].
    cbn [shape_find addrs] in *. rewrite elem_of_cons, elem_of_app.
    destruct (key_comp key x); [by right; left; apply IHl|].
    destruct (key_comp x key); [by right; right; apply IHr|].
    injection Hfind as <-. by left. }
  destruct (shape_remove_keys_split s h _ None a an Hlk Hnd Ha Han Hone)
    as (k1 & k2 & Hk & Hk').
  pose proof (bst_sorted key_comp s comp_trans Hbst) as Hsorted. rewrite Hk in Hsorted.
  assert (Hno : ∀ x, x ∈ keys (shape_remove a s) → ¬ equiv_key key_comp key x).
  { intros x Hx. rewrite Hk' in Hx.
    by apply (sorted_no_other_equivalent k1 k2 (value an)). }
  assert (Hfuel : (height (shape_remove a s) ≤ fuel)%nat).
  { pose proof (shape_remove_height a s). lia. }
  pose proof (sound_well_formed key_comp h' t' _ Hs') as (Hrep & Hbst' & Hsize).
  unfold find_impl, count, empty, end_.
  destruct (shape_Leaf_dec (shape_remove a s)) as [El|Hne].
  { rewrite El in *. by rewrite !bool_decide_eq_true_2 by done. }
  rewrite !bool_decide_eq_false_2
    by (rewrite Hsize; destruct (shape_remove a s); [done | simpl; lia]).
  destruct (rep_root _ _ _ Hrep Hne) as [c Hc]. rewrite Hc in Hrep |- *.
  rewrite !(bind_Ret _ _ _ _ _
              (find_loop_shape key_comp (shape_remove a s) fuel c key h' Hrep Hfuel)).
  by rewrite (shape_find_None key_comp (shape_remove a s) key Hno).
Qed.

End order.
End erase_find_facts.

Section short_ranges.
Local Open Scope nat_scope.
Context {T : Type} (comp : T → T → bool).

(** The cases of a list by its length, up to [n]. *)
Ltac by_length n arr :=
  match n with
  | O => idtac
  | S ?m => destruct arr as [|? arr]; [|by_length m arr]
  end.

(** X29.  [blocksort] on a range of 1 to 15 elements, with any comparison
    at all, does not return: the first block is scaled to 16 elements or
    more, and its [shellsort] reads at or past the end of the range. *)
Theorem blocksort_of_a_short_range_reads_past_its_end (arr : list T) :
  0 < length arr → length arr < 16 →
  ∃ i, blocksort comp arr = Crash (OutOfBounds i) ∧ length arr ≤ i.
Proof.
  intros Hpos Hlt. by_length 16 arr.
  all: try (exfalso; simpl in Hpos, Hlt; lia).
  all: clear Hpos Hlt; vm_compute.
  all: try (eexists; split; [reflexivity|lia]).
  all: match goal with |- context [comp ?a ?b] => destruct (comp a b) end.
  all: eexists; split; [reflexivity|lia].
Qed.

End short_ranges.

Section witnesses.

Lemma insert_existing_key_witness :
  ∃ a nd, insert Z.ltb 2 3 tree538 heap538
            = Ret ((tree538, (Iterator (Some a) valid, false)), heap538) ∧
          heap538 !! a = Some nd ∧ equiv_key Z.ltb 3 (value nd).
Proof.
  apply (insert_existing_key Z.ltb) with (s := shape538).
  - intros x y z Hxy Hyz. apply Z.ltb_lt. apply Z.ltb_lt in Hxy, Hyz. lia.
  - split; [|split; [|reflexivity]].
    + simpl. split; [reflexivity|]. eexists. split; [reflexivity|].
      split; [reflexivity|]. split.
      * split; [reflexivity|]. eexists. by repeat split.
      * split; [reflexivity|]. eexists. by repeat split.
    + simpl. repeat split; by repeat constructor.
  - exists 3. split; [|by split]. simpl. apply list_elem_of_here.
  - simpl. lia.
Defined.

Lemma hinted_insert_reads_hint_first_witness :
  ∃ t' h', clear 20 tree538 heap538 = Ret (t', h') ∧
           _iter (begin t') = None ∧ _iter (end_ t') = None.
Proof.
  destruct (hinted_insert_reads_hint_first Z.ltb) as (_ & _ & Hclear & _).
  eexists _, _. split; [vm_compute; reflexivity|].
  eapply (Hclear 20%nat tree538 heap538). vm_compute. reflexivity.
Defined.

Lemma moved_from_is_empty_witness :
  (∃ this' other' h',
     move_assign true 20 tree76 tree538 heap_two = Ret ((this', other'), h') ∧
     size other' = 0 ∧ empty other' = true ∧
     iter_eq (begin other') (end_ other') = true) ∧
  (∃ this' other' h',
     move_assign false 20 tree76 tree538 heap_two = Ret ((this', other'), h') ∧
     size other' = 0 ∧ empty other' = true ∧
     iter_eq (begin other') (end_ other') = true) ∧
  (∃ this' other' h',
     move_assign false 20 (bstree_new 0) tree538 heap538 = Ret ((this', other'), h') ∧
     size other' = 0 ∧ empty other' = true ∧
     iter_eq (begin other') (end_ other') = true) ∧
  (∃ this' h',
     move_assign_self 20 tree538 heap538 = Ret (this', h') ∧
     size this' = 0 ∧ empty this' = true ∧
     iter_eq (begin this') (end_ this') = true) ∧
  returns (move_assign false 5 tree76 tree538 heap_two) ∧
  returns (move_assign_self 5 tree538 heap538).
Proof.
  destruct (moved_from_is_empty (K:=Z)) as (_ & Hassign & Hself & Hret & Hretself).
  assert (H76 : linked heap_two (_tree_root tree76) None shape76).
  { split; [reflexivity|]. eexists. split; [vm_compute; reflexivity|].
    split; [reflexivity|]. split; [reflexivity|]. split; [|reflexivity].
    split; [reflexivity|]. eexists. split; [vm_compute; reflexivity|].
    by repeat split. }
  assert (H538 : ∀ h : gmap addr (@node Z),
            h !! 1%positive = heap538 !! 1%positive →
            h !! 2%positive = heap538 !! 2%positive →
            h !! 3%positive = heap538 !! 3%positive →
            linked h (_tree_root tree538) None shape538).
  { intros h H1 H2 H3. split; [reflexivity|]. eexists.
    split; [rewrite H1; vm_compute; reflexivity|].
    split; [reflexivity|]. split; [reflexivity|]. split.
    - split; [reflexivity|]. eexists.
      split; [rewrite H2; vm_compute; reflexivity|]. by repeat split.
    - split; [reflexivity|]. eexists.
      split; [rewrite H3; vm_compute; reflexivity|]. by repeat split. }
  split; [|split; [|split; [|split; [|split]]]].
  - eexists _, _, _. split; [vm_compute; reflexivity|].
    edestruct (Hassign true 20%nat tree76 tree538 heap_two) as (? & ? & _ & _ & ? & _);
      [vm_compute; reflexivity | done].
  - eexists _, _, _. split; [vm_compute; reflexivity|].
    edestruct (Hassign false 20%nat tree76 tree538 heap_two) as (? & ? & _ & _ & ? & _);
      [vm_compute; reflexivity | done].
  - eexists _, _, _. split; [vm_compute; reflexivity|].
    edestruct (Hassign false 20%nat (bstree_new 0) tree538 heap538)
      as (? & ? & _ & _ & ? & _); [vm_compute; reflexivity | done].
  - eexists _, _. split; [vm_compute; reflexivity|].
    edestruct (Hself 20%nat tree538 heap538) as (? & ? & _ & _ & ? & _);
      [vm_compute; reflexivity | done].
  - apply (Hret false 5%nat tree76 tree538 heap_two shape76 shape538).
    + reflexivity.
    + reflexivity.
    + exact H76.
    + by apply H538.
    + apply (bool_decide_unpack _). by vm_compute.
    + reflexivity.
    + vm_compute. lia.
    + vm_compute. lia.
  - apply (Hretself 5%nat tree538 heap538 shape538).
    + reflexivity.
    + by apply H538.
    + apply (bool_decide_unpack _). by vm_compute.
    + vm_compute. lia.
Defined.

End witnesses.

(** Instances on the trees of the scenarios. *)
Section instances.

Lemma Zltb_trans x y z : (x <? y) = true → (y <? z) = true → (x <? z) = true.
Proof. rewrite !Z.ltb_lt. lia. Qed.

Lemma Zltb_irrefl x : (x <? x) = false.
Proof. apply Z.ltb_irrefl. Qed.

(** The tree of 5, 3, 8 is sound, also next to the tree of 7, 6. *)
Lemma linked538 (h : gmap addr (@node Z)) :
  h !! 1%positive = heap538 !! 1%positive →
  h !! 2%positive = heap538 !! 2%positive →
  h !! 3%positive = heap538 !! 3%positive →
  linked h (_tree_root tree538) None shape538.
Proof.
  intros H1 H2 H3. split; [reflexivity|]. eexists.
  split; [rewrite H1; vm_compute; reflexivity|].
  split; [reflexivity|]. split; [reflexivity|]. split.
  - split; [reflexivity|]. eexists.
    split; [rewrite H2; vm_compute; reflexivity|]. by repeat split.
  - split; [reflexivity|]. eexists.
    split; [rewrite H3; vm_compute; reflexivity|]. by repeat split.
Qed.

Lemma sound538_in (h : gmap addr (@node Z)) :
  h !! 1%positive = heap538 !! 1%positive →
  h !! 2%positive = heap538 !! 2%positive →
  h !! 3%positive = heap538 !! 3%positive →
  sound Z.ltb h tree538 shape538.
Proof.
  intros H1 H2 H3. split; [by apply linked538|].
  split; [apply (bool_decide_unpack _); by vm_compute|].
  split; [|reflexivity]. simpl. repeat split; by repeat constructor.
Qed.

Lemma sound538 : sound Z.ltb heap538 tree538 shape538.
Proof. by apply sound538_in. Qed.

Lemma sound76 : sound Z.ltb heap_two tree76 shape76.
Proof.
  split; [|split; [apply (bool_decide_unpack _); by vm_compute|]].
  - split; [reflexivity|]. eexists. split; [vm_compute; reflexivity|].
    split; [reflexivity|]. split; [reflexivity|]. split; [|reflexivity].
    split; [reflexivity|]. eexists. split; [vm_compute; reflexivity|].
    by repeat split.
  - split; [|reflexivity]. simpl. repeat split; by repeat constructor.
Qed.

Lemma increment_is_inorder_successor_witness :
  incr 3 (iterator_of (Some 2%positive)) heap538
  = Ret (iterator_of (Some 1%positive), heap538).
Proof.
  apply (increment_is_inorder_successor heap538 (Some 1%positive) shape538
           [] 2%positive [1%positive; 3%positive] 3).
  - by apply linked538.
  - apply (bool_decide_unpack _). by vm_compute.
  - reflexivity.
  - simpl. lia.
Defined.

Lemma traversal_visits_keys_in_order_witness :
  visit 7 (iterator_of (Some 2%positive)) (Iterator (Some 3%positive) after_end) heap538
  = Ret ([3; 5; 8], heap538).
Proof.
  apply (traversal_visits_keys_in_order heap538 (Some 1%positive) shape538).
  - by apply linked538.
  - apply (bool_decide_unpack _). by vm_compute.
  - reflexivity.
  - reflexivity.
  - simpl. lia.
Defined.

Lemma decrement_is_inorder_predecessor_witness :
  decr 2 (iterator_of (Some 1%positive)) heap538
  = Ret (iterator_of (Some 2%positive), heap538).
Proof.
  apply (decrement_is_inorder_predecessor heap538 (Some 1%positive) shape538
           [] 2%positive 1%positive [3%positive]
           (Node 5 (Some 2%positive) (Some 3%positive) None)).
  - by apply linked538.
  - apply (bool_decide_unpack _). by vm_compute.
  - reflexivity.
  - reflexivity.
  - by left.
  - simpl. lia.
Defined.

Lemma find_and_count_of_present_key_witness :
  ∃ a nd, find_impl Z.ltb 2 8 tree538 heap538 = Ret (iterator_of (Some a), heap538) ∧
          heap538 !! a = Some nd ∧ equiv_key Z.ltb 8 (value nd) ∧
          count Z.ltb 2 8 tree538 heap538 = Ret (1, heap538).
Proof.
  apply (find_and_count_of_present_key Z.ltb) with (s := shape538).
  - exact Zltb_trans.
  - apply sound_well_formed, sound538.
  - exists 8. split; [|by split]. simpl. do 2 (apply elem_of_cons; right).
    apply list_elem_of_here.
  - simpl. lia.
Defined.

Lemma find_and_count_of_absent_key_witness :
  find_impl Z.ltb 2 4 tree538 heap538 = Ret (end_ tree538, heap538) ∧
  count Z.ltb 2 4 tree538 heap538 = Ret (0, heap538).
Proof.
  apply (find_and_count_of_absent_key Z.ltb) with (s := shape538).
  - apply sound_well_formed, sound538.
  - intros x Hx [H1 H2]. apply Z.ltb_ge in H1, H2.
    assert (x = 4) as -> by lia. simpl in Hx.
    repeat (apply elem_of_cons in Hx as [Hx|Hx]; [discriminate|]).
    by apply elem_of_nil in Hx.
  - simpl. lia.
Defined.

Lemma erase_of_absent_key_witness :
  erase_key Z.ltb 2 4 tree538 heap538 = Ret ((tree538, 0), heap538).
Proof.
  apply (erase_of_absent_key Z.ltb) with (s := shape538).
  - apply sound_well_formed, sound538.
  - done.
  - intros x Hx [H1 H2]. apply Z.ltb_ge in H1, H2.
    assert (x = 4) as -> by lia. simpl in Hx.
    repeat (apply elem_of_cons in Hx as [Hx|Hx]; [discriminate|]).
    by apply elem_of_nil in Hx.
  - simpl. lia.
Defined.

Lemma insert_then_find_witness :
  ∃ t' a inserted h' s' nd,
    insert Z.ltb 3 4 tree538 heap538
    = Ret ((t', (iterator_of (Some a), inserted)), h') ∧
    sound Z.ltb h' t' s' ∧
    size t' = size tree538 + (if inserted then 1 else 0) ∧
    h' !! a = Some nd ∧ equiv_key Z.ltb 4 (value nd) ∧
    find_impl Z.ltb 3 4 t' h' = Ret (iterator_of (Some a), h') ∧
    count Z.ltb 3 4 t' h' = Ret (1, h').
Proof.
  apply (insert_then_find Z.ltb heap538 tree538 shape538 4 3).
  - exact sound538.
  - reflexivity.
  - simpl. lia.
  - simpl. lia.
Defined.

Lemma emplace_is_insert_witness :
  emplace Z.ltb 3 4 tree538 heap538 = insert Z.ltb 3 4 tree538 heap538.
Proof.
  apply (emplace_is_insert Z.ltb heap538 tree538 shape538).
  apply (linked_rep shape538 heap538 _ None). by apply linked538.
Defined.

Lemma copy_construct_copies_witness :
  ∃ t' h' s',
    copy_construct 5 7 tree538 heap538 = Ret (t', h') ∧
    sound Z.ltb h' t' s' ∧ keys s' = keys shape538 ∧ size t' = size tree538 ∧
    (∀ b, b ∉ addrs s' → h' !! b = heap538 !! b) ∧
    (∀ b, b ∈ addrs s' → heap538 !! b = None) ∧
    _iter (begin t') = inorder s' !! 0%nat ∧
    _iter (end_ t') = last (inorder s') ∧
    (shape538 ≠ Leaf → _state (begin t') = after_end ∧ _state (end_ t') = after_end).
Proof.
  apply (copy_construct_copies Z.ltb heap538 tree538 shape538 7 5).
  - exact sound538.
  - vm_compute. lia.
Defined.

Lemma clear_deallocates_the_tree_witness :
  ∃ t' h',
    clear 5 tree538 heap538 = Ret (t', h') ∧
    size t' = 0 ∧ empty t' = true ∧ _tree_root t' = None ∧
    begin t' = iterator_default ∧ end_ t' = iterator_default ∧
    dom h' = dom heap538 ∖ list_to_set (addrs shape538) ∧
    (∀ b, b ∉ addrs shape538 → h' !! b = heap538 !! b).
Proof.
  apply (clear_deallocates_the_tree heap538 tree538 shape538 5).
  - reflexivity.
  - by apply linked538.
  - apply (bool_decide_unpack _). by vm_compute.
  - vm_compute. lia.
Defined.

Lemma disjoint76_538 : ∀ b, b ∈ addrs shape76 → b ∉ addrs shape538.
Proof.
  intros b Hb Hb'. simpl in Hb, Hb'.
  repeat (apply elem_of_cons in Hb as [->|Hb];
          [repeat (apply elem_of_cons in Hb' as [Hb'|Hb']; [discriminate|]);
           by apply elem_of_nil in Hb'|]).
  by apply elem_of_nil in Hb.
Qed.

Lemma copy_assign_copies_witness :
  ∃ this' h' s',
    copy_assign false 5 tree76 tree538 heap_two = Ret (this', h') ∧
    sound Z.ltb h' this' s' ∧ keys s' = keys shape538 ∧ size this' = size tree538 ∧
    (∀ b, b ∈ addrs shape538 → h' !! b = heap_two !! b ∧ b ∉ addrs s') ∧
    (∀ b, b ∉ addrs s' → b ∈ addrs shape76 → h' !! b = None) ∧
    (∀ b, b ∉ addrs s' → b ∉ addrs shape76 → h' !! b = heap_two !! b).
Proof.
  apply (copy_assign_copies Z.ltb false heap_two tree76 tree538 shape76 shape538 5).
  - reflexivity.
  - exact sound76.
  - by apply sound538_in.
  - exact disjoint76_538.
  - vm_compute. lia.
  - vm_compute. lia.
Defined.

Lemma inserts_build_a_search_tree_witness :
  ∃ t h s,
    insert_range Z.ltb 3 [5; 3; 8] (bstree_new 0) ∅ = Ret (t, h) ∧
    sound Z.ltb h t s ∧
    StronglySorted (λ x y, (x <? y) = true) (keys s) ∧
    (∀ x, x ∈ keys s → x ∈ [5; 3; 8]) ∧
    (∀ v, v ∈ [5; 3; 8] → ∃ x, x ∈ keys s ∧ equiv_key Z.ltb v x).
Proof.
  apply (inserts_build_a_search_tree Z.ltb 0 [5; 3; 8] 3).
  - exact Zltb_trans.
  - exact Zltb_irrefl.
  - simpl. lia.
  - simpl. lia.
Defined.

Lemma inserts_never_move_end_witness :
  ∃ t h a nd,
    insert_range Z.ltb 2 [1; 2] (bstree_new 0) ∅ = Ret (t, h) ∧
    _tree_root t = Some a ∧ h !! a = Some nd ∧ value nd = 1 ∧
    end_ t = Iterator (Some a) after_end.
Proof.
  apply (inserts_never_move_end Z.ltb 0 1 [2] 2).
  - simpl. lia.
  - simpl. lia.
Defined.

Lemma assign_list_rebuilds_witness :
  ∃ t' h' s',
    assign_list Z.ltb 5 [2; 1] tree538 heap538 = Ret (t', h') ∧
    sound Z.ltb h' t' s' ∧
    (∀ x, x ∈ keys s' → x ∈ [2; 1]) ∧
    (∀ v, v ∈ [2; 1] → ∃ x, x ∈ keys s' ∧ equiv_key Z.ltb v x) ∧
    (∀ b, b ∉ addrs s' → b ∈ addrs shape538 → h' !! b = None) ∧
    (∀ b, b ∉ addrs s' → b ∉ addrs shape538 → h' !! b = heap538 !! b).
Proof.
  apply (assign_list_rebuilds Z.ltb heap538 tree538 shape538 [2; 1] 5).
  - exact Zltb_irrefl.
  - reflexivity.
  - exact sound538.
  - simpl. lia.
  - vm_compute. lia.
  - simpl. lia.
Defined.

Lemma move_assign_moves_keys_witness :
  ∃ this' other' h' s',
    move_assign false 5 tree76 tree538 heap_two = Ret ((this', other'), h') ∧
    sound Z.ltb h' this' s' ∧ keys s' = keys shape538 ∧
    size this' = size tree538 ∧ size other' = 0 ∧
    (∀ b, b ∉ addrs s' → b ∈ addrs shape76 → h' !! b = None) ∧
    (∀ b, b ∉ addrs s' → b ∉ addrs shape76 → b ∉ addrs shape538 →
          h' !! b = heap_two !! b) ∧
    ((false = true ∨ _node_alloc tree76 = _node_alloc tree538) →
     s' = shape538 ∧ ∀ b, b ∈ addrs shape538 → h' !! b = heap_two !! b) ∧
    (false = false → _node_alloc tree76 ≠ _node_alloc tree538 →
     ∀ b, b ∈ addrs shape538 → h' !! b = None ∧ b ∉ addrs s').
Proof.
  apply (move_assign_moves_keys Z.ltb false heap_two tree76 tree538 shape76 shape538 5).
  - reflexivity.
  - reflexivity.
  - exact sound76.
  - by apply sound538_in.
  - exact disjoint76_538.
  - vm_compute. lia.
  - vm_compute. lia.
Defined.

Lemma bounds_above_the_root_witness :
  lower_bound Z.ltb 7 7 tree538 heap538 = Ret (iterator_of (Some 3%positive), heap538) ∧
  upper_bound Z.ltb 7 7 tree538 heap538
  = (if 7 <? 8 then Ret (iterator_of (Some 3%positive), heap538)
     else incr 7 (iterator_of (Some 3%positive)) heap538).
Proof.
  apply (bounds_above_the_root Z.ltb heap538 tree538 shape538 1%positive
           (Node 5 (Some 2%positive) (Some 3%positive) None) 7 [3; 5] 8 []).
  - exact Zltb_trans.
  - exact sound538.
  - reflexivity.
  - reflexivity.
  - reflexivity.
  - reflexivity.
  - reflexivity.
  - reflexivity.
  - by repeat constructor.
  - reflexivity.
  - reflexivity.
  - simpl. lia.
Defined.

Lemma equal_range_above_the_root_witness :
  equal_range Z.ltb 7 7 tree538 heap538
  = Ret ((iterator_of (Some 3%positive), Iterator (Some 3%positive) after_end), heap538).
Proof.
  apply (equal_range_above_the_root Z.ltb heap538 tree538 shape538 1%positive
           (Node 5 (Some 2%positive) (Some 3%positive) None) 7 [3; 5] 8 []).
  - exact Zltb_trans.
  - exact sound538.
  - reflexivity.
  - reflexivity.
  - reflexivity.
  - reflexivity.
  - reflexivity.
  - reflexivity.
  - by repeat constructor.
  - reflexivity.
  - reflexivity.
  - simpl. lia.
Defined.

Lemma erase_splices_node_witness :
  ∃ t' retval h' s' k1 k2,
    erase Z.ltb 3 (iterator_of (Some 3%positive)) tree538 heap538 = Ret ((t', retval), h') ∧
    incr 3 (iterator_of (Some 3%positive)) heap538 = Ret (retval, heap538) ∧
    sound Z.ltb h' t' s' ∧
    keys shape538 = k1 ++ 8 :: k2 ∧ keys s' = k1 ++ k2 ∧
    size t' = size tree538 - 1 ∧
    h' !! 3%positive = None ∧ (∀ b, b ∉ addrs shape538 → h' !! b = heap538 !! b).
Proof.
  apply (erase_splices_node Z.ltb heap538 tree538 shape538 3%positive
           (Node 8 None None (Some 1%positive)) 3).
  - exact sound538.
  - simpl. do 2 (apply elem_of_cons; right). apply list_elem_of_here.
  - reflexivity.
  - by left.
  - intros (_ & _ & ?). done.
  - simpl. lia.
  - simpl. lia.
Defined.

Lemma erase_of_present_key_witness :
  ∃ t' h',
    erase_key Z.ltb 4 8 tree538 heap538 = Ret ((t', 1), h') ∧
    sound Z.ltb h' t' (shape_remove 3%positive shape538) ∧
    size t' = size tree538 - 1 ∧
    equiv_key Z.ltb 8 8 ∧
    h' !! 3%positive = None ∧ (∀ b, b ∉ addrs shape538 → h' !! b = heap538 !! b).
Proof.
  apply (erase_of_present_key Z.ltb heap538 tree538 shape538 8 3%positive
           (Node 8 None None (Some 1%positive)) 4).
  - exact sound538.
  - reflexivity.
  - reflexivity.
  - by left.
  - intros (_ & _ & ?). done.
  - simpl. lia.
  - simpl. lia.
Defined.

Lemma erase_of_the_only_node_crashes_witness :
  ∃ f, erase Z.ltb 1 (Iterator (Some 1%positive) valid)
         (Tree 0 (Some 1%positive) 1
               (Iterator (Some 1%positive) valid) (Iterator (Some 1%positive) after_end)
               bound_tree_delete)
         (<[1%positive := Node 5 None None None]> ∅) = Crash f ∧
       (f = DanglingDeref 1%positive ∨ f = DoubleFree 1%positive).
Proof.
  apply (erase_of_the_only_node_crashes Z.ltb _
           (Tree 0 (Some 1%positive) 1
                 (Iterator (Some 1%positive) valid) (Iterator (Some 1%positive) after_end)
                 bound_tree_delete)
           1%positive (Node 5 None None None)).
  - reflexivity.
  - reflexivity.
  - reflexivity.
  - reflexivity.
  - reflexivity.
  - lia.
Defined.

Lemma Zltb_asym (x y : Z) : Z.ltb x y = true → Z.ltb y x = false.
Proof. intros H%Z.ltb_lt. apply Z.ltb_ge. lia. Qed.

Lemma Zltb_negtrans (x y z : Z) :
  Z.ltb x z = true → Z.ltb x y = true ∨ Z.ltb y z = true.
Proof.
  intros H%Z.ltb_lt. destruct (Z.ltb x y) eqn:E; [by left|].
  right. apply Z.ltb_ge in E. apply Z.ltb_lt. lia.
Qed.

Lemma shellsort_permutes_its_range_witness :
  ∃ l', shellsort Z.leb 1 5 [5; 3; 9; 1; 7; 0]
        = Ret ((), take 1 [5; 3; 9; 1; 7; 0] ++ l' ++ drop 5 [5; 3; 9; 1; 7; 0]) ∧
        l' ≡ₚ sub_range [5; 3; 9; 1; 7; 0] 1 5.
Proof.
  apply (shellsort_permutes_its_range Z.leb [5; 3; 9; 1; 7; 0] 1 5); simpl; lia.
Defined.

Lemma shellsort_sorts_its_range_witness :
  ∃ l', shellsort Z.ltb 1 5 [5; 3; 9; 1; 7; 0]
        = Ret ((), take 1 [5; 3; 9; 1; 7; 0] ++ l' ++ drop 5 [5; 3; 9; 1; 7; 0]) ∧
        l' ≡ₚ sub_range [5; 3; 9; 1; 7; 0] 1 5 ∧ StronglySorted (not_less Z.ltb) l'.
Proof.
  apply (shellsort_sorts_its_range Z.ltb Zltb_asym Zltb_negtrans
           [5; 3; 9; 1; 7; 0] 1 5); simpl; lia.
Defined.

Lemma blocksort_sorts_witness :
  ∃ arr', blocksort Z.ltb [16; 15; 14; 13; 12; 11; 10; 9; 8; 7; 6; 5; 4; 3; 2; 1; 0]
          = Ret ((), arr') ∧
          arr' ≡ₚ [16; 15; 14; 13; 12; 11; 10; 9; 8; 7; 6; 5; 4; 3; 2; 1; 0] ∧
          StronglySorted (not_less Z.ltb) arr'.
Proof.
  apply (blocksort_sorts Z.ltb Zltb_asym Zltb_negtrans
           [16; 15; 14; 13; 12; 11; 10; 9; 8; 7; 6; 5; 4; 3; 2; 1; 0]).
  - simpl. lia.
  - reflexivity.
Defined.

Lemma prev_pow2_is_the_power_of_two_below_witness :
  ∃ k, prev_pow2 20 = (2 ^ k)%N ∧ (2 ^ k ≤ 20)%N ∧ (20 < 2 ^ (k + 1))%N.
Proof.
  apply (prev_pow2_is_the_power_of_two_below 20); reflexivity.
Defined.

Lemma blocks_tile_the_range_witness :
  scaled 63 32 0 = 0%nat ∧ scaled 63 32 32 = 63%nat ∧
  (scaled 63 32 16 + 16 ≤ scaled 63 32 (16 + 16))%nat ∧
  (scaled 63 32 (16 + 16) ≤ scaled 63 32 16 + 32)%nat.
Proof.
  apply (blocks_tile_the_range 63 16).
  - lia.
  - reflexivity.
  - vm_compute. lia.
Defined.

Lemma shellsort_sorts_with_every_sequence_witness :
  ∃ l', shellsort_hpp.shellsort Z.ltb 1 5 shellsort_hpp.tokuda92 [5; 3; 9; 1; 7; 0]
        = Ret ((), take 1 [5; 3; 9; 1; 7; 0] ++ l' ++ drop 5 [5; 3; 9; 1; 7; 0]) ∧
        l' ≡ₚ sub_range [5; 3; 9; 1; 7; 0] 1 5 ∧ StronglySorted (not_less Z.ltb) l'.
Proof.
  apply (shellsort_sorts_with_every_sequence Z.ltb Zltb_asym Zltb_negtrans
           [5; 3; 9; 1; 7; 0] 1 5); simpl; lia.
Defined.

Lemma insertionsort_sorts_its_range_witness :
  ∃ l', insertionsort Z.ltb 1 5 [5; 3; 9; 1; 7; 0]
        = Ret ((), take 1 [5; 3; 9; 1; 7; 0] ++ l' ++ drop 5 [5; 3; 9; 1; 7; 0]) ∧
        l' ≡ₚ sub_range [5; 3; 9; 1; 7; 0] 1 5 ∧ StronglySorted (not_less Z.ltb) l'.
Proof.
  apply (insertionsort_sorts_its_range Z.ltb Zltb_asym Zltb_negtrans
           [5; 3; 9; 1; 7; 0] 1 5); simpl; lia.
Defined.

Lemma insertionsort_is_stable_witness :
  ∃ l', insertionsort Z.ltb 0 4 [3; 1; 3; 1]
        = Ret ((), take 0 [3; 1; 3; 1] ++ l' ++ drop 4 [3; 1; 3; 1]) ∧
        ∀ z, List.filter (equivalent Z.ltb z) l'
             = List.filter (equivalent Z.ltb z) (sub_range [3; 1; 3; 1] 0 4).
Proof.
  apply (insertionsort_is_stable Z.ltb Zltb_asym Zltb_negtrans [3; 1; 3; 1] 0 4);
    simpl; lia.
Defined.

Lemma blocksort_of_a_short_range_reads_past_its_end_witness :
  ∃ i, blocksort Z.ltb [3; 1; 2] = Crash (OutOfBounds i) ∧ (length [3; 1; 2] ≤ i)%nat.
Proof.
  apply (blocksort_of_a_short_range_reads_past_its_end Z.ltb [3; 1; 2]); simpl; lia.
Defined.

Lemma erase_then_find_witness :
  ∃ t' h',
    erase_key Z.ltb 4 8 tree538 heap538 = Ret ((t', 1), h') ∧
    find_impl Z.ltb 4 8 t' h' = Ret (end_ t', h') ∧
    count Z.ltb 4 8 t' h' = Ret (0, h').
Proof.
  apply (erase_then_find Z.ltb Zltb_asym Zltb_negtrans heap538 tree538 shape538 8
           3%positive (Node 8 None None (Some 1%positive)) 4).
  - exact sound538.
  - reflexivity.
  - reflexivity.
  - by left.
  - intros (_ & _ & ?). done.
  - simpl. lia.
  - simpl. lia.
Defined.

End instances.

End dsa.
